(** * Redaction round engine: GameScene and its earlier drafts

    A shallow embedding of [src/game/GameScene.ts] (the scene the entry
    point wires up) together with those functions of the two earlier
    drafts, [GameScene4] and [GameScene2], that the specification draws on.
    Around them: the lifecycle and input of [GameScene2], the stand-alone
    sampled score, the target rect editor, and the game loop and scene
    manager as main.ts wires them.

    Numbers.  Quantities the code only ever holds as integers (pixel
    coordinates, sample counters, rounded scores, array indices) are [Z]
    or [nat].  For what does not depend on rounding (counting,
    sequencing, phases, orderings of exact quantities) a JavaScript
    [number] is an exact rational [Q].  What depends on the values the
    arithmetic delivers is stated of [GameScene64],
    [TargetRectEditor64] and [Main64], which repeat the functions
    concerned with the rounding of binary64 written out after each
    operation ([Binary64]); without rounding they are the functions of
    the first embedding.

    Collaborators.  The canvas layers, the image loader and the [onExit]
    callback are external objects.  Calls made on them are recorded in the
    [calls] component of the state; the coverage canvas, whose pixels the
    scoring reads back, is modelled concretely.

    Exceptions.  A method that can raise a [TypeError] (reading a property
    of [undefined]) returns [option]; [None] is the raised exception. *)

From Stdlib Require Import ZArith QArith Qround Qminmax Qabs Qpower.
From Stdlib Require Import List Bool String Lia Lqa Permutation.
Import ListNotations.

Local Open Scope Z_scope.

(* ================================================================== *)
(** * Part I: the model *)

(** ** JavaScript arithmetic used by the scenes *)

(** [a < b] on numbers. *)
Definition Qltb (a b : Q) : bool := negb (Qle_bool b a).

Definition Math_floor (x : Q) : Z := Qfloor x.

Definition Math_ceil (x : Q) : Z := Qceiling x.

(** [Math.round]: the nearest integer, ties towards plus infinity. *)
Definition Math_round (x : Q) : Z := Qfloor (x + (1 # 2)).

(** ** Data ([src/data/types.ts] and the scene-local types) *)

Record Point := mkPoint { pt_x : Q; pt_y : Q }.

Record StrokePoint := mkStrokePoint { sp_x : Q; sp_y : Q }.

(** A rectangle to redact, normalized 0..1 relative to the document. *)
Record MaskRect := mkMaskRect
  { r_x : Q; r_y : Q; r_width : Q; r_height : Q }.

Record RedactionMask := mkMask
  { m_prompt : string; imageSrc : string; targetRects : list MaskRect }.

Record DocumentLayout := mkLayout
  { scale : Q; offsetX : Q; offsetY : Q; drawWidth : Q; drawHeight : Q }.

Record UIButton := mkButton
  { b_x : Q; b_y : Q; b_width : Q; b_height : Q; b_text : string }.

Inductive RoundPhase := Prompt | Redacting | Scoring.

Definition RoundPhase_eqb (a b : RoundPhase) : bool :=
  match a, b with
  | Prompt, Prompt | Redacting, Redacting | Scoring, Scoring => true
  | _, _ => false
  end.

(** The three canvas layers handed to a scene. *)
Inductive Layer := DocLayer | RedactionLayer | UiLayer.

(** Calls a scene makes on its collaborators. *)
Inductive HostCall :=
| LayerClear (l : Layer)     (* [layer.clear()] *)
| LayerDraw (l : Layer)      (* drawing on [layer.ctx] while rendering *)
| ImageSrc (src : string)    (* [docImage.src = src] *)
| OnExit.                    (* [this.onExit()] *)

Definition HostCall_isExit (c : HostCall) : bool :=
  match c with
  | OnExit => true
  | _ => false
  end.

(** ** The coverage canvas

    An off-screen canvas and the RGBA bytes [getImageData] hands back:
    four entries per pixel, row major, alpha at offset 3.  A canvas has at
    least one pixel in each direction ([getImageData] raises on an empty
    one), so the dimensions are [positive]. *)

Record Canvas := mkCanvas
  { c_width : positive; c_height : positive; c_data : list Z }.

(** A canvas whose every byte is 0 (transparent black). *)
Definition blank (w h : positive) : Canvas :=
  mkCanvas w h (repeat 0 (4 * Pos.to_nat w * Pos.to_nat h)).

(** [ctx.clearRect(0, 0, canvas.width, canvas.height)] *)
Definition clearRect (c : Canvas) : Canvas := blank (c_width c) (c_height c).

(** [data[i]]; [None] is [undefined] (index outside the array). *)
Definition dataAt (data : list Z) (i : Z) : option Z :=
  if i <? 0 then None else nth_error data (Z.to_nat i).

(** [v === 0] *)
Definition isZero (v : option Z) : bool :=
  match v with
  | Some 0 => true
  | _ => false
  end.

(** Path filling belongs to the browser.  The scenes rely on it only as a
    function of the numeric values of its arguments. *)
Class Context2D := {
  (** [ctx.beginPath(); ctx.arc(cx, cy, r, 0, 2 * PI); ctx.fill()] *)
  fillArc : Canvas -> Q -> Q -> Q -> Canvas;
  fillArc_comp : forall c cx cx' cy cy' r r',
    (cx == cx')%Q -> (cy == cy')%Q -> (r == r')%Q ->
    fillArc c cx cy r = fillArc c cx' cy' r'
}.

(** ** Strided loops and the two sampling passes *)

(** The sampling stride ([const step = 4]). *)
Definition step : Z := 4.

(** [for (let v = from; v < stop; v += step) acc = body(v, acc)], with
    [fuel] bounding the number of iterations. *)
Fixpoint forStride {A : Type} (fuel : nat) (v stop : Z)
    (body : Z -> A -> A) (acc : A) : A :=
  match fuel with
  | O => acc
  | S fuel' =>
      if v <? stop
      then forStride fuel' (v + step) stop body (body v acc)
      else acc
  end.

(** The loop run to completion: [stop - from] iterations always suffice
    (lemma [forStride_enough]). *)
Definition forRange {A : Type} (from stop : Z)
    (body : Z -> A -> A) (acc : A) : A :=
  forStride (Z.to_nat (stop - from)) from stop body acc.

(** The three counters of the scoring functions. *)
Record Counts := mkCounts { correct : Z; missed : Z; falsePositive : Z }.

Definition incCorrect (c : Counts) : Counts :=
  mkCounts (correct c + 1) (missed c) (falsePositive c).

Definition incMissed (c : Counts) : Counts :=
  mkCounts (correct c) (missed c + 1) (falsePositive c).

Definition incFalsePositive (c : Counts) : Counts :=
  mkCounts (correct c) (missed c) (falsePositive c + 1).

(** First pass ("check painted pixels"), the same in the three scenes up
    to the containment test [inTarget]:
<<
    for (let y = 0; y < h; y += step)
      for (let x = 0; x < w; x += step) {
        const i = (y * w + x) * 4
        if (data[i + 3] === 0) continue
        inTarget(x, y) ? correct++ : falsePositive++
      }
>> *)
Definition paintedPass (inTarget : Z -> Z -> bool) (w h : Z)
    (data : list Z) (c : Counts) : Counts :=
  forRange 0 h (fun y c =>
    forRange 0 w (fun x c =>
      let i := (y * w + x) * 4 in
      if isZero (dataAt data (i + 3)) then c
      else if inTarget x y then incCorrect c else incFalsePositive c) c) c.

(** Second pass, for one rect [r] ("count missed pixels in target rects"),
    identical in the three scenes:
<<
    const startX = Math.floor(r.x * w)
    const endX = Math.ceil((r.x + r.width) * w)
    const startY = Math.floor(r.y * h)
    const endY = Math.ceil((r.y + r.height) * h)
    for (let y = startY; y < endY; y += step)
      for (let x = startX; x < endX; x += step) {
        const i = (y * w + x) * 4
        if (data[i + 3] === 0) missed++
      }
>> *)
Definition missedInRect (w h : Z) (data : list Z) (r : MaskRect)
    (c : Counts) : Counts :=
  let startX := Math_floor (r_x r * inject_Z w) in
  let endX := Math_ceil ((r_x r + r_width r) * inject_Z w) in
  let startY := Math_floor (r_y r * inject_Z h) in
  let endY := Math_ceil ((r_y r + r_height r) * inject_Z h) in
  forRange startY endY (fun y c =>
    forRange startX endX (fun x c =>
      let i := (y * w + x) * 4 in
      if isZero (dataAt data (i + 3)) then incMissed c else c) c) c.

(** [for (const r of targetRects) { ... }] *)
Definition missedPass (w h : Z) (data : list Z) (targetRects : list MaskRect)
    (c : Counts) : Counts :=
  fold_left (fun c r => missedInRect w h data r c) targetRects c.

(** The containment test of [GameScene.calculateScore], in pixel space:
    [x >= r.x * w && y >= r.y * h && x <= (r.x + r.width) * w
     && y <= (r.y + r.height) * h] for some rect. *)
Definition insidePixel (targetRects : list MaskRect) (w h : Z) (x y : Z)
    : bool :=
  existsb (fun r =>
    Qle_bool (r_x r * inject_Z w) (inject_Z x)
    && Qle_bool (r_y r * inject_Z h) (inject_Z y)
    && Qle_bool (inject_Z x) ((r_x r + r_width r) * inject_Z w)
    && Qle_bool (inject_Z y) ((r_y r + r_height r) * inject_Z h))
    targetRects.

(** The containment test of the drafts ([inTarget]), on normalized
    coordinates: [x >= r.x && y >= r.y && x <= r.x + r.width
    && y <= r.y + r.height] for some rect. *)
Definition inTarget (targetRects : list MaskRect) (x y : Q) : bool :=
  existsb (fun r =>
    Qle_bool (r_x r) x && Qle_bool (r_y r) y
    && Qle_bool x (r_x r + r_width r)
    && Qle_bool y (r_y r + r_height r))
    targetRects.

(* ================================================================== *)
(** ** [GameScene] ([src/game/GameScene.ts]) *)

Module GameScene.

(** The instance fields.  [docWidth]/[docHeight] are [docImage.width] and
    [docImage.height]; [layout] is [undefined] until the first image has
    loaded, and so is each button until the UI has been drawn once in its
    phase.  [markerColor] only feeds drawing calls and is left out. *)
Record State := mkState {
  debugMode : bool;
  imageLoaded : bool;
  docWidth : Z;
  docHeight : Z;
  layout : option DocumentLayout;
  strokes : list StrokePoint;
  isDrawing : bool;
  coverage : Canvas;
  phase : RoundPhase;
  timer : Q;
  roundScore : Z;
  totalScore : Z;
  needsRedraw : bool;
  masks : list RedactionMask;
  currentMaskIndex : nat;
  prompt : string;
  mask : RedactionMask;
  readyButton : option UIButton;
  doneButton : option UIButton;
  continueButton : option UIButton;
  exitButton : option UIButton;
  calls : list HostCall
}.

(** [private markerRadiusNorm = 0.012] *)
Definition markerRadiusNorm : Q := 12 # 1000.

(** [private timeLimit = 30]; never assigned again. *)
Definition timeLimit : Q := 30.

(** Field assignments [this.f = v]. *)

Definition set_debugMode (v : bool) (s : State) : State :=
  mkState v (imageLoaded s) (docWidth s) (docHeight s) (layout s)
    (strokes s) (isDrawing s) (coverage s) (phase s) (timer s)
    (roundScore s) (totalScore s) (needsRedraw s) (masks s)
    (currentMaskIndex s) (prompt s) (mask s) (readyButton s) (doneButton s)
    (continueButton s) (exitButton s) (calls s).

Definition set_imageLoaded (v : bool) (s : State) : State :=
  mkState (debugMode s) v (docWidth s) (docHeight s) (layout s) (strokes s)
    (isDrawing s) (coverage s) (phase s) (timer s) (roundScore s)
    (totalScore s) (needsRedraw s) (masks s) (currentMaskIndex s) (prompt s)
    (mask s) (readyButton s) (doneButton s) (continueButton s)
    (exitButton s) (calls s).

Definition set_docWidth (v : Z) (s : State) : State :=
  mkState (debugMode s) (imageLoaded s) v (docHeight s) (layout s)
    (strokes s) (isDrawing s) (coverage s) (phase s) (timer s)
    (roundScore s) (totalScore s) (needsRedraw s) (masks s)
    (currentMaskIndex s) (prompt s) (mask s) (readyButton s) (doneButton s)
    (continueButton s) (exitButton s) (calls s).

Definition set_docHeight (v : Z) (s : State) : State :=
  mkState (debugMode s) (imageLoaded s) (docWidth s) v (layout s)
    (strokes s) (isDrawing s) (coverage s) (phase s) (timer s)
    (roundScore s) (totalScore s) (needsRedraw s) (masks s)
    (currentMaskIndex s) (prompt s) (mask s) (readyButton s) (doneButton s)
    (continueButton s) (exitButton s) (calls s).

Definition set_layout (v : option DocumentLayout) (s : State) : State :=
  mkState (debugMode s) (imageLoaded s) (docWidth s) (docHeight s) v
    (strokes s) (isDrawing s) (coverage s) (phase s) (timer s)
    (roundScore s) (totalScore s) (needsRedraw s) (masks s)
    (currentMaskIndex s) (prompt s) (mask s) (readyButton s) (doneButton s)
    (continueButton s) (exitButton s) (calls s).

Definition set_strokes (v : list StrokePoint) (s : State) : State :=
  mkState (debugMode s) (imageLoaded s) (docWidth s) (docHeight s)
    (layout s) v (isDrawing s) (coverage s) (phase s) (timer s)
    (roundScore s) (totalScore s) (needsRedraw s) (masks s)
    (currentMaskIndex s) (prompt s) (mask s) (readyButton s) (doneButton s)
    (continueButton s) (exitButton s) (calls s).

Definition set_isDrawing (v : bool) (s : State) : State :=
  mkState (debugMode s) (imageLoaded s) (docWidth s) (docHeight s)
    (layout s) (strokes s) v (coverage s) (phase s) (timer s) (roundScore s)
    (totalScore s) (needsRedraw s) (masks s) (currentMaskIndex s) (prompt s)
    (mask s) (readyButton s) (doneButton s) (continueButton s)
    (exitButton s) (calls s).

Definition set_coverage (v : Canvas) (s : State) : State :=
  mkState (debugMode s) (imageLoaded s) (docWidth s) (docHeight s)
    (layout s) (strokes s) (isDrawing s) v (phase s) (timer s)
    (roundScore s) (totalScore s) (needsRedraw s) (masks s)
    (currentMaskIndex s) (prompt s) (mask s) (readyButton s) (doneButton s)
    (continueButton s) (exitButton s) (calls s).

Definition set_phase (v : RoundPhase) (s : State) : State :=
  mkState (debugMode s) (imageLoaded s) (docWidth s) (docHeight s)
    (layout s) (strokes s) (isDrawing s) (coverage s) v (timer s)
    (roundScore s) (totalScore s) (needsRedraw s) (masks s)
    (currentMaskIndex s) (prompt s) (mask s) (readyButton s) (doneButton s)
    (continueButton s) (exitButton s) (calls s).

Definition set_timer (v : Q) (s : State) : State :=
  mkState (debugMode s) (imageLoaded s) (docWidth s) (docHeight s)
    (layout s) (strokes s) (isDrawing s) (coverage s) (phase s) v
    (roundScore s) (totalScore s) (needsRedraw s) (masks s)
    (currentMaskIndex s) (prompt s) (mask s) (readyButton s) (doneButton s)
    (continueButton s) (exitButton s) (calls s).

Definition set_roundScore (v : Z) (s : State) : State :=
  mkState (debugMode s) (imageLoaded s) (docWidth s) (docHeight s)
    (layout s) (strokes s) (isDrawing s) (coverage s) (phase s) (timer s) v
    (totalScore s) (needsRedraw s) (masks s) (currentMaskIndex s) (prompt s)
    (mask s) (readyButton s) (doneButton s) (continueButton s)
    (exitButton s) (calls s).

Definition set_totalScore (v : Z) (s : State) : State :=
  mkState (debugMode s) (imageLoaded s) (docWidth s) (docHeight s)
    (layout s) (strokes s) (isDrawing s) (coverage s) (phase s) (timer s)
    (roundScore s) v (needsRedraw s) (masks s) (currentMaskIndex s)
    (prompt s) (mask s) (readyButton s) (doneButton s) (continueButton s)
    (exitButton s) (calls s).

Definition set_needsRedraw (v : bool) (s : State) : State :=
  mkState (debugMode s) (imageLoaded s) (docWidth s) (docHeight s)
    (layout s) (strokes s) (isDrawing s) (coverage s) (phase s) (timer s)
    (roundScore s) (totalScore s) v (masks s) (currentMaskIndex s)
    (prompt s) (mask s) (readyButton s) (doneButton s) (continueButton s)
    (exitButton s) (calls s).

Definition set_masks (v : list RedactionMask) (s : State) : State :=
  mkState (debugMode s) (imageLoaded s) (docWidth s) (docHeight s)
    (layout s) (strokes s) (isDrawing s) (coverage s) (phase s) (timer s)
    (roundScore s) (totalScore s) (needsRedraw s) v (currentMaskIndex s)
    (prompt s) (mask s) (readyButton s) (doneButton s) (continueButton s)
    (exitButton s) (calls s).

Definition set_currentMaskIndex (v : nat) (s : State) : State :=
  mkState (debugMode s) (imageLoaded s) (docWidth s) (docHeight s)
    (layout s) (strokes s) (isDrawing s) (coverage s) (phase s) (timer s)
    (roundScore s) (totalScore s) (needsRedraw s) (masks s) v (prompt s)
    (mask s) (readyButton s) (doneButton s) (continueButton s)
    (exitButton s) (calls s).

Definition set_prompt (v : string) (s : State) : State :=
  mkState (debugMode s) (imageLoaded s) (docWidth s) (docHeight s)
    (layout s) (strokes s) (isDrawing s) (coverage s) (phase s) (timer s)
    (roundScore s) (totalScore s) (needsRedraw s) (masks s)
    (currentMaskIndex s) v (mask s) (readyButton s) (doneButton s)
    (continueButton s) (exitButton s) (calls s).

Definition set_mask (v : RedactionMask) (s : State) : State :=
  mkState (debugMode s) (imageLoaded s) (docWidth s) (docHeight s)
    (layout s) (strokes s) (isDrawing s) (coverage s) (phase s) (timer s)
    (roundScore s) (totalScore s) (needsRedraw s) (masks s)
    (currentMaskIndex s) (prompt s) v (readyButton s) (doneButton s)
    (continueButton s) (exitButton s) (calls s).

Definition set_readyButton (v : option UIButton) (s : State) : State :=
  mkState (debugMode s) (imageLoaded s) (docWidth s) (docHeight s)
    (layout s) (strokes s) (isDrawing s) (coverage s) (phase s) (timer s)
    (roundScore s) (totalScore s) (needsRedraw s) (masks s)
    (currentMaskIndex s) (prompt s) (mask s) v (doneButton s)
    (continueButton s) (exitButton s) (calls s).

Definition set_doneButton (v : option UIButton) (s : State) : State :=
  mkState (debugMode s) (imageLoaded s) (docWidth s) (docHeight s)
    (layout s) (strokes s) (isDrawing s) (coverage s) (phase s) (timer s)
    (roundScore s) (totalScore s) (needsRedraw s) (masks s)
    (currentMaskIndex s) (prompt s) (mask s) (readyButton s) v
    (continueButton s) (exitButton s) (calls s).

Definition set_continueButton (v : option UIButton) (s : State) : State :=
  mkState (debugMode s) (imageLoaded s) (docWidth s) (docHeight s)
    (layout s) (strokes s) (isDrawing s) (coverage s) (phase s) (timer s)
    (roundScore s) (totalScore s) (needsRedraw s) (masks s)
    (currentMaskIndex s) (prompt s) (mask s) (readyButton s) (doneButton s)
    v (exitButton s) (calls s).

Definition set_exitButton (v : option UIButton) (s : State) : State :=
  mkState (debugMode s) (imageLoaded s) (docWidth s) (docHeight s)
    (layout s) (strokes s) (isDrawing s) (coverage s) (phase s) (timer s)
    (roundScore s) (totalScore s) (needsRedraw s) (masks s)
    (currentMaskIndex s) (prompt s) (mask s) (readyButton s) (doneButton s)
    (continueButton s) v (calls s).

Definition set_calls (v : list HostCall) (s : State) : State :=
  mkState (debugMode s) (imageLoaded s) (docWidth s) (docHeight s)
    (layout s) (strokes s) (isDrawing s) (coverage s) (phase s) (timer s)
    (roundScore s) (totalScore s) (needsRedraw s) (masks s)
    (currentMaskIndex s) (prompt s) (mask s) (readyButton s) (doneButton s)
    (continueButton s) (exitButton s) v.

(** A call on a collaborator. *)
Definition call (c : HostCall) (s : State) : State :=
  set_calls (calls s ++ [c]) s.

Section Scene.
Context {ctx2d : Context2D}.

(** *** Coordinate mapping *)

Definition computeLayout (rectW rectH : Q) (s : State) : State :=
  let scale :=
    Qmin (rectW / inject_Z (docWidth s)) (rectH / inject_Z (docHeight s)) in
  let drawWidth := (inject_Z (docWidth s) * scale)%Q in
  let drawHeight := (inject_Z (docHeight s) * scale)%Q in
  let offsetX := ((rectW - drawWidth) / 2)%Q in
  let offsetY := ((rectH - drawHeight) / 2)%Q in
  set_layout (Some (mkLayout scale offsetX offsetY drawWidth drawHeight)) s.

(** [screenToDocument] for a given layout; [None] is JavaScript's [null]. *)
Definition screenToDocument (l : DocumentLayout) (p : Point)
    : option StrokePoint :=
  let x := ((pt_x p - offsetX l) / drawWidth l)%Q in
  let y := ((pt_y p - offsetY l) / drawHeight l)%Q in
  if Qltb x 0 || Qltb 1 x || Qltb y 0 || Qltb 1 y then None
  else Some (mkStrokePoint x y).

Definition documentToScreen (l : DocumentLayout) (p : StrokePoint) : Point :=
  mkPoint (sp_x p * drawWidth l + offsetX l) (sp_y p * drawHeight l + offsetY l).

(** *** Coverage and scoring *)

Definition drawCoveragePoint (p : StrokePoint) (s : State) : State :=
  let c := coverage s in
  let r := (markerRadiusNorm * inject_Z (Zpos (c_width c)))%Q in
  set_coverage
    (fillArc c (sp_x p * inject_Z (Zpos (c_width c)))
               (sp_y p * inject_Z (Zpos (c_height c))) r) s.

(** The counters after both passes of [calculateScore]. *)
Definition countSamples (targetRects : list MaskRect) (c : Canvas) : Counts :=
  let w := Zpos (c_width c) in
  let h := Zpos (c_height c) in
  let data := c_data c in
  missedPass w h data targetRects
    (paintedPass (insidePixel targetRects w h) w h data (mkCounts 0 0 0)).

(** [correct * 20 - falsePositive * 1.5 - missed * 0.5] *)
Definition subtotal (c : Counts) : Q :=
  inject_Z (correct c) * 20 - inject_Z (falsePositive c) * (3 # 2)
  - inject_Z (missed c) * (1 # 2).

Definition calculateScore (s : State) : Z :=
  let c := countSamples (targetRects (mask s)) (coverage s) in
  let roundScore := subtotal c in
  let roundScore :=
    match phase s with
    | Scoring =>
        let timeFactor := Qmax 0 (timer s / timeLimit) in
        (roundScore + roundScore * timeFactor * (1 # 2))%Q
    | _ => roundScore
    end in
  Z.max 0 (Math_round roundScore).

(** *** Phase transitions *)

Definition startRedaction (s : State) : State :=
  let s := set_phase Redacting s in
  let s := set_timer timeLimit s in
  let s := set_strokes [] s in
  let s := set_coverage (clearRect (coverage s)) s in
  set_needsRedraw true s.

Definition finishRound (s : State) : State :=
  let s := set_phase Scoring s in
  let s := set_roundScore (calculateScore s) s in
  let s := set_totalScore (totalScore s + roundScore s) s in
  set_needsRedraw true s.

(** Registers the [onload] handler and assigns [docImage.src]; the handler
    itself runs later, as [onImageLoad]. *)
Definition loadDocument (src : string) (s : State) : State :=
  call (ImageSrc src) s.

(** The [onload] handler installed by [loadDocument], run when the image
    has arrived with natural size [iw] x [ih]; [rectW] x [rectH] is the
    bounding rect of the document layer at that moment.  Assigning the
    canvas dimensions resets its bitmap. *)
Definition onImageLoad (iw ih : positive) (rectW rectH : Q) (s : State)
    : State :=
  let s := set_docWidth (Zpos iw) (set_docHeight (Zpos ih) s) in
  let s := set_imageLoaded true s in
  let s := set_coverage (blank iw ih) s in
  let s := computeLayout rectW rectH s in
  set_needsRedraw true s.

Definition loadNextMask (s : State) : option State :=
  let s :=
    if (List.length (masks s) <=? currentMaskIndex s)%nat
    then set_currentMaskIndex 0%nat s else s in
  match nth_error (masks s) (currentMaskIndex s) with
  | None => None
  | Some m =>
      let s := set_mask m s in
      let s := set_currentMaskIndex (S (currentMaskIndex s)) s in
      let s := set_prompt (m_prompt m) s in
      let s := loadDocument (imageSrc m) s in
      let s := set_phase Prompt s in
      let s := set_strokes [] s in
      let s := set_coverage (clearRect (coverage s)) s in
      Some (set_needsRedraw true s)
  end.

Definition exitGame (s : State) : State :=
  let s := set_roundScore 0 s in
  let s := set_totalScore 0 s in
  let s := set_strokes [] s in
  let s := set_phase Prompt s in
  let s := call (LayerClear DocLayer) s in
  let s := call (LayerClear RedactionLayer) s in
  let s := call (LayerClear UiLayer) s in
  let s := set_coverage (clearRect (coverage s)) s in
  let s := set_needsRedraw true s in
  call OnExit s.

Definition resetGame (s : State) : option State :=
  let s := set_roundScore 0 s in
  let s := set_totalScore 0 s in
  let s := set_currentMaskIndex 0%nat s in
  let s := set_strokes [] s in
  let s := set_coverage (clearRect (coverage s)) s in
  loadNextMask s.

(** *** Drawing helpers *)

(** The part of [startStroke] after the [null] test. *)
Definition beginStrokeAt (docPoint : StrokePoint) (s : State) : State :=
  let s := set_isDrawing true s in
  let s := set_strokes (strokes s ++ [docPoint]) s in
  let s := drawCoveragePoint docPoint s in
  set_needsRedraw true s.

(** The part of [addStroke] after the [null] test. *)
Definition extendStrokeAt (docPoint : StrokePoint) (s : State) : State :=
  let s := set_strokes (strokes s ++ [docPoint]) s in
  let s := drawCoveragePoint docPoint s in
  set_needsRedraw true s.

Definition startStroke (p : Point) (s : State) : option State :=
  match layout s with
  | None => None
  | Some l =>
      match screenToDocument l p with
      | None => Some s
      | Some docPoint => Some (beginStrokeAt docPoint s)
      end
  end.

Definition addStroke (p : Point) (s : State) : option State :=
  match layout s with
  | None => None
  | Some l =>
      match screenToDocument l p with
      | None => Some s
      | Some docPoint => Some (extendStrokeAt docPoint s)
      end
  end.

Definition pointInRect (p : Point) (r : UIButton) : bool :=
  Qle_bool (b_x r) (pt_x p) && Qle_bool (pt_x p) (b_x r + b_width r)
  && Qle_bool (b_y r) (pt_y p) && Qle_bool (pt_y p) (b_y r + b_height r).

(** [this.button && this.pointInRect(p, this.button)] *)
Definition hits (p : Point) (button : option UIButton) : bool :=
  match button with
  | None => false
  | Some r => pointInRect p r
  end.

(** *** Rendering: only what it leaves in the scene *)

Definition drawButton (text : string) (cx cy : Q) : UIButton :=
  let width := 140%Q in
  let height := 40%Q in
  mkButton (cx - width / 2) (cy - height / 2) width height text.

Definition drawUI (w h : Q) (s : State) : State :=
  let s := call (LayerDraw UiLayer) s in
  match phase s with
  | Prompt =>
      set_readyButton (Some (drawButton "READY"%string (w / 2) (h * (35 # 100)))) s
  | Redacting =>
      set_doneButton (Some (drawButton "DONE"%string (w - 80) 30)) s
  | Scoring =>
      let centerX := (w / 2)%Q in
      let s :=
        set_continueButton
          (Some (drawButton "CONTINUE"%string centerX (h * (5 # 10)))) s in
      set_exitButton (Some (drawButton "EXIT"%string centerX (h * (57 # 100)))) s
  end.

(** [w] and [h] are [uiLayer.width] and [uiLayer.height]. *)
Definition render (w h : Q) (s : State) : State :=
  if negb (imageLoaded s) || negb (needsRedraw s) then s
  else
    let s := call (LayerClear DocLayer) s in
    let s := call (LayerClear RedactionLayer) s in
    let s := call (LayerClear UiLayer) s in
    let s :=
      match phase s with
      | Redacting | Scoring =>
          call (LayerDraw RedactionLayer) (call (LayerDraw DocLayer) s)
      | Prompt => s
      end in
    let s := drawUI w h s in
    set_needsRedraw false s.

(** *** Lifecycle and input *)

Definition update (dt : Q) (s : State) : State :=
  match phase s with
  | Redacting =>
      let prev := Math_ceil (timer s) in
      let s := set_timer (timer s - dt) s in
      let s :=
        if Qle_bool (timer s) 0
        then finishRound (set_timer 0 s)
        else s in
      if negb (Math_ceil (timer s) =? prev) then set_needsRedraw true s
      else s
  | _ => s
  end.

Definition onResize (rectW rectH : Q) (s : State) : State :=
  if negb (imageLoaded s) then s
  else set_needsRedraw true (computeLayout rectW rectH s).

Definition onPointerDown (p : Point) (s : State) : option State :=
  match phase s with
  | Prompt =>
      if hits p (readyButton s) then Some (startRedaction s) else Some s
  | Redacting =>
      if hits p (doneButton s) then Some (finishRound s)
      else startStroke p s
  | Scoring =>
      if hits p (continueButton s) then loadNextMask s
      else if hits p (exitButton s) then Some (exitGame s)
      else Some s
  end.

Definition onPointerMove (p : Point) (s : State) : option State :=
  if negb (isDrawing s) || negb (RoundPhase_eqb (phase s) Redacting)
  then Some s
  else addStroke p s.

Definition onPointerUp (s : State) : State := set_isDrawing false s.

(** [e.key.toLowerCase() === "d"] *)
Definition isKeyD (key : string) : bool :=
  String.eqb key "d"%string || String.eqb key "D"%string.

Definition onKeyDown (key : string) (s : State) : State :=
  if isKeyD key
  then set_needsRedraw true (set_debugMode (negb (debugMode s)) s)
  else s.

(** The constructor, given [order], the array that
    [[...masks].sort(() => Math.random() - 0.5)] produced (its order
    depends on the engine's sort and is taken as it comes). *)
Definition construct (order : list RedactionMask) : option State :=
  loadNextMask
    (mkState false false 0 0 None [] false (blank 300 150) Prompt 0 0 0 true
       order 0%nat EmptyString (mkMask EmptyString EmptyString []) None None None None []).

(** Everything the host can do to the scene. *)
Inductive Event :=
| Update (dt : Q)
| Render (uiW uiH : Q)
| Resize (rectW rectH : Q)
| ImageLoaded (iw ih : positive) (rectW rectH : Q)
| PointerDown (p : Point)
| PointerMove (p : Point)
| PointerUp
| KeyDown (key : string)
| ResetGame.

Definition handle (e : Event) (s : State) : option State :=
  match e with
  | Update dt => Some (update dt s)
  | Render w h => Some (render w h s)
  | Resize w h => Some (onResize w h s)
  | ImageLoaded iw ih w h => Some (onImageLoad iw ih w h s)
  | PointerDown p => onPointerDown p s
  | PointerMove p => onPointerMove p s
  | PointerUp => Some (onPointerUp s)
  | KeyDown key => Some (onKeyDown key s)
  | ResetGame => resetGame s
  end.

(** A sequence of events, stopping at the first exception. *)
Fixpoint run (es : list Event) (s : State) : option State :=
  match es with
  | [] => Some s
  | e :: es' =>
      match handle e s with
      | None => None
      | Some s' => run es' s'
      end
  end.

(** [n] calls of [update], and the states they pass through. *)
Definition updates (dts : list Q) (s : State) : State :=
  fold_left (fun s dt => update dt s) dts s.

Fixpoint updateTrace (dts : list Q) (s : State) : list State :=
  match dts with
  | [] => []
  | dt :: dts' => update dt s :: updateTrace dts' (update dt s)
  end.

End Scene.

End GameScene.

(* ================================================================== *)
(** ** [GameScene4], an earlier draft of the scene

    Only the methods the specification draws on are embedded: mask
    sequencing with its reshuffle, the round-end transition, the exit
    path and the scoring.  The record keeps the fields those methods read
    or write. *)

Module GameScene4.

Record State := mkState {
  strokes : list StrokePoint;
  coverage : Canvas;
  phase : RoundPhase;
  timer : Q;
  roundScore : Z;
  totalScore : Z;
  needsRedraw : bool;
  allMasks : list RedactionMask;
  currentMaskIndex : nat;
  mask : RedactionMask;
  prompt : string;
  calls : list HostCall
}.

Definition timeLimit : Q := 30.

Definition set_strokes (v : list StrokePoint) (s : State) : State :=
  mkState v (coverage s) (phase s) (timer s) (roundScore s) (totalScore s)
    (needsRedraw s) (allMasks s) (currentMaskIndex s) (mask s) (prompt s)
    (calls s).

Definition set_coverage (v : Canvas) (s : State) : State :=
  mkState (strokes s) v (phase s) (timer s) (roundScore s) (totalScore s)
    (needsRedraw s) (allMasks s) (currentMaskIndex s) (mask s) (prompt s)
    (calls s).

Definition set_phase (v : RoundPhase) (s : State) : State :=
  mkState (strokes s) (coverage s) v (timer s) (roundScore s) (totalScore s)
    (needsRedraw s) (allMasks s) (currentMaskIndex s) (mask s) (prompt s)
    (calls s).

Definition set_timer (v : Q) (s : State) : State :=
  mkState (strokes s) (coverage s) (phase s) v (roundScore s) (totalScore s)
    (needsRedraw s) (allMasks s) (currentMaskIndex s) (mask s) (prompt s)
    (calls s).

Definition set_roundScore (v : Z) (s : State) : State :=
  mkState (strokes s) (coverage s) (phase s) (timer s) v (totalScore s)
    (needsRedraw s) (allMasks s) (currentMaskIndex s) (mask s) (prompt s)
    (calls s).

Definition set_totalScore (v : Z) (s : State) : State :=
  mkState (strokes s) (coverage s) (phase s) (timer s) (roundScore s) v
    (needsRedraw s) (allMasks s) (currentMaskIndex s) (mask s) (prompt s)
    (calls s).

Definition set_needsRedraw (v : bool) (s : State) : State :=
  mkState (strokes s) (coverage s) (phase s) (timer s) (roundScore s)
    (totalScore s) v (allMasks s) (currentMaskIndex s) (mask s) (prompt s)
    (calls s).

Definition set_allMasks (v : list RedactionMask) (s : State) : State :=
  mkState (strokes s) (coverage s) (phase s) (timer s) (roundScore s)
    (totalScore s) (needsRedraw s) v (currentMaskIndex s) (mask s)
    (prompt s) (calls s).

Definition set_currentMaskIndex (v : nat) (s : State) : State :=
  mkState (strokes s) (coverage s) (phase s) (timer s) (roundScore s)
    (totalScore s) (needsRedraw s) (allMasks s) v (mask s) (prompt s)
    (calls s).

Definition set_mask (v : RedactionMask) (s : State) : State :=
  mkState (strokes s) (coverage s) (phase s) (timer s) (roundScore s)
    (totalScore s) (needsRedraw s) (allMasks s) (currentMaskIndex s) v
    (prompt s) (calls s).

Definition set_prompt (v : string) (s : State) : State :=
  mkState (strokes s) (coverage s) (phase s) (timer s) (roundScore s)
    (totalScore s) (needsRedraw s) (allMasks s) (currentMaskIndex s)
    (mask s) v (calls s).

Definition set_calls (v : list HostCall) (s : State) : State :=
  mkState (strokes s) (coverage s) (phase s) (timer s) (roundScore s)
    (totalScore s) (needsRedraw s) (allMasks s) (currentMaskIndex s)
    (mask s) (prompt s) v.

Definition call (c : HostCall) (s : State) : State :=
  set_calls (calls s ++ [c]) s.

(** [arr[n] = v] for [n] inside the array. *)
Fixpoint setNth {A : Type} (n : nat) (v : A) (arr : list A) {struct arr}
    : list A :=
  match arr, n with
  | [], _ => []
  | _ :: rest, O => v :: rest
  | a :: rest, S n' => a :: setNth n' v rest
  end.

(** [[arr[i], arr[j]] = [arr[j], arr[i]]].  In [shuffleMasks] both
    indices are inside the array ([Math.random()] lies in [0, 1), hence
    [0 <= j <= i < arr.length]); the last branch is never taken there. *)
Definition swap {A : Type} (i j : nat) (arr : list A) : list A :=
  match nth_error arr i, nth_error arr j with
  | Some ai, Some aj => setNth j ai (setNth i aj arr)
  | _, _ => arr
  end.

(** The loop of [shuffleMasks], entered with loop variable [i]; [rnd k]
    is the result of the [k]-th call of [Math.random()] from now on, and
    [k] counts the calls already made:
<<
    for (; i > 0; i--) {
      const j = Math.floor(Math.random() * (i + 1))
      ;[arr[i], arr[j]] = [arr[j], arr[i]]
    }
>> *)
Fixpoint shuffleFrom {A : Type} (i : nat) (k : nat) (rnd : nat -> Q)
    (arr : list A) : list A :=
  match i with
  | O => arr
  | S i' =>
      let j := Z.to_nat (Math_floor (rnd k * inject_Z (Z.of_nat i + 1))) in
      shuffleFrom i' (S k) rnd (swap i j arr)
  end.

Definition shuffleMasks (rnd : nat -> Q) (masks : list RedactionMask)
    : list RedactionMask :=
  shuffleFrom (List.length masks - 1) 0 rnd masks.

Definition loadDocument (src : string) (s : State) : State :=
  call (ImageSrc src) s.

Definition loadCurrentMask (s : State) : option State :=
  match nth_error (allMasks s) (currentMaskIndex s) with
  | None => None
  | Some m =>
      let s := set_mask m s in
      let s := set_prompt (m_prompt m) s in
      Some (loadDocument (imageSrc m) s)
  end.

Definition startPrompt (s : State) : option State :=
  match loadCurrentMask (set_phase Prompt s) with
  | None => None
  | Some s => Some (set_needsRedraw true s)
  end.

Definition startRedaction (s : State) : State :=
  let s := set_phase Redacting s in
  let s := set_timer timeLimit s in
  let s := set_strokes [] s in
  let s := set_coverage (clearRect (coverage s)) s in
  set_needsRedraw true s.

Definition countSamples (targetRects : list MaskRect) (c : Canvas) : Counts :=
  let w := Zpos (c_width c) in
  let h := Zpos (c_height c) in
  let data := c_data c in
  missedPass w h data targetRects
    (paintedPass
       (fun x y =>
          inTarget targetRects (inject_Z x / inject_Z w)
            (inject_Z y / inject_Z h))
       w h data (mkCounts 0 0 0)).

(** [Math.max(0, Math.round(correct * 2 - falsePositive * 1.5 - missed * 3))] *)
Definition calculateScore (s : State) : Z :=
  let c := countSamples (targetRects (mask s)) (coverage s) in
  Z.max 0
    (Math_round
       (inject_Z (correct c) * 2 - inject_Z (falsePositive c) * (3 # 2)
        - inject_Z (missed c) * 3)).

Definition finishRound (rnd : nat -> Q) (s : State) : State :=
  let s := set_phase Scoring s in
  let s := set_roundScore (calculateScore s) s in
  let s := set_totalScore (totalScore s + roundScore s) s in
  let s := set_needsRedraw true s in
  let s := set_currentMaskIndex (S (currentMaskIndex s)) s in
  if (List.length (allMasks s) <=? currentMaskIndex s)%nat
  then set_allMasks (shuffleMasks rnd (allMasks s))
         (set_currentMaskIndex 0%nat s)
  else s.

Definition exitToMenu (s : State) : State :=
  let s := set_roundScore 0 s in
  let s := set_totalScore 0 s in
  let s := set_strokes [] s in
  let s := set_phase Prompt s in
  let s := call (LayerClear DocLayer) s in
  let s := call (LayerClear RedactionLayer) s in
  let s := call (LayerClear UiLayer) s in
  call OnExit s.

End GameScene4.

(* ================================================================== *)
(** ** [GameScene2], the first draft with pixel scoring *)

Module GameScene2.

Record ScoreResult := mkResult
  { score : Z; res_correct : Z; res_falsePositive : Z; res_missed : Z }.

(** [data[i + 3] > 0] *)
Definition isPainted (v : option Z) : bool :=
  match v with
  | Some a => 0 <? a
  | None => false
  end.

(** The first pass of [scoreRedaction]; it skips a sample when
    [data[i + 3] > 0] is false. *)
Definition paintedPass2 (targetRects : list MaskRect) (w h : Z)
    (data : list Z) (c : Counts) : Counts :=
  forRange 0 h (fun y c =>
    forRange 0 w (fun x c =>
      let i := (y * w + x) * 4 in
      let painted := isPainted (dataAt data (i + 3)) in
      if negb painted then c
      else
        let nx := (inject_Z x / inject_Z w)%Q in
        let ny := (inject_Z y / inject_Z h)%Q in
        if inTarget targetRects nx ny then incCorrect c
        else incFalsePositive c) c) c.

(** [scoreRedaction(mask)], reading the coverage canvas [c]. *)
Definition scoreRedaction (c : Canvas) (mask : RedactionMask) : ScoreResult :=
  let targetRects := targetRects mask in
  let w := Zpos (c_width c) in
  let h := Zpos (c_height c) in
  let data := c_data c in
  let cnt :=
    missedPass w h data targetRects
      (paintedPass2 targetRects w h data (mkCounts 0 0 0)) in
  let score :=
    (inject_Z (correct cnt) * 2 - inject_Z (falsePositive cnt) * (3 # 2)
     - inject_Z (missed cnt) * 3)%Q in
  mkResult (Z.max 0 (Math_round score)) (correct cnt) (falsePositive cnt)
    (missed cnt).

End GameScene2.

(* ================================================================== *)
(** ** [GameScene2]: lifecycle and input

    The rest of the first draft: one mask, a countdown flag instead of
    phases, two buttons at fixed places.  Its score is
    [GameScene2.scoreRedaction]. *)

Module GameScene2Lifecycle.

(** [layout] is [undefined] until the image has loaded. *)
Record State := mkState {
  imageLoaded : bool;
  docWidth : Z;
  docHeight : Z;
  layout : option DocumentLayout;
  strokes : list StrokePoint;
  isDrawing : bool;
  needsRedraw : bool;
  timer : Q;
  isCountingDown : bool;
  score : Z;
  coverage : Canvas;
  prompt : string;
  mask : RedactionMask;
  calls : list HostCall
}.

Definition markerRadiusNorm : Q := 12 # 1000.

Definition timeLimit : Q := 30.

Definition readyButton : UIButton := mkButton 20 50 100 40 "Ready".

Definition doneButton : UIButton := mkButton 140 50 100 40 "Done".

Definition set_imageLoaded (v : bool) (s : State) : State :=
  mkState v (docWidth s) (docHeight s) (layout s) (strokes s) (isDrawing s)
    (needsRedraw s) (timer s) (isCountingDown s) (score s) (coverage s)
    (prompt s) (mask s) (calls s).

Definition set_docWidth (v : Z) (s : State) : State :=
  mkState (imageLoaded s) v (docHeight s) (layout s) (strokes s)
    (isDrawing s) (needsRedraw s) (timer s) (isCountingDown s) (score s)
    (coverage s) (prompt s) (mask s) (calls s).

Definition set_docHeight (v : Z) (s : State) : State :=
  mkState (imageLoaded s) (docWidth s) v (layout s) (strokes s)
    (isDrawing s) (needsRedraw s) (timer s) (isCountingDown s) (score s)
    (coverage s) (prompt s) (mask s) (calls s).

Definition set_layout (v : option DocumentLayout) (s : State) : State :=
  mkState (imageLoaded s) (docWidth s) (docHeight s) v (strokes s)
    (isDrawing s) (needsRedraw s) (timer s) (isCountingDown s) (score s)
    (coverage s) (prompt s) (mask s) (calls s).

Definition set_strokes (v : list StrokePoint) (s : State) : State :=
  mkState (imageLoaded s) (docWidth s) (docHeight s) (layout s) v
    (isDrawing s) (needsRedraw s) (timer s) (isCountingDown s) (score s)
    (coverage s) (prompt s) (mask s) (calls s).

Definition set_isDrawing (v : bool) (s : State) : State :=
  mkState (imageLoaded s) (docWidth s) (docHeight s) (layout s) (strokes s)
    v (needsRedraw s) (timer s) (isCountingDown s) (score s) (coverage s)
    (prompt s) (mask s) (calls s).

Definition set_needsRedraw (v : bool) (s : State) : State :=
  mkState (imageLoaded s) (docWidth s) (docHeight s) (layout s) (strokes s)
    (isDrawing s) v (timer s) (isCountingDown s) (score s) (coverage s)
    (prompt s) (mask s) (calls s).

Definition set_timer (v : Q) (s : State) : State :=
  mkState (imageLoaded s) (docWidth s) (docHeight s) (layout s) (strokes s)
    (isDrawing s) (needsRedraw s) v (isCountingDown s) (score s)
    (coverage s) (prompt s) (mask s) (calls s).

Definition set_isCountingDown (v : bool) (s : State) : State :=
  mkState (imageLoaded s) (docWidth s) (docHeight s) (layout s) (strokes s)
    (isDrawing s) (needsRedraw s) (timer s) v (score s) (coverage s)
    (prompt s) (mask s) (calls s).

Definition set_score (v : Z) (s : State) : State :=
  mkState (imageLoaded s) (docWidth s) (docHeight s) (layout s) (strokes s)
    (isDrawing s) (needsRedraw s) (timer s) (isCountingDown s) v
    (coverage s) (prompt s) (mask s) (calls s).

Definition set_coverage (v : Canvas) (s : State) : State :=
  mkState (imageLoaded s) (docWidth s) (docHeight s) (layout s) (strokes s)
    (isDrawing s) (needsRedraw s) (timer s) (isCountingDown s) (score s) v
    (prompt s) (mask s) (calls s).

Definition set_prompt (v : string) (s : State) : State :=
  mkState (imageLoaded s) (docWidth s) (docHeight s) (layout s) (strokes s)
    (isDrawing s) (needsRedraw s) (timer s) (isCountingDown s) (score s)
    (coverage s) v (mask s) (calls s).

Definition set_mask (v : RedactionMask) (s : State) : State :=
  mkState (imageLoaded s) (docWidth s) (docHeight s) (layout s) (strokes s)
    (isDrawing s) (needsRedraw s) (timer s) (isCountingDown s) (score s)
    (coverage s) (prompt s) v (calls s).

Definition set_calls (v : list HostCall) (s : State) : State :=
  mkState (imageLoaded s) (docWidth s) (docHeight s) (layout s) (strokes s)
    (isDrawing s) (needsRedraw s) (timer s) (isCountingDown s) (score s)
    (coverage s) (prompt s) (mask s) v.

Definition call (c : HostCall) (s : State) : State :=
  set_calls (calls s ++ [c]) s.

Section Scene.
Context {ctx2d : Context2D}.

(** [this.score = this.scoreRedaction(this.mask).score] *)
Definition calculateScore (s : State) : State :=
  set_score (GameScene2.score (GameScene2.scoreRedaction (coverage s) (mask s)))
    s.

Definition update (dt : Q) (s : State) : State :=
  if isCountingDown s then
    let prev := Math_floor (timer s) in
    let s := set_timer (timer s - dt) s in
    let s :=
      if Qle_bool (timer s) 0
      then
        let s := set_timer 0 s in
        let s := set_isCountingDown false s in
        let s := calculateScore s in
        set_needsRedraw true s
      else s in
    if negb (Math_floor (timer s) =? prev) then set_needsRedraw true s
    else s
  else s.

(** [redrawAll] clears the three layers and draws on each. *)
Definition render (s : State) : State :=
  if negb (imageLoaded s) || negb (needsRedraw s) then s
  else
    let s := call (LayerClear DocLayer) s in
    let s := call (LayerClear RedactionLayer) s in
    let s := call (LayerClear UiLayer) s in
    let s := call (LayerDraw DocLayer) s in
    let s := call (LayerDraw RedactionLayer) s in
    let s := call (LayerDraw UiLayer) s in
    set_needsRedraw false s.

(** [layerW] and [layerH] are [docLayer.width] and [docLayer.height]. *)
Definition computeLayout (layerW layerH : Q) (s : State) : State :=
  let scale :=
    Qmin (layerW / inject_Z (docWidth s)) (layerH / inject_Z (docHeight s)) in
  let drawWidth := (inject_Z (docWidth s) * scale)%Q in
  let drawHeight := (inject_Z (docHeight s) * scale)%Q in
  let offsetX := ((layerW - drawWidth) / 2)%Q in
  let offsetY := ((layerH - drawHeight) / 2)%Q in
  set_layout (Some (mkLayout scale offsetX offsetY drawWidth drawHeight)) s.

Definition onResize (layerW layerH : Q) (s : State) : State :=
  if negb (imageLoaded s) then s
  else set_needsRedraw true (computeLayout layerW layerH s).

Definition pointInRect (p : Point) (rect : UIButton) : bool :=
  Qle_bool (b_x rect) (pt_x p) && Qle_bool (pt_x p) (b_x rect + b_width rect)
  && Qle_bool (b_y rect) (pt_y p)
  && Qle_bool (pt_y p) (b_y rect + b_height rect).

Definition screenToDocument (l : DocumentLayout) (p : Point)
    : option StrokePoint :=
  let x := ((pt_x p - offsetX l) / drawWidth l)%Q in
  let y := ((pt_y p - offsetY l) / drawHeight l)%Q in
  if Qltb x 0 || Qltb 1 x || Qltb y 0 || Qltb 1 y then None
  else Some (mkStrokePoint x y).

Definition drawCoveragePoint (p : StrokePoint) (s : State) : State :=
  let c := coverage s in
  let r := (markerRadiusNorm * inject_Z (Zpos (c_width c)))%Q in
  set_coverage
    (fillArc c (sp_x p * inject_Z (Zpos (c_width c)))
               (sp_y p * inject_Z (Zpos (c_height c))) r) s.

(** [None] is the [TypeError] of destructuring an [undefined] layout. *)
Definition onPointerDown (p : Point) (s : State) : option State :=
  if pointInRect p readyButton then
    let s := set_strokes [] s in
    let s := set_coverage (clearRect (coverage s)) s in
    let s := set_isCountingDown true s in
    let s := set_timer timeLimit s in
    let s := set_score 0 s in
    Some (set_needsRedraw true s)
  else if pointInRect p doneButton then
    let s := set_isCountingDown false s in
    let s := calculateScore s in
    Some (set_needsRedraw true s)
  else
    match layout s with
    | None => None
    | Some l =>
        match screenToDocument l p with
        | None => Some s
        | Some docPoint =>
            let s := set_isDrawing true s in
            let s := set_strokes (strokes s ++ [docPoint]) s in
            let s := drawCoveragePoint docPoint s in
            Some (set_needsRedraw true s)
        end
    end.

Definition onPointerMove (p : Point) (s : State) : option State :=
  if negb (isDrawing s) then Some s
  else
    match layout s with
    | None => None
    | Some l =>
        match screenToDocument l p with
        | None => Some s
        | Some docPoint =>
            let s := set_strokes (strokes s ++ [docPoint]) s in
            let s := drawCoveragePoint docPoint s in
            Some (set_needsRedraw true s)
        end
    end.

Definition onPointerUp (s : State) : State := set_isDrawing false s.

(** The [onload] handler installed by [loadDocument]. *)
Definition onImageLoad (iw ih : positive) (layerW layerH : Q) (s : State)
    : State :=
  let s := set_docWidth (Zpos iw) (set_docHeight (Zpos ih) s) in
  let s := set_imageLoaded true s in
  let s := set_coverage (blank iw ih) s in
  let s := computeLayout layerW layerH s in
  set_needsRedraw true s.

(** The constructor: the field initializers, then
    [loadDocument(mask.imageSrc)]. *)
Definition construct (mask : RedactionMask) : State :=
  call (ImageSrc (imageSrc mask))
    (mkState false 0 0 None [] false true 0 false 0 (blank 300 150)
       (m_prompt mask) mask []).

(** Everything the host can do to the scene. *)
Inductive Event :=
| Update (dt : Q)
| Render
| Resize (layerW layerH : Q)
| ImageLoaded (iw ih : positive) (layerW layerH : Q)
| PointerDown (p : Point)
| PointerMove (p : Point)
| PointerUp.

Definition handle (e : Event) (s : State) : option State :=
  match e with
  | Update dt => Some (update dt s)
  | Render => Some (render s)
  | Resize w h => Some (onResize w h s)
  | ImageLoaded iw ih w h => Some (onImageLoad iw ih w h s)
  | PointerDown p => onPointerDown p s
  | PointerMove p => onPointerMove p s
  | PointerUp => Some (onPointerUp s)
  end.

(** A sequence of events, stopping at the first exception. *)
Fixpoint run (es : list Event) (s : State) : option State :=
  match es with
  | [] => Some s
  | e :: es' =>
      match handle e s with
      | None => None
      | Some s' => run es' s'
      end
  end.

Definition isImageLoaded (e : Event) : bool :=
  match e with
  | ImageLoaded _ _ _ _ => true
  | _ => false
  end.

End Scene.

End GameScene2Lifecycle.

(* ================================================================== *)
(** ** The sampled score ([calculateScore(maskRects, strokes)])

    The stand-alone scoring function over stroke discs.  [Math.random]
    is a parameter: [rnd k] is the result of its [k]-th call. *)

Module Scoring.

(** [PlayerStroke] of [src/data/types.ts]. *)
Record PlayerStroke := mkStroke { s_x : Q; s_y : Q; s_radius : Q }.

(** What the final [Math.max(0, Math.round(...))] can return: the
    quotient is [NaN] for [0 / 0] and infinite for any other division
    by 0. *)
Inductive JsNumber := NaN | PlusInfinity | Finite (n : Z).

Definition samplesPerRect : nat := 20.

(** [Math.sqrt(dx*dx + dy*dy) <= s.radius]: on exact numbers, the radius
    is not negative and the squared distance is at most its square. *)
Definition covers (px py : Q) (s : PlayerStroke) : bool :=
  let dx := (px - s_x s)%Q in
  let dy := (py - s_y s)%Q in
  Qle_bool 0 (s_radius s)
  && Qle_bool (dx * dx + dy * dy) (s_radius s * s_radius s).

(** The inner loop, with [n] iterations left and [k] calls of
    [Math.random] made so far:
<<
    for (let i = 0; i < samplesPerRect; i++) {
      const px = rect.x + Math.random() * rect.width
      const py = rect.y + Math.random() * rect.height
      const covered = strokes.some(s => ...)
      if (covered) hits++
    }
>> *)
Fixpoint sampleRect (n k : nat) (rnd : nat -> Q) (rect : MaskRect)
    (strokes : list PlayerStroke) (hits : Z) : Z :=
  match n with
  | O => hits
  | S n' =>
      let px := (r_x rect + rnd k * r_width rect)%Q in
      let py := (r_y rect + rnd (S k) * r_height rect)%Q in
      let covered := existsb (covers px py) strokes in
      sampleRect n' (S (S k)) rnd rect strokes
        (if covered then hits + 1 else hits)
  end.

(** [for (const rect of maskRects) { ... }], taking [n] samples per
    rect. *)
Fixpoint sampleRects (n k : nat) (rnd : nat -> Q)
    (maskRects : list MaskRect) (strokes : list PlayerStroke) (hits : Z)
    : Z :=
  match maskRects with
  | [] => hits
  | rect :: rest =>
      sampleRects n (k + 2 * n) rnd rest strokes
        (sampleRect n k rnd rect strokes hits)
  end.

Definition insideAny (maskRects : list MaskRect) (s : PlayerStroke) : bool :=
  existsb (fun r =>
    Qle_bool (r_x r) (s_x s) && Qle_bool (s_x s) (r_x r + r_width r)
    && Qle_bool (r_y r) (s_y s) && Qle_bool (s_y s) (r_y r + r_height r))
    maskRects.

(** [for (const s of strokes) { if (!insideAny) misses++ }] *)
Definition countMisses (maskRects : list MaskRect)
    (strokes : list PlayerStroke) : Z :=
  fold_left (fun misses s =>
               if negb (insideAny maskRects s) then misses + 1 else misses)
    strokes 0.

Definition calculateScore (rnd : nat -> Q) (maskRects : list MaskRect)
    (strokes : list PlayerStroke) : JsNumber :=
  let hits := sampleRects samplesPerRect 0 rnd maskRects strokes 0 in
  let misses := countMisses maskRects strokes in
  let rawScore := hits - misses in
  let maxPossible := Z.of_nat (List.length maskRects * samplesPerRect) in
  if maxPossible =? 0 then
    (* division by 0 *)
    if rawScore =? 0 then NaN
    else if rawScore <? 0 then Finite 0
    else PlusInfinity
  else
    Finite
      (Z.max 0
         (Math_round
            (inject_Z rawScore / inject_Z maxPossible * 100))).

End Scoring.

(* ================================================================== *)
(** ** [TargetRectEditor] ([src/editor/TargetRectEditor.ts])

    The tool with which target rects are drawn over a document image.
    Its rects have the shape of [MaskRect], the type they are saved for.
    [saved] records the arrays written out by [saveRects]; the canvas
    and the mouse are the host's. *)

Module TargetRectEditor.

Record State := mkState {
  imageLoaded : bool;
  imageWidth : Z;
  imageHeight : Z;
  layout : DocumentLayout;
  rects : list MaskRect;
  isDrawing : bool;
  startPoint : option Point;
  currentRect : option MaskRect;
  saved : list (list MaskRect)
}.

Definition set_imageLoaded (v : bool) (s : State) : State :=
  mkState v (imageWidth s) (imageHeight s) (layout s) (rects s)
    (isDrawing s) (startPoint s) (currentRect s) (saved s).

Definition set_imageWidth (v : Z) (s : State) : State :=
  mkState (imageLoaded s) v (imageHeight s) (layout s) (rects s)
    (isDrawing s) (startPoint s) (currentRect s) (saved s).

Definition set_imageHeight (v : Z) (s : State) : State :=
  mkState (imageLoaded s) (imageWidth s) v (layout s) (rects s)
    (isDrawing s) (startPoint s) (currentRect s) (saved s).

Definition set_layout (v : DocumentLayout) (s : State) : State :=
  mkState (imageLoaded s) (imageWidth s) (imageHeight s) v (rects s)
    (isDrawing s) (startPoint s) (currentRect s) (saved s).

Definition set_rects (v : list MaskRect) (s : State) : State :=
  mkState (imageLoaded s) (imageWidth s) (imageHeight s) (layout s) v
    (isDrawing s) (startPoint s) (currentRect s) (saved s).

Definition set_isDrawing (v : bool) (s : State) : State :=
  mkState (imageLoaded s) (imageWidth s) (imageHeight s) (layout s)
    (rects s) v (startPoint s) (currentRect s) (saved s).

Definition set_startPoint (v : option Point) (s : State) : State :=
  mkState (imageLoaded s) (imageWidth s) (imageHeight s) (layout s)
    (rects s) (isDrawing s) v (currentRect s) (saved s).

Definition set_currentRect (v : option MaskRect) (s : State) : State :=
  mkState (imageLoaded s) (imageWidth s) (imageHeight s) (layout s)
    (rects s) (isDrawing s) (startPoint s) v (saved s).

Definition set_saved (v : list (list MaskRect)) (s : State) : State :=
  mkState (imageLoaded s) (imageWidth s) (imageHeight s) (layout s)
    (rects s) (isDrawing s) (startPoint s) (currentRect s) v.

Definition saveButton : UIButton := mkButton 20 20 100 40 "Save JSON".

(** The editor as its field initializers leave it. *)
Definition initial : State :=
  mkState false 0 0 (mkLayout 1 0 0 0 0) [] false None None [].

(** [canvasW] and [canvasH] are [canvas.width] and [canvas.height]. *)
Definition computeLayout (canvasW canvasH : Z) (s : State) : State :=
  let scale :=
    Qmin (inject_Z canvasW / inject_Z (imageWidth s))
         (inject_Z canvasH / inject_Z (imageHeight s)) in
  let drawWidth := (inject_Z (imageWidth s) * scale)%Q in
  let drawHeight := (inject_Z (imageHeight s) * scale)%Q in
  let offsetX := ((inject_Z canvasW - drawWidth) / 2)%Q in
  let offsetY := ((inject_Z canvasH - drawHeight) / 2)%Q in
  set_layout (mkLayout scale offsetX offsetY drawWidth drawHeight) s.

(** The [onload] handler installed by [loadImage]. *)
Definition onImageLoad (iw ih : positive) (canvasW canvasH : Z) (s : State)
    : State :=
  let s := set_imageWidth (Zpos iw) (set_imageHeight (Zpos ih) s) in
  let s := set_imageLoaded true s in
  computeLayout canvasW canvasH s.

(** [onResize], once [canvasLayer.resize] has given the canvas its new
    size. *)
Definition onResize (canvasW canvasH : Z) (s : State) : State :=
  if imageLoaded s then computeLayout canvasW canvasH s else s.

Definition screenToNormalized (l : DocumentLayout) (p : Point) : Point :=
  mkPoint ((pt_x p - offsetX l) / drawWidth l)
          ((pt_y p - offsetY l) / drawHeight l).

Definition pointInRect (p : Point) (r : UIButton) : bool :=
  Qle_bool (b_x r) (pt_x p) && Qle_bool (pt_x p) (b_x r + b_width r)
  && Qle_bool (b_y r) (pt_y p) && Qle_bool (pt_y p) (b_y r + b_height r).

Definition saveRects (s : State) : State :=
  set_saved (saved s ++ [rects s]) s.

Definition onPointerDown (p : Point) (s : State) : State :=
  if pointInRect p saveButton then saveRects s
  else if negb (imageLoaded s) then s
  else set_startPoint (Some p) (set_isDrawing true s).

Definition onPointerMove (p : Point) (s : State) : State :=
  if negb (isDrawing s) then s
  else
    match startPoint s with
    | None => s
    | Some sp =>
        let start := screenToNormalized (layout s) sp in
        let end_ := screenToNormalized (layout s) p in
        let x := Qmin (pt_x start) (pt_x end_) in
        let y := Qmin (pt_y start) (pt_y end_) in
        let width := Qabs (pt_x end_ - pt_x start) in
        let height := Qabs (pt_y end_ - pt_y start) in
        set_currentRect (Some (mkMaskRect x y width height)) s
    end.

Definition onPointerUp (s : State) : State :=
  let s :=
    match currentRect s with
    | Some r => set_rects (rects s ++ [r]) s
    | None => s
    end in
  let s := set_isDrawing false s in
  let s := set_startPoint None s in
  set_currentRect None s.

Definition normalizedToScreen (l : DocumentLayout) (r : MaskRect)
    : MaskRect :=
  mkMaskRect (r_x r * drawWidth l + offsetX l)
             (r_y r * drawHeight l + offsetY l)
             (r_width r * drawWidth l) (r_height r * drawHeight l).

(** The mouse events the constructor subscribes to. *)
Inductive Event :=
| PointerDown (p : Point)
| PointerMove (p : Point)
| PointerUp.

Definition handle (e : Event) (s : State) : State :=
  match e with
  | PointerDown p => onPointerDown p s
  | PointerMove p => onPointerMove p s
  | PointerUp => onPointerUp s
  end.

Definition run (es : list Event) (s : State) : State :=
  fold_left (fun s e => handle e s) es s.

End TargetRectEditor.

(* ================================================================== *)
(** ** The entry point: [Game], [SceneManager] and the wiring of main.ts

    main.ts builds one [MenuScene] and one [GameScene] and hands them to
    the scene manager of a [Game].  The world below holds what these
    objects keep between calls.  [MenuScene] only draws a title; its
    drawing calls are left out. *)

Module Main.

(** The two scene objects, [menuScene] and [gameScene]. *)
Inductive SceneRef := MenuSceneRef | GameSceneRef.

Record World := mkWorld {
  (** [game.sceneManager.current]; [None] is [null]. *)
  current : option SceneRef;
  (** [game.lastTime] *)
  lastTime : Q;
  (** [uiLayer.width] and [uiLayer.height] *)
  uiWidth : Q;
  uiHeight : Q;
  (** the fields of [gameScene] *)
  gameScene : GameScene.State
}.

Definition set_current (v : option SceneRef) (w : World) : World :=
  mkWorld v (lastTime w) (uiWidth w) (uiHeight w) (gameScene w).

Definition set_lastTime (v : Q) (w : World) : World :=
  mkWorld (current w) v (uiWidth w) (uiHeight w) (gameScene w).

Definition set_gameScene (v : GameScene.State) (w : World) : World :=
  mkWorld (current w) (lastTime w) (uiWidth w) (uiHeight w) v.

(** The [onExit] property of a scene object, as [SceneManager.set] reads
    it.  [MenuScene] has none.  On [gameScene] it is the public field
    [onExit], which holds the callback given to the constructor; main.ts
    writes that callback as [() => game.sceneManager.set(menuScene)].
    [Some target] stands for a callback that calls [set(target)]. *)
Definition onExitOf (scene : SceneRef) : option SceneRef :=
  match scene with
  | MenuSceneRef => None
  | GameSceneRef => Some MenuSceneRef
  end.

(** [SceneManager.set(scene)].  Neither scene defines [onEnter].  [set]
    is an [async] method: an exception raised in its body rejects the
    promise it returns instead of reaching the caller, and every caller
    here drops that promise.  The calls nest through the [onExit]
    callback; [depth] is the number of nested calls the call stack has
    room for.  In the result, [None] is the [RangeError] of a call there
    is no room for, raised in the caller; [Some w] is a call that
    returns, leaving [w].  The second component counts the [onExit]
    callbacks invoked. *)
Fixpoint setCounting (depth : nat) (scene : SceneRef) (w : World)
    : option World * nat :=
  match depth with
  | O => (None, 0%nat)
  | S depth' =>
      match current w with
      | None => (Some (set_current (Some scene) w), 0%nat)
      | Some cur =>
          match onExitOf cur with
          | None => (Some (set_current (Some scene) w), 0%nat)
          | Some target =>
              let (inner, n) := setCounting depth' target w in
              (match inner with
               | None =>
                   (* the [RangeError] ends the body before
                      [this.current = scene] *)
                   Some w
               | Some w => Some (set_current (Some scene) w)
               end, S n)
          end
      end
  end.

Definition set (depth : nat) (scene : SceneRef) (w : World) : option World :=
  fst (setCounting depth scene w).

(** The [onStart] callback of the menu, run by [MenuScene.onPointerDown]:
    [gameScene.resetGame(); game.sceneManager.set(gameScene)].  The
    outer [None] is an exception raised by [resetGame]. *)
Definition onStart (depth : nat) (w : World) : option (option World) :=
  match GameScene.resetGame (gameScene w) with
  | None => None
  | Some g => Some (set depth GameSceneRef (set_gameScene g w))
  end.

End Main.

(* ================================================================== *)
(** ** Binary64 arithmetic

    The scenes compute with JavaScript numbers: each operation delivers
    the binary64 number nearest to the exact result.  Where a property
    depends on the values the arithmetic delivers (how far a mapped
    point lands from where it started, on which side of an edge it
    falls, how far a countdown drifts), the functions are embedded a
    second time below, in [GameScene64], [TargetRectEditor64] and
    [Main64], with the rounding of every operation written out. *)

Module Binary64.

(** Half the distance from 1 to the next binary64 number, [2^-53]. *)
Definition unitRoundoff : Q := 1 # 9007199254740992.

(** What the proofs use of the rounding: the result is off by at most
    the relative [unitRoundoff], and rounding keeps the order.  Both
    hold of rounding to nearest as long as the result is neither too
    large for a finite binary64 number nor subnormal. *)
Class Rounding := {
  fl : Q -> Q;
  fl_error : forall x : Q, (Qabs (fl x - x) <= unitRoundoff * Qabs x)%Q;
  fl_monotone : forall x y : Q, (x <= y)%Q -> (fl x <= fl y)%Q
}.

(** *** Rounding to nearest, ties to even, at 53 bits *)

(** The nearest integer, ties to the even one. *)
Definition roundEven (m : Q) : Z :=
  let f := Qfloor m in
  match ((m - inject_Z f) ?= (1 # 2))%Q with
  | Lt => f
  | Gt => f + 1
  | Eq => if Z.even f then f else f + 1
  end.

(** The exponent [e] of a positive number [a]: [2^e <= a < 2^(e+1)]
    (lemmas [exponent_le] and [exponent_lt]). *)
Definition exponent (a : Q) : Z :=
  let k := Z.log2 (Qnum a) - Z.log2 (Zpos (Qden a)) in
  if Qle_bool (2 ^ k) a then k else k - 1.

(** A positive number rounded to 53 significant bits. *)
Definition roundPositive (a : Q) : Q :=
  let ulp := (2 ^ (exponent a - 52))%Q in
  (inject_Z (roundEven (a / ulp)) * ulp)%Q.

(** The exponent is not bounded here (11 bits in binary64): overflow to
    [Infinity] and gradual underflow below [2^-1022] are left out. *)
Definition round (x : Q) : Q :=
  match (x ?= 0)%Q with
  | Eq => 0%Q
  | Gt => roundPositive x
  | Lt => (- roundPositive (- x))%Q
  end.

Section Operations.
Context {R : Rounding}.

(** [a + b], [a - b], [a * b] and [a / b] on numbers. *)
Definition add (a b : Q) : Q := fl (a + b).
Definition sub (a b : Q) : Q := fl (a - b).
Definition mul (a b : Q) : Q := fl (a * b).
Definition div (a b : Q) : Q := fl (a / b).

(** A decimal literal such as [0.57] denotes the nearest number. *)
Definition literal (q : Q) : Q := fl q.

End Operations.

End Binary64.

(** ** [GameScene] in binary64 arithmetic

    The functions of [GameScene] that compute with coordinates or with
    the timer, and the ones that lead to them.  What they share with the
    first embedding (the state, the phase transitions, the scoring) is
    taken from [GameScene]. *)

Module GameScene64.

Import Binary64.

Section Scene.
Context {ctx2d : Context2D} {R : Rounding}.

Definition computeLayout (rectW rectH : Q) (s : GameScene.State)
    : GameScene.State :=
  let scale :=
    Qmin (div rectW (inject_Z (GameScene.docWidth s)))
         (div rectH (inject_Z (GameScene.docHeight s))) in
  let drawWidth := mul (inject_Z (GameScene.docWidth s)) scale in
  let drawHeight := mul (inject_Z (GameScene.docHeight s)) scale in
  let offsetX := div (sub rectW drawWidth) 2 in
  let offsetY := div (sub rectH drawHeight) 2 in
  GameScene.set_layout
    (Some (mkLayout scale offsetX offsetY drawWidth drawHeight)) s.

Definition screenToDocument (l : DocumentLayout) (p : Point)
    : option StrokePoint :=
  let x := div (sub (pt_x p) (offsetX l)) (drawWidth l) in
  let y := div (sub (pt_y p) (offsetY l)) (drawHeight l) in
  if Qltb x 0 || Qltb 1 x || Qltb y 0 || Qltb 1 y then None
  else Some (mkStrokePoint x y).

Definition documentToScreen (l : DocumentLayout) (p : StrokePoint) : Point :=
  mkPoint (add (mul (sp_x p) (drawWidth l)) (offsetX l))
          (add (mul (sp_y p) (drawHeight l)) (offsetY l)).

Definition startStroke (p : Point) (s : GameScene.State)
    : option GameScene.State :=
  match GameScene.layout s with
  | None => None
  | Some l =>
      match screenToDocument l p with
      | None => Some s
      | Some docPoint => Some (GameScene.beginStrokeAt docPoint s)
      end
  end.

Definition pointInRect (p : Point) (r : UIButton) : bool :=
  Qle_bool (b_x r) (pt_x p) && Qle_bool (pt_x p) (add (b_x r) (b_width r))
  && Qle_bool (b_y r) (pt_y p) && Qle_bool (pt_y p) (add (b_y r) (b_height r)).

Definition hits (p : Point) (button : option UIButton) : bool :=
  match button with
  | None => false
  | Some r => pointInRect p r
  end.

Definition drawButton (text : string) (cx cy : Q) : UIButton :=
  let width := 140%Q in
  let height := 40%Q in
  mkButton (sub cx (div width 2)) (sub cy (div height 2)) width height text.

Definition drawUI (w h : Q) (s : GameScene.State) : GameScene.State :=
  let s := GameScene.call (LayerDraw UiLayer) s in
  match GameScene.phase s with
  | Prompt =>
      GameScene.set_readyButton
        (Some (drawButton "READY"%string (div w 2)
                 (mul h (literal (35 # 100))))) s
  | Redacting =>
      GameScene.set_doneButton
        (Some (drawButton "DONE"%string (sub w 80) 30)) s
  | Scoring =>
      let centerX := div w 2 in
      let s :=
        GameScene.set_continueButton
          (Some (drawButton "CONTINUE"%string centerX
                   (mul h (literal (5 # 10))))) s in
      GameScene.set_exitButton
        (Some (drawButton "EXIT"%string centerX
                 (mul h (literal (57 # 100))))) s
  end.

Definition render (w h : Q) (s : GameScene.State) : GameScene.State :=
  if negb (GameScene.imageLoaded s) || negb (GameScene.needsRedraw s) then s
  else
    let s := GameScene.call (LayerClear DocLayer) s in
    let s := GameScene.call (LayerClear RedactionLayer) s in
    let s := GameScene.call (LayerClear UiLayer) s in
    let s :=
      match GameScene.phase s with
      | Redacting | Scoring =>
          GameScene.call (LayerDraw RedactionLayer)
            (GameScene.call (LayerDraw DocLayer) s)
      | Prompt => s
      end in
    let s := drawUI w h s in
    GameScene.set_needsRedraw false s.

(** [update]: the countdown. *)
Definition update (dt : Q) (s : GameScene.State) : GameScene.State :=
  match GameScene.phase s with
  | Redacting =>
      let prev := Math_ceil (GameScene.timer s) in
      let s := GameScene.set_timer (sub (GameScene.timer s) dt) s in
      let s :=
        if Qle_bool (GameScene.timer s) 0
        then GameScene.finishRound (GameScene.set_timer 0 s)
        else s in
      if negb (Math_ceil (GameScene.timer s) =? prev)
      then GameScene.set_needsRedraw true s
      else s
  | _ => s
  end.

Definition onPointerDown (p : Point) (s : GameScene.State)
    : option GameScene.State :=
  match GameScene.phase s with
  | Prompt =>
      if hits p (GameScene.readyButton s)
      then Some (GameScene.startRedaction s) else Some s
  | Redacting =>
      if hits p (GameScene.doneButton s) then Some (GameScene.finishRound s)
      else startStroke p s
  | Scoring =>
      if hits p (GameScene.continueButton s) then GameScene.loadNextMask s
      else if hits p (GameScene.exitButton s)
           then Some (GameScene.exitGame s)
           else Some s
  end.

End Scene.

End GameScene64.

(** ** [TargetRectEditor] in binary64 arithmetic *)

Module TargetRectEditor64.

Import Binary64.

Section Editor.
Context {R : Rounding}.

Definition screenToNormalized (l : DocumentLayout) (p : Point) : Point :=
  mkPoint (div (sub (pt_x p) (offsetX l)) (drawWidth l))
          (div (sub (pt_y p) (offsetY l)) (drawHeight l)).

Definition pointInRect (p : Point) (r : UIButton) : bool :=
  Qle_bool (b_x r) (pt_x p) && Qle_bool (pt_x p) (add (b_x r) (b_width r))
  && Qle_bool (b_y r) (pt_y p) && Qle_bool (pt_y p) (add (b_y r) (b_height r)).

Definition onPointerDown (p : Point) (s : TargetRectEditor.State)
    : TargetRectEditor.State :=
  if pointInRect p TargetRectEditor.saveButton
  then TargetRectEditor.saveRects s
  else if negb (TargetRectEditor.imageLoaded s) then s
  else TargetRectEditor.set_startPoint (Some p)
         (TargetRectEditor.set_isDrawing true s).

Definition onPointerMove (p : Point) (s : TargetRectEditor.State)
    : TargetRectEditor.State :=
  if negb (TargetRectEditor.isDrawing s) then s
  else
    match TargetRectEditor.startPoint s with
    | None => s
    | Some sp =>
        let start := screenToNormalized (TargetRectEditor.layout s) sp in
        let end_ := screenToNormalized (TargetRectEditor.layout s) p in
        let x := Qmin (pt_x start) (pt_x end_) in
        let y := Qmin (pt_y start) (pt_y end_) in
        let width := Qabs (sub (pt_x end_) (pt_x start)) in
        let height := Qabs (sub (pt_y end_) (pt_y start)) in
        TargetRectEditor.set_currentRect
          (Some (mkMaskRect x y width height)) s
    end.

Definition normalizedToScreen (l : DocumentLayout) (r : MaskRect)
    : MaskRect :=
  mkMaskRect (add (mul (r_x r) (drawWidth l)) (offsetX l))
             (add (mul (r_y r) (drawHeight l)) (offsetY l))
             (mul (r_width r) (drawWidth l)) (mul (r_height r) (drawHeight l)).

End Editor.

End TargetRectEditor64.

(** ** The game loop in binary64 arithmetic *)

Module Main64.

Import Binary64.

Section Loop.
Context {ctx2d : Context2D} {R : Rounding}.

(** [SceneManager.update(dt)]: [this.current?.update(dt)];
    [MenuScene.update] is empty. *)
Definition update (dt : Q) (w : Main.World) : Main.World :=
  match Main.current w with
  | Some Main.GameSceneRef =>
      Main.set_gameScene (GameScene64.update dt (Main.gameScene w)) w
  | _ => w
  end.

(** [SceneManager.render()] *)
Definition render (w : Main.World) : Main.World :=
  match Main.current w with
  | Some Main.GameSceneRef =>
      Main.set_gameScene
        (GameScene64.render (Main.uiWidth w) (Main.uiHeight w)
           (Main.gameScene w)) w
  | _ => w
  end.

(** [Game.loop(time)], one animation frame. *)
Definition loop (time : Q) (w : Main.World) : Main.World :=
  let dt := div (sub time (Main.lastTime w)) 1000 in
  let w := Main.set_lastTime time w in
  let w := update dt w in
  render w.

(** The frames with the given timestamps, in order. *)
Definition frames (times : list Q) (w : Main.World) : Main.World :=
  fold_left (fun w time => loop time w) times w.

End Loop.

End Main64.

(* ================================================================== *)
(** ** Declarative counterparts used to state the properties *)

(** Number of values [from, from + 4, from + 8, ...] below [stop]. *)
Definition strideCount (from stop : Z) : nat :=
  Z.to_nat ((stop - from + 3) / 4).

(** Those values, in order. *)
Definition strideSeq (from stop : Z) : list Z :=
  map (fun k => from + 4 * Z.of_nat k) (seq 0 (strideCount from stop)).

(** The sample positions [(x, y)] of a pass whose outer loop runs over
    [ys] and whose inner loop runs over [xs]. *)
Definition samplesOf (xs ys : list Z) : list (Z * Z) :=
  flat_map (fun y => map (fun x => (x, y)) xs) ys.

(** The stride-4 grid over a [w] x [h] raster. *)
Definition gridSamples (w h : Z) : list (Z * Z) :=
  samplesOf (strideSeq 0 w) (strideSeq 0 h).

(** The pixel range of a rect: floor of the near edges, ceiling of the
    far edges. *)
Definition rectStartX (w : Z) (r : MaskRect) : Z :=
  Qfloor (r_x r * inject_Z w).

Definition rectEndX (w : Z) (r : MaskRect) : Z :=
  Qceiling ((r_x r + r_width r) * inject_Z w).

Definition rectStartY (h : Z) (r : MaskRect) : Z :=
  Qfloor (r_y r * inject_Z h).

Definition rectEndY (h : Z) (r : MaskRect) : Z :=
  Qceiling ((r_y r + r_height r) * inject_Z h).

(** The stride-4 samples inside the pixel range of a rect. *)
Definition rectSamples (w h : Z) (r : MaskRect) : list (Z * Z) :=
  samplesOf (strideSeq (rectStartX w r) (rectEndX w r))
            (strideSeq (rectStartY h r) (rectEndY h r)).

(** Is the alpha byte of pixel [(x, y)] equal to 0? *)
Definition unpainted (w : Z) (data : list Z) (xy : Z * Z) : bool :=
  isZero (dataAt data ((snd xy * w + fst xy) * 4 + 3)).

Definition countIf {A : Type} (p : A -> bool) (l : list A) : Z :=
  Z.of_nat (List.length (filter p l)).

Definition sumZ (l : list Z) : Z := fold_right Z.add 0 l.

(** Painted grid samples that pass, respectively fail, the containment
    test [t]. *)
Definition paintedInside (t : Z -> Z -> bool) (w h : Z) (data : list Z) : Z :=
  countIf (fun xy => negb (unpainted w data xy) && t (fst xy) (snd xy))
    (gridSamples w h).

Definition paintedOutside (t : Z -> Z -> bool) (w h : Z) (data : list Z) : Z :=
  countIf (fun xy => negb (unpainted w data xy) && negb (t (fst xy) (snd xy)))
    (gridSamples w h).

(** Unpainted samples in the pixel range of one rect, and summed per
    rect. *)
Definition missedIn (w h : Z) (data : list Z) (r : MaskRect) : Z :=
  countIf (unpainted w data) (rectSamples w h r).

Definition missedTotal (w h : Z) (data : list Z) (rects : list MaskRect) : Z :=
  sumZ (map (missedIn w h data) rects).

(** All stride samples in the pixel ranges of the rects, summed per rect. *)
Definition rectSampleTotal (w h : Z) (rects : list MaskRect) : Z :=
  sumZ (map (fun r => Z.of_nat (List.length (rectSamples w h r))) rects).

(** A rect that lies inside the document (the unit square). *)
Definition insideDocument (r : MaskRect) : Prop :=
  (0 <= r_x r)%Q /\ (0 <= r_y r)%Q
  /\ (0 <= r_width r)%Q /\ (0 <= r_height r)%Q
  /\ (r_x r + r_width r <= 1)%Q /\ (r_y r + r_height r <= 1)%Q.

(** Is [q] a whole number? *)
Definition isWhole (q : Q) : Prop := (inject_Z (Qfloor q) == q)%Q.

(** The round score as the specification words it: subtotal plus half
    the subtotal times the fraction of time left, clamped at 0, then
    rounded. *)
Definition timeBonusScore (c : Counts) (timer limit : Q) : Z :=
  let sub := GameScene.subtotal c in
  Math_round (Qmax 0 (sub + sub * (timer / limit) * (1 # 2))).

(** Number of Redacting-to-Scoring steps along a sequence of states. *)
Fixpoint roundEnds (prev : RoundPhase) (tr : list GameScene.State) : nat :=
  match tr with
  | [] => O
  | s :: tr' =>
      ((match prev, GameScene.phase s with
        | Redacting, Scoring => 1
        | _, _ => 0
        end) + roundEnds (GameScene.phase s) tr')%nat
  end.

(** Does a timer starting at [t] reach 0 or less under the decrements
    [dts]? *)
Fixpoint runsOut (t : Q) (dts : list Q) : bool :=
  match dts with
  | [] => false
  | dt :: dts' => Qle_bool (t - dt) 0 || runsOut (t - dt) dts'
  end.

(** Does handling [e] in state [s] reset the session ([exitGame] or
    [resetGame])? *)
Definition resetsSession (e : GameScene.Event) (s : GameScene.State) : bool :=
  match e with
  | GameScene.ResetGame => true
  | GameScene.PointerDown p =>
      match GameScene.phase s with
      | Scoring =>
          negb (GameScene.hits p (GameScene.continueButton s))
          && GameScene.hits p (GameScene.exitButton s)
      | _ => false
      end
  | _ => false
  end.

(** Did the step from [s] to [s'] end a round? *)
Definition endsRound (s s' : GameScene.State) : bool :=
  RoundPhase_eqb (GameScene.phase s) Redacting
  && RoundPhase_eqb (GameScene.phase s') Scoring.

(** A point of the unit square. *)
Definition inUnitSquare (p : StrokePoint) : Prop :=
  (0 <= sp_x p <= 1)%Q /\ (0 <= sp_y p <= 1)%Q.

(** Two states that agree on what a round's score is computed from. *)
Definition sameRound (s1 s2 : GameScene.State) : Prop :=
  GameScene.mask s1 = GameScene.mask s2
  /\ GameScene.coverage s1 = GameScene.coverage s2
  /\ GameScene.phase s1 = GameScene.phase s2
  /\ (GameScene.timer s1 == GameScene.timer s2)%Q.

(** The same normalized point (or no point) out of [screenToDocument]. *)
Definition sameDocPoint (a b : option StrokePoint) : Prop :=
  match a, b with
  | Some d1, Some d2 => (sp_x d1 == sp_x d2)%Q /\ (sp_y d1 == sp_y d2)%Q
  | None, None => True
  | _, _ => False
  end.

(** A stroke: [addStroke] for each pointer position in turn. *)
Fixpoint paintStroke {ctx2d : Context2D} (ps : list Point)
    (s : GameScene.State) : option GameScene.State :=
  match ps with
  | [] => Some s
  | p :: ps' =>
      match GameScene.addStroke p s with
      | None => None
      | Some s' => paintStroke ps' s'
      end
  end.

(** The masks presented by [n] successive calls of
    [GameScene.loadNextMask], and the state they leave. *)
Fixpoint presented (n : nat) (s : GameScene.State)
    : option (list RedactionMask * GameScene.State) :=
  match n with
  | O => Some ([], s)
  | S n' =>
      match GameScene.loadNextMask s with
      | None => None
      | Some s1 =>
          match presented n' s1 with
          | None => None
          | Some (ms, s2) => Some (GameScene.mask s1 :: ms, s2)
          end
      end
  end.

(** Rounds of [GameScene4], one per element of [rnds]: present the
    current mask ([startPrompt]), start redacting, finish the round with
    that element as the random source.  Returns the masks presented. *)
Fixpoint presented4 (rnds : list (nat -> Q)) (s : GameScene4.State)
    : option (list RedactionMask * GameScene4.State) :=
  match rnds with
  | [] => Some ([], s)
  | rnd :: rnds' =>
      match GameScene4.startPrompt s with
      | None => None
      | Some s1 =>
          match presented4 rnds'
                  (GameScene4.finishRound rnd (GameScene4.startRedaction s1))
          with
          | None => None
          | Some (ms, s2) => Some (GameScene4.mask s1 :: ms, s2)
          end
      end
  end.

(** The Fisher-Yates loop with the drawn indices given directly: [js]
    holds the index drawn for position [i], then for [i - 1], and so on
    down to position 1. *)
Fixpoint shuffleWith {A : Type} (i : nat) (js : list nat) (arr : list A)
    : list A :=
  match i, js with
  | S i', j :: js' => shuffleWith i' js' (GameScene4.swap i j arr)
  | _, _ => arr
  end.

(** The indices [shuffleFrom i k rnd] draws:
    [Math.floor(Math.random() * (i + 1))] for [i], [i - 1], ..., 1. *)
Fixpoint drawsOf (i k : nat) (rnd : nat -> Q) : list nat :=
  match i with
  | O => []
  | S i' =>
      Z.to_nat (Math_floor (rnd k * inject_Z (Z.of_nat i + 1)))
      :: drawsOf i' (S k) rnd
  end.

(** One draw per position from [i] down to 1, the draw for position [p]
    lying in [0, p]. *)
Fixpoint validDraws (i : nat) (js : list nat) : Prop :=
  match i, js with
  | O, [] => True
  | S i', j :: js' => (j <= i)%nat /\ validDraws i' js'
  | _, _ => False
  end.

(** A result of [Math.random()]. *)
Definition isRandom (r : Q) : Prop := (0 <= r < 1)%Q.

(** The states a scene can be in: built by the constructor, then driven
    by events. *)
Inductive reachable {ctx2d : Context2D} : GameScene.State -> Prop :=
| reach_construct order s :
    GameScene.construct order = Some s -> reachable s
| reach_handle e s s' :
    reachable s -> GameScene.handle e s = Some s' -> reachable s'.

(** What keeps the handlers from reading a property of [undefined]:
    there is a mask to load, a loaded image has a layout, the ready
    button exists only once an image has been rendered, and redaction
    starts only from that button. *)
Definition sceneOk (s : GameScene.State) : Prop :=
  GameScene.masks s <> []
  /\ (GameScene.imageLoaded s = true -> GameScene.layout s <> None)
  /\ (GameScene.readyButton s <> None -> GameScene.imageLoaded s = true)
  /\ (GameScene.phase s = Redacting -> GameScene.imageLoaded s = true).

(** The round scores booked since the last session reset, along a run of
    events: [acc] holds those booked before the run. *)
Fixpoint ledger {ctx2d : Context2D} (es : list GameScene.Event)
    (s : GameScene.State) (acc : list Z) : list Z :=
  match es with
  | [] => acc
  | e :: es' =>
      match GameScene.handle e s with
      | None => acc
      | Some s' =>
          ledger es' s'
            (if resetsSession e s then []
             else if endsRound s s' then acc ++ [GameScene.roundScore s']
             else acc)
      end
  end.

(** Painted samples of the stride-4 grid. *)
Definition paintedCount (w h : Z) (data : list Z) : Z :=
  countIf (fun xy => negb (unpainted w data xy)) (gridSamples w h).

(** An event of a host whose clock does not run backwards. *)
Definition forwardTick (e : GameScene.Event) : Prop :=
  match e with
  | GameScene.Update dt => (0 <= dt)%Q
  | _ => True
  end.

(** The mask on screen is the one just before the index. *)
Definition maskShown (s : GameScene.State) : Prop :=
  exists i,
    GameScene.currentMaskIndex s = S i
    /\ nth_error (GameScene.masks s) i = Some (GameScene.mask s).

(** What [getImageData] guarantees of the bytes it returns: four per
    pixel, each in 0..255. *)
Definition rasterOk (c : Canvas) : Prop :=
  List.length (c_data c)
  = (4 * Pos.to_nat (c_width c) * Pos.to_nat (c_height c))%nat
  /\ Forall (fun v => 0 <= v <= 255) (c_data c).

(** The same, as a check. *)
Definition rasterOkb (c : Canvas) : bool :=
  Nat.eqb (List.length (c_data c))
    (4 * Pos.to_nat (c_width c) * Pos.to_nat (c_height c))
  && forallb (fun v => (0 <=? v) && (v <=? 255)) (c_data c).

(** A rect of non-negative width and height. *)
Definition properRect (r : MaskRect) : Prop :=
  (0 <= r_width r)%Q /\ (0 <= r_height r)%Q.

(** What keeps the rects of the editor proper: so are the ones recorded
    so far and the one being dragged. *)
Definition editorOk (s : TargetRectEditor.State) : Prop :=
  Forall properRect (TargetRectEditor.rects s)
  /\ (forall r, TargetRectEditor.currentRect s = Some r -> properRect r).

(** How far the round trip of a screen coordinate may land from where
    it started, under a layout with the given offset and drawn size. *)
Definition roundTripTolerance (offset size : Q) : Q :=
  Binary64.unitRoundoff * (Qabs offset + 6 * size).

(** The slack allowed for the rounding of one edge of a button. *)
Definition edgeSlack : Q := 1 # 1000000000.

(** Timestamps that do not go back, starting from [t]. *)
Fixpoint ascending (t : Q) (times : list Q) : Prop :=
  match times with
  | [] => True
  | t' :: rest => (t <= t')%Q /\ ascending t' rest
  end.

(** How far [n] frames can take a countdown of [T] seconds from the
    difference of the timestamps. *)
Definition clockDrift (T : Q) (n : nat) : Q :=
  6 * Binary64.unitRoundoff * T * inject_Z (Z.of_nat n).

(** ** A concrete canvas for the examples

    A disc painter without anti-aliasing: a pixel becomes opaque white
    when its coordinates lie within [r] of the centre. *)

Definition inDisc (cx cy r : Q) (px py : Z) : bool :=
  Qle_bool
    ((inject_Z px - cx) * (inject_Z px - cx)
     + (inject_Z py - cy) * (inject_Z py - cy))
    (r * r).

Fixpoint paintFrom (k : nat) (w : Z) (cx cy r : Q) (data : list Z)
    : list Z :=
  match data with
  | [] => []
  | v :: rest =>
      let pixel := Z.of_nat k / 4 in
      (if inDisc cx cy r (pixel mod w) (pixel / w) then 255 else v)
      :: paintFrom (S k) w cx cy r rest
  end.

Definition paintDisc (c : Canvas) (cx cy r : Q) : Canvas :=
  mkCanvas (c_width c) (c_height c)
    (paintFrom 0 (Zpos (c_width c)) cx cy r (c_data c)).

(** ** Concrete inputs for the examples *)

(** A rect of zero width and zero height at (0.125, 0.125). *)
Definition pointRect : MaskRect := mkMaskRect (1 # 8) (1 # 8) 0 0.

(** Two masks and a [GameScene] that has just finished a pass over
    them (index 2 of 2). *)
Definition maskA : RedactionMask :=
  mkMask "Remove all traces of A" "a.png"
    [mkMaskRect (1 # 4) (1 # 4) (1 # 2) (1 # 2)].

Definition maskB : RedactionMask :=
  mkMask "Remove all traces of B" "b.png" [pointRect].

Definition afterPass : GameScene.State :=
  GameScene.mkState false true 8 8
    (Some (mkLayout 10 0 0 80 80)) [] false (blank 8 8) Scoring 0 0 0 true
    [maskA; maskB] 2%nat (m_prompt maskB) maskB None None None None [].

(** An 8 x 8 raster with a dab of paint around pixel (4, 4). *)
Definition dabbed : Canvas := paintDisc (blank 8 8) 4 4 1.

(** A layout drawing an 8 x 8 document at ten times its size, and one
    drawing it at twenty times its size with margins. *)
Definition layoutTen : DocumentLayout := mkLayout 10 0 0 80 80.

Definition layoutTwenty : DocumentLayout := mkLayout 20 10 5 160 160.

(** A [GameScene] state over [maskA] in a given phase, with a given
    timer, raster and layout, after the UI has been drawn on a
    400 x 400 layer in every phase. *)
Definition sceneAt (ph : RoundPhase) (t : Q) (cv : Canvas)
    (l : DocumentLayout) : GameScene.State :=
  GameScene.mkState false true 8 8 (Some l) [] true cv ph t 0 7 false
    [maskA; maskB] 1%nat (m_prompt maskA) maskA
    (Some (GameScene.drawButton "READY" 200 140))
    (Some (GameScene.drawButton "DONE" 320 30))
    (Some (GameScene.drawButton "CONTINUE" 200 200))
    (Some (GameScene.drawButton "EXIT" 200 228))
    [].

(** A zero-width rect whose left edge is on a pixel boundary of an
    8-pixel-wide raster. *)
Definition thinRect : MaskRect := mkMaskRect (1 # 4) (1 # 4) 0 (1 # 2).

(** A [GameScene4] about to start its first round over two masks. *)
Definition draftStart : GameScene4.State :=
  GameScene4.mkState [] (blank 8 8) Prompt 0 0 0 true [maskA; maskB] 0%nat
    maskA (m_prompt maskA) [].

(** A [GameScene] just built over the two masks, and the same scene once
    its 8 x 8 image has arrived on an 80 x 80 layer. *)
Definition twoMasks : list RedactionMask := [maskA; maskB].

(** A scene in the Scoring phase that has to be redrawn. *)
Definition scoringDirty : GameScene.State :=
  GameScene.set_needsRedraw true (sceneAt Scoring 0 (blank 8 8) layoutTen).

(** A [GameScene4] whose raster carries the dab of paint. *)
Definition draftDabbed : GameScene4.State :=
  GameScene4.set_coverage dabbed draftStart.

(** One stroke disc in the middle of the rect of [maskA]. *)
Definition middleStroke : Scoring.PlayerStroke :=
  Scoring.mkStroke (1 # 2) (1 # 2) (1 # 10).

(** The editor once an 8 x 8 image has loaded on an 80 x 80 canvas. *)
Definition editorLoaded : TargetRectEditor.State :=
  TargetRectEditor.onImageLoad 8 8 80 80 TargetRectEditor.initial.

(** The world of main.ts while the game scene, respectively the menu, is
    shown; in the first a round is running with the full time left. *)
Definition worldPlaying : Main.World :=
  Main.mkWorld (Some Main.GameSceneRef) 0 400 400
    (sceneAt Redacting 30 (blank 8 8) layoutTen).

Definition worldMenu : Main.World :=
  Main.mkWorld (Some Main.MenuSceneRef) 0 400 400 afterPass.

(** A [GameScene2] over [maskA] whose 8 x 8 image has loaded on an
    80 x 80 layer, counting down with two seconds left. *)
Definition draft2Running : GameScene2Lifecycle.State :=
  GameScene2Lifecycle.mkState true 8 8 (Some layoutTen) [] false false 2 true
    0 (blank 8 8) (m_prompt maskA) maskA [].

(* ================================================================== *)
(** * Part II: properties *)

(** ** Reading fields through assignments *)

Ltac scene_fields :=
  cbn [
    GameScene.debugMode GameScene.imageLoaded GameScene.docWidth
    GameScene.docHeight GameScene.layout GameScene.strokes
    GameScene.isDrawing GameScene.coverage GameScene.phase GameScene.timer
    GameScene.roundScore GameScene.totalScore GameScene.needsRedraw
    GameScene.masks GameScene.currentMaskIndex GameScene.prompt
    GameScene.mask GameScene.readyButton GameScene.doneButton
    GameScene.continueButton GameScene.exitButton GameScene.calls
    GameScene.set_debugMode GameScene.set_imageLoaded
    GameScene.set_docWidth GameScene.set_docHeight GameScene.set_layout
    GameScene.set_strokes GameScene.set_isDrawing GameScene.set_coverage
    GameScene.set_phase GameScene.set_timer GameScene.set_roundScore
    GameScene.set_totalScore GameScene.set_needsRedraw GameScene.set_masks
    GameScene.set_currentMaskIndex GameScene.set_prompt GameScene.set_mask
    GameScene.set_readyButton GameScene.set_doneButton
    GameScene.set_continueButton GameScene.set_exitButton
    GameScene.set_calls GameScene.call ].

Ltac split_ifs :=
  repeat match goal with
         | |- context [if ?b then _ else _] => destruct b
         end.

(** ** Arithmetic *)

Lemma Qltb_lt a b : Qltb a b = true <-> (a < b)%Q.
Proof.
  unfold Qltb. rewrite negb_true_iff, <- not_true_iff_false, Qle_bool_iff.
  split; [apply Qnot_le_lt | apply Qlt_not_le].
Qed.

Lemma Qltb_ge a b : Qltb a b = false <-> (b <= a)%Q.
Proof. unfold Qltb. rewrite negb_false_iff. apply Qle_bool_iff. Qed.

Lemma Qle_bool_gt a b : Qle_bool a b = false <-> (b < a)%Q.
Proof.
  rewrite <- not_true_iff_false, Qle_bool_iff.
  split; [apply Qnot_le_lt | apply Qlt_not_le].
Qed.

Lemma Math_round_nearest x :
  (inject_Z (Math_round x) - (1 # 2) <= x)%Q
  /\ (x < inject_Z (Math_round x) + (1 # 2))%Q.
Proof.
  unfold Math_round. split.
  - pose proof (Qfloor_le (x + (1 # 2))). lra.
  - pose proof (Qlt_floor (x + (1 # 2))) as H.
    rewrite inject_Z_plus in H. change (inject_Z 1) with 1%Q in H. lra.
Qed.

Lemma Math_round_mono x y : (x <= y)%Q -> Math_round x <= Math_round y.
Proof. intros H. apply Qfloor_resp_le. lra. Qed.

Lemma Math_round_comp x y : (x == y)%Q -> Math_round x = Math_round y.
Proof. intros H. unfold Math_round. now rewrite H. Qed.

(** Rounding then clamping at 0, as the code does, is clamping then
    rounding. *)
Lemma Math_round_clamp x : Z.max 0 (Math_round x) = Math_round (Qmax 0 x).
Proof.
  assert (R0 : Math_round 0 = 0) by reflexivity.
  destruct (Qlt_le_dec x 0) as [Hneg | Hpos].
  - rewrite (Math_round_comp (Qmax 0 x) 0) by (apply Q.max_l; lra).
    assert (Math_round x <= 0) by (rewrite <- R0; apply Math_round_mono; lra).
    lia.
  - rewrite (Math_round_comp (Qmax 0 x) x) by (apply Q.max_r; lra).
    assert (0 <= Math_round x) by (rewrite <- R0; apply Math_round_mono; lra).
    lia.
Qed.

(** ** Strided loops *)

Lemma strideCount_done from stop : stop <= from -> strideCount from stop = O.
Proof.
  intros H. unfold strideCount.
  destruct (Z.eq_dec stop from) as [-> | Hne].
  - replace (from - from + 3) with 3 by lia. reflexivity.
  - assert ((stop - from + 3) / 4 <= 0).
    { apply Z.lt_succ_r. apply Z.div_lt_upper_bound; lia. }
    lia.
Qed.

Lemma strideCount_more from stop :
  from < stop -> strideCount from stop = S (strideCount (from + 4) stop).
Proof.
  intros H. unfold strideCount.
  replace (stop - from + 3) with ((stop - (from + 4) + 3) + 1 * 4) by lia.
  rewrite Z.div_add by lia.
  assert (0 <= (stop - (from + 4) + 3) / 4) by (apply Z.div_pos; lia).
  lia.
Qed.

Lemma strideSeq_done from stop : stop <= from -> strideSeq from stop = [].
Proof. intros H. unfold strideSeq. now rewrite strideCount_done. Qed.

Lemma strideSeq_more from stop :
  from < stop -> strideSeq from stop = from :: strideSeq (from + 4) stop.
Proof.
  intros H. unfold strideSeq. rewrite (strideCount_more from stop H).
  cbn [seq map]. f_equal; [lia |].
  rewrite <- seq_shift, map_map. apply map_ext. intros k. lia.
Qed.

Lemma strideSeq_length from stop :
  List.length (strideSeq from stop) = strideCount from stop.
Proof. unfold strideSeq. now rewrite length_map, length_seq. Qed.

(** With enough fuel the loop visits exactly the values of [strideSeq]. *)
Lemma forStride_fold {A : Type} (body : Z -> A -> A) stop :
  forall fuel v acc,
    (Z.to_nat (stop - v) <= fuel)%nat ->
    forStride fuel v stop body acc
    = fold_left (fun a x => body x a) (strideSeq v stop) acc.
Proof.
  induction fuel as [| fuel IH]; intros v acc Hfuel.
  - rewrite strideSeq_done by lia. reflexivity.
  - cbn [forStride]. destruct (Z.ltb_spec v stop) as [Hlt | Hge].
    + rewrite strideSeq_more by assumption. cbn [fold_left].
      apply IH. unfold step. lia.
    + rewrite strideSeq_done by assumption. reflexivity.
Qed.

(** Fuel beyond [stop - v] changes nothing: the model never cuts a loop
    short. *)
Lemma forStride_enough {A : Type} (body : Z -> A -> A) stop fuel v acc :
  (Z.to_nat (stop - v) <= fuel)%nat ->
  forStride fuel v stop body acc = forRange v stop body acc.
Proof.
  intros H. unfold forRange.
  rewrite !forStride_fold by lia. reflexivity.
Qed.

Lemma forRange_fold {A : Type} (body : Z -> A -> A) from stop acc :
  forRange from stop body acc
  = fold_left (fun a x => body x a) (strideSeq from stop) acc.
Proof. unfold forRange. apply forStride_fold. lia. Qed.

(** A nested pair of loops is one fold over the sample positions. *)
Lemma nested_fold {A : Type} (body : Z * Z -> A -> A) xs ys acc :
  fold_left (fun a y => fold_left (fun a x => body (x, y) a) xs a) ys acc
  = fold_left (fun a xy => body xy a) (samplesOf xs ys) acc.
Proof.
  revert acc. induction ys as [| y ys IH]; intros acc; [reflexivity |].
  cbn [fold_left samplesOf flat_map]. rewrite fold_left_app.
  rewrite IH. f_equal. clear.
  revert acc. induction xs as [| x xs IHx]; intros acc; [reflexivity |].
  cbn [map fold_left]. apply IHx.
Qed.

Lemma samplesOf_length xs ys :
  List.length (samplesOf xs ys) = (List.length ys * List.length xs)%nat.
Proof.
  unfold samplesOf. induction ys as [| y ys IH]; [reflexivity |].
  cbn [flat_map]. rewrite length_app, length_map, IH. reflexivity.
Qed.

(** ** The two sampling passes as counts *)

Lemma fold_left_pointwise {A B : Type} (f g : A -> B -> A) l :
  (forall a b, f a b = g a b) ->
  forall a, fold_left f l a = fold_left g l a.
Proof.
  intros Hfg. induction l as [| b l IH]; intros a; [reflexivity |].
  cbn [fold_left]. rewrite Hfg. apply IH.
Qed.

Lemma countIf_nil {A : Type} (p : A -> bool) : countIf p [] = 0.
Proof. reflexivity. Qed.

Lemma countIf_cons {A : Type} (p : A -> bool) a l :
  countIf p (a :: l) = (if p a then 1 else 0) + countIf p l.
Proof.
  unfold countIf. cbn [filter]. destruct (p a); cbn [List.length]; lia.
Qed.

Lemma countIf_nonneg {A : Type} (p : A -> bool) l : 0 <= countIf p l.
Proof. unfold countIf. lia. Qed.

Lemma countIf_all {A : Type} (p : A -> bool) l :
  forallb p l = true -> countIf p l = Z.of_nat (List.length l).
Proof.
  induction l as [| a l IH]; [reflexivity |].
  cbn [forallb]. rewrite andb_true_iff. intros [Ha Hl].
  rewrite countIf_cons, Ha, IH by assumption. cbn [List.length]. lia.
Qed.

Lemma countIf_none {A : Type} (p : A -> bool) l :
  forallb (fun a => negb (p a)) l = true -> countIf p l = 0.
Proof.
  induction l as [| a l IH]; [reflexivity |].
  cbn [forallb]. rewrite andb_true_iff, negb_true_iff. intros [Ha Hl].
  rewrite countIf_cons, Ha, IH by assumption. reflexivity.
Qed.

Lemma paintedBody_counts (z t : Z * Z -> bool) l :
  forall c,
    fold_left
      (fun c xy =>
         if z xy then c
         else if t xy then incCorrect c else incFalsePositive c) l c
    = mkCounts
        (correct c + countIf (fun xy => negb (z xy) && t xy) l)
        (missed c)
        (falsePositive c + countIf (fun xy => negb (z xy) && negb (t xy)) l).
Proof.
  induction l as [| xy l IH]; intros c.
  - rewrite !countIf_nil, !Z.add_0_r. now destruct c.
  - cbn [fold_left]. rewrite IH, !countIf_cons.
    destruct (z xy); [| destruct (t xy)];
      unfold incCorrect, incFalsePositive;
      cbn [correct missed falsePositive negb andb]; f_equal; lia.
Qed.

Lemma missedBody_counts (z : Z * Z -> bool) l :
  forall c,
    fold_left (fun c xy => if z xy then incMissed c else c) l c
    = mkCounts (correct c) (missed c + countIf z l) (falsePositive c).
Proof.
  induction l as [| xy l IH]; intros c.
  - rewrite countIf_nil, Z.add_0_r. now destruct c.
  - cbn [fold_left]. rewrite IH, countIf_cons.
    destruct (z xy); unfold incMissed;
      cbn [correct missed falsePositive]; f_equal; lia.
Qed.

(** The first pass counts the painted grid samples inside and outside the
    targets and leaves [missed] alone. *)
Lemma paintedPass_counts t w h data c :
  paintedPass t w h data c
  = mkCounts (correct c + paintedInside t w h data) (missed c)
      (falsePositive c + paintedOutside t w h data).
Proof.
  unfold paintedPass, paintedInside, paintedOutside, gridSamples.
  rewrite forRange_fold.
  rewrite (fold_left_pointwise _
    (fun a y =>
       fold_left
         (fun a x =>
            (fun xy c =>
               if unpainted w data xy then c
               else if t (fst xy) (snd xy)
                    then incCorrect c else incFalsePositive c) (x, y) a)
         (strideSeq 0 w) a)).
  - rewrite (nested_fold
      (fun xy c =>
         if unpainted w data xy then c
         else if t (fst xy) (snd xy)
              then incCorrect c else incFalsePositive c)).
    apply (paintedBody_counts (unpainted w data)
             (fun xy => t (fst xy) (snd xy))).
  - intros a y. rewrite forRange_fold. reflexivity.
Qed.

(** The second pass adds, for one rect, its unpainted samples to
    [missed]. *)
Lemma missedInRect_counts w h data r c :
  missedInRect w h data r c
  = mkCounts (correct c) (missed c + missedIn w h data r) (falsePositive c).
Proof.
  unfold missedInRect, missedIn, rectSamples, Math_floor, Math_ceil.
  fold (rectStartX w r) (rectEndX w r) (rectStartY h r) (rectEndY h r).
  rewrite forRange_fold.
  rewrite (fold_left_pointwise _
    (fun a y =>
       fold_left
         (fun a x =>
            (fun xy c => if unpainted w data xy then incMissed c else c)
              (x, y) a)
         (strideSeq (rectStartX w r) (rectEndX w r)) a)).
  - rewrite (nested_fold
      (fun xy c => if unpainted w data xy then incMissed c else c)).
    apply missedBody_counts.
  - intros a y. rewrite forRange_fold. reflexivity.
Qed.

Lemma missedPass_counts w h data rects :
  forall c,
    missedPass w h data rects c
    = mkCounts (correct c) (missed c + missedTotal w h data rects)
        (falsePositive c).
Proof.
  unfold missedPass, missedTotal.
  induction rects as [| r rects IH]; intros c.
  - cbn. rewrite Z.add_0_r. now destruct c.
  - cbn [fold_left map sumZ fold_right]. rewrite IH, missedInRect_counts.
    cbn. f_equal. unfold sumZ. lia.
Qed.

Lemma countSamples_counts rects c :
  GameScene.countSamples rects c
  = mkCounts
      (paintedInside
         (insidePixel rects (Zpos (c_width c)) (Zpos (c_height c)))
         (Zpos (c_width c)) (Zpos (c_height c)) (c_data c))
      (missedTotal (Zpos (c_width c)) (Zpos (c_height c)) (c_data c) rects)
      (paintedOutside
         (insidePixel rects (Zpos (c_width c)) (Zpos (c_height c)))
         (Zpos (c_width c)) (Zpos (c_height c)) (c_data c)).
Proof.
  unfold GameScene.countSamples.
  rewrite missedPass_counts, paintedPass_counts. reflexivity.
Qed.

(** The values a strided loop visits: every fourth integer from [from],
    below [stop]. *)
Lemma strideSeq_In from stop v :
  In v (strideSeq from stop) <-> from <= v < stop /\ (v - from) mod 4 = 0.
Proof.
  unfold strideSeq. rewrite in_map_iff. split.
  - intros (k & <- & Hk). apply in_seq in Hk. unfold strideCount in Hk.
    assert (Hk' : Z.of_nat k < (stop - from + 3) / 4) by lia.
    split; [Z.div_mod_to_equations; lia |].
    replace (from + 4 * Z.of_nat k - from) with (Z.of_nat k * 4) by lia.
    apply Z.mod_mul. lia.
  - intros [Hrange Hmod].
    exists (Z.to_nat ((v - from) / 4)).
    split; [Z.div_mod_to_equations; lia |].
    apply in_seq. unfold strideCount.
    split; [lia |]. cbn [Nat.add].
    apply Z2Nat.inj_lt; Z.div_mod_to_equations; lia.
Qed.

Lemma samplesOf_In xs ys x y :
  In (x, y) (samplesOf xs ys) <-> In x xs /\ In y ys.
Proof.
  unfold samplesOf. rewrite in_flat_map. split.
  - intros (y' & Hy & Hin). apply in_map_iff in Hin.
    destruct Hin as (x' & Heq & Hx). now inversion Heq; subst.
  - intros [Hx Hy]. exists y. split; [assumption |].
    apply in_map_iff. now exists x.
Qed.

(** The grid of the first pass: the pixels of the raster whose two
    coordinates are multiples of 4. *)
Lemma gridSamples_In w h x y :
  In (x, y) (gridSamples w h)
  <-> (0 <= x < w /\ x mod 4 = 0) /\ (0 <= y < h /\ y mod 4 = 0).
Proof.
  unfold gridSamples. rewrite samplesOf_In, !strideSeq_In, !Z.sub_0_r.
  reflexivity.
Qed.

(** ** Scoring with the time bonus *)

Lemma calculateScore_nonneg s : 0 <= GameScene.calculateScore s.
Proof. unfold GameScene.calculateScore. apply Z.le_max_l. Qed.

Lemma timeFactor_nonneg t :
  (0 <= t)%Q -> (Qmax 0 (t / GameScene.timeLimit) == t / GameScene.timeLimit)%Q.
Proof.
  intros Ht. apply Q.max_r. unfold GameScene.timeLimit.
  apply Qle_shift_div_l; [reflexivity | lra].
Qed.

Lemma finishRound_roundScore s :
  GameScene.roundScore (GameScene.finishRound s)
  = GameScene.calculateScore (GameScene.set_phase Scoring s).
Proof. reflexivity. Qed.

Lemma calculateScore_scoring s :
  GameScene.phase s = Scoring ->
  (0 <= GameScene.timer s)%Q ->
  GameScene.calculateScore s
  = timeBonusScore
      (GameScene.countSamples (targetRects (GameScene.mask s))
         (GameScene.coverage s))
      (GameScene.timer s) GameScene.timeLimit.
Proof.
  intros Hphase Htimer. unfold GameScene.calculateScore, timeBonusScore.
  rewrite Hphase, Math_round_clamp. apply Math_round_comp.
  rewrite (timeFactor_nonneg _ Htimer). reflexivity.
Qed.

(** C1. In [GameScene], whatever the mask and the coverage raster, the
    score computed at the end of a round (phase already [Scoring], timer
    never negative) is built from the three counters of the stride-4
    passes as [correct * 20 - falsePositive * 1.5 - missed * 0.5], plus a
    bonus of that subtotal times [timer / timeLimit] times 0.5 (nothing
    when the timer is 0), clamped below at 0 and rounded to the nearest
    integer.  The counters are the painted grid samples inside a target,
    the painted grid samples outside every target, and the unpainted
    samples of the rects' pixel ranges.  This is the [roundScore] that
    [finishRound] books. *)
Theorem C1_time_bonus_score (s : GameScene.State) :
  GameScene.phase s = Scoring ->
  (0 <= GameScene.timer s)%Q ->
  let cv := GameScene.coverage s in
  let w := Zpos (c_width cv) in
  let h := Zpos (c_height cv) in
  let rects := targetRects (GameScene.mask s) in
  let c := GameScene.countSamples rects cv in
  let sub :=
    (inject_Z (correct c) * 20 - inject_Z (falsePositive c) * (3 # 2)
     - inject_Z (missed c) * (1 # 2))%Q in
  let bonus :=
    (sub * (GameScene.timer s / GameScene.timeLimit) * (1 # 2))%Q in
  correct c = paintedInside (insidePixel rects w h) w h (c_data cv)
  /\ falsePositive c = paintedOutside (insidePixel rects w h) w h (c_data cv)
  /\ missed c = missedTotal w h (c_data cv) rects
  /\ GameScene.calculateScore s = Math_round (Qmax 0 (sub + bonus))
  /\ GameScene.calculateScore s
     = timeBonusScore c (GameScene.timer s) GameScene.timeLimit
  /\ ((GameScene.timer s == 0)%Q ->
      (bonus == 0)%Q /\ GameScene.calculateScore s = Math_round (Qmax 0 sub))
  /\ (inject_Z (GameScene.calculateScore s) - (1 # 2) <= Qmax 0 (sub + bonus)
      < inject_Z (GameScene.calculateScore s) + (1 # 2))%Q
  /\ (forall s0,
        (0 <= GameScene.timer s0)%Q ->
        GameScene.roundScore (GameScene.finishRound s0)
        = timeBonusScore
            (GameScene.countSamples (targetRects (GameScene.mask s0))
               (GameScene.coverage s0))
            (GameScene.timer s0) GameScene.timeLimit).
Proof.
  intros Hphase Htimer cv w h rects c sub bonus.
  assert (Hscore :
    GameScene.calculateScore s = Math_round (Qmax 0 (sub + bonus))).
  { rewrite (calculateScore_scoring s Hphase Htimer). reflexivity. }
  assert (Hc := countSamples_counts rects cv). fold c w h in Hc.
  assert (Hb : (GameScene.timer s == 0)%Q -> (bonus == 0)%Q).
  { intros H0. subst bonus. rewrite H0. unfold GameScene.timeLimit. field. }
  split; [rewrite Hc; reflexivity |].
  split; [rewrite Hc; reflexivity |].
  split; [rewrite Hc; reflexivity |].
  split; [exact Hscore |].
  split; [exact Hscore |].
  split.
  { intros H0. split; [auto |].
    rewrite Hscore. apply Math_round_comp.
    rewrite (Hb H0), Qplus_0_r. reflexivity. }
  split.
  { rewrite Hscore. apply Math_round_nearest. }
  intros s0 Ht0. rewrite finishRound_roundScore.
  apply (calculateScore_scoring (GameScene.set_phase Scoring s0)).
  - reflexivity.
  - exact Ht0.
Qed.

(** ** Degenerate rects in the missed-count loop *)

Lemma samplesOf_no_columns ys : samplesOf [] ys = [].
Proof. unfold samplesOf. induction ys; [reflexivity | assumption]. Qed.

Lemma Qceiling_whole q : isWhole q -> Qceiling q = Qfloor q.
Proof.
  unfold isWhole. intros H. unfold Qceiling.
  rewrite <- H at 1. rewrite <- inject_Z_opp, Qfloor_Z. lia.
Qed.

Lemma rect_no_width_aligned w r :
  (r_width r == 0)%Q -> isWhole (r_x r * inject_Z w) ->
  rectEndX w r = rectStartX w r.
Proof.
  intros Hw Hwhole. unfold rectEndX, rectStartX.
  rewrite <- (Qceiling_whole _ Hwhole). apply Qceiling_comp.
  rewrite Hw. ring.
Qed.

Lemma rect_no_height_aligned h r :
  (r_height r == 0)%Q -> isWhole (r_y r * inject_Z h) ->
  rectEndY h r = rectStartY h r.
Proof.
  intros Hh Hwhole. unfold rectEndY, rectStartY.
  rewrite <- (Qceiling_whole _ Hwhole). apply Qceiling_comp.
  rewrite Hh. ring.
Qed.

(** A rect whose pixel range is empty in one direction has no samples. *)
Lemma rectSamples_empty w h r :
  rectEndX w r <= rectStartX w r \/ rectEndY h r <= rectStartY h r ->
  rectSamples w h r = [].
Proof.
  unfold rectSamples. intros [Hx | Hy].
  - rewrite (strideSeq_done _ _ Hx). apply samplesOf_no_columns.
  - rewrite (strideSeq_done _ _ Hy). reflexivity.
Qed.

(** A zero-width rect that is not pixel-aligned still spans one column. *)
Lemma rect_no_width_unaligned w r :
  (r_width r == 0)%Q -> ~ isWhole (r_x r * inject_Z w) ->
  strideSeq (rectStartX w r) (rectEndX w r) = [rectStartX w r].
Proof.
  intros Hw Hfrac. unfold rectEndX, rectStartX.
  set (q := (r_x r * inject_Z w)%Q) in *.
  assert (Hc : Qceiling ((r_x r + r_width r) * inject_Z w) = Qceiling q).
  { apply Qceiling_comp. subst q. rewrite Hw. ring. }
  rewrite Hc.
  assert (Hlt : Qfloor q < Qceiling q).
  { pose proof (Qfloor_le q) as Hf. pose proof (Qle_ceiling q) as Hcl.
    destruct (Z.lt_ge_cases (Qfloor q) (Qceiling q)) as [| Hge];
      [assumption | exfalso].
    apply Hfrac. unfold isWhole. apply Qle_antisym; [assumption |].
    apply Qle_trans with (inject_Z (Qceiling q)); [assumption |].
    rewrite <- Zle_Qle. assumption. }
  assert (Hle : Qceiling q <= Qfloor q + 1).
  { pose proof (Qlt_floor q) as Hf. pose proof (Qceiling_lt q) as Hcl.
    assert (H : (inject_Z (Qceiling q - 1) < inject_Z (Qfloor q + 1))%Q)
      by (eapply Qlt_trans; eassumption).
    rewrite <- Zlt_Qlt in H. lia. }
  rewrite strideSeq_more by assumption.
  rewrite strideSeq_done by lia. reflexivity.
Qed.

(** C3 (as amended). A target rect of zero width whose left edge falls on
    a pixel boundary ([r.x * w] whole), or of zero height whose top edge
    falls on a pixel boundary ([r.y * h] whole), has an empty pixel range
    in the missed-count loop and leaves the counters as they were, for
    every coverage raster. *)
Theorem C3_zero_area_aligned w h data r c :
  ((r_width r == 0)%Q /\ isWhole (r_x r * inject_Z w))
  \/ ((r_height r == 0)%Q /\ isWhole (r_y r * inject_Z h)) ->
  rectSamples w h r = []
  /\ missedIn w h data r = 0
  /\ missedInRect w h data r c = c.
Proof.
  intros H.
  assert (Hempty : rectSamples w h r = []).
  { apply rectSamples_empty. destruct H as [[Hw Hx] | [Hh Hy]].
    - left. rewrite (rect_no_width_aligned w r Hw Hx). lia.
    - right. rewrite (rect_no_height_aligned h r Hh Hy). lia. }
  assert (Hzero : missedIn w h data r = 0).
  { unfold missedIn. rewrite Hempty. reflexivity. }
  repeat split; try assumption.
  rewrite missedInRect_counts, Hzero, Z.add_0_r. now destruct c.
Qed.

(** C3 (as stated) fails: on a cleared 4 x 4 raster the rect of zero
    width and zero height at (0.125, 0.125) has the pixel range
    [0, 1) x [0, 1), which holds the sample (0, 0), and it adds 1 to the
    missed count in [GameScene] and in [GameScene4] alike. *)
Lemma C3_point_rect_is_sampled :
  r_width pointRect = 0%Q
  /\ r_height pointRect = 0%Q
  /\ rectSamples 4 4 pointRect = [(0, 0)]
  /\ missed (missedInRect 4 4 (c_data (blank 4 4)) pointRect (mkCounts 0 0 0))
     = 1
  /\ missed (GameScene.countSamples [pointRect] (blank 4 4)) = 1
  /\ missed (GameScene4.countSamples [pointRect] (blank 4 4)) = 1.
Proof. vm_compute. repeat split; reflexivity. Qed.

(** ** A raster with nothing painted *)

Lemma isZero_not_painted v : isZero v = true -> GameScene2.isPainted v = false.
Proof. destruct v as [[| p | p] |]; simpl; intros H; try discriminate; reflexivity. Qed.

Lemma paintedPass2_counts rects w h data c :
  GameScene2.paintedPass2 rects w h data c
  = fold_left
      (fun c xy =>
         if negb (GameScene2.isPainted
                    (dataAt data ((snd xy * w + fst xy) * 4 + 3)))
         then c
         else if inTarget rects (inject_Z (fst xy) / inject_Z w)
                   (inject_Z (snd xy) / inject_Z h)
              then incCorrect c else incFalsePositive c)
      (gridSamples w h) c.
Proof.
  unfold GameScene2.paintedPass2, gridSamples.
  rewrite forRange_fold.
  rewrite <- (nested_fold
    (fun xy c =>
       if negb (GameScene2.isPainted
                  (dataAt data ((snd xy * w + fst xy) * 4 + 3)))
       then c
       else if inTarget rects (inject_Z (fst xy) / inject_Z w)
                 (inject_Z (snd xy) / inject_Z h)
            then incCorrect c else incFalsePositive c)).
  apply fold_left_pointwise. intros a y. rewrite forRange_fold. reflexivity.
Qed.

Lemma fold_left_all_skipped {A B : Type} (f : A -> B -> A) (l : list B) :
  (forall a b, In b l -> f a b = a) -> forall a, fold_left f l a = a.
Proof.
  induction l as [| b l IH]; intros Hskip a; [reflexivity |].
  cbn [fold_left]. rewrite Hskip by (left; reflexivity).
  apply IH. intros a' b' Hin. apply Hskip. now right.
Qed.

Lemma missedTotal_all w h data rects :
  forallb (fun r => forallb (unpainted w data) (rectSamples w h r)) rects
  = true ->
  missedTotal w h data rects = rectSampleTotal w h rects.
Proof.
  unfold missedTotal, rectSampleTotal.
  induction rects as [| r rects IH]; [reflexivity |].
  cbn [forallb map sumZ fold_right]. rewrite andb_true_iff. intros [Hr Hrest].
  unfold missedIn at 1. rewrite (countIf_all _ _ Hr).
  f_equal. apply IH. assumption.
Qed.

Lemma rectSamples_length w h r :
  List.length (rectSamples w h r)
  = (strideCount (rectStartY h r) (rectEndY h r)
     * strideCount (rectStartX w r) (rectEndX w r))%nat.
Proof.
  unfold rectSamples. now rewrite samplesOf_length, !strideSeq_length.
Qed.

(** C6. When every sample the two passes read has alpha 0, the counters
    end as [correct = 0], [falsePositive = 0] and [missed] = the number of
    stride-4 samples in the pixel ranges of the target rects, summed rect
    by rect (rows times columns of each range); in [GameScene] and in
    [GameScene2.scoreRedaction] alike. *)
Theorem C6_nothing_painted (mask : RedactionMask) (cv : Canvas) :
  let rects := targetRects mask in
  let w := Zpos (c_width cv) in
  let h := Zpos (c_height cv) in
  let data := c_data cv in
  forallb (unpainted w data) (gridSamples w h) = true ->
  forallb (fun r => forallb (unpainted w data) (rectSamples w h r)) rects
  = true ->
  GameScene.countSamples rects cv = mkCounts 0 (rectSampleTotal w h rects) 0
  /\ (let res := GameScene2.scoreRedaction cv mask in
      GameScene2.res_correct res = 0
      /\ GameScene2.res_falsePositive res = 0
      /\ GameScene2.res_missed res = rectSampleTotal w h rects)
  /\ rectSampleTotal w h rects
     = sumZ (map (fun r =>
                    Z.of_nat (strideCount (rectStartY h r) (rectEndY h r))
                    * Z.of_nat (strideCount (rectStartX w r) (rectEndX w r)))
               rects).
Proof.
  intros rects w h data Hgrid Hrects.
  assert (Hin : forall xy, In xy (gridSamples w h) ->
                           unpainted w data xy = true).
  { apply forallb_forall. exact Hgrid. }
  split; [| split].
  - rewrite countSamples_counts. fold w h data.
    rewrite (missedTotal_all _ _ _ _ Hrects).
    unfold paintedInside, paintedOutside.
    rewrite !countIf_none; [reflexivity | |];
      apply forallb_forall; intros xy Hxy; rewrite (Hin xy Hxy); reflexivity.
  - unfold GameScene2.scoreRedaction. fold rects w h data.
    cbn [GameScene2.res_correct GameScene2.res_falsePositive
         GameScene2.res_missed].
    rewrite missedPass_counts, paintedPass2_counts.
    rewrite fold_left_all_skipped.
    + cbn [correct missed falsePositive].
      rewrite (missedTotal_all _ _ _ _ Hrects). auto.
    + intros a xy Hxy. specialize (Hin xy Hxy). unfold unpainted in Hin.
      rewrite (isZero_not_painted _ Hin). reflexivity.
  - unfold rectSampleTotal. f_equal. apply map_ext. intros r.
    rewrite rectSamples_length. lia.
Qed.

(** Outside that premise: a rect reaching below the raster has samples
    whose read is [undefined]; they are in its pixel range but are not
    counted as missed. *)
Lemma sample_below_raster_not_missed :
  let tall := mkMaskRect 0 0 1 2 in
  rectSamples 4 4 tall = [(0, 0); (0, 4)]
  /\ dataAt (c_data (blank 4 4)) ((4 * 4 + 0) * 4 + 3) = None
  /\ missed (GameScene.countSamples [tall] (blank 4 4)) = 1.
Proof. vm_compute. repeat split; reflexivity. Qed.

(** ** Coordinate mapping *)

Lemma screenToDocument_inside l p :
  let x := ((pt_x p - offsetX l) / drawWidth l)%Q in
  let y := ((pt_y p - offsetY l) / drawHeight l)%Q in
  (0 <= x <= 1)%Q /\ (0 <= y <= 1)%Q ->
  GameScene.screenToDocument l p = Some (mkStrokePoint x y).
Proof.
  intros x y [[Hx0 Hx1] [Hy0 Hy1]]. unfold GameScene.screenToDocument.
  fold x y.
  rewrite (proj2 (Qltb_ge x 0) Hx0), (proj2 (Qltb_ge 1 x) Hx1),
          (proj2 (Qltb_ge y 0) Hy0), (proj2 (Qltb_ge 1 y) Hy1).
  reflexivity.
Qed.

Lemma screenToDocument_outside l p :
  let x := ((pt_x p - offsetX l) / drawWidth l)%Q in
  let y := ((pt_y p - offsetY l) / drawHeight l)%Q in
  ~ ((0 <= x <= 1)%Q /\ (0 <= y <= 1)%Q) ->
  GameScene.screenToDocument l p = None.
Proof.
  intros x y Hout. unfold GameScene.screenToDocument. fold x y.
  destruct (Qltb x 0) eqn:Ex0; [reflexivity |].
  destruct (Qltb 1 x) eqn:Ex1; [reflexivity |].
  destruct (Qltb y 0) eqn:Ey0; [reflexivity |].
  destruct (Qltb 1 y) eqn:Ey1; [reflexivity |].
  exfalso. apply Hout.
  apply Qltb_ge in Ex0, Ex1, Ey0, Ey1. auto.
Qed.

Lemma screenToDocument_some l p d :
  GameScene.screenToDocument l p = Some d ->
  d = mkStrokePoint ((pt_x p - offsetX l) / drawWidth l)
                    ((pt_y p - offsetY l) / drawHeight l)
  /\ inUnitSquare d.
Proof.
  unfold GameScene.screenToDocument.
  set (x := ((pt_x p - offsetX l) / drawWidth l)%Q).
  set (y := ((pt_y p - offsetY l) / drawHeight l)%Q).
  destruct (Qltb x 0) eqn:Ex0; [discriminate |].
  destruct (Qltb 1 x) eqn:Ex1; [discriminate |].
  destruct (Qltb y 0) eqn:Ey0; [discriminate |].
  destruct (Qltb 1 y) eqn:Ey1; [discriminate |].
  cbn [orb]. intros H. injection H as Hd. subst d. split; [reflexivity |].
  apply Qltb_ge in Ex0, Ex1, Ey0, Ey1.
  unfold inUnitSquare. cbn [sp_x sp_y]. auto.
Qed.

(** What an event can do to the stroke list: nothing, empty it, or
    append the document point of the pointer position. *)
Lemma update_strokes dt s :
  GameScene.strokes (GameScene.update dt s) = GameScene.strokes s.
Proof.
  unfold GameScene.update. destruct (GameScene.phase s); try reflexivity.
  cbv zeta.
  repeat match goal with
         | |- context [if ?b then _ else _] => destruct b
         end; reflexivity.
Qed.

Lemma loadNextMask_strokes s s' :
  GameScene.loadNextMask s = Some s' -> GameScene.strokes s' = [].
Proof.
  unfold GameScene.loadNextMask.
  destruct (nth_error _ _); [| discriminate].
  intros H. injection H as <-. reflexivity.
Qed.

Lemma resetGame_unfold s :
  GameScene.resetGame s
  = GameScene.loadNextMask
      (GameScene.set_coverage
         (clearRect
            (GameScene.coverage
               (GameScene.set_strokes []
                  (GameScene.set_currentMaskIndex 0%nat
                     (GameScene.set_totalScore 0
                        (GameScene.set_roundScore 0 s))))))
         (GameScene.set_strokes []
            (GameScene.set_currentMaskIndex 0%nat
               (GameScene.set_totalScore 0 (GameScene.set_roundScore 0 s))))).
Proof. reflexivity. Qed.

Lemma handle_strokes {ctx2d : Context2D} e s s' :
  GameScene.handle e s = Some s' ->
  GameScene.strokes s' = GameScene.strokes s
  \/ GameScene.strokes s' = []
  \/ exists l q d,
       GameScene.layout s = Some l
       /\ GameScene.screenToDocument l q = Some d
       /\ GameScene.strokes s' = GameScene.strokes s ++ [d].
Proof.
  assert (Hpush : forall q,
            (GameScene.startStroke q s = Some s'
             \/ GameScene.addStroke q s = Some s') ->
            GameScene.strokes s' = GameScene.strokes s
            \/ GameScene.strokes s' = []
            \/ exists l q d,
                 GameScene.layout s = Some l
                 /\ GameScene.screenToDocument l q = Some d
                 /\ GameScene.strokes s' = GameScene.strokes s ++ [d]).
  { intros q. unfold GameScene.startStroke, GameScene.addStroke.
    destruct (GameScene.layout s) as [l |]; [| intros [H | H]; discriminate].
    destruct (GameScene.screenToDocument l q) as [d |] eqn:Ed.
    - intros [H | H]; injection H as <-; right; right;
        exists l, q, d; auto.
    - intros [H | H]; injection H as <-; left; reflexivity. }
  destruct e as [dt | uw uh | rw rh | iw ih rw rh | q | q | | key |];
    cbn [GameScene.handle]; intros Hstep.
  - injection Hstep as <-. left. apply update_strokes.
  - injection Hstep as <-. left. unfold GameScene.render.
    destruct (_ || _); [reflexivity |].
    destruct s as [? ? ? ? ? ? ? ? ph ? ? ? ? ? ? ? ? ? ? ? ? ?].
    destruct ph; reflexivity.
  - injection Hstep as <-. left. unfold GameScene.onResize.
    destruct (negb _); reflexivity.
  - injection Hstep as <-. left. reflexivity.
  - unfold GameScene.onPointerDown in Hstep.
    destruct (GameScene.phase s).
    + destruct (GameScene.hits q _); injection Hstep as <-;
        [right; left | left]; reflexivity.
    + destruct (GameScene.hits q _).
      * injection Hstep as <-. left. reflexivity.
      * apply (Hpush q). auto.
    + destruct (GameScene.hits q (GameScene.continueButton s)).
      * right. left. apply (loadNextMask_strokes _ _ Hstep).
      * destruct (GameScene.hits q _); injection Hstep as <-;
          [right; left | left]; reflexivity.
  - unfold GameScene.onPointerMove in Hstep.
    destruct (_ || _).
    + injection Hstep as <-. left. reflexivity.
    + apply (Hpush q). auto.
  - injection Hstep as <-. left. reflexivity.
  - injection Hstep as <-. left. unfold GameScene.onKeyDown.
    destruct (GameScene.isKeyD key); reflexivity.
  - right. left. rewrite resetGame_unfold in Hstep.
    apply (loadNextMask_strokes _ _ Hstep).
Qed.

(** C4. For a layout with positive [drawWidth] and [drawHeight],
    [screenToDocument] returns the point
    [((p.x - offsetX) / drawWidth, (p.y - offsetY) / drawHeight)] when
    both coordinates lie in [0, 1] and [null] otherwise; consequently an
    event handled under such a layout keeps every recorded stroke point
    inside the unit square. *)
Theorem C4_strokes_stay_in_document {ctx2d : Context2D}
    (l : DocumentLayout) (p : Point) :
  (0 < drawWidth l)%Q -> (0 < drawHeight l)%Q ->
  let x := ((pt_x p - offsetX l) / drawWidth l)%Q in
  let y := ((pt_y p - offsetY l) / drawHeight l)%Q in
  ((0 <= x <= 1)%Q /\ (0 <= y <= 1)%Q ->
   GameScene.screenToDocument l p = Some (mkStrokePoint x y))
  /\ (~ ((0 <= x <= 1)%Q /\ (0 <= y <= 1)%Q) ->
      GameScene.screenToDocument l p = None)
  /\ (forall s e s',
        GameScene.layout s = Some l ->
        Forall inUnitSquare (GameScene.strokes s) ->
        GameScene.handle e s = Some s' ->
        Forall inUnitSquare (GameScene.strokes s')).
Proof.
  intros Hw Hh x y.
  split; [apply screenToDocument_inside |].
  split; [apply screenToDocument_outside |].
  intros s e s' Hl Hin Hstep.
  destruct (handle_strokes e s s' Hstep) as [-> | [-> | (l' & q & d & _ & Hd & ->)]].
  - assumption.
  - constructor.
  - apply Forall_app. split; [assumption |].
    constructor; [| constructor].
    apply (screenToDocument_some l' q d Hd).
Qed.

(** ** Arithmetic with rounding *)

Section Rounded.
Import Binary64.
Context {R : Rounding}.
Local Abbreviation u := unitRoundoff.

(** The standard model: the rounded value is the exact one times
    [1 + d] with [|d| <= u]. *)
Lemma fl_rel (x : Q) :
  exists d : Q, (- u <= d)%Q /\ (d <= u)%Q /\ (fl x == x * (1 + d))%Q.
Proof.
  pose proof (fl_error x) as He.
  destruct (Qeq_dec x 0) as [Hz | Hnz].
  - exists 0%Q. split; [unfold u; lra |]. split; [unfold u; lra |].
    assert (Ha : (Qabs x == 0)%Q) by (rewrite Hz; reflexivity).
    apply Qabs_Qle_condition in He. unfold unitRoundoff in He. lra.
  - exists ((fl x - x) / x)%Q.
    assert (Hax : (0 < Qabs x)%Q).
    { destruct (Qlt_le_dec 0 x) as [Hp | Hn].
      - rewrite Qabs_pos; lra.
      - rewrite Qabs_neg by exact Hn.
        destruct (Qeq_dec x 0); [contradiction | lra]. }
    assert (Hd : (Qabs ((fl x - x) / x) <= u)%Q).
    { unfold Qdiv. rewrite Qabs_Qmult, Qabs_Qinv.
      apply Qle_shift_div_r; [exact Hax | exact He]. }
    apply Qabs_Qle_condition in Hd. destruct Hd as [Hd1 Hd2].
    split; [exact Hd1 |]. split; [exact Hd2 |]. field. exact Hnz.
Qed.

Lemma fl_pos (x : Q) : (0 < x)%Q -> (0 < fl x)%Q.
Proof.
  intros Hx. destruct (fl_rel x) as (d & Hd1 & Hd2 & E).
  rewrite E. unfold unitRoundoff in *. nra.
Qed.

Lemma Qabs_le_mult (x y a b : Q) :
  (Qabs x <= a)%Q -> (Qabs y <= b)%Q -> (Qabs (x * y) <= a * b)%Q.
Proof.
  intros Hx Hy. rewrite Qabs_Qmult.
  pose proof (Qabs_nonneg x). pose proof (Qabs_nonneg y).
  apply Qle_trans with (a * Qabs y)%Q.
  - apply Qmult_le_compat_r; assumption.
  - rewrite (Qmult_comm a (Qabs y)), (Qmult_comm a b).
    apply Qmult_le_compat_r; lra.
Qed.

(** Two roundings in sequence. *)
Lemma rel_compose (b t d : Q) :
  (0 <= b)%Q -> (- b <= t)%Q -> (t <= b)%Q -> (- u <= d)%Q -> (d <= u)%Q ->
  (- (b + u + b * u) <= (1 + t) * (1 + d) - 1)%Q
  /\ ((1 + t) * (1 + d) - 1 <= b + u + b * u)%Q.
Proof.
  unfold unitRoundoff. intros Hb Ht1 Ht2 Hd1 Hd2. split; nra.
Qed.

(** *** The coordinate mapping, one coordinate at a time *)

(** Screen to document and back: [p] is the screen coordinate, [o] the
    offset and [w] the drawn size. *)
Lemma round_trip_coordinate (p o w : Q) :
  (0 < w)%Q ->
  (Qabs (add (mul (div (sub p o) w) w) o - p)
   <= u * (Qabs p + 4 * Qabs (p - o)))%Q.
Proof.
  intros Hw. unfold add, mul, div, sub.
  destruct (fl_rel (p - o)) as (d1 & Hd1 & Hd1' & E1).
  destruct (fl_rel (fl (p - o) / w)) as (d2 & Hd2 & Hd2' & E2).
  destruct (fl_rel (fl (fl (p - o) / w) * w)) as (d3 & Hd3 & Hd3' & E3).
  destruct (fl_rel (fl (fl (fl (p - o) / w) * w) + o)) as (d4 & Hd4 & Hd4' & E4).
  rewrite E4, E3, E2, E1.
  set (t := ((1 + d1) * (1 + d2) * (1 + d3) - 1)%Q).
  assert (Ht : (Qabs t <= 3 * u + 3 * u * u + u * u * u)%Q).
  { apply Qabs_Qle_condition.
    destruct (rel_compose u d1 d2) as [A1 A2]; try assumption;
      [unfold unitRoundoff; lra |].
    destruct (rel_compose (u + u + u * u) ((1 + d1) * (1 + d2) - 1) d3)
      as [B1 B2]; try assumption; [unfold unitRoundoff; lra |].
    unfold t.
    setoid_replace ((1 + d1) * (1 + d2) * (1 + d3) - 1)%Q
      with ((1 + ((1 + d1) * (1 + d2) - 1)) * (1 + d3) - 1)%Q by ring.
    unfold unitRoundoff in *. split; lra. }
  assert (Hd4a : (Qabs d4 <= u)%Q) by (apply Qabs_Qle_condition; split; assumption).
  assert (Hd4b : (Qabs (1 + d4) <= 1 + u)%Q).
  { apply Qabs_Qle_condition. unfold unitRoundoff in *. split; lra. }
  setoid_replace (((p - o) * (1 + d1) / w * (1 + d2) * w * (1 + d3) + o)
                  * (1 + d4) - p)%Q
    with ((p - o) * (t * (1 + d4)) + p * d4)%Q by (unfold t; field; lra).
  eapply Qle_trans; [apply Qabs_triangle |].
  pose proof (Qabs_le_mult _ _ _ _ Ht Hd4b) as H1.
  pose proof (Qabs_le_mult (p - o) _ _ _ (Qle_refl _) H1) as H2.
  pose proof (Qabs_le_mult p _ _ _ (Qle_refl _) Hd4a) as H3.
  pose proof (Qabs_nonneg (p - o)) as Ha. pose proof (Qabs_nonneg p) as Hp.
  set (A := Qabs (p - o)) in *. set (P := Qabs p) in *.
  assert (Hc : ((3 * u + 3 * u * u + u * u * u) * (1 + u) <= 4 * u)%Q)
    by (vm_compute; discriminate).
  set (c := ((3 * u + 3 * u * u + u * u * u) * (1 + u))%Q) in *.
  assert (H4 : (A * c <= A * (4 * u))%Q).
  { rewrite (Qmult_comm A c), (Qmult_comm A (4 * u)).
    apply Qmult_le_compat_r; assumption. }
  unfold unitRoundoff in *. lra.
Qed.

(** The normalized coordinate times the drawn size is the distance to
    the near edge, off by two roundings. *)
Lemma coordinate_rel (p o w : Q) :
  (0 < w)%Q ->
  exists k : Q, (1 - 3 * u <= k)%Q /\ (k <= 1 + 3 * u)%Q
    /\ (div (sub p o) w * w == (p - o) * k)%Q.
Proof.
  intros Hw. unfold div, sub.
  destruct (fl_rel (p - o)) as (d1 & Hd1 & Hd1' & E1).
  destruct (fl_rel (fl (p - o) / w)) as (d2 & Hd2 & Hd2' & E2).
  exists ((1 + d1) * (1 + d2))%Q.
  destruct (rel_compose u d1 d2) as [A1 A2]; try assumption;
    [unfold unitRoundoff; lra |].
  split; [unfold unitRoundoff in *; lra |].
  split; [unfold unitRoundoff in *; lra |].
  rewrite E2, E1. field. lra.
Qed.

Lemma coordinate_accepted (p o w : Q) :
  (0 < w)%Q ->
  Qltb (div (sub p o) w) 0 = false -> Qltb 1 (div (sub p o) w) = false ->
  (o <= p)%Q /\ ((p - o) * (1 - 3 * u) <= w)%Q.
Proof.
  intros Hw H0 H1.
  destruct (coordinate_rel p o w Hw) as (k & Hk1 & Hk2 & E).
  set (x := div (sub p o) w) in *.
  unfold Qltb in H0, H1. apply negb_false_iff, Qle_bool_iff in H0, H1.
  unfold unitRoundoff in *.
  assert (Ha : (0 <= p - o)%Q) by nra.
  split; [lra | nra].
Qed.

Lemma coordinate_inside (p o w : Q) :
  (0 < w)%Q -> (o <= p)%Q -> ((p - o) * (1 + 3 * u) <= w)%Q ->
  Qltb (div (sub p o) w) 0 = false /\ Qltb 1 (div (sub p o) w) = false.
Proof.
  intros Hw H0 H1.
  destruct (coordinate_rel p o w Hw) as (k & Hk1 & Hk2 & E).
  set (x := div (sub p o) w) in *.
  unfold Qltb. rewrite !negb_false_iff, !Qle_bool_iff.
  unfold unitRoundoff in *. split; nra.
Qed.

End Rounded.

(** ** Round trip of the coordinate mapper *)

Lemma screenToDocument64_some {R : Binary64.Rounding} l p d :
  GameScene64.screenToDocument l p = Some d ->
  d = mkStrokePoint
        (Binary64.div (Binary64.sub (pt_x p) (offsetX l)) (drawWidth l))
        (Binary64.div (Binary64.sub (pt_y p) (offsetY l)) (drawHeight l))
  /\ Qltb (sp_x d) 0 = false /\ Qltb 1 (sp_x d) = false
  /\ Qltb (sp_y d) 0 = false /\ Qltb 1 (sp_y d) = false.
Proof.
  unfold GameScene64.screenToDocument.
  set (x := Binary64.div (Binary64.sub (pt_x p) (offsetX l)) (drawWidth l)).
  set (y := Binary64.div (Binary64.sub (pt_y p) (offsetY l)) (drawHeight l)).
  destruct (Qltb x 0) eqn:Ex0; [discriminate |].
  destruct (Qltb 1 x) eqn:Ex1; [discriminate |].
  destruct (Qltb y 0) eqn:Ey0; [discriminate |].
  destruct (Qltb 1 y) eqn:Ey1; [discriminate |].
  cbn [orb]. intros H. injection H as Hd. subst d. cbn [sp_x sp_y]. auto.
Qed.

Lemma tolerance_covers (p o w : Q) :
  (o <= p)%Q -> ((p - o) * (1 - 3 * Binary64.unitRoundoff) <= w)%Q ->
  (Binary64.unitRoundoff * (Qabs p + 4 * Qabs (p - o))
   <= roundTripTolerance o w)%Q.
Proof.
  intros H0 H1. unfold roundTripTolerance.
  rewrite (Qabs_pos (p - o)) by lra.
  assert (Hp : (Qabs p <= Qabs o + (p - o))%Q).
  { setoid_replace p with (o + (p - o))%Q at 1 by ring.
    eapply Qle_trans; [apply Qabs_triangle |].
    rewrite (Qabs_pos (p - o)) by lra. lra. }
  unfold Binary64.unitRoundoff in *. lra.
Qed.

(** C5. Round trip of the coordinate mapper in binary64 arithmetic: for
    a layout with positive [drawWidth] and [drawHeight], a screen point
    that [screenToDocument] maps inside the document comes back from
    [documentToScreen] within [roundTripTolerance] of where it started,
    in each coordinate: at most [2^-53] times the size of the offset
    plus six times the drawn size.  The two points need not be equal. *)
Theorem C5_round_trip {R : Binary64.Rounding}
    (l : DocumentLayout) (p : Point) (d : StrokePoint) :
  (0 < drawWidth l)%Q -> (0 < drawHeight l)%Q ->
  GameScene64.screenToDocument l p = Some d ->
  (Qabs (pt_x (GameScene64.documentToScreen l d) - pt_x p)
   <= roundTripTolerance (offsetX l) (drawWidth l))%Q
  /\ (Qabs (pt_y (GameScene64.documentToScreen l d) - pt_y p)
      <= roundTripTolerance (offsetY l) (drawHeight l))%Q.
Proof.
  intros Hw Hh Hd.
  destruct (screenToDocument64_some l p d Hd) as (-> & X0 & X1 & Y0 & Y1).
  cbn [sp_x sp_y] in X0, X1, Y0, Y1.
  unfold GameScene64.documentToScreen. cbn [sp_x sp_y pt_x pt_y].
  destruct (coordinate_accepted _ _ _ Hw X0 X1) as [Hx0 Hx1].
  destruct (coordinate_accepted _ _ _ Hh Y0 Y1) as [Hy0 Hy1].
  split.
  - eapply Qle_trans; [apply round_trip_coordinate; exact Hw |].
    apply tolerance_covers; assumption.
  - eapply Qle_trans; [apply round_trip_coordinate; exact Hh |].
    apply tolerance_covers; assumption.
Qed.

(** ** The countdown *)

(** Outside the Redacting phase [update] does nothing. *)
Lemma update_idle dt s :
  GameScene.phase s <> Redacting -> GameScene.update dt s = s.
Proof.
  unfold GameScene.update. destruct (GameScene.phase s); congruence.
Qed.

(** A tick that leaves time on the clock only moves the timer (and may
    ask for a redraw). *)
Lemma update_running dt s :
  GameScene.phase s = Redacting ->
  Qle_bool (GameScene.timer s - dt) 0 = false ->
  let s' := GameScene.update dt s in
  GameScene.phase s' = Redacting
  /\ GameScene.timer s' = (GameScene.timer s - dt)%Q
  /\ GameScene.totalScore s' = GameScene.totalScore s
  /\ GameScene.roundScore s' = GameScene.roundScore s.
Proof.
  intros Hphase Hleft. unfold GameScene.update. rewrite Hphase.
  cbv zeta. scene_fields. rewrite Hleft.
  destruct (negb _); scene_fields; auto.
Qed.

Lemma set_needsRedraw_twice b s :
  GameScene.set_needsRedraw b (GameScene.set_needsRedraw b s)
  = GameScene.set_needsRedraw b s.
Proof. reflexivity. Qed.

(** The tick that exhausts the clock sets the timer to 0 and finishes the
    round. *)
Lemma update_crossing dt s :
  GameScene.phase s = Redacting ->
  Qle_bool (GameScene.timer s - dt) 0 = true ->
  GameScene.update dt s = GameScene.finishRound (GameScene.set_timer 0 s).
Proof.
  intros Hphase Hout. unfold GameScene.update. rewrite Hphase.
  cbv zeta. scene_fields. rewrite Hout.
  change (GameScene.set_timer 0 (GameScene.set_timer (GameScene.timer s - dt) s))
    with (GameScene.set_timer 0 s).
  destruct (negb _); [| reflexivity].
  unfold GameScene.finishRound. cbv zeta. apply set_needsRedraw_twice.
Qed.

Lemma finishRound_effect s :
  let s' := GameScene.finishRound s in
  GameScene.phase s' = Scoring
  /\ GameScene.timer s' = GameScene.timer s
  /\ GameScene.roundScore s'
     = GameScene.calculateScore (GameScene.set_phase Scoring s)
  /\ GameScene.totalScore s' = GameScene.totalScore s + GameScene.roundScore s'.
Proof. cbv zeta. unfold GameScene.finishRound. scene_fields. auto. Qed.

Lemma updates_idle dts s :
  GameScene.phase s <> Redacting -> GameScene.updates dts s = s.
Proof.
  intros H. unfold GameScene.updates.
  induction dts as [| dt dts IH]; [reflexivity |].
  cbn [fold_left]. now rewrite update_idle.
Qed.

Lemma updateTrace_idle dts s :
  GameScene.phase s <> Redacting ->
  roundEnds (GameScene.phase s) (GameScene.updateTrace dts s) = O.
Proof.
  intros H. induction dts as [| dt dts IH]; [reflexivity |].
  cbn [GameScene.updateTrace roundEnds]. rewrite update_idle by assumption.
  rewrite IH. destruct (GameScene.phase s); reflexivity.
Qed.

Lemma updates_cons dt dts s :
  GameScene.updates (dt :: dts) s
  = GameScene.updates dts (GameScene.update dt s).
Proof. reflexivity. Qed.

(** A run of ticks from the Redacting phase: either the clock runs out,
    and then the round has ended exactly once; or it has not, and the
    round is still going. *)
Lemma updates_outcome dts :
  forall s,
    GameScene.phase s = Redacting ->
    let s' := GameScene.updates dts s in
    let ends := roundEnds Redacting (GameScene.updateTrace dts s) in
    if runsOut (GameScene.timer s) dts
    then GameScene.phase s' = Scoring
         /\ GameScene.timer s' = 0%Q
         /\ ends = 1%nat
         /\ GameScene.totalScore s'
            = GameScene.totalScore s + GameScene.roundScore s'
    else GameScene.phase s' = Redacting
         /\ ends = 0%nat
         /\ GameScene.totalScore s' = GameScene.totalScore s
         /\ GameScene.roundScore s' = GameScene.roundScore s.
Proof.
  induction dts as [| dt dts IH]; intros s Hphase; cbv zeta.
  - cbn. auto.
  - rewrite updates_cons. cbn [runsOut GameScene.updateTrace roundEnds].
    destruct (Qle_bool (GameScene.timer s - dt) 0) eqn:Hout; cbn [orb].
    + rewrite (update_crossing dt s Hphase Hout).
      destruct (finishRound_effect (GameScene.set_timer 0 s))
        as (Hp & Ht & _ & Htot). cbv zeta in Hp, Ht, Htot.
      remember (GameScene.finishRound (GameScene.set_timer 0 s)) as s1.
      assert (Hidle : GameScene.phase s1 <> Redacting) by congruence.
      rewrite (updates_idle dts s1 Hidle).
      rewrite Hp.
      pose proof (updateTrace_idle dts s1 Hidle) as Hends.
      rewrite Hp in Hends. rewrite Hends.
      split; [reflexivity |].
      split; [exact Ht |].
      split; [reflexivity |].
      exact Htot.
    + destruct (update_running dt s Hphase Hout) as (Hp & Ht & Htot & Hrs).
      specialize (IH (GameScene.update dt s) Hp). cbv zeta in IH.
      rewrite Ht in IH. rewrite Hp.
      destruct (runsOut (GameScene.timer s - dt) dts).
      * destruct IH as (H1 & H2 & H3 & H4).
        repeat split; auto; congruence.
      * destruct IH as (H1 & H2 & H3 & H4).
        repeat split; auto; congruence.
Qed.

(** When does a clock at [t] run out under [k] ticks of one second? *)
Lemma runsOut_seconds k :
  forall t,
    runsOut t (repeat 1%Q k) = true
    <-> (1 <= k)%nat /\ (t <= inject_Z (Z.of_nat k))%Q.
Proof.
  induction k as [| k IH]; intros t.
  - cbn. split; [discriminate | lia].
  - cbn [repeat runsOut]. rewrite orb_true_iff, Qle_bool_iff, IH.
    rewrite Nat2Z.inj_succ, <- Z.add_1_r, inject_Z_plus.
    change (inject_Z 1) with 1%Q.
    split.
    + intros [H | [H1 H2]]; split; try lia; try lra.
      assert ((0 <= inject_Z (Z.of_nat k))%Q).
      { rewrite <- (Zle_Qle 0). lia. }
      lra.
    + intros [_ H]. destruct k as [| k'].
      * left. change (inject_Z (Z.of_nat 0)) with 0%Q in H. lra.
      * right. split; [lia | lra].
Qed.

Lemma runsOut_app t dts more :
  runsOut t dts = true -> runsOut t (dts ++ more) = true.
Proof.
  revert t. induction dts as [| dt dts IH]; intros t; [discriminate |].
  cbn [runsOut app]. rewrite !orb_true_iff. intros [H | H]; auto.
Qed.

Lemma startRedaction_ready s0 :
  GameScene.phase (GameScene.startRedaction s0) = Redacting
  /\ GameScene.timer (GameScene.startRedaction s0) = GameScene.timeLimit.
Proof. split; reflexivity. Qed.

(** C2. From the Redacting phase, once repeated [update] calls bring the
    timer to 0 or below, the timer is exactly 0, the phase is Scoring,
    the Redacting-to-Scoring step has been taken exactly once however
    many further updates follow, and [totalScore] has grown by the one
    [roundScore].  In particular a round started with [timeLimit = 30]
    and ticked by one second per update is still Redacting after each of
    the first 29 ticks and turns to Scoring on the 30th, once. *)
Theorem C2_round_ends_once (s : GameScene.State) (dts : list Q) :
  GameScene.phase s = Redacting ->
  runsOut (GameScene.timer s) dts = true ->
  (let s' := GameScene.updates dts s in
   GameScene.timer s' = 0%Q
   /\ GameScene.phase s' = Scoring
   /\ roundEnds Redacting (GameScene.updateTrace dts s) = 1%nat
   /\ GameScene.totalScore s'
      = GameScene.totalScore s + GameScene.roundScore s'
   /\ (forall more,
         GameScene.updates (dts ++ more) s = s'
         /\ roundEnds Redacting (GameScene.updateTrace (dts ++ more) s)
            = 1%nat))
  /\ (forall s0 k,
        (k <= 30)%nat ->
        let r := GameScene.startRedaction s0 in
        GameScene.phase (GameScene.updates (repeat 1%Q k) r)
        = (if (k <? 30)%nat then Redacting else Scoring)
        /\ roundEnds Redacting (GameScene.updateTrace (repeat 1%Q k) r)
           = (if (k <? 30)%nat then 0%nat else 1%nat)).
Proof.
  intros Hphase Hout. split.
  - cbv zeta.
    pose proof (updates_outcome dts s Hphase) as H. cbv zeta in H.
    rewrite Hout in H. destruct H as (Hp & Ht & Hends & Htot).
    repeat (split; [assumption |]).
    intros more. split.
    + unfold GameScene.updates. rewrite fold_left_app.
      apply updates_idle. fold (GameScene.updates dts s). congruence.
    + pose proof (updates_outcome (dts ++ more) s Hphase) as H.
      cbv zeta in H. rewrite (runsOut_app _ _ more Hout) in H. apply H.
  - intros s0 k Hk r.
    destruct (startRedaction_ready s0) as [Hp Ht]. fold r in Hp, Ht.
    pose proof (updates_outcome (repeat 1%Q k) r Hp) as H. cbv zeta in H.
    rewrite Ht in H. unfold GameScene.timeLimit in H.
    pose proof (runsOut_seconds k 30) as Hsec.
    destruct (Nat.ltb_spec k 30) as [Hlt | Hge].
    + destruct (runsOut 30 (repeat 1%Q k)).
      * exfalso. destruct Hsec as [Hsec _].
        destruct (Hsec eq_refl) as [_ Hle].
        change 30%Q with (inject_Z 30) in Hle.
        rewrite <- Zle_Qle in Hle. lia.
      * destruct H as (H1 & H2 & _). auto.
    + assert (Hk30 : k = 30%nat) by lia. subst k.
      destruct (runsOut 30 (repeat 1%Q 30)).
      * destruct H as (H1 & _ & H2 & _). auto.
      * exfalso. destruct Hsec as [_ Hsec].
        assert (false = true); [| discriminate].
        apply Hsec. split; [lia |].
        change 30%Q with (inject_Z 30). rewrite <- Zle_Qle. lia.
Qed.

(** ** Scores across events *)

Lemma loadNextMask_scores s s' :
  GameScene.loadNextMask s = Some s' ->
  GameScene.totalScore s' = GameScene.totalScore s
  /\ GameScene.roundScore s' = GameScene.roundScore s
  /\ GameScene.phase s' = Prompt.
Proof.
  unfold GameScene.loadNextMask.
  destruct (nth_error _ _); [| discriminate].
  intros H. injection H as <-.
  destruct (_ <=? _)%nat; auto.
Qed.

Lemma stroke_scores {ctx2d : Context2D} q s s' :
  GameScene.startStroke q s = Some s' \/ GameScene.addStroke q s = Some s' ->
  GameScene.totalScore s' = GameScene.totalScore s
  /\ GameScene.roundScore s' = GameScene.roundScore s
  /\ GameScene.phase s' = GameScene.phase s.
Proof.
  unfold GameScene.startStroke, GameScene.addStroke.
  destruct (GameScene.layout s) as [l |]; [| intros [H | H]; discriminate].
  destruct (GameScene.screenToDocument l q);
    intros [H | H]; injection H as <-; auto.
Qed.

Lemma finishRound_scores s :
  GameScene.phase (GameScene.finishRound s) = Scoring
  /\ GameScene.totalScore (GameScene.finishRound s)
     = GameScene.totalScore s + GameScene.roundScore (GameScene.finishRound s)
  /\ 0 <= GameScene.roundScore (GameScene.finishRound s).
Proof.
  destruct (finishRound_effect s) as (Hp & _ & Hr & Ht). cbv zeta in *.
  split; [exact Hp |]. split; [exact Ht |].
  rewrite Hr. apply calculateScore_nonneg.
Qed.

Ltac unchanged H :=
  apply H; auto;
  solve [ left; congruence | right; left; congruence
        | right; right; congruence ].

(** What one event does to the scores: it books a round (Redacting to
    Scoring, [totalScore] grows by the new non-negative [roundScore]), or
    it resets the session (both scores 0), or it leaves both alone. *)
Lemma handle_scores {ctx2d : Context2D} e s s' :
  GameScene.handle e s = Some s' ->
  (resetsSession e s = false /\ endsRound s s' = true
   /\ GameScene.totalScore s' = GameScene.totalScore s + GameScene.roundScore s'
   /\ 0 <= GameScene.roundScore s')
  \/ (resetsSession e s = true
      /\ GameScene.totalScore s' = 0 /\ GameScene.roundScore s' = 0)
  \/ (resetsSession e s = false /\ endsRound s s' = false
      /\ GameScene.totalScore s' = GameScene.totalScore s
      /\ GameScene.roundScore s' = GameScene.roundScore s).
Proof.
  assert (Hfin : forall s0,
            GameScene.phase s = Redacting ->
            GameScene.totalScore s0 = GameScene.totalScore s ->
            endsRound s (GameScene.finishRound s0) = true
            /\ GameScene.totalScore (GameScene.finishRound s0)
               = GameScene.totalScore s
                 + GameScene.roundScore (GameScene.finishRound s0)
            /\ 0 <= GameScene.roundScore (GameScene.finishRound s0)).
  { intros s0 Hp Ht. destruct (finishRound_scores s0) as (H1 & H2 & H3).
    unfold endsRound. rewrite Hp, H1, H2, Ht. auto. }
  assert (Hsame : forall s1,
            GameScene.totalScore s1 = GameScene.totalScore s ->
            GameScene.roundScore s1 = GameScene.roundScore s ->
            GameScene.phase s1 = GameScene.phase s
            \/ GameScene.phase s <> Redacting
            \/ GameScene.phase s1 <> Scoring ->
            endsRound s s1 = false
            /\ GameScene.totalScore s1 = GameScene.totalScore s
            /\ GameScene.roundScore s1 = GameScene.roundScore s).
  { intros s1 Ht Hr Hp. repeat split; try assumption.
    unfold endsRound.
    destruct (GameScene.phase s), (GameScene.phase s1); try reflexivity;
      destruct Hp as [Hp | [Hp | Hp]]; congruence. }
  destruct e as [dt | uw uh | rw rh | iw ih rw rh | q | q | | key |];
    cbn [GameScene.handle resetsSession]; intros Hstep.
  - injection Hstep as <-.
    destruct (GameScene.phase s) eqn:Hp;
      try (right; right; split; [reflexivity |];
           rewrite update_idle by congruence;
           unchanged Hsame).
    destruct (Qle_bool (GameScene.timer s - dt) 0) eqn:Hout.
    + left. split; [reflexivity |].
      rewrite (update_crossing dt s Hp Hout). apply Hfin; auto.
    + right. right. split; [reflexivity |].
      destruct (update_running dt s Hp Hout) as (H1 & _ & H2 & H3).
      unchanged Hsame.
  - injection Hstep as <-. right. right. split; [reflexivity |].
    unfold GameScene.render. destruct (_ || _); [unchanged Hsame |].
    destruct s as [? ? ? ? ? ? ? ? ph ? ? ? ? ? ? ? ? ? ? ? ? ?].
    destruct ph; unchanged Hsame.
  - injection Hstep as <-. right. right. split; [reflexivity |].
    unfold GameScene.onResize. destruct (negb _); unchanged Hsame.
  - injection Hstep as <-. right. right. split; [reflexivity |].
    unchanged Hsame.
  - unfold GameScene.onPointerDown in Hstep.
    destruct (GameScene.phase s) eqn:Hp.
    + right. right. split; [reflexivity |].
      destruct (GameScene.hits q _); injection Hstep as <-;
        unchanged Hsame.
    + destruct (GameScene.hits q _).
      * injection Hstep as <-. left. split; [reflexivity |].
        apply Hfin; auto.
      * right. right. split; [reflexivity |].
        destruct (stroke_scores q s s' (or_introl Hstep)) as (H1 & H2 & H3).
        unchanged Hsame.
    + destruct (GameScene.hits q (GameScene.continueButton s)).
      * right. right. split; [reflexivity |].
        destruct (loadNextMask_scores s s' Hstep) as (H1 & H2 & H3).
        unchanged Hsame.
      * destruct (GameScene.hits q (GameScene.exitButton s));
          injection Hstep as <-.
        -- right. left. repeat split; reflexivity.
        -- right. right. split; [reflexivity |]. unchanged Hsame.
  - right. right. split; [reflexivity |].
    unfold GameScene.onPointerMove in Hstep. destruct (_ || _).
    + injection Hstep as <-. unchanged Hsame.
    + destruct (stroke_scores q s s' (or_intror Hstep)) as (H1 & H2 & H3).
      unchanged Hsame.
  - injection Hstep as <-. right. right. split; [reflexivity |].
    unchanged Hsame.
  - injection Hstep as <-. right. right. split; [reflexivity |].
    unfold GameScene.onKeyDown. destruct (GameScene.isKeyD key);
      unchanged Hsame.
  - right. left. split; [reflexivity |].
    rewrite resetGame_unfold in Hstep.
    destruct (loadNextMask_scores _ _ Hstep) as (H1 & H2 & _).
    rewrite H1, H2. split; reflexivity.
Qed.

Lemma sumZ_app l v : sumZ (l ++ [v]) = sumZ l + v.
Proof.
  unfold sumZ. induction l as [| a l IH]; cbn [app fold_right]; lia.
Qed.

Lemma handle_total_monotone {ctx2d : Context2D} e s s' :
  GameScene.handle e s = Some s' ->
  if resetsSession e s then GameScene.totalScore s' = 0
  else GameScene.totalScore s <= GameScene.totalScore s'.
Proof.
  intros Hstep.
  destruct (handle_scores e s s' Hstep)
    as [(Hr & _ & Ht & Hpos) | [(Hr & Ht & _) | (Hr & _ & Ht & _)]];
    rewrite Hr; lia.
Qed.

Lemma ledger_total {ctx2d : Context2D} es :
  forall s s' acc,
    GameScene.run es s = Some s' ->
    GameScene.totalScore s = sumZ acc ->
    Forall (fun v => 0 <= v) acc ->
    GameScene.totalScore s' = sumZ (ledger es s acc)
    /\ Forall (fun v => 0 <= v) (ledger es s acc).
Proof.
  induction es as [| e es IH]; intros s s' acc Hrun Htot Hacc.
  - cbn in Hrun. injection Hrun as <-. cbn [ledger]. auto.
  - cbn [GameScene.run] in Hrun. cbn [ledger].
    destruct (GameScene.handle e s) as [s1 |] eqn:Hstep; [| discriminate].
    apply (IH s1 s' _ Hrun);
      destruct (handle_scores e s s1 Hstep)
        as [(Hr & He & Ht & Hpos) | [(Hr & Ht & _) | (Hr & He & Ht & _)]];
      rewrite Hr; try rewrite He.
    + rewrite sumZ_app. congruence.
    + rewrite Ht. reflexivity.
    + congruence.
    + apply Forall_app. split; [assumption |]. constructor; auto.
    + constructor.
    + assumption.
Qed.

(** C10. [calculateScore] never returns a negative number; a finished
    round adds its [roundScore = calculateScore()] to [totalScore]; every
    event other than the two session resets ([exitGame], [resetGame],
    which zero it) leaves [totalScore] at least where it was; and along
    any run of events [totalScore] is the sum of the (non-negative) round
    scores booked since the last reset. *)
Theorem C10_total_is_sum_of_rounds {ctx2d : Context2D} :
  (forall s, 0 <= GameScene.calculateScore s)
  /\ (forall s,
        GameScene.roundScore (GameScene.finishRound s)
        = GameScene.calculateScore (GameScene.set_phase Scoring s)
        /\ GameScene.totalScore (GameScene.finishRound s)
           = GameScene.totalScore s
             + GameScene.roundScore (GameScene.finishRound s))
  /\ (forall e s s',
        GameScene.handle e s = Some s' ->
        if resetsSession e s then GameScene.totalScore s' = 0
        else GameScene.totalScore s <= GameScene.totalScore s')
  /\ (forall es s s' acc,
        GameScene.run es s = Some s' ->
        GameScene.totalScore s = sumZ acc ->
        Forall (fun v => 0 <= v) acc ->
        GameScene.totalScore s' = sumZ (ledger es s acc)
        /\ Forall (fun v => 0 <= v) (ledger es s acc)).
Proof.
  split; [exact calculateScore_nonneg |].
  split.
  { intros s. destruct (finishRound_effect s) as (_ & _ & Hr & Ht).
    split; [exact Hr | exact Ht]. }
  split; [exact handle_total_monotone |].
  intros es. exact (ledger_total es).
Qed.

(** ** Leaving the round loop *)

Lemma blank_all_zero w h : Forall (fun v => v = 0) (c_data (blank w h)).
Proof.
  unfold blank. cbn [c_data]. apply Forall_forall.
  intros v Hin. apply repeat_spec in Hin. assumption.
Qed.

Lemma exitGame_effect s :
  let s' := GameScene.exitGame s in
  GameScene.totalScore s' = 0
  /\ GameScene.roundScore s' = 0
  /\ GameScene.strokes s' = []
  /\ GameScene.coverage s' = clearRect (GameScene.coverage s)
  /\ GameScene.phase s' = Prompt
  /\ GameScene.calls s'
     = GameScene.calls s
       ++ [LayerClear DocLayer; LayerClear RedactionLayer;
           LayerClear UiLayer; OnExit].
Proof.
  cbv zeta. unfold GameScene.exitGame, GameScene.call. scene_fields.
  repeat split; try reflexivity.
  rewrite <- !app_assoc. reflexivity.
Qed.

(** C8. A pointer press on the exit button in the Scoring phase (not
    claimed by the continue button) runs [exitGame]: [totalScore] and
    [roundScore] become 0, the stroke list is emptied, every byte of the
    coverage raster is cleared, the phase returns to Prompt, and [onExit]
    is called exactly once, after the three layers have been cleared. *)
Theorem C8_exit_resets_session {ctx2d : Context2D}
    (s : GameScene.State) (p : Point) :
  GameScene.phase s = Scoring ->
  GameScene.hits p (GameScene.continueButton s) = false ->
  GameScene.hits p (GameScene.exitButton s) = true ->
  GameScene.onPointerDown p s = Some (GameScene.exitGame s)
  /\ (let s' := GameScene.exitGame s in
      GameScene.totalScore s' = 0
      /\ GameScene.roundScore s' = 0
      /\ GameScene.strokes s' = []
      /\ GameScene.coverage s' = clearRect (GameScene.coverage s)
      /\ Forall (fun v => v = 0) (c_data (GameScene.coverage s'))
      /\ GameScene.phase s' = Prompt
      /\ (exists made,
            GameScene.calls s' = GameScene.calls s ++ made
            /\ List.length (filter HostCall_isExit made) = 1%nat)).
Proof.
  intros Hphase Hcont Hexit. split.
  - unfold GameScene.onPointerDown. rewrite Hphase, Hcont, Hexit.
    reflexivity.
  - destruct (exitGame_effect s) as (H1 & H2 & H3 & H4 & H5 & H6).
    cbv zeta in *.
    repeat (split; [assumption |]).
    split; [rewrite H4; apply blank_all_zero |].
    split; [assumption |].
    eexists. split; [exact H6 | reflexivity].
Qed.

(** The draft's exit path does the same except for the raster, which it
    leaves as painted (the next [startRedaction] clears it). *)
Lemma GameScene4_exitToMenu_effect s :
  let s' := GameScene4.exitToMenu s in
  GameScene4.totalScore s' = 0
  /\ GameScene4.roundScore s' = 0
  /\ GameScene4.strokes s' = []
  /\ GameScene4.phase s' = Prompt
  /\ GameScene4.coverage s' = GameScene4.coverage s
  /\ GameScene4.calls s'
     = GameScene4.calls s
       ++ [LayerClear DocLayer; LayerClear RedactionLayer;
           LayerClear UiLayer; OnExit].
Proof.
  cbv zeta. unfold GameScene4.exitToMenu, GameScene4.call.
  cbn [GameScene4.totalScore GameScene4.roundScore GameScene4.strokes
       GameScene4.phase GameScene4.coverage GameScene4.calls
       GameScene4.set_totalScore GameScene4.set_roundScore
       GameScene4.set_strokes GameScene4.set_phase GameScene4.set_calls].
  repeat split; try reflexivity.
  rewrite <- !app_assoc. reflexivity.
Qed.

(** ** Scores do not depend on the layout *)

Lemma calculateScore_sameRound s1 s2 :
  sameRound s1 s2 -> GameScene.calculateScore s1 = GameScene.calculateScore s2.
Proof.
  intros (Hm & Hc & Hp & Ht). unfold GameScene.calculateScore.
  rewrite Hm, Hc, Hp. f_equal.
  destruct (GameScene.phase s2); try reflexivity.
  apply Math_round_comp. rewrite Ht. reflexivity.
Qed.

Lemma extendStrokeAt_sameRound {ctx2d : Context2D} d1 d2 s1 s2 :
  sameRound s1 s2 ->
  (sp_x d1 == sp_x d2)%Q -> (sp_y d1 == sp_y d2)%Q ->
  sameRound (GameScene.extendStrokeAt d1 s1) (GameScene.extendStrokeAt d2 s2).
Proof.
  intros (Hm & Hc & Hp & Ht) Hx Hy.
  unfold sameRound, GameScene.extendStrokeAt, GameScene.drawCoveragePoint.
  scene_fields. rewrite Hc.
  repeat split; try assumption.
  apply fillArc_comp; [now rewrite Hx | now rewrite Hy | reflexivity].
Qed.

Lemma addStroke_layout {ctx2d : Context2D} p s s' :
  GameScene.addStroke p s = Some s' -> GameScene.layout s' = GameScene.layout s.
Proof.
  unfold GameScene.addStroke.
  destruct (GameScene.layout s) as [l |] eqn:El; [| discriminate].
  destruct (GameScene.screenToDocument l p);
    intros H; injection H as <-; [| assumption].
  rewrite <- El. reflexivity.
Qed.

Lemma paintStroke_sameRound {ctx2d : Context2D} l1 l2 ps1 ps2 :
  Forall2 (fun p1 p2 =>
             sameDocPoint (GameScene.screenToDocument l1 p1)
                          (GameScene.screenToDocument l2 p2)) ps1 ps2 ->
  forall s1 s2,
    sameRound s1 s2 ->
    GameScene.layout s1 = Some l1 -> GameScene.layout s2 = Some l2 ->
    exists s1' s2',
      paintStroke ps1 s1 = Some s1' /\ paintStroke ps2 s2 = Some s2'
      /\ sameRound s1' s2'.
Proof.
  induction 1 as [| p1 p2 ps1 ps2 Hp _ IH]; intros s1 s2 Hsame Hl1 Hl2.
  - exists s1, s2. auto.
  - cbn [paintStroke].
    destruct (GameScene.addStroke p1 s1) as [t1 |] eqn:E1.
    2:{ unfold GameScene.addStroke in E1. rewrite Hl1 in E1.
        destruct (GameScene.screenToDocument l1 p1); discriminate. }
    destruct (GameScene.addStroke p2 s2) as [t2 |] eqn:E2.
    2:{ unfold GameScene.addStroke in E2. rewrite Hl2 in E2.
        destruct (GameScene.screenToDocument l2 p2); discriminate. }
    apply IH.
    + unfold GameScene.addStroke in E1, E2. rewrite Hl1 in E1. rewrite Hl2 in E2.
      destruct (GameScene.screenToDocument l1 p1) as [d1 |],
               (GameScene.screenToDocument l2 p2) as [d2 |];
        cbn [sameDocPoint] in Hp; try contradiction;
        injection E1 as <-; injection E2 as <-.
      * destruct Hp. now apply extendStrokeAt_sameRound.
      * assumption.
    + rewrite (addStroke_layout _ _ _ E1). assumption.
    + rewrite (addStroke_layout _ _ _ E2). assumption.
Qed.

(** C9. Two scenes with the same mask, the same coverage raster and the
    same timer, under any two layouts: when the pointer positions of a
    stroke map to the same normalized points in both, the rasters stay
    equal and [calculateScore], hence the booked [roundScore], is the
    same.  The raster takes its size from the loaded image, whatever the
    bounding rect of the layer is. *)
Theorem C9_score_independent_of_layout {ctx2d : Context2D}
    (s1 s2 : GameScene.State) (l1 l2 : DocumentLayout)
    (ps1 ps2 : list Point) :
  sameRound s1 s2 ->
  GameScene.layout s1 = Some l1 ->
  GameScene.layout s2 = Some l2 ->
  Forall2 (fun p1 p2 =>
             sameDocPoint (GameScene.screenToDocument l1 p1)
                          (GameScene.screenToDocument l2 p2)) ps1 ps2 ->
  (exists s1' s2',
     paintStroke ps1 s1 = Some s1' /\ paintStroke ps2 s2 = Some s2'
     /\ GameScene.coverage s1' = GameScene.coverage s2'
     /\ GameScene.calculateScore s1' = GameScene.calculateScore s2'
     /\ GameScene.roundScore (GameScene.finishRound s1')
        = GameScene.roundScore (GameScene.finishRound s2'))
  /\ (forall iw ih rectW rectH s,
        c_width (GameScene.coverage (GameScene.onImageLoad iw ih rectW rectH s))
        = iw
        /\ c_height
             (GameScene.coverage (GameScene.onImageLoad iw ih rectW rectH s))
           = ih).
Proof.
  intros Hsame Hl1 Hl2 Hps. split.
  - destruct (paintStroke_sameRound l1 l2 ps1 ps2 Hps s1 s2 Hsame Hl1 Hl2)
      as (t1 & t2 & E1 & E2 & Hrel).
    exists t1, t2. repeat (split; [assumption |]).
    split; [apply Hrel |].
    split; [now apply calculateScore_sameRound |].
    destruct (finishRound_effect t1) as (_ & _ & H1 & _).
    destruct (finishRound_effect t2) as (_ & _ & H2 & _).
    cbv zeta in H1, H2. rewrite H1, H2.
    apply calculateScore_sameRound.
    destruct Hrel as (Hm & Hc & Hp & Ht).
    unfold sameRound. scene_fields. auto.
  - intros iw ih rectW rectH s. split; reflexivity.
Qed.

(** ** Mask sequencing *)

Lemma loadNextMask_effect s m :
  nth_error (GameScene.masks s)
    (if (List.length (GameScene.masks s) <=? GameScene.currentMaskIndex s)%nat
     then 0%nat else GameScene.currentMaskIndex s) = Some m ->
  exists s',
    GameScene.loadNextMask s = Some s'
    /\ GameScene.mask s' = m
    /\ GameScene.masks s' = GameScene.masks s
    /\ GameScene.currentMaskIndex s'
       = S (if (List.length (GameScene.masks s)
                <=? GameScene.currentMaskIndex s)%nat
            then 0%nat else GameScene.currentMaskIndex s).
Proof.
  unfold GameScene.loadNextMask.
  destruct (_ <=? _)%nat; intros Hm.
  - change (nth_error
              (GameScene.masks (GameScene.set_currentMaskIndex 0%nat s))
              (GameScene.currentMaskIndex
                 (GameScene.set_currentMaskIndex 0%nat s)))
      with (nth_error (GameScene.masks s) 0%nat).
    rewrite Hm. eexists. split; [reflexivity |]. repeat split; reflexivity.
  - rewrite Hm. eexists. split; [reflexivity |]. repeat split; reflexivity.
Qed.

(** [GameScene.loadNextMask] never touches the order of the masks. *)
Lemma loadNextMask_masks s s' :
  GameScene.loadNextMask s = Some s' -> GameScene.masks s' = GameScene.masks s.
Proof.
  unfold GameScene.loadNextMask.
  destruct (nth_error _ _); [| discriminate].
  intros H. injection H as <-.
  destruct (_ <=? _)%nat; reflexivity.
Qed.

(** From index [i], [n] loads that stay within the array present the
    masks at positions [i, i + n). *)
Lemma presented_run n :
  forall s i,
    GameScene.currentMaskIndex s = i ->
    (i + n <= List.length (GameScene.masks s))%nat ->
    exists s',
      presented n s = Some (firstn n (skipn i (GameScene.masks s)), s')
      /\ GameScene.masks s' = GameScene.masks s
      /\ GameScene.currentMaskIndex s' = (i + n)%nat.
Proof.
  induction n as [| n IH]; intros s i Hi Hlen.
  - exists s. cbn [presented firstn]. rewrite Nat.add_0_r. auto.
  - assert (Hlt : (i < List.length (GameScene.masks s))%nat) by lia.
    destruct (nth_error (GameScene.masks s) i) as [m |] eqn:Hm.
    2:{ apply nth_error_None in Hm. lia. }
    destruct (loadNextMask_effect s m) as (s1 & Hload & Hmask & Hmasks & Hidx).
    { rewrite Hi. destruct (Nat.leb_spec (List.length (GameScene.masks s)) i);
        [lia | assumption]. }
    rewrite Hi in Hidx.
    destruct (Nat.leb_spec (List.length (GameScene.masks s)) i); [lia |].
    destruct (IH s1 (S i) Hidx) as (s2 & Hrest & Hmasks2 & Hidx2).
    { rewrite Hmasks. lia. }
    exists s2. cbn [presented]. rewrite Hload, Hrest, Hmask, Hmasks.
    split; [| split; [congruence | lia]].
    f_equal. f_equal.
    clear - Hm. revert i Hm.
    induction (GameScene.masks s) as [| a l IHl]; intros i Hm.
    + destruct i; discriminate.
    + destruct i as [| i].
      * cbn in Hm. injection Hm as ->. reflexivity.
      * cbn [skipn]. apply IHl. exact Hm.
Qed.

(** *** The reshuffle of [GameScene4] *)

Lemma setNth_length {A : Type} n (v : A) arr :
  List.length (GameScene4.setNth n v arr) = List.length arr.
Proof.
  revert n. induction arr as [| a arr IH]; intros n; [reflexivity |].
  destruct n; cbn [GameScene4.setNth List.length]; auto.
Qed.

Lemma setNth_perm {A : Type} n (a b : A) arr :
  nth_error arr n = Some b ->
  Permutation (b :: GameScene4.setNth n a arr) (a :: arr).
Proof.
  revert n. induction arr as [| c arr IH]; intros n Hn.
  - destruct n; discriminate.
  - destruct n as [| n]; cbn [GameScene4.setNth].
    + cbn in Hn. injection Hn as ->. apply perm_swap.
    + cbn in Hn. eapply perm_trans; [apply perm_swap |].
      eapply perm_trans; [apply perm_skip, (IH n Hn) |].
      apply perm_swap.
Qed.

Lemma setNth_same {A : Type} n (a : A) arr :
  nth_error arr n = Some a -> GameScene4.setNth n a arr = arr.
Proof.
  revert n. induction arr as [| c arr IH]; intros n Hn.
  - destruct n; discriminate.
  - destruct n as [| n]; cbn [GameScene4.setNth]; cbn in Hn.
    + now injection Hn as ->.
    + f_equal. auto.
Qed.

Lemma nth_error_setNth_same {A : Type} n (a : A) arr :
  (n < List.length arr)%nat ->
  nth_error (GameScene4.setNth n a arr) n = Some a.
Proof.
  revert n. induction arr as [| c arr IH]; intros n Hn; cbn in Hn; [lia |].
  destruct n as [| n]; cbn [GameScene4.setNth nth_error]; [reflexivity |].
  apply IH. lia.
Qed.

Lemma swap_perm {A : Type} i j (arr : list A) :
  Permutation (GameScene4.swap i j arr) arr.
Proof.
  unfold GameScene4.swap.
  destruct (nth_error arr i) as [ai |] eqn:Hi; [| reflexivity].
  destruct (nth_error arr j) as [aj |] eqn:Hj; [| reflexivity].
  revert i j Hi Hj. induction arr as [| c arr IH]; intros i j Hi Hj.
  - destruct i; discriminate.
  - destruct i as [| i], j as [| j]; cbn in Hi, Hj;
      cbn [GameScene4.setNth].
    + injection Hi as ->. injection Hj as ->. reflexivity.
    + injection Hi as ->. apply (setNth_perm j ai aj arr Hj).
    + injection Hj as ->. apply (setNth_perm i aj ai arr Hi).
    + apply perm_skip. apply IH; assumption.
Qed.

Lemma shuffleFrom_perm {A : Type} rnd i :
  forall k (arr : list A),
    Permutation (GameScene4.shuffleFrom i k rnd arr) arr.
Proof.
  induction i as [| i IH]; intros k arr; [reflexivity |].
  cbn [GameScene4.shuffleFrom].
  eapply perm_trans; [apply IH | apply swap_perm].
Qed.

(** Whatever [Math.random()] returns, the shuffled array holds the same
    masks, each as often as before. *)
Lemma shuffleMasks_perm rnd masks :
  Permutation (GameScene4.shuffleMasks rnd masks) masks.
Proof. apply shuffleFrom_perm. Qed.

Lemma startPrompt4_effect s m :
  nth_error (GameScene4.allMasks s) (GameScene4.currentMaskIndex s) = Some m ->
  exists s1,
    GameScene4.startPrompt s = Some s1
    /\ GameScene4.mask s1 = m
    /\ GameScene4.allMasks s1 = GameScene4.allMasks s
    /\ GameScene4.currentMaskIndex s1 = GameScene4.currentMaskIndex s.
Proof.
  intros Hm. unfold GameScene4.startPrompt, GameScene4.loadCurrentMask.
  change (nth_error (GameScene4.allMasks (GameScene4.set_phase Prompt s))
            (GameScene4.currentMaskIndex (GameScene4.set_phase Prompt s)))
    with (nth_error (GameScene4.allMasks s) (GameScene4.currentMaskIndex s)).
  rewrite Hm. eexists. split; [reflexivity |]. repeat split; reflexivity.
Qed.

Lemma finishRound4_next rnd s :
  (S (GameScene4.currentMaskIndex s) < List.length (GameScene4.allMasks s))%nat ->
  GameScene4.currentMaskIndex (GameScene4.finishRound rnd s)
  = S (GameScene4.currentMaskIndex s)
  /\ GameScene4.allMasks (GameScene4.finishRound rnd s) = GameScene4.allMasks s.
Proof.
  intros Hlt. unfold GameScene4.finishRound. cbv zeta.
  match goal with
  | |- context [if ?b then _ else _] =>
      change b with (List.length (GameScene4.allMasks s)
                     <=? S (GameScene4.currentMaskIndex s))%nat
  end.
  destruct (Nat.leb_spec (List.length (GameScene4.allMasks s))
              (S (GameScene4.currentMaskIndex s))); [lia |].
  split; reflexivity.
Qed.

Lemma finishRound4_wrap rnd s :
  (List.length (GameScene4.allMasks s) <= S (GameScene4.currentMaskIndex s))%nat ->
  GameScene4.currentMaskIndex (GameScene4.finishRound rnd s) = 0%nat
  /\ GameScene4.allMasks (GameScene4.finishRound rnd s)
     = GameScene4.shuffleMasks rnd (GameScene4.allMasks s).
Proof.
  intros Hle. unfold GameScene4.finishRound. cbv zeta.
  match goal with
  | |- context [if ?b then _ else _] =>
      change b with (List.length (GameScene4.allMasks s)
                     <=? S (GameScene4.currentMaskIndex s))%nat
  end.
  destruct (Nat.leb_spec (List.length (GameScene4.allMasks s))
              (S (GameScene4.currentMaskIndex s))); [| lia].
  split; reflexivity.
Qed.

Lemma firstn_skipn_cons {A : Type} (l : list A) i n a :
  nth_error l i = Some a ->
  firstn (S n) (skipn i l) = a :: firstn n (skipn (S i) l).
Proof.
  revert i. induction l as [| c l IH]; intros i Hi.
  - destruct i; discriminate.
  - destruct i as [| i].
    + cbn in Hi. injection Hi as ->. reflexivity.
    + cbn [skipn]. apply IH. exact Hi.
Qed.

(** Rounds of [GameScene4] from index [i]: the masks at positions
    [i, i + n) are presented in order; if that reaches the end of the
    array the index is back at 0 and the array has been reshuffled with
    the last round's random source, otherwise nothing has moved. *)
Lemma presented4_run rnds :
  forall s i,
    GameScene4.currentMaskIndex s = i ->
    (i < List.length (GameScene4.allMasks s))%nat ->
    (i + List.length rnds <= List.length (GameScene4.allMasks s))%nat ->
    exists s',
      presented4 rnds s
      = Some (firstn (List.length rnds) (skipn i (GameScene4.allMasks s)), s')
      /\ (((i + List.length rnds < List.length (GameScene4.allMasks s))%nat
           /\ GameScene4.currentMaskIndex s' = (i + List.length rnds)%nat
           /\ GameScene4.allMasks s' = GameScene4.allMasks s)
          \/ ((i + List.length rnds = List.length (GameScene4.allMasks s))%nat
              /\ GameScene4.currentMaskIndex s' = 0%nat
              /\ GameScene4.allMasks s'
                 = GameScene4.shuffleMasks (last rnds (fun _ => 0%Q))
                     (GameScene4.allMasks s))).
Proof.
  induction rnds as [| rnd rnds IH]; intros s i Hi Hlt Hlen.
  - exists s. cbn [presented4 List.length firstn]. split; [reflexivity |].
    left. rewrite Nat.add_0_r. auto.
  - cbn [List.length] in *.
    destruct (nth_error (GameScene4.allMasks s) i) as [m |] eqn:Hm.
    2:{ apply nth_error_None in Hm. lia. }
    destruct (startPrompt4_effect s m) as (s1 & Hsp & Hmask & Hmasks & Hidx).
    { rewrite Hi. exact Hm. }
    set (s2 := GameScene4.startRedaction s1).
    assert (Hm2 : GameScene4.allMasks s2 = GameScene4.allMasks s)
      by (rewrite <- Hmasks; reflexivity).
    assert (Hi2 : GameScene4.currentMaskIndex s2 = i)
      by (rewrite <- Hi, <- Hidx; reflexivity).
    cbn [presented4]. rewrite Hsp. fold s2.
    rewrite (firstn_skipn_cons _ _ _ _ Hm), Hmask.
    destruct (Nat.lt_ge_cases (S i) (List.length (GameScene4.allMasks s)))
      as [Hnext | Hwrap].
    + destruct (finishRound4_next rnd s2) as (Hi3 & Hm3).
      { rewrite Hm2, Hi2. exact Hnext. }
      destruct (IH (GameScene4.finishRound rnd s2) (S i)) as (s' & Hrun & Hend).
      { rewrite Hi3, Hi2. reflexivity. }
      { rewrite Hm3, Hm2. exact Hnext. }
      { rewrite Hm3, Hm2. lia. }
      exists s'. rewrite Hrun, Hm3, Hm2. split; [reflexivity |].
      rewrite Hm3, Hm2 in Hend.
      destruct Hend as [(H1 & H2 & H3) | (H1 & H2 & H3)].
      * left. repeat split; [lia | lia | assumption].
      * right. repeat split; [lia | assumption |].
        rewrite H3. destruct rnds; [cbn in H1; lia | reflexivity].
    + assert (Hnil : rnds = []) by (destruct rnds; [reflexivity | cbn in Hlen; lia]).
      subst rnds. cbn [presented4 firstn List.length last].
      destruct (finishRound4_wrap rnd s2) as (Hi3 & Hm3).
      { rewrite Hm2, Hi2. exact Hwrap. }
      eexists. split; [reflexivity |].
      right. rewrite Hi3, Hm3, Hm2. repeat split; lia.
Qed.

(** *** Fisher-Yates: one draw sequence per arrangement *)

Lemma shuffleFrom_draws {A : Type} rnd i :
  forall k (arr : list A),
    GameScene4.shuffleFrom i k rnd arr = shuffleWith i (drawsOf i k rnd) arr.
Proof.
  induction i as [| i IH]; intros k arr; [reflexivity |].
  cbn [GameScene4.shuffleFrom drawsOf shuffleWith]. apply IH.
Qed.

Lemma drawsOf_valid rnd i :
  (forall n, isRandom (rnd n)) -> forall k, validDraws i (drawsOf i k rnd).
Proof.
  intros Hrnd. induction i as [| i IH]; intros k; [exact I |].
  cbn [drawsOf validDraws]. split; [| apply IH].
  destruct (Hrnd k) as [H0 H1]. unfold Math_floor.
  set (n := Z.of_nat (S i) + 1).
  assert (Hn : (0 < inject_Z n)%Q).
  { change 0%Q with (inject_Z 0). rewrite <- Zlt_Qlt. subst n. lia. }
  assert (Hlt : Qfloor (rnd k * inject_Z n) < n).
  { apply Z.lt_nge. intros Hge. rewrite Zle_Qle in Hge.
    pose proof (Qfloor_le (rnd k * inject_Z n)) as Hfl.
    assert ((rnd k * inject_Z n < 1 * inject_Z n)%Q)
      by (apply Qmult_lt_compat_r; assumption).
    lra. }
  subst n. lia.
Qed.

Lemma nth_error_setNth_other {A : Type} n m (v : A) arr :
  m <> n -> nth_error (GameScene4.setNth n v arr) m = nth_error arr m.
Proof.
  revert n m. induction arr as [| a arr IH]; intros n m Hne; [reflexivity |].
  destruct n as [| n], m as [| m]; cbn [GameScene4.setNth nth_error];
    try reflexivity; try congruence.
  apply IH. congruence.
Qed.

Lemma swap_length {A : Type} i j (arr : list A) :
  List.length (GameScene4.swap i j arr) = List.length arr.
Proof.
  unfold GameScene4.swap.
  destruct (nth_error arr i), (nth_error arr j); try reflexivity.
  now rewrite !setNth_length.
Qed.

Lemma nth_error_swap_other {A : Type} i j p (arr : list A) :
  p <> i -> p <> j ->
  nth_error (GameScene4.swap i j arr) p = nth_error arr p.
Proof.
  intros Hi Hj. unfold GameScene4.swap.
  destruct (nth_error arr i), (nth_error arr j); try reflexivity.
  now rewrite !nth_error_setNth_other.
Qed.

Lemma nth_error_swap_left {A : Type} i j (arr : list A) :
  (i < List.length arr)%nat -> (j < List.length arr)%nat ->
  nth_error (GameScene4.swap i j arr) i = nth_error arr j.
Proof.
  intros Hi Hj. unfold GameScene4.swap.
  destruct (nth_error arr i) as [ai |] eqn:Ei.
  2:{ apply nth_error_None in Ei. lia. }
  destruct (nth_error arr j) as [aj |] eqn:Ej.
  2:{ apply nth_error_None in Ej. lia. }
  destruct (Nat.eq_dec i j) as [-> | Hne].
  - rewrite nth_error_setNth_same by (rewrite setNth_length; assumption).
    congruence.
  - rewrite nth_error_setNth_other by assumption.
    apply nth_error_setNth_same. assumption.
Qed.

(** The loop entered at [i] never touches a position above [i]. *)
Lemma shuffleWith_above {A : Type} i :
  forall js (arr : list A) p,
    validDraws i js -> (i < p)%nat ->
    nth_error (shuffleWith i js arr) p = nth_error arr p.
Proof.
  induction i as [| i IH]; intros js arr p Hv Hp.
  - destruct js; reflexivity.
  - destruct js as [| j js]; [reflexivity |].
    cbn [validDraws] in Hv. destruct Hv as [Hj Hv].
    cbn [shuffleWith]. rewrite IH by (assumption || lia).
    apply nth_error_swap_other; lia.
Qed.

Lemma shuffleWith_length {A : Type} i :
  forall js (arr : list A),
    List.length (shuffleWith i js arr) = List.length arr.
Proof.
  induction i as [| i IH]; intros js arr; [destruct js; reflexivity |].
  destruct js as [| j js]; [reflexivity |].
  cbn [shuffleWith]. now rewrite IH, swap_length.
Qed.

Lemma shuffleWith_perm {A : Type} i :
  forall js (arr : list A), Permutation (shuffleWith i js arr) arr.
Proof.
  induction i as [| i IH]; intros js arr; [destruct js; reflexivity |].
  destruct js as [| j js]; [reflexivity |].
  cbn [shuffleWith]. eapply perm_trans; [apply IH | apply swap_perm].
Qed.

(** Two valid draw sequences that arrange distinct elements alike are
    the same sequence. *)
Lemma shuffleWith_injective {A : Type} i :
  forall js js' (arr : list A),
    NoDup arr -> (i < List.length arr)%nat ->
    validDraws i js -> validDraws i js' ->
    shuffleWith i js arr = shuffleWith i js' arr ->
    js = js'.
Proof.
  induction i as [| i IH]; intros js js' arr Hnd Hlen Hv Hv' Heq.
  - destruct js, js'; cbn in Hv, Hv'; try contradiction. reflexivity.
  - destruct js as [| j js], js' as [| j' js'];
      cbn [validDraws] in Hv, Hv'; try contradiction.
    destruct Hv as [Hj Hv], Hv' as [Hj' Hv'].
    cbn [shuffleWith] in Heq.
    assert (Hpos : nth_error arr j = nth_error arr j').
    { transitivity (nth_error (GameScene4.swap (S i) j arr) (S i));
        [symmetry; apply nth_error_swap_left; lia |].
      transitivity (nth_error (GameScene4.swap (S i) j' arr) (S i));
        [| apply nth_error_swap_left; lia].
      rewrite <- (shuffleWith_above i js (GameScene4.swap (S i) j arr)
                    (S i) Hv) by lia.
      rewrite <- (shuffleWith_above i js' (GameScene4.swap (S i) j' arr)
                    (S i) Hv') by lia.
      now rewrite Heq. }
    assert (Hjj : j = j').
    { apply (proj1 (NoDup_nth_error arr) Hnd); [lia | exact Hpos]. }
    subst j'. f_equal.
    apply (IH js js' (GameScene4.swap (S i) j arr)); try assumption.
    + apply (Permutation_NoDup (l := arr)); [| assumption].
      apply Permutation_sym, swap_perm.
    + rewrite swap_length. lia.
Qed.

Lemma swap_app_keeps_tail {A : Type} i j (arr : list A) x :
  (i < List.length arr)%nat -> (j < List.length arr)%nat ->
  GameScene4.swap i j (arr ++ [x]) = GameScene4.swap i j arr ++ [x].
Proof.
  intros Hi Hj. unfold GameScene4.swap.
  rewrite !nth_error_app1 by assumption.
  destruct (nth_error arr i) as [ai |] eqn:Ei.
  2:{ apply nth_error_None in Ei. lia. }
  destruct (nth_error arr j) as [aj |] eqn:Ej.
  2:{ apply nth_error_None in Ej. lia. }
  assert (Hset : forall n (v : A) l,
            (n < List.length l)%nat ->
            GameScene4.setNth n v (l ++ [x]) = GameScene4.setNth n v l ++ [x]).
  { intros n v l. revert n. induction l as [| a l IHl]; intros n Hn;
      cbn in Hn; [lia |].
    destruct n as [| n]; cbn [GameScene4.setNth app]; [reflexivity |].
    f_equal. apply IHl. lia. }
  rewrite Hset by assumption.
  rewrite Hset by (rewrite setNth_length; assumption).
  reflexivity.
Qed.

Lemma shuffleWith_app_keeps_tail {A : Type} i :
  forall js (arr : list A) x,
    validDraws i js -> (i < List.length arr)%nat ->
    shuffleWith i js (arr ++ [x]) = shuffleWith i js arr ++ [x].
Proof.
  induction i as [| i IH]; intros js arr x Hv Hlen.
  - destruct js; reflexivity.
  - destruct js as [| j js]; [reflexivity |].
    cbn [validDraws] in Hv. destruct Hv as [Hj Hv].
    cbn [shuffleWith]. rewrite swap_app_keeps_tail by lia.
    apply IH; [assumption | rewrite swap_length; lia].
Qed.

Lemma split_last {A : Type} (l : list A) n :
  List.length l = S n -> exists front x, l = front ++ [x] /\ List.length front = n.
Proof.
  intros Hlen. destruct (@exists_last _ l) as (front & x & ->).
  { destruct l; [discriminate | congruence]. }
  exists front, x. split; [reflexivity |].
  rewrite length_app in Hlen. cbn in Hlen. lia.
Qed.

(** Every arrangement of the array is reached by some valid draw
    sequence. *)
Lemma shuffleWith_surjective {A : Type} i :
  forall (arr target : list A),
    List.length arr = S i ->
    Permutation target arr ->
    exists js, validDraws i js /\ shuffleWith i js arr = target.
Proof.
  induction i as [| i IH]; intros arr target Hlen Hperm.
  - exists []. split; [exact I |]. cbn [shuffleWith].
    destruct arr as [| a [| b arr]]; try discriminate.
    symmetry. apply Permutation_sym in Hperm.
    now apply Permutation_length_1_inv in Hperm.
  - assert (Htl : List.length target = S (S i))
      by (rewrite (Permutation_length Hperm); exact Hlen).
    destruct (split_last target (S i) Htl) as (tfront & x & -> & Htf).
    assert (Hin : In x arr).
    { apply (Permutation_in x Hperm). apply in_or_app. right. now left. }
    destruct (In_nth_error arr x Hin) as (j & Hj).
    assert (Hjlt : (j < List.length arr)%nat)
      by (apply nth_error_Some; congruence).
    set (arr1 := GameScene4.swap (S i) j arr).
    assert (Hlen1 : List.length arr1 = S (S i))
      by (subst arr1; rewrite swap_length; exact Hlen).
    destruct (split_last arr1 (S i) Hlen1) as (afront & y & Harr1 & Haf).
    assert (Hy : y = x).
    { assert (H : nth_error arr1 (S i) = Some x).
      { subst arr1. rewrite nth_error_swap_left by lia. exact Hj. }
      rewrite Harr1, nth_error_app2, Haf, Nat.sub_diag in H by lia.
      cbn in H. congruence. }
    subst y.
    assert (Hpf : Permutation tfront afront).
    { apply (Permutation_app_inv_r [x]). rewrite <- Harr1.
      eapply perm_trans; [exact Hperm |].
      apply Permutation_sym. subst arr1. apply swap_perm. }
    destruct (IH afront tfront Haf Hpf) as (js & Hv & Hjs).
    exists (j :: js). split.
    + cbn [validDraws]. split; [lia | exact Hv].
    + cbn [shuffleWith]. fold arr1. rewrite Harr1.
      rewrite shuffleWith_app_keeps_tail by (assumption || lia).
      now rewrite Hjs.
Qed.

(** [shuffleMasks] on distinct masks: the result is always a permutation;
    with every [Math.random()] in [0, 1) the drawn indices are valid;
    each arrangement of the masks is the outcome of exactly one valid
    sequence of drawn indices.  Uniform draws therefore give a uniform
    permutation. *)
Lemma shuffleMasks_one_draw_sequence_per_arrangement masks :
  NoDup masks -> masks <> [] ->
  let top := (List.length masks - 1)%nat in
  (forall rnd,
     (forall n, isRandom (rnd n)) ->
     validDraws top (drawsOf top 0 rnd)
     /\ GameScene4.shuffleMasks rnd masks
        = shuffleWith top (drawsOf top 0 rnd) masks)
  /\ (forall target,
        Permutation target masks ->
        exists js,
          validDraws top js /\ shuffleWith top js masks = target
          /\ forall js',
               validDraws top js' -> shuffleWith top js' masks = target ->
               js' = js).
Proof.
  intros Hnd Hne top.
  assert (Hlen : List.length masks = S top).
  { subst top. destruct masks; [congruence | cbn; lia]. }
  split.
  - intros rnd Hrnd. split; [now apply drawsOf_valid |].
    apply shuffleFrom_draws.
  - intros target Hperm.
    destruct (shuffleWith_surjective top masks target Hlen Hperm)
      as (js & Hv & Hjs).
    exists js. repeat split; try assumption.
    intros js' Hv' Hjs'.
    apply (shuffleWith_injective top js' js masks); try assumption; [lia |].
    congruence.
Qed.

(** C7 (as stated) fails in [GameScene]: at the end of a pass over two
    masks [loadNextMask] wraps the index and presents the first mask
    again, with the array in the order it had; a reshuffle whose draw
    is 0 would have swapped the two.  Four loads from index 0 present
    A, B, A, B. *)
Lemma C7_GameScene_wraps_without_reshuffle :
  exists s',
    GameScene.loadNextMask afterPass = Some s'
    /\ GameScene.currentMaskIndex s' = 1%nat
    /\ GameScene.mask s' = maskA
    /\ GameScene.masks s' = [maskA; maskB]
    /\ GameScene4.shuffleMasks (fun _ => 0%Q) (GameScene.masks afterPass)
       = [maskB; maskA]
    /\ GameScene.masks s'
       <> GameScene4.shuffleMasks (fun _ => 0%Q) (GameScene.masks afterPass)
    /\ option_map fst
         (presented 4 (GameScene.set_currentMaskIndex 0%nat afterPass))
       = Some [maskA; maskB; maskA; maskB].
Proof.
  eexists. split; [reflexivity |].
  repeat split; try reflexivity.
  cbn. discriminate.
Qed.

(** C7 (as amended). From index 0, one pass of [N] loads presents the
    masks in array order, each position once, in both scenes.  When the
    index reaches [N]: in [GameScene] the next [loadNextMask] wraps it,
    presents the first mask and keeps the array as shuffled at
    construction; in [GameScene4] the [finishRound] of the last round
    sets the index to 0 and replaces the array by [shuffleMasks] of it,
    a permutation of the same masks.  That reshuffle is a Fisher-Yates
    pass: with every [Math.random()] in [0, 1) the drawn indices are
    valid, and each arrangement of distinct masks is the outcome of
    exactly one valid sequence of drawn indices, so uniform draws give a
    uniform permutation. *)
Theorem C7_mask_sequencing :
  (forall s,
     GameScene.currentMaskIndex s = 0%nat ->
     GameScene.masks s <> [] ->
     exists s1 s2,
       presented (List.length (GameScene.masks s)) s
       = Some (GameScene.masks s, s1)
       /\ GameScene.currentMaskIndex s1 = List.length (GameScene.masks s)
       /\ GameScene.masks s1 = GameScene.masks s
       /\ GameScene.loadNextMask s1 = Some s2
       /\ GameScene.currentMaskIndex s2 = 1%nat
       /\ nth_error (GameScene.masks s) 0 = Some (GameScene.mask s2)
       /\ GameScene.masks s2 = GameScene.masks s)
  /\ (forall s rnds,
        GameScene4.currentMaskIndex s = 0%nat ->
        GameScene4.allMasks s <> [] ->
        List.length rnds = List.length (GameScene4.allMasks s) ->
        exists s',
          presented4 rnds s = Some (GameScene4.allMasks s, s')
          /\ GameScene4.currentMaskIndex s' = 0%nat
          /\ GameScene4.allMasks s'
             = GameScene4.shuffleMasks (last rnds (fun _ => 0%Q))
                 (GameScene4.allMasks s)
          /\ Permutation (GameScene4.allMasks s') (GameScene4.allMasks s))
  /\ (forall masks,
        NoDup masks -> masks <> [] ->
        let top := (List.length masks - 1)%nat in
        (forall rnd,
           (forall n, isRandom (rnd n)) ->
           validDraws top (drawsOf top 0 rnd)
           /\ GameScene4.shuffleMasks rnd masks
              = shuffleWith top (drawsOf top 0 rnd) masks)
        /\ (forall target,
              Permutation target masks ->
              exists js,
                validDraws top js /\ shuffleWith top js masks = target
                /\ forall js',
                     validDraws top js' ->
                     shuffleWith top js' masks = target -> js' = js)).
Proof.
  split; [| split; [| exact shuffleMasks_one_draw_sequence_per_arrangement]].
  - intros s Hidx Hne.
    destruct (presented_run (List.length (GameScene.masks s)) s 0%nat Hidx)
      as (s1 & Hrun & Hmasks & Hidx1); [lia |].
    cbn [skipn Nat.add] in Hrun, Hidx1. rewrite firstn_all in Hrun.
    destruct (GameScene.masks s) as [| m0 rest] eqn:Hms; [congruence |].
    destruct (loadNextMask_effect s1 m0) as (s2 & Hload & Hmask & Hmasks2 & Hidx2).
    { rewrite Hmasks, Hidx1, Nat.leb_refl. reflexivity. }
    rewrite Hmasks, Hidx1, Nat.leb_refl in Hidx2.
    exists s1, s2. repeat split; try assumption.
    + cbn. now rewrite Hmask.
    + congruence.
  - intros s rnds Hidx Hne Hlen.
    destruct (presented4_run rnds s 0%nat Hidx) as (s' & Hrun & Hend).
    { destruct (GameScene4.allMasks s); [congruence | cbn; lia]. }
    { lia. }
    cbn [skipn] in Hrun. rewrite Hlen, firstn_all in Hrun.
    destruct Hend as [(H1 & _) | (_ & H2 & H3)]; [lia |].
    exists s'. repeat split; try assumption.
    rewrite H3. apply shuffleMasks_perm.
Qed.

(** ** The timer is never negative *)

Lemma loadNextMask_timer s s' :
  GameScene.loadNextMask s = Some s' -> GameScene.timer s' = GameScene.timer s.
Proof.
  unfold GameScene.loadNextMask.
  destruct (nth_error _ _); [| discriminate].
  intros H. injection H as <-.
  destruct (_ <=? _)%nat; reflexivity.
Qed.

Lemma stroke_timer {ctx2d : Context2D} q s s' :
  GameScene.startStroke q s = Some s' \/ GameScene.addStroke q s = Some s' ->
  GameScene.timer s' = GameScene.timer s.
Proof.
  unfold GameScene.startStroke, GameScene.addStroke.
  destruct (GameScene.layout s) as [l |]; [| intros [H | H]; discriminate].
  destruct (GameScene.screenToDocument l q);
    intros [H | H]; injection H as <-; reflexivity.
Qed.

Lemma update_timer_nonneg dt s :
  (0 <= GameScene.timer s)%Q -> (0 <= GameScene.timer (GameScene.update dt s))%Q.
Proof.
  intros Ht. destruct (GameScene.phase s) eqn:Hp;
    try (rewrite update_idle by congruence; exact Ht).
  destruct (Qle_bool (GameScene.timer s - dt) 0) eqn:Hout.
  - rewrite (update_crossing dt s Hp Hout).
    destruct (finishRound_effect (GameScene.set_timer 0 s)) as (_ & H & _).
    cbv zeta in H. rewrite H. apply Qle_refl.
  - destruct (update_running dt s Hp Hout) as (_ & H & _).
    cbv zeta in H. rewrite H. apply Qle_bool_gt in Hout.
    apply Qlt_le_weak. exact Hout.
Qed.

(** No event makes the timer negative, and a fresh scene starts at 0:
    every call of [calculateScore] sees [timer >= 0]. *)
Lemma handle_timer_nonneg {ctx2d : Context2D} e s s' :
  GameScene.handle e s = Some s' ->
  (0 <= GameScene.timer s)%Q -> (0 <= GameScene.timer s')%Q.
Proof.
  destruct e as [dt | uw uh | rw rh | iw ih rw rh | q | q | | key |];
    cbn [GameScene.handle]; intros Hstep Ht.
  - injection Hstep as <-. now apply update_timer_nonneg.
  - injection Hstep as <-. unfold GameScene.render.
    destruct (_ || _); [assumption |].
    destruct s as [? ? ? ? ? ? ? ? ph ? ? ? ? ? ? ? ? ? ? ? ? ?].
    destruct ph; exact Ht.
  - injection Hstep as <-. unfold GameScene.onResize.
    destruct (negb _); exact Ht.
  - injection Hstep as <-. exact Ht.
  - unfold GameScene.onPointerDown in Hstep.
    destruct (GameScene.phase s).
    + destruct (GameScene.hits q _); injection Hstep as <-;
        [| exact Ht].
      rewrite (proj2 (startRedaction_ready s)). discriminate.
    + destruct (GameScene.hits q _).
      * injection Hstep as <-.
        destruct (finishRound_effect s) as (_ & H & _).
        cbv zeta in H. rewrite H. exact Ht.
      * rewrite (stroke_timer q s s' (or_introl Hstep)). exact Ht.
    + destruct (GameScene.hits q (GameScene.continueButton s)).
      * rewrite (loadNextMask_timer s s' Hstep). exact Ht.
      * destruct (GameScene.hits q _); injection Hstep as <-; exact Ht.
  - unfold GameScene.onPointerMove in Hstep. destruct (_ || _).
    + injection Hstep as <-. exact Ht.
    + rewrite (stroke_timer q s s' (or_intror Hstep)). exact Ht.
  - injection Hstep as <-. exact Ht.
  - injection Hstep as <-. unfold GameScene.onKeyDown.
    destruct (GameScene.isKeyD key); exact Ht.
  - rewrite resetGame_unfold in Hstep.
    rewrite (loadNextMask_timer _ s' Hstep). exact Ht.
Qed.

Lemma construct_timer order s :
  GameScene.construct order = Some s -> GameScene.timer s = 0%Q.
Proof.
  unfold GameScene.construct. intros H.
  rewrite (loadNextMask_timer _ s H). reflexivity.
Qed.

(** ** A cleared raster under rects inside the document *)

Lemma blank_reads_zero w h i :
  0 <= i < 4 * Zpos w * Zpos h ->
  dataAt (c_data (blank w h)) i = Some 0.
Proof.
  intros Hi. unfold dataAt, blank. cbn [c_data].
  destruct (Z.ltb_spec i 0); [lia |].
  apply nth_error_repeat. lia.
Qed.

Lemma pixel_range_in_raster (n : Z) (lo len : Q) :
  0 < n -> (0 <= lo)%Q -> (lo + len <= 1)%Q ->
  0 <= Qfloor (lo * inject_Z n) /\ Qceiling ((lo + len) * inject_Z n) <= n.
Proof.
  intros Hn Hlo Hhi.
  assert (HnQ : (0 < inject_Z n)%Q) by (rewrite (Zlt_Qlt 0 n) in Hn; exact Hn).
  split.
  - change 0 with (Qfloor 0). apply Qfloor_resp_le.
    apply Qmult_le_0_compat; [assumption | lra].
  - rewrite <- (Qceiling_Z n) at 2. apply Qceiling_resp_le.
    setoid_replace (inject_Z n) with (1 * inject_Z n)%Q at 2 by ring.
    apply Qmult_le_compat_r; [assumption | lra].
Qed.

(** A cleared raster reads 0 at every sample of both passes as long as
    the rects lie inside the document: the premises of C6 hold after
    [clearRect]. *)
Lemma blank_raster_reads_zero w h rects :
  Forall insideDocument rects ->
  forallb (unpainted (Zpos w) (c_data (blank w h)))
    (gridSamples (Zpos w) (Zpos h)) = true
  /\ forallb (fun r =>
                forallb (unpainted (Zpos w) (c_data (blank w h)))
                  (rectSamples (Zpos w) (Zpos h) r)) rects = true.
Proof.
  intros Hrects.
  assert (Hpix : forall x y,
            0 <= x < Zpos w -> 0 <= y < Zpos h ->
            unpainted (Zpos w) (c_data (blank w h)) (x, y) = true).
  { intros x y Hx Hy. unfold unpainted. cbn [fst snd].
    rewrite blank_reads_zero; [reflexivity | nia]. }
  split.
  - apply forallb_forall. intros [x y] Hin.
    apply gridSamples_In in Hin. apply Hpix; lia.
  - apply forallb_forall. intros r Hr.
    rewrite Forall_forall in Hrects.
    destruct (Hrects r Hr) as (Hx & Hy & Hw & Hh & Hxw & Hyh).
    apply forallb_forall. intros [x y] Hin.
    unfold rectSamples in Hin. apply samplesOf_In in Hin.
    rewrite !strideSeq_In in Hin. destruct Hin as [[Hxr _] [Hyr _]].
    destruct (pixel_range_in_raster (Zpos w) (r_x r) (r_width r))
      as [Hx0 Hx1]; try assumption; try lia.
    destruct (pixel_range_in_raster (Zpos h) (r_y r) (r_height r))
      as [Hy0 Hy1]; try assumption; try lia.
    unfold rectStartX, rectEndX in Hxr. unfold rectStartY, rectEndY in Hyr.
    apply Hpix; lia.
Qed.

(** ** No handler raises in a reachable state *)

Lemma loadNextMask_frame s s' :
  GameScene.loadNextMask s = Some s' ->
  GameScene.masks s' = GameScene.masks s
  /\ GameScene.imageLoaded s' = GameScene.imageLoaded s
  /\ GameScene.layout s' = GameScene.layout s
  /\ GameScene.readyButton s' = GameScene.readyButton s
  /\ GameScene.phase s' = Prompt.
Proof.
  unfold GameScene.loadNextMask.
  destruct (nth_error _ _); [| discriminate].
  intros H. injection H as <-.
  destruct (_ <=? _)%nat; repeat split; reflexivity.
Qed.

Lemma loadNextMask_succeeds s :
  GameScene.masks s <> [] -> exists s', GameScene.loadNextMask s = Some s'.
Proof.
  intros Hne.
  destruct (nth_error (GameScene.masks s)
              (if (List.length (GameScene.masks s)
                   <=? GameScene.currentMaskIndex s)%nat
               then 0%nat else GameScene.currentMaskIndex s))
    as [m |] eqn:Hm.
  - destruct (loadNextMask_effect s m Hm) as (s' & H & _). now exists s'.
  - exfalso. apply nth_error_None in Hm.
    destruct (Nat.leb_spec (List.length (GameScene.masks s))
                (GameScene.currentMaskIndex s)).
    + destruct (GameScene.masks s); [congruence | cbn in Hm; lia].
    + lia.
Qed.

Lemma stroke_frame {ctx2d : Context2D} q s s' :
  GameScene.startStroke q s = Some s' \/ GameScene.addStroke q s = Some s' ->
  GameScene.masks s' = GameScene.masks s
  /\ GameScene.imageLoaded s' = GameScene.imageLoaded s
  /\ GameScene.layout s' = GameScene.layout s
  /\ GameScene.readyButton s' = GameScene.readyButton s
  /\ GameScene.phase s' = GameScene.phase s.
Proof.
  unfold GameScene.startStroke, GameScene.addStroke.
  destruct (GameScene.layout s) as [l |] eqn:El;
    [| intros [H | H]; discriminate].
  destruct (GameScene.screenToDocument l q);
    intros [H | H]; injection H as <-; rewrite ?El;
    repeat split; try reflexivity; exact El.
Qed.

Lemma stroke_succeeds {ctx2d : Context2D} q s :
  GameScene.layout s <> None ->
  (exists s', GameScene.startStroke q s = Some s')
  /\ (exists s', GameScene.addStroke q s = Some s').
Proof.
  intros Hl. unfold GameScene.startStroke, GameScene.addStroke.
  destruct (GameScene.layout s) as [l |]; [| congruence].
  destruct (GameScene.screenToDocument l q); split; eexists; reflexivity.
Qed.

Lemma update_frame dt s :
  GameScene.masks (GameScene.update dt s) = GameScene.masks s
  /\ GameScene.imageLoaded (GameScene.update dt s) = GameScene.imageLoaded s
  /\ GameScene.layout (GameScene.update dt s) = GameScene.layout s
  /\ GameScene.readyButton (GameScene.update dt s) = GameScene.readyButton s
  /\ (GameScene.phase (GameScene.update dt s) = Redacting ->
      GameScene.phase s = Redacting).
Proof.
  destruct (GameScene.phase s) eqn:Hp;
    try (rewrite update_idle by congruence; rewrite Hp; auto).
  split; [| split; [| split; [| split; [| reflexivity]]]];
    unfold GameScene.update; rewrite Hp; cbv zeta; split_ifs; reflexivity.
Qed.

Lemma render_frame uw uh s :
  GameScene.masks (GameScene.render uw uh s) = GameScene.masks s
  /\ GameScene.imageLoaded (GameScene.render uw uh s) = GameScene.imageLoaded s
  /\ GameScene.layout (GameScene.render uw uh s) = GameScene.layout s
  /\ (GameScene.readyButton (GameScene.render uw uh s) <> None ->
      GameScene.readyButton s <> None \/ GameScene.imageLoaded s = true)
  /\ GameScene.phase (GameScene.render uw uh s) = GameScene.phase s.
Proof.
  unfold GameScene.render.
  destruct s as [? il ? ? ? ? ? ? ph ? ? ? nr ? ? ? ? rb ? ? ? ?].
  cbn [GameScene.imageLoaded GameScene.needsRedraw].
  destruct il, nr; cbn [negb orb]; [destruct ph | | |];
    repeat split; auto.
Qed.

(** Every event keeps the scene well formed. *)
Lemma handle_sceneOk {ctx2d : Context2D} e s s' :
  GameScene.handle e s = Some s' -> sceneOk s -> sceneOk s'.
Proof.
  unfold sceneOk.
  destruct e as [dt | uw uh | rw rh | iw ih rw rh | q | q | | key |];
    cbn [GameScene.handle]; intros Hstep (Hm & Hl & Hb & Hp).
  - injection Hstep as <-.
    destruct (update_frame dt s) as (H1 & H2 & H3 & H4 & H5).
    rewrite H1, H2, H3, H4. repeat split; auto.
  - injection Hstep as <-.
    destruct (render_frame uw uh s) as (H1 & H2 & H3 & H4 & H5).
    rewrite H1, H2, H3, H5. repeat split; auto.
    intros Hrb. destruct (H4 Hrb); auto.
  - injection Hstep as <-. unfold GameScene.onResize.
    destruct (GameScene.imageLoaded s) eqn:Hil; cbn [negb].
    + unfold GameScene.computeLayout. scene_fields.
      repeat split; auto. discriminate.
    + rewrite Hil. repeat split; auto.
  - injection Hstep as <-.
    unfold GameScene.onImageLoad, GameScene.computeLayout. scene_fields.
    repeat split; auto. discriminate.
  - unfold GameScene.onPointerDown in Hstep.
    destruct (GameScene.phase s) eqn:Hph.
    + destruct (GameScene.hits q (GameScene.readyButton s)) eqn:Hhit;
        injection Hstep as <-.
      * assert (Hil : GameScene.imageLoaded s = true).
        { apply Hb. destruct (GameScene.readyButton s); [| discriminate Hhit].
          discriminate. }
        unfold GameScene.startRedaction. scene_fields.
        repeat split; auto.
      * rewrite Hph. repeat split; auto.
    + destruct (GameScene.hits q _).
      * injection Hstep as <-.
        unfold GameScene.finishRound. scene_fields.
        repeat split; auto.
      * destruct (stroke_frame q s s' (or_introl Hstep))
          as (H1 & H2 & H3 & H4 & H5).
        rewrite H1, H2, H3, H4, H5. repeat split; auto.
    + destruct (GameScene.hits q (GameScene.continueButton s)).
      * destruct (loadNextMask_frame s s' Hstep) as (H1 & H2 & H3 & H4 & H5).
        rewrite H1, H2, H3, H4, H5. repeat split; auto. discriminate.
      * destruct (GameScene.hits q _); injection Hstep as <-.
        -- unfold GameScene.exitGame, GameScene.call. scene_fields.
           repeat split; auto. discriminate.
        -- rewrite Hph. repeat split; auto.
  - unfold GameScene.onPointerMove in Hstep. destruct (_ || _).
    + injection Hstep as <-. repeat split; auto.
    + destruct (stroke_frame q s s' (or_intror Hstep))
        as (H1 & H2 & H3 & H4 & H5).
      rewrite H1, H2, H3, H4, H5. repeat split; auto.
  - injection Hstep as <-. unfold GameScene.onPointerUp. scene_fields.
    repeat split; auto.
  - injection Hstep as <-. unfold GameScene.onKeyDown.
    destruct (GameScene.isKeyD key); scene_fields; repeat split; auto.
  - rewrite resetGame_unfold in Hstep.
    destruct (loadNextMask_frame _ s' Hstep) as (H1 & H2 & H3 & H4 & H5).
    rewrite H1, H2, H3, H4, H5. scene_fields.
    repeat split; auto. discriminate.
Qed.

Lemma construct_sceneOk order s :
  GameScene.construct order = Some s -> sceneOk s.
Proof.
  unfold GameScene.construct. intros H.
  destruct (loadNextMask_frame _ s H) as (H1 & H2 & H3 & H4 & H5).
  unfold sceneOk. rewrite H1, H2, H3, H4, H5. scene_fields.
  split; [intros ->; discriminate H |].
  repeat split; intros; try discriminate; congruence.
Qed.

Lemma reachable_sceneOk {ctx2d : Context2D} s : reachable s -> sceneOk s.
Proof.
  induction 1 as [order s Hc | e s s' _ IH Hstep].
  - exact (construct_sceneOk order s Hc).
  - exact (handle_sceneOk e s s' Hstep IH).
Qed.

Lemma reachable_timer_nonneg {ctx2d : Context2D} s :
  reachable s -> (0 <= GameScene.timer s)%Q.
Proof.
  induction 1 as [order s Hc | e s s' _ IH Hstep].
  - rewrite (construct_timer order s Hc). apply Qle_refl.
  - exact (handle_timer_nonneg e s s' Hstep IH).
Qed.

Lemma construct_strokes order s :
  GameScene.construct order = Some s -> GameScene.strokes s = [].
Proof.
  unfold GameScene.construct. intros H. exact (loadNextMask_strokes _ s H).
Qed.

(** Every stroke point a scene ever holds lies inside the document. *)
Lemma reachable_strokes_in_document {ctx2d : Context2D} s :
  reachable s -> Forall inUnitSquare (GameScene.strokes s).
Proof.
  induction 1 as [order s Hc | e s s' _ IH Hstep].
  - rewrite (construct_strokes order s Hc). constructor.
  - destruct (handle_strokes e s s' Hstep)
      as [-> | [-> | (l & q & d & _ & Hd & ->)]].
    + assumption.
    + constructor.
    + apply Forall_app. split; [assumption |].
      constructor; [| constructor].
      apply (screenToDocument_some l q d Hd).
Qed.

(** In a reachable state every event is handled without an exception. *)
Lemma reachable_handles {ctx2d : Context2D} e s :
  reachable s -> exists s', GameScene.handle e s = Some s'.
Proof.
  intros Hr. destruct (reachable_sceneOk s Hr) as (Hm & Hl & Hb & Hp).
  destruct e as [dt | uw uh | rw rh | iw ih rw rh | q | q | | key |];
    cbn [GameScene.handle]; try (eexists; reflexivity).
  - unfold GameScene.onPointerDown.
    destruct (GameScene.phase s) eqn:Hph.
    + destruct (GameScene.hits q _); eexists; reflexivity.
    + destruct (GameScene.hits q _); [eexists; reflexivity |].
      apply stroke_succeeds. auto.
    + destruct (GameScene.hits q (GameScene.continueButton s)).
      * now apply loadNextMask_succeeds.
      * destruct (GameScene.hits q _); eexists; reflexivity.
  - unfold GameScene.onPointerMove.
    destruct (negb (GameScene.isDrawing s)); cbn [orb];
      [eexists; reflexivity |].
    destruct (GameScene.phase s) eqn:Hph; cbn [RoundPhase_eqb negb];
      try (eexists; reflexivity).
    apply stroke_succeeds. auto.
  - rewrite resetGame_unfold. apply loadNextMask_succeeds. exact Hm.
Qed.

(* ================================================================== *)
(** ** The layout the image is drawn with *)

Lemma computeLayout64_layout {R : Binary64.Rounding} rectW rectH s :
  GameScene.layout (GameScene64.computeLayout rectW rectH s)
  = Some (let W := inject_Z (GameScene.docWidth s) in
          let H := inject_Z (GameScene.docHeight s) in
          let scale := Qmin (Binary64.div rectW W) (Binary64.div rectH H) in
          mkLayout scale
            (Binary64.div (Binary64.sub rectW (Binary64.mul W scale)) 2)
            (Binary64.div (Binary64.sub rectH (Binary64.mul H scale)) 2)
            (Binary64.mul W scale) (Binary64.mul H scale)).
Proof. reflexivity. Qed.

Section Layout.
Import Binary64.
Context {R : Rounding}.
Local Abbreviation u := unitRoundoff.

(** The drawn size along one axis: [n] is the image's size, [r] the
    rect's, and [s] the scale, which does not exceed [fl (r / n)]. *)
Lemma drawn_size_le (n r s : Q) :
  (0 < n)%Q -> (0 < r)%Q -> (0 < s)%Q -> (s <= div r n)%Q ->
  (0 < mul n s)%Q /\ (mul n s <= r * (1 + 3 * u))%Q.
Proof.
  intros Hn Hr Hs Hle. unfold mul, div in *.
  destruct (fl_rel (r / n)) as (d1 & Hd1 & Hd1' & E1).
  destruct (fl_rel (n * s)) as (d2 & Hd2 & Hd2' & E2).
  split; [apply fl_pos; nra |].
  rewrite E2. rewrite E1 in Hle.
  assert (Hq : (n * (r / n) == r)%Q) by (field; lra).
  assert (Hns : (n * s <= r * (1 + d1))%Q).
  { rewrite <- Hq. rewrite <- Qmult_assoc.
    rewrite (Qmult_comm n s), (Qmult_comm n).
    apply Qmult_le_compat_r; lra. }
  destruct (rel_compose u d1 d2) as [A1 A2]; try assumption;
    [unfold unitRoundoff; lra |].
  unfold unitRoundoff in *. nra.
Qed.

Lemma drawn_size_ge (n r s : Q) :
  (0 < n)%Q -> (0 < r)%Q -> (s == div r n)%Q ->
  (r * (1 - 3 * u) <= mul n s)%Q.
Proof.
  intros Hn Hr Hs. unfold mul, div in *.
  destruct (fl_rel (r / n)) as (d1 & Hd1 & Hd1' & E1).
  destruct (fl_rel (n * s)) as (d2 & Hd2 & Hd2' & E2).
  rewrite E2, Hs, E1.
  setoid_replace (n * (r / n * (1 + d1)) * (1 + d2))%Q
    with (r * ((1 + d1) * (1 + d2)))%Q by (field; lra).
  destruct (rel_compose u d1 d2) as [A1 A2]; try assumption;
    [unfold unitRoundoff; lra |].
  unfold unitRoundoff in *. nra.
Qed.

(** The margin along one axis, for a drawn size [w] in a rect of size
    [r]. *)
Lemma margin_rel (r w : Q) :
  exists k : Q, (1 - 3 * u <= k)%Q /\ (k <= 1 + 3 * u)%Q
    /\ (div (sub r w) 2 == (r - w) / 2 * k)%Q.
Proof.
  unfold div, sub.
  destruct (fl_rel (r - w)) as (d1 & Hd1 & Hd1' & E1).
  destruct (fl_rel (fl (r - w) / 2)) as (d2 & Hd2 & Hd2' & E2).
  exists ((1 + d1) * (1 + d2))%Q.
  destruct (rel_compose u d1 d2) as [A1 A2]; try assumption;
    [unfold unitRoundoff; lra |].
  split; [unfold unitRoundoff in *; lra |].
  split; [unfold unitRoundoff in *; lra |].
  rewrite E2, E1. field.
Qed.

Lemma margin_bounds (r w : Q) :
  (0 < r)%Q -> (0 < w)%Q -> (w <= r * (1 + 3 * u))%Q ->
  (- (2 * u) * r <= div (sub r w) 2)%Q
  /\ (Qabs (div (sub r w) 2 + w + div (sub r w) 2 - r)
      <= 3 * u * Qabs (r - w))%Q.
Proof.
  intros Hr Hw Hle.
  destruct (margin_rel r w) as (k & Hk1 & Hk2 & E). rewrite E.
  split.
  - set (m := ((r - w) / 2)%Q).
    assert (Hm : (m * 2 == r - w)%Q) by (unfold m; field).
    unfold unitRoundoff in *.
    destruct (Qlt_le_dec m 0) as [Hneg | Hpos]; nra.
  - setoid_replace ((r - w) / 2 * k + w + (r - w) / 2 * k - r)%Q
      with ((r - w) * (k - 1))%Q by field.
    rewrite Qabs_Qmult, (Qmult_comm (3 * u)).
    assert (Hk : (Qabs (k - 1) <= 3 * u)%Q)
      by (apply Qabs_Qle_condition; split; lra).
    pose proof (Qabs_nonneg (r - w)).
    rewrite (Qmult_comm (Qabs (r - w)) (Qabs (k - 1))),
            (Qmult_comm (Qabs (r - w)) (3 * u)).
    apply Qmult_le_compat_r; assumption.
Qed.

End Layout.

(** X1. [computeLayout] fits the image into the bounding rect of the
    document layer up to rounding: for an image and a rect of positive
    size, width and height are the image's times one positive scale,
    rounded; neither exceeds the rect by more than the relative
    [3 * 2^-53], one of them fills the rect to within the same, and the
    margins are not below [-2^-52] times the rect and equal on both
    sides, so that margins and size add up to the rect within
    [3 * 2^-53] of their difference.  The drawn image can be larger than
    the rect and a margin negative: an image 11 wide in a rect 800 wide
    is drawn 800.0000000000001 wide. *)
Theorem computeLayout_fits_and_centres {R : Binary64.Rounding} rectW rectH s :
  0 < GameScene.docWidth s -> 0 < GameScene.docHeight s ->
  (0 < rectW)%Q -> (0 < rectH)%Q ->
  exists l,
    GameScene.layout (GameScene64.computeLayout rectW rectH s) = Some l
    /\ (0 < scale l)%Q
    /\ drawWidth l
       = Binary64.mul (inject_Z (GameScene.docWidth s)) (scale l)
    /\ drawHeight l
       = Binary64.mul (inject_Z (GameScene.docHeight s)) (scale l)
    /\ (0 < drawWidth l)%Q
    /\ (drawWidth l <= rectW * (1 + 3 * Binary64.unitRoundoff))%Q
    /\ (0 < drawHeight l)%Q
    /\ (drawHeight l <= rectH * (1 + 3 * Binary64.unitRoundoff))%Q
    /\ ((rectW * (1 - 3 * Binary64.unitRoundoff) <= drawWidth l)%Q
        \/ (rectH * (1 - 3 * Binary64.unitRoundoff) <= drawHeight l)%Q)
    /\ (- (2 * Binary64.unitRoundoff) * rectW <= offsetX l)%Q
    /\ (- (2 * Binary64.unitRoundoff) * rectH <= offsetY l)%Q
    /\ (Qabs (offsetX l + drawWidth l + offsetX l - rectW)
        <= 3 * Binary64.unitRoundoff * Qabs (rectW - drawWidth l))%Q
    /\ (Qabs (offsetY l + drawHeight l + offsetY l - rectH)
        <= 3 * Binary64.unitRoundoff * Qabs (rectH - drawHeight l))%Q.
Proof.
  intros HW HH Hrw Hrh.
  eexists. split; [apply computeLayout64_layout |].
  cbv zeta. cbn [scale offsetX offsetY drawWidth drawHeight].
  set (W := inject_Z (GameScene.docWidth s)).
  set (H := inject_Z (GameScene.docHeight s)).
  assert (HWq : (0 < W)%Q).
  { subst W. change 0%Q with (inject_Z 0). rewrite <- Zlt_Qlt. exact HW. }
  assert (HHq : (0 < H)%Q).
  { subst H. change 0%Q with (inject_Z 0). rewrite <- Zlt_Qlt. exact HH. }
  set (a := Binary64.div rectW W). set (b := Binary64.div rectH H).
  assert (Ha : (0 < a)%Q).
  { apply fl_pos. apply Qlt_shift_div_l; lra. }
  assert (Hb : (0 < b)%Q).
  { apply fl_pos. apply Qlt_shift_div_l; lra. }
  set (sc := Qmin a b).
  assert (Hsa : (sc <= a)%Q) by apply Q.le_min_l.
  assert (Hsb : (sc <= b)%Q) by apply Q.le_min_r.
  assert (Hsc : (0 < sc)%Q).
  { subst sc. destruct (Q.min_spec a b) as [[_ E] | [_ E]]; rewrite E;
      assumption. }
  destruct (drawn_size_le W rectW sc HWq Hrw Hsc Hsa) as [Hw0 Hw1].
  destruct (drawn_size_le H rectH sc HHq Hrh Hsc Hsb) as [Hh0 Hh1].
  destruct (margin_bounds rectW _ Hrw Hw0 Hw1) as [Hmx Hcx].
  destruct (margin_bounds rectH _ Hrh Hh0 Hh1) as [Hmy Hcy].
  split; [exact Hsc |]. split; [reflexivity |]. split; [reflexivity |].
  split; [exact Hw0 |]. split; [exact Hw1 |].
  split; [exact Hh0 |]. split; [exact Hh1 |].
  split.
  { subst sc. destruct (Q.min_spec a b) as [[_ E] | [_ E]].
    - left. apply drawn_size_ge; assumption.
    - right. apply drawn_size_ge; assumption. }
  split; [exact Hmx |]. split; [exact Hmy |].
  split; [exact Hcx | exact Hcy].
Qed.

(** ** Which screen points start a stroke *)

(** X2. Under a layout that draws the image with positive width and
    height, [screenToDocument] accepts the screen points on the drawn
    image up to rounding at the far edges.  An accepted point is not
    left of or above the image, and its distance to the left (top) edge
    exceeds the drawn width (height) by at most the relative
    [3 * 2^-53]; a point on the image whose distance to the left (top)
    edge stays below the drawn width (height) by that much is
    accepted. *)
Theorem screenToDocument_accepts_drawn_image {R : Binary64.Rounding} l p :
  (0 < drawWidth l)%Q -> (0 < drawHeight l)%Q ->
  (GameScene64.screenToDocument l p <> None ->
   (offsetX l <= pt_x p)%Q
   /\ ((pt_x p - offsetX l) * (1 - 3 * Binary64.unitRoundoff)
       <= drawWidth l)%Q
   /\ (offsetY l <= pt_y p)%Q
   /\ ((pt_y p - offsetY l) * (1 - 3 * Binary64.unitRoundoff)
       <= drawHeight l)%Q)
  /\ ((offsetX l <= pt_x p)%Q
      /\ ((pt_x p - offsetX l) * (1 + 3 * Binary64.unitRoundoff)
          <= drawWidth l)%Q
      /\ (offsetY l <= pt_y p)%Q
      /\ ((pt_y p - offsetY l) * (1 + 3 * Binary64.unitRoundoff)
          <= drawHeight l)%Q ->
      GameScene64.screenToDocument l p <> None).
Proof.
  intros Hw Hh. split.
  - intros Hsome.
    destruct (GameScene64.screenToDocument l p) as [d |] eqn:Hd;
      [| congruence].
    destruct (screenToDocument64_some l p d Hd) as (-> & X0 & X1 & Y0 & Y1).
    cbn [sp_x sp_y] in X0, X1, Y0, Y1.
    destruct (coordinate_accepted _ _ _ Hw X0 X1) as [Hx0 Hx1].
    destruct (coordinate_accepted _ _ _ Hh Y0 Y1) as [Hy0 Hy1].
    auto.
  - intros (Hx0 & Hx1 & Hy0 & Hy1).
    destruct (coordinate_inside _ _ _ Hw Hx0 Hx1) as [X0 X1].
    destruct (coordinate_inside _ _ _ Hh Hy0 Hy1) as [Y0 Y1].
    unfold GameScene64.screenToDocument. rewrite X0, X1, Y0, Y1.
    discriminate.
Qed.

Section BackTrip.
Import Binary64.
Context {R : Rounding}.
Local Abbreviation u := unitRoundoff.

(** Document to screen and back: [d] is the normalized coordinate, [o]
    the offset and [w] the drawn size. *)
Lemma back_trip_coordinate (d o w : Q) :
  (0 < w)%Q ->
  (Qabs (div (sub (add (mul d w) o) o) w - d)
   <= u * (5 * Qabs d + 2 * (Qabs o / w)))%Q.
Proof.
  intros Hw. unfold add, mul, div, sub.
  destruct (fl_rel (d * w)) as (d1 & Hd1 & Hd1' & E1).
  destruct (fl_rel (fl (d * w) + o)) as (d2 & Hd2 & Hd2' & E2).
  destruct (fl_rel (fl (fl (d * w) + o) - o)) as (d3 & Hd3 & Hd3' & E3).
  destruct (fl_rel (fl (fl (fl (d * w) + o) - o) / w))
    as (d4 & Hd4 & Hd4' & E4).
  rewrite E4, E3, E2, E1.
  set (t := ((1 + d1) * (1 + d2) * (1 + d3) * (1 + d4) - 1)%Q).
  set (v := (d2 * ((1 + d3) * (1 + d4)))%Q).
  setoid_replace (((d * w * (1 + d1) + o) * (1 + d2) - o) * (1 + d3) / w
                  * (1 + d4) - d)%Q
    with (d * t + o / w * v)%Q by (unfold t, v; field; lra).
  assert (Ht : (Qabs t <= 5 * u)%Q).
  { apply Qabs_Qle_condition.
    destruct (rel_compose u d1 d2) as [A1 A2]; try assumption;
      [unfold unitRoundoff; lra |].
    set (b2 := (u + u + u * u)%Q) in *.
    destruct (rel_compose b2 ((1 + d1) * (1 + d2) - 1) d3)
      as [B1 B2]; try assumption; [unfold b2, unitRoundoff; lra |].
    set (b3 := (b2 + u + b2 * u)%Q) in *.
    assert (E : ((1 + ((1 + d1) * (1 + d2) - 1)) * (1 + d3)
                 == (1 + d1) * (1 + d2) * (1 + d3))%Q) by ring.
    rewrite E in B1, B2.
    destruct (rel_compose b3 ((1 + d1) * (1 + d2) * (1 + d3) - 1) d4)
      as [C1 C2]; try assumption; [unfold b3, b2, unitRoundoff; lra |].
    assert (E' : ((1 + ((1 + d1) * (1 + d2) * (1 + d3) - 1)) * (1 + d4) - 1
                  == t)%Q) by (unfold t; ring).
    rewrite E' in C1, C2.
    assert (Hb : (b3 + u + b3 * u <= 5 * u)%Q) by (vm_compute; discriminate).
    split; lra. }
  assert (Hv : (Qabs v <= 2 * u)%Q).
  { apply Qabs_Qle_condition. unfold v.
    destruct (rel_compose u d3 d4) as [A1 A2]; try assumption;
      [unfold unitRoundoff; lra |].
    set (k := ((1 + d3) * (1 + d4))%Q) in *.
    unfold unitRoundoff in *. split; nra. }
  eapply Qle_trans; [apply Qabs_triangle |].
  pose proof (Qabs_le_mult d t _ _ (Qle_refl _) Ht) as H1.
  pose proof (Qabs_le_mult (o / w) v _ _ (Qle_refl _) Hv) as H2.
  assert (Ho : (Qabs (o / w) == Qabs o / w)%Q).
  { unfold Qdiv. rewrite Qabs_Qmult, Qabs_Qinv, (Qabs_pos w) by lra.
    reflexivity. }
  rewrite Ho in H2.
  set (D := Qabs d) in *. set (O := (Qabs o / w)%Q) in *.
  unfold unitRoundoff in *. lra.
Qed.

End BackTrip.

(** X3. The round trip the other way, in binary64 arithmetic: when a
    normalized point, mapped to the screen by [documentToScreen], is
    accepted by [screenToDocument], it comes back within [2^-53] times
    five times its coordinate plus twice the offset over the drawn
    size.  Acceptance is a premise: a point on the far edge can map to
    a screen point that [screenToDocument] rejects (lemma
    [far_corner_comes_back_null]). *)
Theorem documentToScreen_round_trip {R : Binary64.Rounding} l d d' :
  (0 < drawWidth l)%Q -> (0 < drawHeight l)%Q ->
  GameScene64.screenToDocument l (GameScene64.documentToScreen l d)
  = Some d' ->
  (Qabs (sp_x d' - sp_x d)
   <= Binary64.unitRoundoff
      * (5 * Qabs (sp_x d) + 2 * (Qabs (offsetX l) / drawWidth l)))%Q
  /\ (Qabs (sp_y d' - sp_y d)
      <= Binary64.unitRoundoff
         * (5 * Qabs (sp_y d) + 2 * (Qabs (offsetY l) / drawHeight l)))%Q.
Proof.
  intros Hw Hh Hd.
  destruct (screenToDocument64_some _ _ _ Hd) as (-> & _).
  unfold GameScene64.documentToScreen. cbn [sp_x sp_y pt_x pt_y].
  split; apply back_trip_coordinate; assumption.
Qed.

(** ** Bounds on the counters and on the score *)

Lemma countIf_split {A : Type} (p t : A -> bool) l :
  countIf (fun a => p a && t a) l + countIf (fun a => p a && negb (t a)) l
  = countIf p l.
Proof.
  induction l as [| a l IH]; [reflexivity |].
  unfold countIf in *. cbn [filter].
  destruct (p a), (t a); cbn [andb negb List.length]; lia.
Qed.

Lemma countIf_le_length {A : Type} (p : A -> bool) l :
  countIf p l <= Z.of_nat (List.length l).
Proof.
  unfold countIf. pose proof (filter_length_le p l). lia.
Qed.

Lemma missedTotal_bounds w h data rects :
  0 <= missedTotal w h data rects <= rectSampleTotal w h rects.
Proof.
  unfold missedTotal, rectSampleTotal.
  induction rects as [| r rects IH]; cbn [map sumZ fold_right]; [lia |].
  unfold sumZ in IH. unfold missedIn at 1 3.
  pose proof (countIf_nonneg (unpainted w data) (rectSamples w h r)).
  pose proof (countIf_le_length (unpainted w data) (rectSamples w h r)).
  lia.
Qed.

(** No counter is negative, and [correct] is at most the size of the
    grid. *)
Lemma counters_range rects c :
  let k := GameScene.countSamples rects c in
  0 <= correct k
       <= Z.of_nat
            (List.length
               (gridSamples (Zpos (c_width c)) (Zpos (c_height c))))
  /\ 0 <= falsePositive k
  /\ 0 <= missed k.
Proof.
  cbv zeta. rewrite countSamples_counts.
  cbn [correct missed falsePositive].
  unfold paintedInside, paintedOutside.
  split; [split; [apply countIf_nonneg | apply countIf_le_length] |].
  split; [apply countIf_nonneg | apply missedTotal_bounds].
Qed.

(** X4. The first pass of [calculateScore] counts every painted grid
    sample exactly once, as [correct] or as [falsePositive]: the two add
    up to the number of painted samples of the stride-4 grid, which is at
    most the size of the grid; [missed] lies between 0 and the number of
    samples in the pixel ranges of the rects. *)
Theorem painted_samples_counted_once rects c :
  let w := Zpos (c_width c) in
  let h := Zpos (c_height c) in
  let k := GameScene.countSamples rects c in
  correct k + falsePositive k = paintedCount w h (c_data c)
  /\ 0 <= correct k
  /\ 0 <= falsePositive k
  /\ paintedCount w h (c_data c) <= Z.of_nat (List.length (gridSamples w h))
  /\ 0 <= missed k <= rectSampleTotal w h rects.
Proof.
  intros w h k. subst k. rewrite countSamples_counts. fold w h.
  cbn [correct missed falsePositive].
  unfold paintedInside, paintedOutside, paintedCount.
  split; [apply (countIf_split
                   (fun xy => negb (unpainted w (c_data c) xy))
                   (fun xy => insidePixel rects w h (fst xy) (snd xy))) |].
  split; [apply countIf_nonneg |].
  split; [apply countIf_nonneg |].
  split; [apply countIf_le_length |].
  apply missedTotal_bounds.
Qed.

Lemma timeFactor_range (t : Q) :
  (t <= GameScene.timeLimit)%Q ->
  (0 <= Qmax 0 (t / GameScene.timeLimit) <= 1)%Q.
Proof.
  intros Ht. unfold GameScene.timeLimit in *.
  split; [apply Q.le_max_l |].
  apply Q.max_lub; [lra |].
  apply Qle_shift_div_r; lra.
Qed.

Lemma Math_round_Z (n : Z) : Math_round (inject_Z n) = n.
Proof.
  unfold Math_round.
  pose proof (Qfloor_le (inject_Z n + (1 # 2))) as Hle.
  pose proof (Qlt_floor (inject_Z n + (1 # 2))) as Hlt.
  set (f := Qfloor (inject_Z n + (1 # 2))) in *.
  rewrite inject_Z_plus in Hlt. change (inject_Z 1) with 1%Q in Hlt.
  assert (H1 : (inject_Z f < inject_Z (n + 1))%Q).
  { rewrite inject_Z_plus. change (inject_Z 1) with 1%Q. lra. }
  assert (H2 : (inject_Z (n - 1) < inject_Z f)%Q).
  { unfold Z.sub. rewrite inject_Z_plus. change (inject_Z (- (1))) with (-1)%Q.
    lra. }
  rewrite <- Zlt_Qlt in H1, H2. lia.
Qed.

(** [calculateScore] with its local variables written out. *)
Lemma calculateScore_unfold s :
  GameScene.calculateScore s
  = Z.max 0
      (Math_round
         (match GameScene.phase s with
          | Scoring =>
              GameScene.subtotal
                (GameScene.countSamples (targetRects (GameScene.mask s))
                   (GameScene.coverage s))
              + GameScene.subtotal
                  (GameScene.countSamples (targetRects (GameScene.mask s))
                     (GameScene.coverage s))
                * Qmax 0 (GameScene.timer s / GameScene.timeLimit) * (1 # 2)
          | _ =>
              GameScene.subtotal
                (GameScene.countSamples (targetRects (GameScene.mask s))
                   (GameScene.coverage s))
          end)%Q).
Proof. reflexivity. Qed.

Lemma Z_of_Q_nonneg (n : Z) : 0 <= n -> (0 <= inject_Z n)%Q.
Proof. intros H. change 0%Q with (inject_Z 0). rewrite <- Zle_Qle. exact H. Qed.

Lemma score_zero_without_correct s :
  correct (GameScene.countSamples (targetRects (GameScene.mask s))
             (GameScene.coverage s)) = 0 ->
  GameScene.calculateScore s = 0.
Proof.
  intros Hc. rewrite calculateScore_unfold.
  destruct (counters_range (targetRects (GameScene.mask s))
              (GameScene.coverage s)) as (_ & Hfp & Hm).
  cbv zeta in Hfp, Hm.
  set (k := GameScene.countSamples _ _) in *.
  assert (Hsub : (GameScene.subtotal k <= 0)%Q).
  { unfold GameScene.subtotal. rewrite Hc.
    pose proof (Z_of_Q_nonneg _ Hfp). pose proof (Z_of_Q_nonneg _ Hm).
    change (inject_Z 0) with 0%Q. lra. }
  set (tf := Qmax 0 (GameScene.timer s / GameScene.timeLimit)).
  assert (Htf : (0 <= tf)%Q) by apply Q.le_max_l.
  assert (Hle : forall x : Q, (x <= 0)%Q -> Z.max 0 (Math_round x) = 0).
  { intros x Hx. assert (Math_round x <= Math_round 0)
      by (apply Math_round_mono; exact Hx).
    change (Math_round 0) with 0 in *. lia. }
  destruct (GameScene.phase s); apply Hle; try exact Hsub.
  nra.
Qed.

(** On a cleared raster no grid sample is painted. *)
Lemma blank_paintedInside t w h :
  paintedInside t (Zpos w) (Zpos h) (c_data (blank w h)) = 0.
Proof.
  unfold paintedInside. apply countIf_none.
  apply forallb_forall. intros xy Hin.
  destruct (blank_raster_reads_zero w h [] (Forall_nil _)) as [Hgrid _].
  rewrite forallb_forall in Hgrid. rewrite (Hgrid xy Hin). reflexivity.
Qed.

(** X5. Penalties never push a score below 0 and only a correct sample
    can lift it above: whenever no painted grid sample lies inside a
    target rect, [calculateScore] returns 0, whatever the false
    positives, the misses, the phase and the timer.  In particular a
    round finished right after [startRedaction] (which clears the
    raster) books a [roundScore] of 0 and leaves [totalScore] as it
    was. *)
Theorem score_needs_a_correct_sample s :
  (correct (GameScene.countSamples (targetRects (GameScene.mask s))
              (GameScene.coverage s)) = 0 ->
   GameScene.calculateScore s = 0)
  /\ (let s' := GameScene.finishRound (GameScene.startRedaction s) in
      GameScene.phase s' = Scoring
      /\ GameScene.roundScore s' = 0
      /\ GameScene.totalScore s' = GameScene.totalScore s).
Proof.
  split; [apply score_zero_without_correct |].
  cbv zeta.
  destruct (finishRound_effect (GameScene.startRedaction s))
    as (Hp & _ & Hr & Ht).
  cbv zeta in Hp, Hr, Ht.
  assert (Hzero : GameScene.roundScore
                    (GameScene.finishRound (GameScene.startRedaction s)) = 0).
  { rewrite Hr. apply score_zero_without_correct.
    rewrite countSamples_counts. cbn [correct].
    change (GameScene.coverage
              (GameScene.set_phase Scoring (GameScene.startRedaction s)))
      with (blank (c_width (GameScene.coverage s))
                  (c_height (GameScene.coverage s))).
    cbn [c_width c_height blank]. apply blank_paintedInside. }
  split; [exact Hp |]. split; [exact Hzero |].
  rewrite Ht, Hzero. change (GameScene.totalScore (GameScene.startRedaction s))
    with (GameScene.totalScore s). lia.
Qed.

(** X6. With the timer at most [timeLimit] the bonus is at most half the
    subtotal, so a round scores at most 30 points per correct sample
    (20 plus the 50% bonus), and hence at most 30 per sample of the
    grid. *)
Theorem score_at_most_thirty_per_correct_sample s :
  (GameScene.timer s <= GameScene.timeLimit)%Q ->
  let w := Zpos (c_width (GameScene.coverage s)) in
  let h := Zpos (c_height (GameScene.coverage s)) in
  let k := GameScene.countSamples (targetRects (GameScene.mask s))
             (GameScene.coverage s) in
  0 <= GameScene.calculateScore s <= 30 * correct k
  /\ 30 * correct k <= 30 * Z.of_nat (List.length (gridSamples w h)).
Proof.
  intros Ht w h k.
  destruct (counters_range (targetRects (GameScene.mask s))
              (GameScene.coverage s)) as (Hc & Hfp & Hm).
  cbv zeta in Hc, Hfp, Hm. fold w h k in Hc, Hfp, Hm.
  split; [| lia].
  split; [apply calculateScore_nonneg |].
  rewrite calculateScore_unfold. fold k.
  destruct (timeFactor_range (GameScene.timer s) Ht) as [Htf0 Htf1].
  set (tf := Qmax 0 (GameScene.timer s / GameScene.timeLimit)) in *.
  pose proof (Z_of_Q_nonneg _ (proj1 Hc)) as HcQ.
  pose proof (Z_of_Q_nonneg _ Hfp) as HfQ.
  pose proof (Z_of_Q_nonneg _ Hm) as HmQ.
  assert (Hsub : (GameScene.subtotal k <= inject_Z (correct k) * 20)%Q).
  { unfold GameScene.subtotal. lra. }
  assert (Hbound : forall x : Q,
            (x <= inject_Z (30 * correct k))%Q ->
            Z.max 0 (Math_round x) <= 30 * correct k).
  { intros x Hx.
    assert (Math_round x <= Math_round (inject_Z (30 * correct k)))
      by (apply Math_round_mono; exact Hx).
    rewrite Math_round_Z in *. lia. }
  assert (H30 : (inject_Z (30 * correct k) == inject_Z (correct k) * 30)%Q).
  { rewrite inject_Z_mult. change (inject_Z 30) with 30%Q. ring. }
  destruct (GameScene.phase s); apply Hbound; rewrite H30; try lra.
  destruct (Qlt_le_dec (GameScene.subtotal k) 0); nra.
Qed.

(** ** The timer stays within the time limit *)

Lemma update_timer_le dt s :
  (0 <= dt)%Q ->
  (GameScene.timer s <= GameScene.timeLimit)%Q ->
  (GameScene.timer (GameScene.update dt s) <= GameScene.timeLimit)%Q.
Proof.
  intros Hdt Ht. destruct (GameScene.phase s) eqn:Hp;
    try (rewrite update_idle by congruence; exact Ht).
  destruct (Qle_bool (GameScene.timer s - dt) 0) eqn:Hout.
  - rewrite (update_crossing dt s Hp Hout).
    destruct (finishRound_effect (GameScene.set_timer 0 s)) as (_ & H & _).
    cbv zeta in H. rewrite H. discriminate.
  - destruct (update_running dt s Hp Hout) as (_ & H & _).
    cbv zeta in H. rewrite H. lra.
Qed.

Lemma handle_timer_le {ctx2d : Context2D} e s s' :
  GameScene.handle e s = Some s' ->
  forwardTick e ->
  (GameScene.timer s <= GameScene.timeLimit)%Q ->
  (GameScene.timer s' <= GameScene.timeLimit)%Q.
Proof.
  destruct e as [dt | uw uh | rw rh | iw ih rw rh | q | q | | key |];
    cbn [GameScene.handle forwardTick]; intros Hstep Hfw Ht.
  - injection Hstep as <-. now apply update_timer_le.
  - injection Hstep as <-. unfold GameScene.render.
    destruct (_ || _); [assumption |].
    destruct s as [? ? ? ? ? ? ? ? ph ? ? ? ? ? ? ? ? ? ? ? ? ?].
    destruct ph; exact Ht.
  - injection Hstep as <-. unfold GameScene.onResize.
    destruct (negb _); exact Ht.
  - injection Hstep as <-. exact Ht.
  - unfold GameScene.onPointerDown in Hstep.
    destruct (GameScene.phase s).
    + destruct (GameScene.hits q _); injection Hstep as <-;
        [| exact Ht].
      rewrite (proj2 (startRedaction_ready s)). apply Qle_refl.
    + destruct (GameScene.hits q _).
      * injection Hstep as <-.
        destruct (finishRound_effect s) as (_ & H & _).
        cbv zeta in H. rewrite H. exact Ht.
      * rewrite (stroke_timer q s s' (or_introl Hstep)). exact Ht.
    + destruct (GameScene.hits q (GameScene.continueButton s)).
      * rewrite (loadNextMask_timer s s' Hstep). exact Ht.
      * destruct (GameScene.hits q _); injection Hstep as <-; exact Ht.
  - unfold GameScene.onPointerMove in Hstep. destruct (_ || _).
    + injection Hstep as <-. exact Ht.
    + rewrite (stroke_timer q s s' (or_intror Hstep)). exact Ht.
  - injection Hstep as <-. exact Ht.
  - injection Hstep as <-. unfold GameScene.onKeyDown.
    destruct (GameScene.isKeyD key); exact Ht.
  - rewrite resetGame_unfold in Hstep.
    rewrite (loadNextMask_timer _ s' Hstep). exact Ht.
Qed.

(** X7. In a scene built by the constructor and driven by any events
    whose [update] steps are not negative, the timer always lies between
    0 and [timeLimit]; the factor [Math.max(0, timer / timeLimit)] of
    the time bonus therefore lies between 0 and 1, as the comment in
    [calculateScore] says. *)
Theorem timer_stays_within_limit {ctx2d : Context2D} order es s0 s :
  GameScene.construct order = Some s0 ->
  Forall forwardTick es ->
  GameScene.run es s0 = Some s ->
  (0 <= GameScene.timer s <= GameScene.timeLimit)%Q
  /\ (0 <= Qmax 0 (GameScene.timer s / GameScene.timeLimit) <= 1)%Q.
Proof.
  intros Hc Hfw Hrun.
  assert (H0 : (0 <= GameScene.timer s0 <= GameScene.timeLimit)%Q).
  { rewrite (construct_timer order s0 Hc). split; discriminate. }
  clear Hc.
  assert (Hs : (0 <= GameScene.timer s <= GameScene.timeLimit)%Q).
  { revert s0 H0 Hrun. induction Hfw as [| e es He _ IH]; intros s0 H0 Hrun.
    - cbn in Hrun. injection Hrun as <-. exact H0.
    - cbn [GameScene.run] in Hrun.
      destruct (GameScene.handle e s0) as [s1 |] eqn:Hstep; [| discriminate].
      apply (IH s1); [| exact Hrun].
      split.
      + exact (handle_timer_nonneg e s0 s1 Hstep (proj1 H0)).
      + exact (handle_timer_le e s0 s1 Hstep He (proj2 H0)). }
  split; [exact Hs |]. apply timeFactor_range. exact (proj2 Hs).
Qed.

(** ** The order of the masks is fixed at construction *)

Lemma loadNextMask_shown s s' :
  GameScene.loadNextMask s = Some s' ->
  GameScene.masks s' = GameScene.masks s /\ maskShown s'.
Proof.
  intros H. split; [exact (loadNextMask_masks s s' H) |].
  destruct (nth_error (GameScene.masks s)
              (if (List.length (GameScene.masks s)
                   <=? GameScene.currentMaskIndex s)%nat
               then 0%nat else GameScene.currentMaskIndex s))
    as [m |] eqn:Hm.
  - destruct (loadNextMask_effect s m Hm) as (s1 & H1 & Hmask & Hmasks & Hidx).
    rewrite H in H1. injection H1 as <-.
    eexists. split; [exact Hidx |]. rewrite Hmasks, Hmask. exact Hm.
  - exfalso. revert H. unfold GameScene.loadNextMask.
    destruct (_ <=? _)%nat.
    + change (nth_error
                (GameScene.masks (GameScene.set_currentMaskIndex 0%nat s))
                (GameScene.currentMaskIndex
                   (GameScene.set_currentMaskIndex 0%nat s)))
        with (nth_error (GameScene.masks s) 0%nat).
      rewrite Hm. discriminate.
    + rewrite Hm. discriminate.
Qed.

Lemma stroke_masks {ctx2d : Context2D} q s s' :
  GameScene.startStroke q s = Some s' \/ GameScene.addStroke q s = Some s' ->
  GameScene.masks s' = GameScene.masks s
  /\ GameScene.mask s' = GameScene.mask s
  /\ GameScene.currentMaskIndex s' = GameScene.currentMaskIndex s.
Proof.
  unfold GameScene.startStroke, GameScene.addStroke.
  destruct (GameScene.layout s) as [l |]; [| intros [H | H]; discriminate].
  destruct (GameScene.screenToDocument l q);
    intros [H | H]; injection H as <-; auto.
Qed.

Lemma update_masks dt s :
  GameScene.masks (GameScene.update dt s) = GameScene.masks s
  /\ GameScene.mask (GameScene.update dt s) = GameScene.mask s
  /\ GameScene.currentMaskIndex (GameScene.update dt s)
     = GameScene.currentMaskIndex s.
Proof.
  destruct (GameScene.phase s) eqn:Hp;
    try (rewrite update_idle by congruence; auto).
  split; [| split];
    unfold GameScene.update; rewrite Hp; cbv zeta; split_ifs; reflexivity.
Qed.

Lemma render_masks uw uh s :
  GameScene.masks (GameScene.render uw uh s) = GameScene.masks s
  /\ GameScene.mask (GameScene.render uw uh s) = GameScene.mask s
  /\ GameScene.currentMaskIndex (GameScene.render uw uh s)
     = GameScene.currentMaskIndex s.
Proof.
  unfold GameScene.render.
  destruct s as [? il ? ? ? ? ? ? ph ? ? ? nr ? ? ? ? rb ? ? ? ?].
  cbn [GameScene.imageLoaded GameScene.needsRedraw].
  destruct il, nr; cbn [negb orb]; [destruct ph | | |];
    repeat split; auto.
Qed.

(** No event reorders the masks; an event either keeps the mask on
    screen and the index, or loads the mask at the index. *)
Lemma handle_masks {ctx2d : Context2D} e s s' :
  GameScene.handle e s = Some s' ->
  GameScene.masks s' = GameScene.masks s
  /\ ((GameScene.mask s' = GameScene.mask s
       /\ GameScene.currentMaskIndex s' = GameScene.currentMaskIndex s)
      \/ maskShown s').
Proof.
  destruct e as [dt | uw uh | rw rh | iw ih rw rh | q | q | | key |];
    cbn [GameScene.handle]; intros Hstep.
  - injection Hstep as <-.
    destruct (update_masks dt s) as (H1 & H2 & H3). auto.
  - injection Hstep as <-.
    destruct (render_masks uw uh s) as (H1 & H2 & H3). auto.
  - injection Hstep as <-. unfold GameScene.onResize.
    destruct (negb _); auto.
  - injection Hstep as <-. auto.
  - unfold GameScene.onPointerDown in Hstep.
    destruct (GameScene.phase s).
    + destruct (GameScene.hits q _); injection Hstep as <-; auto.
    + destruct (GameScene.hits q _).
      * injection Hstep as <-. auto.
      * destruct (stroke_masks q s s' (or_introl Hstep)) as (H1 & H2 & H3).
        auto.
    + destruct (GameScene.hits q (GameScene.continueButton s)).
      * destruct (loadNextMask_shown s s' Hstep). auto.
      * destruct (GameScene.hits q _); injection Hstep as <-; auto.
  - unfold GameScene.onPointerMove in Hstep. destruct (_ || _).
    + injection Hstep as <-. auto.
    + destruct (stroke_masks q s s' (or_intror Hstep)) as (H1 & H2 & H3).
      auto.
  - injection Hstep as <-. auto.
  - injection Hstep as <-. unfold GameScene.onKeyDown.
    destruct (GameScene.isKeyD key); auto.
  - rewrite resetGame_unfold in Hstep.
    destruct (loadNextMask_shown _ s' Hstep) as [H1 H2]. auto.
Qed.

(** X8. [GameScene] fixes the order of its masks in the constructor:
    after any sequence of events the array [masks] is still the one the
    constructor stored, the mask on screen is the element just before
    [currentMaskIndex], and the index stays between 1 and the number of
    masks. *)
Theorem mask_order_is_fixed {ctx2d : Context2D} order es s0 s :
  GameScene.construct order = Some s0 ->
  GameScene.run es s0 = Some s ->
  GameScene.masks s = order
  /\ (exists i,
        GameScene.currentMaskIndex s = S i
        /\ nth_error order i = Some (GameScene.mask s))
  /\ In (GameScene.mask s) order
  /\ (1 <= GameScene.currentMaskIndex s <= List.length order)%nat.
Proof.
  intros Hc Hrun.
  assert (H0 : GameScene.masks s0 = order /\ maskShown s0).
  { unfold GameScene.construct in Hc.
    destruct (loadNextMask_shown _ s0 Hc) as [H1 H2]. auto. }
  clear Hc.
  assert (Hs : GameScene.masks s = order /\ maskShown s).
  { revert s0 H0 Hrun. induction es as [| e es IH]; intros s0 H0 Hrun.
    - cbn in Hrun. injection Hrun as <-. exact H0.
    - cbn [GameScene.run] in Hrun.
      destruct (GameScene.handle e s0) as [s1 |] eqn:Hstep; [| discriminate].
      apply (IH s1); [| exact Hrun].
      destruct H0 as [Hm0 (i & Hi & Hn)].
      destruct (handle_masks e s0 s1 Hstep) as [Hm [[Hk Hidx] | Hshown]].
      + split; [congruence |]. exists i. rewrite Hm, Hk, Hidx. auto.
      + split; [congruence | exact Hshown]. }
  destruct Hs as [Hm (i & Hi & Hn)]. rewrite Hm in Hn.
  split; [exact Hm |]. split; [exists i; auto |].
  split; [exact (nth_error_In _ _ Hn) |].
  assert (i < List.length order)%nat
    by (apply nth_error_Some; congruence).
  lia.
Qed.

(** ** Starting a session *)

(** X9. An empty mask array is the one input the scene cannot take:
    the constructor, [loadNextMask] and [resetGame] raise (reading
    [prompt] of [undefined]) exactly when there is no mask. *)
Theorem no_masks_raises order s :
  (GameScene.construct order = None <-> order = [])
  /\ (GameScene.loadNextMask s = None <-> GameScene.masks s = [])
  /\ (GameScene.resetGame s = None <-> GameScene.masks s = []).
Proof.
  assert (Hload : forall t,
            GameScene.loadNextMask t = None <-> GameScene.masks t = []).
  { intros t. split.
    - intros Hnone. destruct (GameScene.masks t) as [| m ms] eqn:Hm;
        [reflexivity | exfalso].
      destruct (loadNextMask_succeeds t) as [t' Ht']; congruence.
    - intros Hm. unfold GameScene.loadNextMask. rewrite Hm.
      cbn [List.length Nat.leb].
      change (GameScene.masks (GameScene.set_currentMaskIndex 0%nat t))
        with (GameScene.masks t).
      rewrite Hm. reflexivity. }
  split; [apply (Hload (GameScene.mkState false false 0 0 None [] false
                          (blank 300 150) Prompt 0 0 0 true order 0%nat
                          EmptyString (mkMask EmptyString EmptyString [])
                          None None None None [])) |].
  split; [apply Hload |].
  rewrite resetGame_unfold, Hload. split; intros H; exact H.
Qed.

(** Everything [loadNextMask] assigns, for the mask [m] it loads. *)
Lemma loadNextMask_assigns s m :
  nth_error (GameScene.masks s)
    (if (List.length (GameScene.masks s) <=? GameScene.currentMaskIndex s)%nat
     then 0%nat else GameScene.currentMaskIndex s) = Some m ->
  exists s',
    GameScene.loadNextMask s = Some s'
    /\ GameScene.mask s' = m
    /\ GameScene.prompt s' = m_prompt m
    /\ GameScene.totalScore s' = GameScene.totalScore s
    /\ GameScene.roundScore s' = GameScene.roundScore s
    /\ GameScene.phase s' = Prompt
    /\ GameScene.strokes s' = []
    /\ GameScene.coverage s' = clearRect (GameScene.coverage s)
    /\ GameScene.calls s' = GameScene.calls s ++ [ImageSrc (imageSrc m)].
Proof.
  unfold GameScene.loadNextMask.
  destruct (_ <=? _)%nat; intros Hm.
  - change (nth_error
              (GameScene.masks (GameScene.set_currentMaskIndex 0%nat s))
              (GameScene.currentMaskIndex
                 (GameScene.set_currentMaskIndex 0%nat s)))
      with (nth_error (GameScene.masks s) 0%nat).
    rewrite Hm. eexists. split; [reflexivity |]. repeat split; reflexivity.
  - rewrite Hm. eexists. split; [reflexivity |]. repeat split; reflexivity.
Qed.

(** X10. [resetGame] starts a new session at the first mask of the
    order fixed at construction, wherever the index was: it loads
    [masks[0]] with its prompt and image, sets the index to 1, both
    scores to 0, the phase to Prompt, and empties the strokes and the
    coverage raster; the order of the masks is untouched. *)
Theorem resetGame_restarts_at_first_mask s m :
  nth_error (GameScene.masks s) 0 = Some m ->
  exists s',
    GameScene.resetGame s = Some s'
    /\ GameScene.mask s' = m
    /\ GameScene.prompt s' = m_prompt m
    /\ GameScene.currentMaskIndex s' = 1%nat
    /\ GameScene.masks s' = GameScene.masks s
    /\ GameScene.totalScore s' = 0
    /\ GameScene.roundScore s' = 0
    /\ GameScene.phase s' = Prompt
    /\ GameScene.strokes s' = []
    /\ GameScene.coverage s' = clearRect (GameScene.coverage s)
    /\ GameScene.calls s' = GameScene.calls s ++ [ImageSrc (imageSrc m)].
Proof.
  intros Hm. rewrite resetGame_unfold.
  remember (GameScene.set_coverage _ _) as s0 eqn:Hs0.
  assert (Hmasks : GameScene.masks s0 = GameScene.masks s)
    by (rewrite Hs0; reflexivity).
  assert (Hidx : GameScene.currentMaskIndex s0 = 0%nat)
    by (rewrite Hs0; reflexivity).
  assert (Hpick :
    nth_error (GameScene.masks s0)
      (if (List.length (GameScene.masks s0)
           <=? GameScene.currentMaskIndex s0)%nat
       then 0%nat else GameScene.currentMaskIndex s0) = Some m).
  { rewrite Hidx, Hmasks. destruct (_ <=? _)%nat; exact Hm. }
  destruct (loadNextMask_assigns s0 m Hpick)
    as (s' & Hload & H1 & H2 & H3 & H4 & H5 & H6 & H7 & H8).
  destruct (loadNextMask_effect s0 m Hpick) as (s1 & Hload1 & _ & H9 & H10).
  rewrite Hload in Hload1. injection Hload1 as <-.
  assert (H11 : GameScene.currentMaskIndex s' = 1%nat).
  { rewrite H10. destruct (_ <=? _)%nat; [reflexivity |].
    rewrite Hidx. reflexivity. }
  exists s'. split; [exact Hload |].
  split; [exact H1 |]. split; [exact H2 |].
  split; [exact H11 |].
  split; [rewrite H9; exact Hmasks |].
  split; [rewrite H3, Hs0; reflexivity |].
  split; [rewrite H4, Hs0; reflexivity |].
  split; [exact H5 |]. split; [exact H6 |].
  split; [rewrite H7, Hs0; reflexivity |].
  rewrite H8, Hs0. reflexivity.
Qed.

(** ** The buttons of the Scoring screen *)

Lemma render64_scoring {R : Binary64.Rounding} uw uh s :
  GameScene.phase s = Scoring ->
  GameScene.imageLoaded s = true ->
  GameScene.needsRedraw s = true ->
  GameScene.phase (GameScene64.render uw uh s) = Scoring
  /\ GameScene.continueButton (GameScene64.render uw uh s)
     = Some (GameScene64.drawButton "CONTINUE" (Binary64.div uw 2)
               (Binary64.mul uh (Binary64.literal (5 # 10))))
  /\ GameScene.exitButton (GameScene64.render uw uh s)
     = Some (GameScene64.drawButton "EXIT" (Binary64.div uw 2)
               (Binary64.mul uh (Binary64.literal (57 # 100)))).
Proof.
  unfold GameScene64.render.
  destruct s as [? il ? ? ? ? ? ? ph ? ? ? nr ? ? ? ? ? ? ? ? ?].
  cbn [GameScene.imageLoaded GameScene.needsRedraw GameScene.phase].
  intros -> -> ->. cbn [negb orb]. repeat split; reflexivity.
Qed.

Section Buttons.
Import Binary64.
Context {R : Rounding}.
Local Abbreviation u := unitRoundoff.

(** A rounded value is off by at most [u] times a bound on its size. *)
Lemma fl_near (B x : Q) :
  (- B <= x)%Q -> (x <= B)%Q ->
  (x - u * B <= fl x)%Q /\ (fl x <= x + u * B)%Q.
Proof.
  intros H1 H2. pose proof (fl_error x) as He.
  apply Qabs_Qle_condition in He.
  assert (Ha : (Qabs x <= B)%Q) by (apply Qabs_Qle_condition; split; lra).
  unfold unitRoundoff in *. split; lra.
Qed.

(** The edges of a button drawn around ([cx], [cy]), as [pointInRect]
    computes them, lie within [edgeSlack] of 70 left and right and 20
    above and below the centre. *)
Lemma drawButton_edges (text : string) (cx cy : Q) :
  (- 2000000 <= cx)%Q -> (cx <= 2000000)%Q ->
  (- 2000000 <= cy)%Q -> (cy <= 2000000)%Q ->
  let r := GameScene64.drawButton text cx cy in
  ((cx - 70 - edgeSlack <= b_x r)%Q /\ (b_x r <= cx - 70 + edgeSlack)%Q)
  /\ ((cx + 70 - edgeSlack <= add (b_x r) (b_width r))%Q
      /\ (add (b_x r) (b_width r) <= cx + 70 + edgeSlack)%Q)
  /\ ((cy - 20 - edgeSlack <= b_y r)%Q /\ (b_y r <= cy - 20 + edgeSlack)%Q)
  /\ ((cy + 20 - edgeSlack <= add (b_y r) (b_height r))%Q
      /\ (add (b_y r) (b_height r) <= cy + 20 + edgeSlack)%Q).
Proof.
  intros Hx1 Hx2 Hy1 Hy2.
  cbv zeta. cbn [GameScene64.drawButton b_x b_y b_width b_height].
  unfold add, sub, div.
  assert (E1 : (140 / 2 == 70)%Q) by reflexivity.
  assert (E2 : (40 / 2 == 20)%Q) by reflexivity.
  destruct (fl_near 70 (140 / 2)) as [A1 A2]; [lra | lra |].
  destruct (fl_near 20 (40 / 2)) as [B1 B2]; [lra | lra |].
  set (hw := fl (140 / 2)) in *. set (hh := fl (40 / 2)) in *.
  unfold unitRoundoff in A1, A2, B1, B2.
  destruct (fl_near 2100000 (cx - hw)) as [C1 C2]; [lra | lra |].
  destruct (fl_near 2100000 (cy - hh)) as [D1 D2]; [lra | lra |].
  set (bx := fl (cx - hw)) in *. set (by_ := fl (cy - hh)) in *.
  unfold unitRoundoff in C1, C2, D1, D2.
  destruct (fl_near 2100000 (bx + 140)) as [F1 F2]; [lra | lra |].
  destruct (fl_near 2100000 (by_ + 40)) as [G1 G2]; [lra | lra |].
  unfold unitRoundoff in F1, F2, G1, G2. unfold edgeSlack.
  repeat split; lra.
Qed.

(** The centre line [h * c] for a literal factor [c] of at most 1. *)
Lemma centre_near (h c : Q) :
  (0 <= h)%Q -> (h <= 1048576)%Q -> (0 <= c)%Q -> (c <= 1)%Q ->
  (h * c - edgeSlack <= mul h (literal c))%Q
  /\ (mul h (literal c) <= h * c + edgeSlack)%Q.
Proof.
  intros Hh1 Hh2 Hc1 Hc2. unfold mul, literal.
  destruct (fl_near 1 c) as [A1 A2]; [lra | lra |].
  set (c' := fl c) in *. unfold unitRoundoff in A1, A2.
  assert (Hp1 : (h * (c - (1 # 9007199254740992)) <= h * c')%Q) by nra.
  assert (Hp2 : (h * c' <= h * (c + (1 # 9007199254740992)))%Q) by nra.
  assert (Hhc : (0 <= h * c <= 1048576)%Q) by (split; nra).
  destruct (fl_near 2000000 (h * c')) as [B1 B2]; [nra | nra |].
  unfold unitRoundoff in B1, B2. unfold edgeSlack. split; nra.
Qed.

Lemma half_near (w : Q) :
  (0 <= w)%Q -> (w <= 1048576)%Q ->
  (w / 2 - edgeSlack <= div w 2)%Q /\ (div w 2 <= w / 2 + edgeSlack)%Q.
Proof.
  intros H1 H2. unfold div.
  set (m := (w / 2)%Q).
  assert (Hm : (m * 2 == w)%Q) by (unfold m; field).
  destruct (fl_near 1000000 m) as [A1 A2]; [lra | lra |].
  unfold unitRoundoff in A1, A2. unfold edgeSlack. split; lra.
Qed.

End Buttons.

Lemma pointInRect64_spec {R : Binary64.Rounding} p r :
  GameScene64.pointInRect p r = true
  <-> ((b_x r <= pt_x p)%Q
       /\ (pt_x p <= Binary64.add (b_x r) (b_width r))%Q)
      /\ ((b_y r <= pt_y p)%Q
          /\ (pt_y p <= Binary64.add (b_y r) (b_height r))%Q).
Proof.
  unfold GameScene64.pointInRect.
  rewrite !andb_true_iff, !Qle_bool_iff. tauto.
Qed.

(** X11. On the Scoring screen the CONTINUE and EXIT buttons are drawn
    40 high with centres [0.07 * h] apart, so on a low UI layer they
    overlap.  In binary64 arithmetic, on a layer of at most 1048576
    pixels each way: a press within 69 pixels of the vertical centre
    line and at least a hundredth of a pixel inside the band between
    EXIT's top edge and CONTINUE's bottom edge lies on both buttons and
    loads the next mask instead of leaving, since CONTINUE is tested
    first; up to a height of 571 pixels there are such points; from a
    height of 572 pixels on no point lies on both buttons. *)
Theorem continue_wins_where_buttons_overlap
    {ctx2d : Context2D} {R : Binary64.Rounding} uw uh s :
  GameScene.phase s = Scoring ->
  GameScene.imageLoaded s = true ->
  GameScene.needsRedraw s = true ->
  (0 <= uw)%Q -> (uw <= 1048576)%Q -> (0 <= uh)%Q -> (uh <= 1048576)%Q ->
  let s1 := GameScene64.render uw uh s in
  let inBand (p : Point) :=
    ((uw / 2 - 69 <= pt_x p)%Q /\ (pt_x p <= uw / 2 + 69)%Q)
    /\ ((uh * (57 # 100) - 20 + (1 # 100) <= pt_y p)%Q
        /\ (pt_y p <= uh * (5 # 10) + 20 - (1 # 100))%Q) in
  (forall p, inBand p ->
     GameScene64.hits p (GameScene.continueButton s1) = true
     /\ GameScene64.hits p (GameScene.exitButton s1) = true
     /\ GameScene64.onPointerDown p s1 = GameScene.loadNextMask s1)
  /\ ((uh <= 571)%Q -> inBand (mkPoint (uw / 2) (uh * (535 # 1000))))
  /\ ((572 <= uh)%Q ->
      forall p,
        GameScene64.hits p (GameScene.continueButton s1) = true ->
        GameScene64.hits p (GameScene.exitButton s1) = false).
Proof.
  intros Hp Hil Hnr Hw1 Hw2 Hh1 Hh2 s1 inBand.
  destruct (render64_scoring uw uh s Hp Hil Hnr) as (Hp1 & Hc & He).
  fold s1 in Hp1, Hc, He.
  destruct (half_near uw Hw1 Hw2) as [X1 X2].
  destruct (centre_near uh (5 # 10) Hh1 Hh2) as [C1 C2]; [lra | lra |].
  destruct (centre_near uh (57 # 100) Hh1 Hh2) as [E1 E2]; [lra | lra |].
  set (m := (uw / 2)%Q) in *.
  assert (Hm : (m * 2 == uw)%Q) by (unfold m; field).
  set (cx := Binary64.div uw 2) in *.
  set (cyc := Binary64.mul uh (Binary64.literal (5 # 10))) in *.
  set (cye := Binary64.mul uh (Binary64.literal (57 # 100))) in *.
  unfold edgeSlack in X1, X2, C1, C2, E1, E2.
  pose proof (drawButton_edges "CONTINUE" cx cyc) as Bc.
  pose proof (drawButton_edges "EXIT" cx cye) as Be.
  cbv zeta in Bc, Be.
  destruct Bc as ((Bc1 & Bc2) & (Bc3 & Bc4) & (Bc5 & Bc6) & (Bc7 & Bc8));
    [lra | lra | nra | nra |].
  destruct Be as ((Be1 & Be2) & (Be3 & Be4) & (Be5 & Be6) & (Be7 & Be8));
    [lra | lra | nra | nra |].
  unfold edgeSlack in *.
  rewrite Hc, He. cbn [GameScene64.hits].
  set (bc := GameScene64.drawButton "CONTINUE" cx cyc) in *.
  set (be := GameScene64.drawButton "EXIT" cx cye) in *.
  split; [| split].
  - intros p ((Px1 & Px2) & (Py1 & Py2)).
    assert (Hhc : GameScene64.pointInRect p bc = true).
    { apply pointInRect64_spec. repeat split; lra. }
    assert (Hhe : GameScene64.pointInRect p be = true).
    { apply pointInRect64_spec. repeat split; lra. }
    split; [exact Hhc |]. split; [exact Hhe |].
    unfold GameScene64.onPointerDown. rewrite Hp1, Hc.
    cbn [GameScene64.hits]. fold bc. rewrite Hhc. reflexivity.
  - intros Hlow. unfold inBand. cbn [pt_x pt_y]. repeat split; lra.
  - intros Hhigh p Hin. apply pointInRect64_spec in Hin.
    destruct Hin as ((_ & _) & (_ & Py2)).
    apply not_true_iff_false. intros Hin'.
    apply pointInRect64_spec in Hin'.
    destruct Hin' as ((_ & _) & (Py1 & _)). lra.
Qed.

(** ** Paint reaches the raster only while redacting *)

Lemma loadNextMask_coverage s s' :
  GameScene.loadNextMask s = Some s' ->
  GameScene.coverage s' = clearRect (GameScene.coverage s).
Proof.
  unfold GameScene.loadNextMask.
  destruct (nth_error _ _); [| discriminate].
  intros H. injection H as <-.
  destruct (_ <=? _)%nat; reflexivity.
Qed.

Lemma render_coverage uw uh s :
  GameScene.coverage (GameScene.render uw uh s) = GameScene.coverage s.
Proof.
  unfold GameScene.render.
  destruct s as [? il ? ? ? ? ? ? ph ? ? ? nr ? ? ? ? ? ? ? ? ?].
  cbn [GameScene.imageLoaded GameScene.needsRedraw].
  destruct il, nr; cbn [negb orb]; [destruct ph | | |]; reflexivity.
Qed.

Lemma startRedaction_coverage s :
  GameScene.coverage (GameScene.startRedaction s)
  = clearRect (GameScene.coverage s).
Proof. reflexivity. Qed.

Lemma exitGame_coverage s :
  GameScene.coverage (GameScene.exitGame s)
  = clearRect (GameScene.coverage s).
Proof. reflexivity. Qed.

Lemma onImageLoad_coverage {ctx2d : Context2D} iw ih rw rh s :
  GameScene.coverage (GameScene.onImageLoad iw ih rw rh s) = blank iw ih.
Proof. reflexivity. Qed.

(** X12. Outside the Redacting phase no event paints: handling any
    event in the Prompt or Scoring phase leaves the coverage raster as
    it was or leaves it with every byte 0 (cleared, or replaced when an
    image loads). *)
Theorem paint_only_while_redacting {ctx2d : Context2D} e s s' :
  GameScene.handle e s = Some s' ->
  GameScene.phase s <> Redacting ->
  GameScene.coverage s' = GameScene.coverage s
  \/ Forall (fun v => v = 0) (c_data (GameScene.coverage s')).
Proof.
  intros Hstep Hph. revert Hstep.
  destruct e as [dt | uw uh | rw rh | iw ih rw rh | q | q | | key |];
    cbn [GameScene.handle].
  - intros Hstep. injection Hstep as <-. left. now rewrite update_idle.
  - intros Hstep. injection Hstep as <-. left. apply render_coverage.
  - intros Hstep. injection Hstep as <-. left. unfold GameScene.onResize.
    destruct (negb _); reflexivity.
  - intros Hstep. injection Hstep as <-. right.
    rewrite onImageLoad_coverage. apply blank_all_zero.
  - unfold GameScene.onPointerDown.
    destruct (GameScene.phase s); [| congruence |].
    + destruct (GameScene.hits q _); intros Hstep; injection Hstep as <-;
        [right | left; reflexivity].
      rewrite startRedaction_coverage. apply blank_all_zero.
    + destruct (GameScene.hits q (GameScene.continueButton s)).
      * intros Hstep. right. rewrite (loadNextMask_coverage s s' Hstep).
        apply blank_all_zero.
      * destruct (GameScene.hits q _); intros Hstep; injection Hstep as <-;
          [right | left; reflexivity].
        rewrite exitGame_coverage. apply blank_all_zero.
  - unfold GameScene.onPointerMove.
    destruct (negb (GameScene.isDrawing s)); cbn [orb].
    + intros Hstep. injection Hstep as <-. left. reflexivity.
    + destruct (GameScene.phase s); cbn [RoundPhase_eqb negb];
        try congruence; intros Hstep; injection Hstep as <-; left;
        reflexivity.
  - intros Hstep. injection Hstep as <-. left. reflexivity.
  - intros Hstep. injection Hstep as <-. left. unfold GameScene.onKeyDown.
    destruct (GameScene.isKeyD key); reflexivity.
  - rewrite resetGame_unfold. intros Hstep. right.
    rewrite (loadNextMask_coverage _ s' Hstep). apply blank_all_zero.
Qed.

(* ================================================================== *)
(** ** No sequence of events raises *)

Lemma construct_succeeds order :
  order <> [] -> exists s0, GameScene.construct order = Some s0.
Proof.
  intros Hne. unfold GameScene.construct.
  apply loadNextMask_succeeds. exact Hne.
Qed.

Lemma run_succeeds {ctx2d : Context2D} es :
  forall s, reachable s ->
            exists s', GameScene.run es s = Some s' /\ reachable s'.
Proof.
  induction es as [| e es IH]; intros s Hr.
  - exists s. split; [reflexivity | exact Hr].
  - destruct (reachable_handles e s Hr) as [s1 Hstep].
    destruct (IH s1 (reach_handle e s s1 Hr Hstep)) as (s' & Hrun & Hr').
    exists s'. split; [| exact Hr'].
    cbn [GameScene.run]. rewrite Hstep. exact Hrun.
Qed.

(** X13. No handler of [GameScene] raises on a scene the constructor
    has built: whatever events follow, in whatever order, each one is
    handled.  The layout, the mask and the buttons are read only where
    they have been set. *)
Theorem no_event_sequence_raises {ctx2d : Context2D} order s0 es :
  GameScene.construct order = Some s0 ->
  exists s, GameScene.run es s0 = Some s.
Proof.
  intros Hc.
  destruct (run_succeeds es s0 (reach_construct order s0 Hc))
    as (s & Hrun & _).
  exists s. exact Hrun.
Qed.

(* ================================================================== *)
(** ** The drafts against the final scene *)


Lemma fold_left_ext_in {A B : Type} (f g : A -> B -> A) l :
  (forall a b, In b l -> f a b = g a b) ->
  forall a, fold_left f l a = fold_left g l a.
Proof.
  induction l as [| b l IH]; intros Hfg a; [reflexivity |].
  cbn [fold_left]. rewrite Hfg by (left; reflexivity).
  apply IH. intros a' b' Hin. apply Hfg. now right.
Qed.

(** On the bytes of a raster, [data[i + 3] > 0] is the negation of
    [data[i + 3] === 0] at every sample of the grid. *)
Lemma grid_sample_painted c x y :
  rasterOk c ->
  In (x, y) (gridSamples (Zpos (c_width c)) (Zpos (c_height c))) ->
  negb (GameScene2.isPainted
          (dataAt (c_data c) ((y * Zpos (c_width c) + x) * 4 + 3)))
  = isZero (dataAt (c_data c) ((y * Zpos (c_width c) + x) * 4 + 3)).
Proof.
  intros [Hlen Hbytes] Hin. apply gridSamples_In in Hin.
  destruct Hin as [[Hx _] [Hy _]].
  set (i := (y * Zpos (c_width c) + x) * 4 + 3).
  assert (Hi : 0 <= i < 4 * Zpos (c_width c) * Zpos (c_height c))
    by (subst i; nia).
  unfold dataAt. destruct (Z.ltb_spec i 0); [lia |].
  destruct (nth_error (c_data c) (Z.to_nat i)) as [v |] eqn:Hv.
  - apply nth_error_In in Hv. rewrite Forall_forall in Hbytes.
    specialize (Hbytes v Hv). cbn [GameScene2.isPainted isZero].
    destruct v as [| p | p]; [reflexivity | reflexivity | lia].
  - exfalso. apply nth_error_None in Hv. rewrite Hlen in Hv. lia.
Qed.

Lemma rasterOkb_ok c : rasterOkb c = true -> rasterOk c.
Proof.
  unfold rasterOkb, rasterOk. rewrite andb_true_iff, Nat.eqb_eq.
  intros [Hlen Hall]. split; [exact Hlen |].
  apply Forall_forall. intros v Hv.
  rewrite forallb_forall in Hall. specialize (Hall v Hv).
  apply andb_true_iff in Hall. destruct Hall as [H0 H1].
  apply Z.leb_le in H0, H1. lia.
Qed.

(** X15. The two drafts score alike.  [GameScene2.scoreRedaction] skips
    a sample when [data[i + 3] > 0] is false, [GameScene4.calculateScore]
    when [data[i + 3] === 0]; on the bytes [getImageData] returns these
    are the same test at every grid sample, so for the same mask and
    raster both report the same counters and the same score. *)
Theorem drafts_score_alike (s : GameScene4.State) :
  rasterOk (GameScene4.coverage s) ->
  let res := GameScene2.scoreRedaction (GameScene4.coverage s)
               (GameScene4.mask s) in
  let k := GameScene4.countSamples (targetRects (GameScene4.mask s))
             (GameScene4.coverage s) in
  GameScene2.score res = GameScene4.calculateScore s
  /\ GameScene2.res_correct res = correct k
  /\ GameScene2.res_falsePositive res = falsePositive k
  /\ GameScene2.res_missed res = missed k.
Proof.
  intros Hok res k.
  set (c := GameScene4.coverage s) in *.
  set (rects := targetRects (GameScene4.mask s)) in *.
  assert (Hpass :
    GameScene2.paintedPass2 rects (Zpos (c_width c)) (Zpos (c_height c))
      (c_data c) (mkCounts 0 0 0)
    = paintedPass
        (fun x y =>
           inTarget rects (inject_Z x / inject_Z (Zpos (c_width c)))
             (inject_Z y / inject_Z (Zpos (c_height c))))
        (Zpos (c_width c)) (Zpos (c_height c)) (c_data c) (mkCounts 0 0 0)).
  { rewrite paintedPass2_counts, paintedPass_counts.
    rewrite (fold_left_ext_in _
      (fun k xy =>
         if unpainted (Zpos (c_width c)) (c_data c) xy then k
         else if inTarget rects
                   (inject_Z (fst xy) / inject_Z (Zpos (c_width c)))
                   (inject_Z (snd xy) / inject_Z (Zpos (c_height c)))
              then incCorrect k else incFalsePositive k)).
    - rewrite (paintedBody_counts
                 (unpainted (Zpos (c_width c)) (c_data c))
                 (fun xy =>
                    inTarget rects
                      (inject_Z (fst xy) / inject_Z (Zpos (c_width c)))
                      (inject_Z (snd xy) / inject_Z (Zpos (c_height c))))).
      reflexivity.
    - intros a [x y] Hin. cbn [fst snd]. unfold unpainted. cbn [fst snd].
      rewrite (grid_sample_painted c x y Hok Hin). reflexivity. }
  assert (Hk :
    missedPass (Zpos (c_width c)) (Zpos (c_height c)) (c_data c) rects
      (GameScene2.paintedPass2 rects (Zpos (c_width c)) (Zpos (c_height c))
         (c_data c) (mkCounts 0 0 0)) = k).
  { rewrite Hpass. reflexivity. }
  subst res. unfold GameScene2.scoreRedaction. cbv zeta. fold c rects.
  rewrite Hk.
  cbn [GameScene2.score GameScene2.res_correct GameScene2.res_falsePositive
       GameScene2.res_missed].
  repeat split; reflexivity.
Qed.

(** ** [GameScene4]: a round played after leaving for the menu *)

(** X16. [GameScene4.finishRound] has already advanced the index when
    the Scoring screen is shown, and [exitToMenu] neither loads a mask
    nor moves the index.  So where CONTINUE would present the mask at
    the index, a round started after [exitToMenu] is played on the mask
    of the round before, and the prompt after that round presents the
    mask one further on: the mask at the index is passed over. *)
Theorem draft_replays_mask_after_exit rnd s passedOver next :
  nth_error (GameScene4.allMasks s) (GameScene4.currentMaskIndex s)
  = Some passedOver ->
  nth_error (GameScene4.allMasks s) (S (GameScene4.currentMaskIndex s))
  = Some next ->
  (exists s0,
     GameScene4.startPrompt s = Some s0 /\ GameScene4.mask s0 = passedOver)
  /\ (let replay := GameScene4.startRedaction (GameScene4.exitToMenu s) in
      GameScene4.mask replay = GameScene4.mask s
      /\ GameScene4.phase replay = Redacting
      /\ exists s',
           GameScene4.startPrompt (GameScene4.finishRound rnd replay)
           = Some s'
           /\ GameScene4.mask s' = next
           /\ GameScene4.currentMaskIndex s'
              = S (GameScene4.currentMaskIndex s)).
Proof.
  intros Hover Hnext. split.
  - destruct (startPrompt4_effect s passedOver Hover) as (s0 & H0 & Hm & _).
    exists s0. auto.
  - intros replay.
    split; [reflexivity |]. split; [reflexivity |].
    assert (Hlt : (S (GameScene4.currentMaskIndex s)
                   < List.length (GameScene4.allMasks s))%nat)
      by (apply nth_error_Some; congruence).
    destruct (finishRound4_next rnd replay Hlt) as [Hidx Hmasks].
    destruct (startPrompt4_effect (GameScene4.finishRound rnd replay) next)
      as (s' & Hsp & Hmask & _ & Hidx').
    { rewrite Hidx, Hmasks. exact Hnext. }
    exists s'. split; [exact Hsp |]. split; [exact Hmask |].
    rewrite Hidx', Hidx. reflexivity.
Qed.

(* ================================================================== *)
(** ** [GameScene2]: the countdown and the buttons *)

Ltac scene2_fields :=
  cbn [
    GameScene2Lifecycle.imageLoaded GameScene2Lifecycle.docWidth
    GameScene2Lifecycle.docHeight GameScene2Lifecycle.layout
    GameScene2Lifecycle.strokes GameScene2Lifecycle.isDrawing
    GameScene2Lifecycle.needsRedraw GameScene2Lifecycle.timer
    GameScene2Lifecycle.isCountingDown GameScene2Lifecycle.score
    GameScene2Lifecycle.coverage GameScene2Lifecycle.prompt
    GameScene2Lifecycle.mask GameScene2Lifecycle.calls
    GameScene2Lifecycle.set_imageLoaded GameScene2Lifecycle.set_docWidth
    GameScene2Lifecycle.set_docHeight GameScene2Lifecycle.set_layout
    GameScene2Lifecycle.set_strokes GameScene2Lifecycle.set_isDrawing
    GameScene2Lifecycle.set_needsRedraw GameScene2Lifecycle.set_timer
    GameScene2Lifecycle.set_isCountingDown GameScene2Lifecycle.set_score
    GameScene2Lifecycle.set_coverage GameScene2Lifecycle.set_prompt
    GameScene2Lifecycle.set_mask GameScene2Lifecycle.set_calls
    GameScene2Lifecycle.call GameScene2Lifecycle.calculateScore ].

Lemma Some_eq {A : Type} (a b : A) : Some a = Some b -> a = b.
Proof. congruence. Qed.

Lemma update2_idle dt s :
  GameScene2Lifecycle.isCountingDown s = false ->
  GameScene2Lifecycle.update dt s = s.
Proof.
  intros H. unfold GameScene2Lifecycle.update. rewrite H. reflexivity.
Qed.

(** The tick that exhausts the clock. *)
Lemma update2_crossing dt s :
  GameScene2Lifecycle.isCountingDown s = true ->
  (GameScene2Lifecycle.timer s <= dt)%Q ->
  let s' := GameScene2Lifecycle.update dt s in
  GameScene2Lifecycle.timer s' = 0%Q
  /\ GameScene2Lifecycle.isCountingDown s' = false
  /\ GameScene2Lifecycle.score s'
     = GameScene2.score
         (GameScene2.scoreRedaction (GameScene2Lifecycle.coverage s)
            (GameScene2Lifecycle.mask s))
  /\ GameScene2Lifecycle.coverage s' = GameScene2Lifecycle.coverage s
  /\ GameScene2Lifecycle.mask s' = GameScene2Lifecycle.mask s
  /\ GameScene2Lifecycle.layout s' = GameScene2Lifecycle.layout s.
Proof.
  intros Hc Ht s'.
  assert (Hout :
    Qle_bool (GameScene2Lifecycle.timer s - dt) 0 = true)
    by (apply Qle_bool_iff; lra).
  subst s'. unfold GameScene2Lifecycle.update. rewrite Hc.
  cbv zeta. scene2_fields. rewrite Hout.
  destruct (negb _); scene2_fields; auto 10.
Qed.

(** X17. The countdown of [GameScene2]: the [update] that brings the
    timer to 0 or below sets it to exactly 0, stops the countdown and
    stores the score of the raster as it is, which is not negative; every
    later [update] leaves the scene as it is, so the score is computed
    once. *)
Theorem draft_countdown_scores_once dt dts s :
  GameScene2Lifecycle.isCountingDown s = true ->
  (GameScene2Lifecycle.timer s <= dt)%Q ->
  let s' := GameScene2Lifecycle.update dt s in
  GameScene2Lifecycle.timer s' = 0%Q
  /\ GameScene2Lifecycle.isCountingDown s' = false
  /\ GameScene2Lifecycle.score s'
     = GameScene2.score
         (GameScene2.scoreRedaction (GameScene2Lifecycle.coverage s)
            (GameScene2Lifecycle.mask s))
  /\ 0 <= GameScene2Lifecycle.score s'
  /\ fold_left (fun s dt => GameScene2Lifecycle.update dt s) dts s' = s'.
Proof.
  intros Hc Ht s'.
  destruct (update2_crossing dt s Hc Ht) as (H1 & H2 & H3 & _).
  fold s' in H1, H2, H3.
  split; [exact H1 |]. split; [exact H2 |]. split; [exact H3 |].
  split; [rewrite H3; apply Z.le_max_l |].
  induction dts as [| d dts IH]; [reflexivity |].
  cbn [fold_left]. rewrite (update2_idle d s' H2). exact IH.
Qed.

(** X18. [GameScene2] does not stop the marker when the time is up.
    After the countdown has run out, a press on the document still
    paints the raster and records the stroke, and a press on Done then
    replaces the score by the score of the raster so painted. *)
Theorem draft_paints_and_rescores_after_time_up {ctx2d : Context2D}
    dt q p l d s :
  GameScene2Lifecycle.isCountingDown s = true ->
  (GameScene2Lifecycle.timer s <= dt)%Q ->
  GameScene2Lifecycle.layout s = Some l ->
  GameScene2Lifecycle.pointInRect q GameScene2Lifecycle.readyButton = false ->
  GameScene2Lifecycle.pointInRect q GameScene2Lifecycle.doneButton = false ->
  GameScene2Lifecycle.screenToDocument l q = Some d ->
  GameScene2Lifecycle.pointInRect p GameScene2Lifecycle.readyButton = false ->
  GameScene2Lifecycle.pointInRect p GameScene2Lifecycle.doneButton = true ->
  let timeUp := GameScene2Lifecycle.update dt s in
  let painted :=
    fillArc (GameScene2Lifecycle.coverage s)
      (sp_x d * inject_Z (Zpos (c_width (GameScene2Lifecycle.coverage s))))
      (sp_y d * inject_Z (Zpos (c_height (GameScene2Lifecycle.coverage s))))
      (GameScene2Lifecycle.markerRadiusNorm
       * inject_Z (Zpos (c_width (GameScene2Lifecycle.coverage s)))) in
  GameScene2Lifecycle.isCountingDown timeUp = false
  /\ exists s1 s2,
       GameScene2Lifecycle.onPointerDown q timeUp = Some s1
       /\ GameScene2Lifecycle.onPointerDown p s1 = Some s2
       /\ GameScene2Lifecycle.coverage s1 = painted
       /\ GameScene2Lifecycle.strokes s1
          = GameScene2Lifecycle.strokes timeUp ++ [d]
       /\ GameScene2Lifecycle.score s2
          = GameScene2.score
              (GameScene2.scoreRedaction painted (GameScene2Lifecycle.mask s)).
Proof.
  intros Hc Ht Hl Hqr Hqd Hd Hpr Hpd timeUp painted.
  destruct (update2_crossing dt s Hc Ht) as (_ & H2 & _ & Hcov & Hmask & Hlay).
  fold timeUp in H2, Hcov, Hmask, Hlay.
  split; [exact H2 |].
  eexists. eexists.
  split.
  { unfold GameScene2Lifecycle.onPointerDown.
    rewrite Hqr, Hqd, Hlay, Hl, Hd. reflexivity. }
  split.
  { unfold GameScene2Lifecycle.onPointerDown. rewrite Hpr, Hpd.
    reflexivity. }
  unfold GameScene2Lifecycle.drawCoveragePoint. scene2_fields.
  rewrite Hcov, Hmask. repeat split; reflexivity.
Qed.

(** Until the image has loaded there is no layout. *)
Lemma draft_handle_unloaded {ctx2d : Context2D} e s s' :
  GameScene2Lifecycle.isImageLoaded e = false ->
  GameScene2Lifecycle.handle e s = Some s' ->
  GameScene2Lifecycle.imageLoaded s = false
  /\ GameScene2Lifecycle.layout s = None ->
  GameScene2Lifecycle.imageLoaded s' = false
  /\ GameScene2Lifecycle.layout s' = None.
Proof.
  intros He Hstep [Hil Hl]. revert He Hstep.
  destruct e as [dt | | lw lh | iw ih lw lh | q | q |];
    cbn [GameScene2Lifecycle.handle GameScene2Lifecycle.isImageLoaded];
    intros He; try discriminate He.
  - intros Hstep. apply Some_eq in Hstep. subst s'.
    unfold GameScene2Lifecycle.update.
    destruct (GameScene2Lifecycle.isCountingDown s); [| auto].
    cbv zeta. split_ifs; scene2_fields; auto.
  - intros Hstep. apply Some_eq in Hstep. subst s'.
    unfold GameScene2Lifecycle.render. rewrite Hil. cbn [negb orb]. auto.
  - intros Hstep. apply Some_eq in Hstep. subst s'.
    unfold GameScene2Lifecycle.onResize. rewrite Hil. cbn [negb]. auto.
  - unfold GameScene2Lifecycle.onPointerDown.
    destruct (GameScene2Lifecycle.pointInRect q _).
    { intros Hstep. apply Some_eq in Hstep. subst s'. auto. }
    destruct (GameScene2Lifecycle.pointInRect q _).
    { intros Hstep. apply Some_eq in Hstep. subst s'. auto. }
    rewrite Hl. discriminate.
  - unfold GameScene2Lifecycle.onPointerMove.
    destruct (negb _).
    { intros Hstep. apply Some_eq in Hstep. subst s'. auto. }
    rewrite Hl. discriminate.
  - intros Hstep. apply Some_eq in Hstep. subst s'. auto.
Qed.

(** X19. [GameScene2] has no layout until its image has loaded, and
    [onPointerDown] reads the layout without a test.  So after the
    constructor and any events that do not include the image's load, a
    press anywhere but on the two buttons raises a [TypeError].
    ([GameScene] ignores such a press: it is in the Prompt phase.) *)
Theorem draft_press_before_load_raises {ctx2d : Context2D} mask es s p :
  forallb (fun e => negb (GameScene2Lifecycle.isImageLoaded e)) es = true ->
  GameScene2Lifecycle.run es (GameScene2Lifecycle.construct mask) = Some s ->
  GameScene2Lifecycle.pointInRect p GameScene2Lifecycle.readyButton = false ->
  GameScene2Lifecycle.pointInRect p GameScene2Lifecycle.doneButton = false ->
  GameScene2Lifecycle.layout s = None
  /\ GameScene2Lifecycle.onPointerDown p s = None.
Proof.
  intros Hes Hrun Hr Hd.
  assert (Hs : GameScene2Lifecycle.imageLoaded s = false
               /\ GameScene2Lifecycle.layout s = None).
  { assert (H0 : GameScene2Lifecycle.imageLoaded
                   (GameScene2Lifecycle.construct mask) = false
                 /\ GameScene2Lifecycle.layout
                      (GameScene2Lifecycle.construct mask) = None)
      by (split; reflexivity).
    revert Hes Hrun H0. generalize (GameScene2Lifecycle.construct mask).
    induction es as [| e es IH]; intros s0 Hes Hrun H0.
    - cbn in Hrun. apply Some_eq in Hrun. subst s. exact H0.
    - cbn [forallb] in Hes. apply andb_true_iff in Hes.
      destruct Hes as [He Hes]. apply negb_true_iff in He.
      cbn [GameScene2Lifecycle.run] in Hrun.
      destruct (GameScene2Lifecycle.handle e s0) as [s1 |] eqn:Hstep;
        [| discriminate].
      apply (IH s1 Hes Hrun).
      exact (draft_handle_unloaded e s0 s1 He Hstep H0). }
  destruct Hs as [_ Hl]. split; [exact Hl |].
  unfold GameScene2Lifecycle.onPointerDown. rewrite Hr, Hd, Hl. reflexivity.
Qed.

(* ================================================================== *)
(** ** The sampled score *)

Lemma sampleRect_step n k rnd rect strokes hits :
  Scoring.sampleRect (S n) k rnd rect strokes hits
  = Scoring.sampleRect n (S (S k)) rnd rect strokes
      (if existsb
            (Scoring.covers (r_x rect + rnd k * r_width rect)
               (r_y rect + rnd (S k) * r_height rect)) strokes
       then hits + 1 else hits).
Proof. reflexivity. Qed.

Lemma sampleRect_bounds n :
  forall k rnd rect strokes hits,
    hits <= Scoring.sampleRect n k rnd rect strokes hits
         <= hits + Z.of_nat n.
Proof.
  induction n as [| n IH]; intros k rnd rect strokes hits.
  - cbn [Scoring.sampleRect]. lia.
  - rewrite sampleRect_step.
    generalize (existsb
                  (Scoring.covers (r_x rect + rnd k * r_width rect)
                     (r_y rect + rnd (S k) * r_height rect)) strokes).
    intros [|].
    + specialize (IH (S (S k)) rnd rect strokes (hits + 1)). lia.
    + specialize (IH (S (S k)) rnd rect strokes hits). lia.
Qed.

Lemma sampleRects_bounds n maskRects :
  forall k rnd strokes hits,
    hits <= Scoring.sampleRects n k rnd maskRects strokes hits
         <= hits + Z.of_nat (List.length maskRects) * Z.of_nat n.
Proof.
  induction maskRects as [| rect rest IH]; intros k rnd strokes hits;
    cbn [Scoring.sampleRects List.length]; [lia |].
  pose proof (sampleRect_bounds n k rnd rect strokes hits) as H1.
  pose proof (IH (k + 2 * n)%nat rnd strokes
                (Scoring.sampleRect n k rnd rect strokes hits)) as H2.
  nia.
Qed.

Lemma countMisses_from maskRects strokes :
  forall acc,
    acc <= fold_left
             (fun misses s =>
                if negb (Scoring.insideAny maskRects s) then misses + 1
                else misses) strokes acc
        <= acc + Z.of_nat (List.length strokes).
Proof.
  induction strokes as [| s strokes IH]; intros acc;
    cbn [fold_left List.length]; [lia |].
  destruct (negb _).
  - specialize (IH (acc + 1)). lia.
  - specialize (IH acc). lia.
Qed.

Lemma sampleRect_no_strokes n :
  forall k rnd rect hits, Scoring.sampleRect n k rnd rect [] hits = hits.
Proof.
  induction n as [| n IH]; intros k rnd rect hits; [reflexivity |].
  cbn [Scoring.sampleRect existsb]. apply IH.
Qed.

Lemma sampleRects_no_strokes n maskRects :
  forall k rnd hits, Scoring.sampleRects n k rnd maskRects [] hits = hits.
Proof.
  induction maskRects as [| rect rest IH]; intros k rnd hits;
    [reflexivity |].
  cbn [Scoring.sampleRects]. rewrite sampleRect_no_strokes. apply IH.
Qed.

Lemma samplesPerRect_pos : (0 < Scoring.samplesPerRect)%nat.
Proof. unfold Scoring.samplesPerRect. lia. Qed.

(** X20. "Returns 0-100": for at least one mask rect the sampled score
    is an integer between 0 and 100, whatever the strokes and whatever
    [Math.random] returns. *)
Theorem sampled_score_in_range rnd maskRects strokes :
  maskRects <> [] ->
  exists n,
    Scoring.calculateScore rnd maskRects strokes = Scoring.Finite n
    /\ 0 <= n <= 100.
Proof.
  intros Hne. unfold Scoring.calculateScore. cbv zeta.
  pose proof samplesPerRect_pos as Hn.
  revert Hn. generalize Scoring.samplesPerRect. intros per Hn.
  set (hits := Scoring.sampleRects per 0 rnd maskRects strokes 0).
  set (misses := Scoring.countMisses maskRects strokes).
  set (maxPossible := Z.of_nat (List.length maskRects * per)).
  assert (Hmax : 0 < maxPossible).
  { subst maxPossible. destruct maskRects; [congruence |].
    cbn [List.length]. nia. }
  assert (Hhits : hits <= maxPossible).
  { pose proof (sampleRects_bounds per maskRects 0 rnd strokes 0).
    subst hits maxPossible. rewrite Nat2Z.inj_mul. lia. }
  assert (Hmiss : 0 <= misses).
  { pose proof (countMisses_from maskRects strokes 0).
    subst misses. unfold Scoring.countMisses. lia. }
  destruct (Z.eqb_spec maxPossible 0); [lia |].
  eexists. split; [reflexivity |].
  split; [apply Z.le_max_l |].
  apply Z.max_lub; [lia |].
  assert (HmaxQ : (0 < inject_Z maxPossible)%Q)
    by (change 0%Q with (inject_Z 0); rewrite <- Zlt_Qlt; exact Hmax).
  assert (Hraw : (inject_Z (hits - misses) <= inject_Z maxPossible)%Q)
    by (rewrite <- Zle_Qle; lia).
  set (a := inject_Z (hits - misses)) in *.
  set (b := inject_Z maxPossible) in *.
  assert (Hq : (a / b <= 1)%Q) by (apply Qle_shift_div_r; lra).
  set (q := (a / b)%Q) in *.
  apply Z.le_trans with (Math_round 100); [| reflexivity].
  apply Math_round_mono. lra.
Qed.

(** X21. The edges of the sampled score.  With no mask rect the
    quotient divides by 0: without strokes it is [0 / 0] and the
    function returns [NaN], not a score; with strokes every stroke is a
    miss, the quotient is minus infinity and the result 0.  With mask
    rects but no strokes the score is 0. *)
Theorem sampled_score_edge_cases rnd :
  Scoring.calculateScore rnd [] [] = Scoring.NaN
  /\ (forall s strokes,
        Scoring.calculateScore rnd [] (s :: strokes) = Scoring.Finite 0)
  /\ (forall maskRects,
        maskRects <> [] ->
        Scoring.calculateScore rnd maskRects [] = Scoring.Finite 0).
Proof.
  split; [reflexivity |]. split.
  - intros s strokes. unfold Scoring.calculateScore. cbv zeta.
    cbn [List.length Nat.mul Z.of_nat Z.eqb Scoring.sampleRects].
    unfold Scoring.countMisses. cbn [fold_left Scoring.insideAny existsb negb].
    pose proof (countMisses_from [] strokes (0 + 1)) as H.
    cbn [Scoring.insideAny existsb negb] in H.
    set (m := fold_left _ strokes (0 + 1)) in *.
    destruct (Z.eqb_spec (0 - m) 0); [lia |].
    destruct (Z.ltb_spec (0 - m) 0); [reflexivity | lia].
  - intros maskRects Hne. unfold Scoring.calculateScore. cbv zeta.
    rewrite sampleRects_no_strokes.
    cbn [Scoring.countMisses fold_left].
    pose proof samplesPerRect_pos as Hn.
    revert Hn. generalize Scoring.samplesPerRect. intros per Hn.
    destruct (Z.eqb_spec (Z.of_nat (List.length maskRects * per)) 0)
      as [H0 | _].
    + destruct maskRects; [congruence |].
      cbn [List.length] in H0. nia.
    + f_equal. rewrite (Math_round_comp _ 0); [reflexivity |].
      change (inject_Z (0 - 0)) with 0%Q. unfold Qdiv. ring.
Qed.

(* ================================================================== *)
(** ** The target rect editor *)

Ltac editor_fields :=
  cbn [
    TargetRectEditor.imageLoaded TargetRectEditor.imageWidth
    TargetRectEditor.imageHeight TargetRectEditor.layout
    TargetRectEditor.rects TargetRectEditor.isDrawing
    TargetRectEditor.startPoint TargetRectEditor.currentRect
    TargetRectEditor.saved TargetRectEditor.set_imageLoaded
    TargetRectEditor.set_imageWidth TargetRectEditor.set_imageHeight
    TargetRectEditor.set_layout TargetRectEditor.set_rects
    TargetRectEditor.set_isDrawing TargetRectEditor.set_startPoint
    TargetRectEditor.set_currentRect TargetRectEditor.set_saved ].

(** Pointer events never touch the layout or the image. *)
Lemma editor_handle_frame e s :
  TargetRectEditor.layout (TargetRectEditor.handle e s)
  = TargetRectEditor.layout s
  /\ TargetRectEditor.imageLoaded (TargetRectEditor.handle e s)
     = TargetRectEditor.imageLoaded s.
Proof.
  destruct e as [p | p |]; cbn [TargetRectEditor.handle].
  - unfold TargetRectEditor.onPointerDown, TargetRectEditor.saveRects.
    destruct (TargetRectEditor.pointInRect p _); [auto |].
    destruct (negb _); auto.
  - unfold TargetRectEditor.onPointerMove.
    destruct (negb _); [auto |].
    destruct (TargetRectEditor.startPoint s); auto.
  - unfold TargetRectEditor.onPointerUp.
    destruct (TargetRectEditor.currentRect s); auto.
Qed.

Lemma editor_handle_ok e s :
  editorOk s -> editorOk (TargetRectEditor.handle e s).
Proof.
  intros [Hrects Hcur]. destruct e as [p | p |]; cbn [TargetRectEditor.handle].
  - unfold TargetRectEditor.onPointerDown, TargetRectEditor.saveRects.
    destruct (TargetRectEditor.pointInRect p _); [split; assumption |].
    destruct (negb _); split; assumption.
  - unfold TargetRectEditor.onPointerMove.
    destruct (negb _); [split; assumption |].
    destruct (TargetRectEditor.startPoint s) as [sp |]; [| split; assumption].
    split; [exact Hrects |]. cbv zeta. editor_fields.
    intros r Hr. apply Some_eq in Hr. subst r.
    split; cbn [r_width r_height]; apply Qabs_nonneg.
  - unfold TargetRectEditor.onPointerUp. cbv zeta.
    destruct (TargetRectEditor.currentRect s) as [r |] eqn:Hr;
      editor_fields.
    + split; [| discriminate].
      apply Forall_app. split; [exact Hrects |].
      constructor; [exact (Hcur r eq_refl) | constructor].
    + split; [exact Hrects | discriminate].
Qed.

Lemma editor_run_ok es :
  forall s, editorOk s -> editorOk (TargetRectEditor.run es s).
Proof.
  unfold TargetRectEditor.run.
  induction es as [| e es IH]; intros s Hs; [exact Hs |].
  cbn [fold_left]. apply IH. apply editor_handle_ok. exact Hs.
Qed.

(** X22. Every rect the editor records has a width and a height that
    are not negative, in whatever direction it was dragged: pointer
    events keep this true of the recorded rects, for a layout that draws
    the image with positive width and height (the normalization divides
    by both). *)
Theorem editor_records_proper_rects es s :
  (0 < drawWidth (TargetRectEditor.layout s))%Q ->
  (0 < drawHeight (TargetRectEditor.layout s))%Q ->
  Forall properRect (TargetRectEditor.rects s) ->
  TargetRectEditor.currentRect s = None ->
  Forall properRect (TargetRectEditor.rects (TargetRectEditor.run es s)).
Proof.
  intros _ _ Hrects Hcur.
  apply (editor_run_ok es s). split; [exact Hrects |].
  intros r Hr. congruence.
Qed.

(** What a drag from [sp] to [p] leaves as the current rect. *)
Lemma onPointerMove_dragging p sp s :
  TargetRectEditor.isDrawing s = true ->
  TargetRectEditor.startPoint s = Some sp ->
  TargetRectEditor.onPointerMove p s
  = TargetRectEditor.set_currentRect
      (Some
         (mkMaskRect
            (Qmin (pt_x (TargetRectEditor.screenToNormalized
                           (TargetRectEditor.layout s) sp))
                  (pt_x (TargetRectEditor.screenToNormalized
                           (TargetRectEditor.layout s) p)))
            (Qmin (pt_y (TargetRectEditor.screenToNormalized
                           (TargetRectEditor.layout s) sp))
                  (pt_y (TargetRectEditor.screenToNormalized
                           (TargetRectEditor.layout s) p)))
            (Qabs (pt_x (TargetRectEditor.screenToNormalized
                           (TargetRectEditor.layout s) p)
                   - pt_x (TargetRectEditor.screenToNormalized
                             (TargetRectEditor.layout s) sp)))
            (Qabs (pt_y (TargetRectEditor.screenToNormalized
                           (TargetRectEditor.layout s) p)
                   - pt_y (TargetRectEditor.screenToNormalized
                             (TargetRectEditor.layout s) sp))))) s.
Proof.
  intros Hd Hsp. unfold TargetRectEditor.onPointerMove.
  rewrite Hd, Hsp. reflexivity.
Qed.

Lemma onPointerDown_starts p s :
  TargetRectEditor.pointInRect p TargetRectEditor.saveButton = false ->
  TargetRectEditor.imageLoaded s = true ->
  TargetRectEditor.onPointerDown p s
  = TargetRectEditor.set_startPoint (Some p)
      (TargetRectEditor.set_isDrawing true s).
Proof.
  intros Hb Hl. unfold TargetRectEditor.onPointerDown.
  rewrite Hb, Hl. reflexivity.
Qed.

(** ** The rect being drawn in the editor *)

Section Drag.
Import Binary64.
Context {R : Rounding}.
Local Abbreviation u := unitRoundoff.

Lemma fl_comp (x y : Q) : (x == y)%Q -> (fl x == fl y)%Q.
Proof.
  intros E. apply Qle_antisym; apply fl_monotone; rewrite E; apply Qle_refl.
Qed.

(** Normalizing one coordinate keeps the order. *)
Lemma normalize_monotone (p p' o w : Q) :
  (0 < w)%Q -> (p <= p')%Q -> (div (sub p o) w <= div (sub p' o) w)%Q.
Proof.
  intros Hw Hp. unfold div, sub. apply fl_monotone.
  unfold Qdiv. apply Qmult_le_compat_r.
  - apply fl_monotone. lra.
  - apply Qlt_le_weak, Qinv_lt_0_compat. exact Hw.
Qed.

Lemma normalize_min (p p' o w : Q) :
  (0 < w)%Q ->
  (Qmin (div (sub p o) w) (div (sub p' o) w)
   == div (sub (Qmin p p') o) w)%Q.
Proof.
  intros Hw.
  assert (Hc : forall a b : Q,
            (a == b)%Q -> (div (sub a o) w == div (sub b o) w)%Q).
  { intros a b E. unfold div, sub. apply fl_comp.
    unfold Qdiv. apply Qmult_comp; [| reflexivity].
    apply fl_comp. rewrite E. reflexivity. }
  destruct (Qlt_le_dec p' p) as [Hlt | Hle].
  - rewrite (Hc _ _ (Q.min_r p p' (Qlt_le_weak _ _ Hlt))).
    apply Q.min_r. apply normalize_monotone; [exact Hw | lra].
  - rewrite (Hc _ _ (Q.min_l p p' Hle)).
    apply Q.min_l. apply normalize_monotone; assumption.
Qed.

(** The corner of the shown rect along one axis. *)
Lemma shown_corner (p p' o w : Q) :
  (0 < w)%Q ->
  (Qabs (add (mul (Qmin (div (sub p o) w) (div (sub p' o) w)) w) o
         - Qmin p p')
   <= u * (Qabs (Qmin p p') + 4 * Qabs (Qmin p p' - o)))%Q.
Proof.
  intros Hw.
  assert (E : (add (mul (Qmin (div (sub p o) w) (div (sub p' o) w)) w) o
               == add (mul (div (sub (Qmin p p') o) w) w) o)%Q).
  { unfold add, mul. apply fl_comp. apply Qplus_comp; [| reflexivity].
    apply fl_comp. apply Qmult_comp; [| reflexivity].
    apply normalize_min. exact Hw. }
  rewrite E. apply round_trip_coordinate. exact Hw.
Qed.

Lemma Qabs_diff (x y : Q) : (Qabs (Qabs x - Qabs y) <= Qabs (x - y))%Q.
Proof.
  apply Qabs_Qle_condition. split.
  - pose proof (Qabs_triangle_reverse y x) as H.
    setoid_replace (y - x)%Q with (- (x - y))%Q in H by ring.
    rewrite Qabs_opp in H. lra.
  - apply Qabs_triangle_reverse.
Qed.

(** The size of the shown rect along one axis. *)
Lemma shown_size (p p' o w : Q) :
  (0 < w)%Q ->
  (Qabs (mul (Qabs (sub (div (sub p' o) w) (div (sub p o) w))) w
         - Qabs (p' - p))
   <= 7 * u * (Qabs (p - o) + Qabs (p' - o)))%Q.
Proof.
  intros Hw.
  destruct (coordinate_rel p o w Hw) as (k0 & Hk01 & Hk02 & E0).
  destruct (coordinate_rel p' o w Hw) as (k1 & Hk11 & Hk12 & E1).
  set (s0 := div (sub p o) w) in *. set (s1 := div (sub p' o) w) in *.
  unfold mul, sub.
  destruct (fl_rel (s1 - s0)) as (d5 & Hd5 & Hd5' & E5).
  destruct (fl_rel (Qabs (fl (s1 - s0)) * w)) as (d6 & Hd6 & Hd6' & E6).
  rewrite E6.
  set (a0 := (p - o)%Q) in *. set (a1 := (p' - o)%Q) in *.
  set (Dw := (a1 * k1 - a0 * k0)%Q).
  assert (HDw : ((s1 - s0) * w == Dw)%Q).
  { unfold Dw. rewrite <- E0, <- E1. ring. }
  assert (H15 : (0 <= 1 + d5)%Q) by (unfold unitRoundoff in *; lra).
  assert (EX : (Qabs (fl (s1 - s0)) * w == Qabs Dw * (1 + d5))%Q).
  { rewrite E5, Qabs_Qmult, (Qabs_pos (1 + d5)) by exact H15.
    rewrite <- HDw, Qabs_Qmult, (Qabs_pos w) by lra. ring. }
  rewrite EX.
  setoid_replace (p' - p)%Q with (a1 - a0)%Q by (unfold a0, a1; ring).
  destruct (rel_compose u d5 d6) as [K1 K2]; try assumption;
    [unfold unitRoundoff; lra |].
  set (K := ((1 + d5) * (1 + d6))%Q) in *.
  setoid_replace (Qabs Dw * (1 + d5) * (1 + d6) - Qabs (a1 - a0))%Q
    with (Qabs Dw * (K - 1) + (Qabs Dw - Qabs (a1 - a0)))%Q
    by (unfold K; ring).
  assert (HK : (Qabs (K - 1) <= 3 * u)%Q)
    by (apply Qabs_Qle_condition; unfold unitRoundoff in *; split; lra).
  assert (Hk0 : (Qabs (k0 - 1) <= 3 * u)%Q)
    by (apply Qabs_Qle_condition; split; lra).
  assert (Hk1 : (Qabs (k1 - 1) <= 3 * u)%Q)
    by (apply Qabs_Qle_condition; split; lra).
  pose proof (Qabs_le_mult a0 (k0 - 1) _ _ (Qle_refl _) Hk0) as P0.
  pose proof (Qabs_le_mult a1 (k1 - 1) _ _ (Qle_refl _) Hk1) as P1.
  assert (HE : (Qabs (Dw - (a1 - a0)) <= 3 * u * (Qabs a0 + Qabs a1))%Q).
  { setoid_replace (Dw - (a1 - a0))%Q
      with (a1 * (k1 - 1) + - (a0 * (k0 - 1)))%Q by (unfold Dw; ring).
    eapply Qle_trans; [apply Qabs_triangle |]. rewrite Qabs_opp. lra. }
  pose proof (Qabs_diff Dw (a1 - a0)) as HD.
  pose proof (Qabs_triangle a1 (- a0)) as HT. rewrite Qabs_opp in HT.
  setoid_replace (a1 + - a0)%Q with (a1 - a0)%Q in HT by ring.
  pose proof (Qabs_le_mult Dw (K - 1) _ _ (Qle_refl _) HK) as PK.
  rewrite Qabs_Qmult in PK.
  eapply Qle_trans; [apply Qabs_triangle |].
  rewrite Qabs_Qmult, (Qabs_pos (Qabs Dw)) by apply Qabs_nonneg.
  pose proof (Qabs_nonneg a0). pose proof (Qabs_nonneg a1).
  pose proof (Qabs_nonneg Dw).
  set (A0 := Qabs a0) in *. set (A1 := Qabs a1) in *.
  set (D := Qabs Dw) in *. set (T := Qabs (a1 - a0)) in *.
  set (G := (D * Qabs (K - 1))%Q) in *.
  set (F := Qabs (D - T)) in *.
  set (E := Qabs (Dw - (a1 - a0))) in *.
  assert (HDb : (D <= T + E)%Q).
  { apply Qabs_Qle_condition in HD. lra. }
  unfold unitRoundoff in *. lra.
Qed.

End Drag.

Lemma onPointerDown64_starts {R : Binary64.Rounding} p s :
  TargetRectEditor64.pointInRect p TargetRectEditor.saveButton = false ->
  TargetRectEditor.imageLoaded s = true ->
  TargetRectEditor64.onPointerDown p s
  = TargetRectEditor.set_startPoint (Some p)
      (TargetRectEditor.set_isDrawing true s).
Proof.
  intros Hb Hl. unfold TargetRectEditor64.onPointerDown.
  rewrite Hb, Hl. reflexivity.
Qed.

(** X23. While dragging, the rect being drawn spans from the point of
    the press to the pointer, up to rounding: mapped back to the screen
    by [normalizedToScreen], its corner lies within the round-trip error
    of the minimum of the two points in each coordinate, and its width
    and height differ from the distances between the two points by at
    most [7 * 2^-53] times the sum of the points' distances to the left
    (top) edge of the image. *)
Theorem editor_drag_spans_press_and_pointer {R : Binary64.Rounding} p0 p1 s :
  (0 < drawWidth (TargetRectEditor.layout s))%Q ->
  (0 < drawHeight (TargetRectEditor.layout s))%Q ->
  TargetRectEditor.imageLoaded s = true ->
  TargetRectEditor64.pointInRect p0 TargetRectEditor.saveButton = false ->
  exists r,
    TargetRectEditor.currentRect
      (TargetRectEditor64.onPointerMove p1
         (TargetRectEditor64.onPointerDown p0 s)) = Some r
    /\ properRect r
    /\ (let l := TargetRectEditor.layout s in
        let shown := TargetRectEditor64.normalizedToScreen l r in
        let mx := Qmin (pt_x p0) (pt_x p1) in
        let my := Qmin (pt_y p0) (pt_y p1) in
        (Qabs (r_x shown - mx)
         <= Binary64.unitRoundoff
            * (Qabs mx + 4 * Qabs (mx - offsetX l)))%Q
        /\ (Qabs (r_y shown - my)
            <= Binary64.unitRoundoff
               * (Qabs my + 4 * Qabs (my - offsetY l)))%Q
        /\ (Qabs (r_width shown - Qabs (pt_x p1 - pt_x p0))
            <= 7 * Binary64.unitRoundoff
               * (Qabs (pt_x p0 - offsetX l)
                  + Qabs (pt_x p1 - offsetX l)))%Q
        /\ (Qabs (r_height shown - Qabs (pt_y p1 - pt_y p0))
            <= 7 * Binary64.unitRoundoff
               * (Qabs (pt_y p0 - offsetY l)
                  + Qabs (pt_y p1 - offsetY l)))%Q).
Proof.
  intros Hw Hh Hl Hb.
  rewrite (onPointerDown64_starts p0 s Hb Hl).
  unfold TargetRectEditor64.onPointerMove.
  cbn [TargetRectEditor.isDrawing TargetRectEditor.set_startPoint
       TargetRectEditor.set_isDrawing TargetRectEditor.startPoint
       TargetRectEditor.layout TargetRectEditor.set_currentRect
       TargetRectEditor.currentRect negb].
  eexists. split; [reflexivity |].
  set (l := TargetRectEditor.layout s) in *.
  split; [split; apply Qabs_nonneg |].
  cbv zeta.
  cbn [TargetRectEditor64.normalizedToScreen r_x r_y r_width r_height
       TargetRectEditor64.screenToNormalized pt_x pt_y].
  split; [apply shown_corner; exact Hw |].
  split; [apply shown_corner; exact Hh |].
  split; [apply shown_size; exact Hw | apply shown_size; exact Hh].
Qed.

(** X24. Before the image has loaded the editor records nothing:
    whatever pointer events arrive, a press does not start a drag and the
    list of rects stays as it was. *)
Theorem editor_records_nothing_without_drag es s :
  TargetRectEditor.imageLoaded s = false ->
  TargetRectEditor.isDrawing s = false ->
  TargetRectEditor.currentRect s = None ->
  TargetRectEditor.rects (TargetRectEditor.run es s)
  = TargetRectEditor.rects s.
Proof.
  unfold TargetRectEditor.run. revert s.
  induction es as [| e es IH]; intros s Hl Hd Hc; [reflexivity |].
  cbn [fold_left].
  assert (Hstep :
    TargetRectEditor.imageLoaded (TargetRectEditor.handle e s) = false
    /\ TargetRectEditor.isDrawing (TargetRectEditor.handle e s) = false
    /\ TargetRectEditor.currentRect (TargetRectEditor.handle e s) = None
    /\ TargetRectEditor.rects (TargetRectEditor.handle e s)
       = TargetRectEditor.rects s).
  { destruct e as [p | p |]; cbn [TargetRectEditor.handle].
    - unfold TargetRectEditor.onPointerDown, TargetRectEditor.saveRects.
      destruct (TargetRectEditor.pointInRect p _); [auto |].
      rewrite Hl. cbn [negb]. auto.
    - unfold TargetRectEditor.onPointerMove. rewrite Hd. cbn [negb]. auto.
    - unfold TargetRectEditor.onPointerUp. rewrite Hc. cbv zeta.
      editor_fields. auto. }
  destruct Hstep as (Hl' & Hd' & Hc' & Hr').
  rewrite (IH _ Hl' Hd' Hc'). exact Hr'.
Qed.

(** X25. A press and release without a move records nothing, but a
    drag that ends where it began records a rect of zero width and zero
    height: [onPointerUp] looks only at whether a current rect
    exists. *)
Theorem editor_click_and_return_record p s :
  (0 < drawWidth (TargetRectEditor.layout s))%Q ->
  (0 < drawHeight (TargetRectEditor.layout s))%Q ->
  TargetRectEditor.imageLoaded s = true ->
  TargetRectEditor.pointInRect p TargetRectEditor.saveButton = false ->
  TargetRectEditor.currentRect s = None ->
  TargetRectEditor.rects
    (TargetRectEditor.onPointerUp (TargetRectEditor.onPointerDown p s))
  = TargetRectEditor.rects s
  /\ exists r,
       TargetRectEditor.rects
         (TargetRectEditor.onPointerUp
            (TargetRectEditor.onPointerMove p
               (TargetRectEditor.onPointerDown p s)))
       = TargetRectEditor.rects s ++ [r]
       /\ (r_width r == 0)%Q /\ (r_height r == 0)%Q.
Proof.
  intros Hw Hh Hl Hb Hc.
  rewrite (onPointerDown_starts p s Hb Hl). split.
  - unfold TargetRectEditor.onPointerUp. editor_fields. rewrite Hc.
    reflexivity.
  - rewrite (onPointerMove_dragging p p) by reflexivity.
    unfold TargetRectEditor.onPointerUp. editor_fields.
    eexists. split; [reflexivity |].
    cbn [r_width r_height].
    split; (rewrite (Qabs_wd _ 0); [reflexivity | ring]).
Qed.

(* ================================================================== *)
(** ** The entry point *)

Lemma setCounting_game depth scene w :
  Main.current w = Some Main.GameSceneRef ->
  Main.setCounting (S depth) scene w
  = (match fst (Main.setCounting depth Main.MenuSceneRef w) with
     | None => Some w
     | Some w1 => Some (Main.set_current (Some scene) w1)
     end,
     S (snd (Main.setCounting depth Main.MenuSceneRef w))).
Proof.
  intros Hc. cbn [Main.setCounting]. rewrite Hc. cbn [Main.onExitOf].
  destruct (Main.setCounting depth Main.MenuSceneRef w) as [inner n].
  reflexivity.
Qed.

(** X26. [SceneManager.set] calls [this.current.onExit()] before it
    replaces [current].  On [gameScene] that property is the callback of
    main.ts, which calls [set(menuScene)]; [current] is still the game
    scene then, so the call meets the same callback again.  Whenever the
    game scene is current, and so when [exitGame] runs its [onExit], the
    calls nest until the call stack is used up: with room for [n] nested
    calls the callback is invoked [n] times.  The innermost call of
    [set] ends in a [RangeError], which rejects its promise and leaves
    [current] as it was; every call around it, if there is one, goes on
    to assign [current], so that the new scene is current in the end.
    From the menu or from no scene [set] assigns [current] at once and
    invokes no callback. *)
Theorem exit_nests_set_to_the_stack_depth w :
  (Main.current w = Some Main.GameSceneRef ->
   forall scene,
     Main.setCounting 1 scene w = (Some w, 1%nat)
     /\ forall depth,
          Main.setCounting (S (S depth)) scene w
          = (Some (Main.set_current (Some scene) w), S (S depth)))
  /\ (Main.current w <> Some Main.GameSceneRef ->
      forall depth scene,
        Main.setCounting (S depth) scene w
        = (Some (Main.set_current (Some scene) w), 0%nat)).
Proof.
  split.
  - intros Hc.
    assert (H1 : forall scene, Main.setCounting 1 scene w = (Some w, 1%nat)).
    { intros scene. rewrite (setCounting_game 0 scene w Hc). reflexivity. }
    intros scene. split; [apply H1 |].
    intros depth. revert scene.
    induction depth as [| depth IH]; intros scene.
    + rewrite (setCounting_game 1 scene w Hc), H1. reflexivity.
    + rewrite (setCounting_game (S (S depth)) scene w Hc), IH. reflexivity.
  - intros Hc depth scene. cbn [Main.setCounting].
    destruct (Main.current w) as [[|] |]; [reflexivity | congruence |
                                           reflexivity].
Qed.

(** X27. A press on the menu runs [resetGame] and hands the screen to
    the game scene: with at least one mask and the menu (or nothing)
    current, [onStart] returns, the game scene is current and is the
    scene [resetGame] leaves, with both scores 0 and the Prompt phase. *)
Theorem menu_start_opens_game_scene depth w :
  Main.current w <> Some Main.GameSceneRef ->
  GameScene.masks (Main.gameScene w) <> [] ->
  exists g,
    GameScene.resetGame (Main.gameScene w) = Some g
    /\ Main.onStart (S depth) w
       = Some (Some (Main.mkWorld (Some Main.GameSceneRef) (Main.lastTime w)
                       (Main.uiWidth w) (Main.uiHeight w) g))
    /\ GameScene.totalScore g = 0
    /\ GameScene.roundScore g = 0
    /\ GameScene.phase g = Prompt.
Proof.
  intros Hc Hm.
  destruct (GameScene.resetGame (Main.gameScene w)) as [g |] eqn:Hreset.
  - exists g. split; [reflexivity |]. split.
    + unfold Main.onStart, Main.set. rewrite Hreset.
      cbn [Main.setCounting Main.current Main.set_gameScene].
      destruct (Main.current w) as [[|] |]; [reflexivity | congruence |
                                             reflexivity].
    + rewrite resetGame_unfold in Hreset.
      destruct (loadNextMask_scores _ g Hreset) as (Ht & Hr & Hp).
      rewrite Ht, Hr. auto.
  - exfalso. rewrite resetGame_unfold in Hreset.
    destruct (loadNextMask_succeeds
                (GameScene.set_coverage
                   (clearRect
                      (GameScene.coverage
                         (GameScene.set_strokes []
                            (GameScene.set_currentMaskIndex 0%nat
                               (GameScene.set_totalScore 0
                                  (GameScene.set_roundScore 0
                                     (Main.gameScene w)))))))
                   (GameScene.set_strokes []
                      (GameScene.set_currentMaskIndex 0%nat
                         (GameScene.set_totalScore 0
                            (GameScene.set_roundScore 0
                               (Main.gameScene w)))))) Hm) as [g Hg].
    congruence.
Qed.

(** ** The countdown against the clock *)

Lemma update64_running {R : Binary64.Rounding} dt s :
  GameScene.phase s = Redacting ->
  Qle_bool (Binary64.sub (GameScene.timer s) dt) 0 = false ->
  GameScene.phase (GameScene64.update dt s) = Redacting
  /\ GameScene.timer (GameScene64.update dt s)
     = Binary64.sub (GameScene.timer s) dt.
Proof.
  intros Hphase Hleft. unfold GameScene64.update. rewrite Hphase.
  cbv zeta. scene_fields. rewrite Hleft.
  destruct (negb _); scene_fields; auto.
Qed.

Lemma update64_crossing {R : Binary64.Rounding} dt s :
  GameScene.phase s = Redacting ->
  Qle_bool (Binary64.sub (GameScene.timer s) dt) 0 = true ->
  GameScene.phase (GameScene64.update dt s) = Scoring.
Proof.
  intros Hphase Hout. unfold GameScene64.update. rewrite Hphase.
  cbv zeta. scene_fields. rewrite Hout.
  destruct (negb _); unfold GameScene.finishRound; scene_fields;
    reflexivity.
Qed.

Lemma render64_frame {R : Binary64.Rounding} uw uh s :
  GameScene.phase (GameScene64.render uw uh s) = GameScene.phase s
  /\ GameScene.timer (GameScene64.render uw uh s) = GameScene.timer s.
Proof.
  unfold GameScene64.render.
  destruct s as [? il ? ? ? ? ? ? ph ? ? ? nr ? ? ? ? ? ? ? ? ?].
  cbn [GameScene.imageLoaded GameScene.needsRedraw].
  destruct il, nr; cbn [negb orb]; [destruct ph | | |]; split; reflexivity.
Qed.

Lemma loop64_game {ctx2d : Context2D} {R : Binary64.Rounding} time w :
  Main.current w = Some Main.GameSceneRef ->
  Main64.loop time w
  = Main.mkWorld (Some Main.GameSceneRef) time (Main.uiWidth w)
      (Main.uiHeight w)
      (GameScene64.render (Main.uiWidth w) (Main.uiHeight w)
         (GameScene64.update
            (Binary64.div (Binary64.sub time (Main.lastTime w)) 1000)
            (Main.gameScene w))).
Proof.
  destruct w as [c lt uw uh g]. cbn [Main.current]. intros ->.
  reflexivity.
Qed.

Lemma last_cons {A : Type} (a d : A) l : last (a :: l) d = last l a.
Proof.
  revert a d. induction l as [| b l IH]; intros a d; [reflexivity |].
  change (last (a :: b :: l) d) with (last (b :: l) d).
  rewrite (IH b d). symmetry. apply IH.
Qed.

Lemma ascending_last t times : ascending t times -> (t <= last times t)%Q.
Proof.
  revert t. induction times as [| t' times IH]; intros t H.
  - apply Qle_refl.
  - destruct H as [H1 H2]. rewrite last_cons.
    eapply Qle_trans; [exact H1 | apply IH; exact H2].
Qed.

Lemma clockDrift_S T n :
  (clockDrift T (S n) == clockDrift T n + 6 * Binary64.unitRoundoff * T)%Q.
Proof.
  unfold clockDrift. rewrite Nat2Z.inj_succ. unfold Z.succ.
  rewrite inject_Z_plus. change (inject_Z 1) with 1%Q. ring.
Qed.

Lemma clockDrift_monotone T n m :
  (0 <= T)%Q -> (n <= m)%nat -> (clockDrift T n <= clockDrift T m)%Q.
Proof.
  intros HT Hnm. unfold clockDrift.
  assert (H : (inject_Z (Z.of_nat n) <= inject_Z (Z.of_nat m))%Q)
    by (rewrite <- Zle_Qle; lia).
  assert (H0 : (0 <= 6 * Binary64.unitRoundoff * T)%Q)
    by (unfold Binary64.unitRoundoff; lra).
  set (c := (6 * Binary64.unitRoundoff * T)%Q) in *.
  rewrite (Qmult_comm c), (Qmult_comm c).
  apply Qmult_le_compat_r; assumption.
Qed.

Lemma clockDrift_nonneg T n : (0 <= T)%Q -> (0 <= clockDrift T n)%Q.
Proof.
  intros HT. unfold clockDrift.
  assert (H : (0 <= inject_Z (Z.of_nat n))%Q).
  { change 0%Q with (inject_Z 0). rewrite <- Zle_Qle. lia. }
  unfold Binary64.unitRoundoff. nra.
Qed.

Section Tick.
Import Binary64.
Context {R : Rounding}.
Local Abbreviation u := unitRoundoff.

(** The time of one frame, [(t - tl) / 1000], as the loop computes it. *)
Lemma frame_time_rel (tl t : Q) :
  exists k : Q, (1 - 3 * u <= k)%Q /\ (k <= 1 + 3 * u)%Q
    /\ (div (sub t tl) 1000 == (t - tl) / 1000 * k)%Q.
Proof.
  destruct (coordinate_rel t tl 1000) as (k & Hk1 & Hk2 & E); [reflexivity |].
  exists k. split; [exact Hk1 |]. split; [exact Hk2 |].
  set (dt := div (sub t tl) 1000) in *.
  setoid_replace dt with (dt * 1000 / 1000)%Q by field.
  rewrite E. field.
Qed.

(** One frame of the countdown: [x] is the exact time left at [tl],
    [tau] the timer, off by at most [eps]. *)
Lemma tick_error (T x tau tl t eps : Q) :
  (0 < T)%Q -> (x <= T)%Q -> (0 <= eps)%Q -> (eps <= T)%Q ->
  (Qabs (tau - x) <= eps)%Q -> (tl <= t)%Q ->
  (0 < x - (t - tl) / 1000)%Q ->
  (Qabs (sub tau (div (sub t tl) 1000) - (x - (t - tl) / 1000))
   <= eps + 6 * u * T)%Q.
Proof.
  intros HT Hx He0 He1 Ha Ht Hleft.
  destruct (frame_time_rel tl t) as (k & Hk1 & Hk2 & E).
  set (dt := div (sub t tl) 1000) in *.
  set (dx := ((t - tl) / 1000)%Q) in *.
  assert (Hdx : (dx * 1000 == t - tl)%Q) by (unfold dx; field).
  assert (Hdx0 : (0 <= dx)%Q) by lra.
  unfold sub. destruct (fl_rel (tau - dt)) as (d & Hd1 & Hd2 & E').
  rewrite E', E.
  apply Qabs_Qle_condition in Ha. destruct Ha as [Ha1 Ha2].
  set (e1 := (dx * (k - 1))%Q).
  assert (He1a : (- (3 * u * T) <= e1)%Q)
    by (unfold e1, unitRoundoff in *; nra).
  assert (He1b : (e1 <= 3 * u * T)%Q)
    by (unfold e1, unitRoundoff in *; nra).
  set (m := (tau - dx - e1)%Q).
  assert (Hm1 : (- (2 * T) <= m)%Q) by (unfold m, unitRoundoff in *; lra).
  assert (Hm2 : (m <= 3 * T)%Q) by (unfold m, unitRoundoff in *; lra).
  set (e2 := (m * d)%Q).
  assert (He2a : (- (3 * u * T) <= e2)%Q)
    by (unfold e2, unitRoundoff in *; nra).
  assert (He2b : (e2 <= 3 * u * T)%Q)
    by (unfold e2, unitRoundoff in *; nra).
  setoid_replace ((tau - dx * k) * (1 + d) - (x - dx))%Q
    with ((tau - x) - e1 + e2)%Q by (unfold e2, m, e1; ring).
  apply Qabs_Qle_condition. unfold unitRoundoff in *. split; lra.
Qed.

(** A frame that comes late enough brings the timer to 0 or below. *)
Lemma tick_out (x tau tl t eps : Q) :
  (Qabs (tau - x) <= eps)%Q -> (tl <= t)%Q ->
  (x + eps <= (t - tl) / 1000 * (1 - 3 * u))%Q ->
  Qle_bool (sub tau (div (sub t tl) 1000)) 0 = true.
Proof.
  intros Ha Ht Hlate.
  destruct (frame_time_rel tl t) as (k & Hk1 & Hk2 & E).
  set (dt := div (sub t tl) 1000) in *.
  set (dx := ((t - tl) / 1000)%Q) in *.
  assert (Hdx : (dx * 1000 == t - tl)%Q) by (unfold dx; field).
  assert (Hdx0 : (0 <= dx)%Q) by lra.
  unfold sub. destruct (fl_rel (tau - dt)) as (d & Hd1 & Hd2 & E').
  apply Qle_bool_iff. rewrite E', E.
  apply Qabs_Qle_condition in Ha. destruct Ha as [Ha1 Ha2].
  assert (Hm : (tau - dx * k <= 0)%Q) by (unfold unitRoundoff in *; nra).
  unfold unitRoundoff in *. nra.
Qed.

End Tick.

Lemma frames64_running {ctx2d : Context2D} {R : Binary64.Rounding}
    (T t0 : Q) times :
  forall w k,
    Main.current w = Some Main.GameSceneRef ->
    GameScene.phase (Main.gameScene w) = Redacting ->
    (0 < T)%Q -> (t0 <= Main.lastTime w)%Q ->
    (Qabs (GameScene.timer (Main.gameScene w)
           - (T - (Main.lastTime w - t0) / 1000)) <= clockDrift T k)%Q ->
    ascending (Main.lastTime w) times ->
    (clockDrift T (k + List.length times)
     < T - (last times (Main.lastTime w) - t0) / 1000)%Q ->
    Main.current (Main64.frames times w) = Some Main.GameSceneRef
    /\ GameScene.phase (Main.gameScene (Main64.frames times w)) = Redacting
    /\ Main.lastTime (Main64.frames times w) = last times (Main.lastTime w)
    /\ (Qabs (GameScene.timer (Main.gameScene (Main64.frames times w))
              - (T - (last times (Main.lastTime w) - t0) / 1000))
        <= clockDrift T (k + List.length times))%Q.
Proof.
  induction times as [| time times IH]; intros w k Hc Hp HT H0 Herr Hasc Hfar.
  - cbn [Main64.frames fold_left last List.length] in *.
    rewrite Nat.add_0_r in *. auto.
  - destruct Hasc as [Hstep Hasc].
    rewrite last_cons in Hfar |- *.
    pose proof (ascending_last time times Hasc) as Hlast.
    assert (HT0 : (0 <= T)%Q) by lra.
    pose proof (clockDrift_nonneg T k HT0) as Hk0.
    pose proof (clockDrift_monotone T (S k) (k + List.length (time :: times))
                  HT0 ltac:(cbn [List.length]; lia)) as Hmono.
    pose proof (clockDrift_S T k) as HS.
    pose proof (clockDrift_nonneg T (S k) HT0) as HSk0.
    assert (Hinc : (clockDrift T k <= clockDrift T (S k))%Q)
      by (apply clockDrift_monotone; [exact HT0 | lia]).
    set (tl := Main.lastTime w) in *.
    set (x := (T - (tl - t0) / 1000)%Q) in *.
    set (xl := (T - (last times time - t0) / 1000)%Q) in *.
    set (far := clockDrift T (k + List.length (time :: times))) in *.
    assert (Hxx : (x - (time - tl) / 1000 == T - (time - t0) / 1000)%Q)
      by (unfold x; field).
    assert (Hxl : (xl <= T - (time - t0) / 1000)%Q).
    { unfold xl.
      assert (E : ((last times time - t0) / 1000
                   == (time - t0) / 1000 + (last times time - time) / 1000)%Q)
        by field.
      assert (E2 : ((last times time - time) / 1000 * 1000
                    == last times time - time)%Q) by field.
      rewrite E. lra. }
    assert (HxT : (x <= T)%Q).
    { unfold x.
      assert (E2 : ((tl - t0) / 1000 * 1000 == tl - t0)%Q) by field.
      lra. }
    assert (HxlT : (xl <= T)%Q).
    { assert (E2 : ((time - t0) / 1000 * 1000 == time - t0)%Q) by field.
      lra. }
    pose proof (tick_error T x (GameScene.timer (Main.gameScene w)) tl time
                  (clockDrift T k) HT HxT Hk0 ltac:(lra) Herr Hstep
                  ltac:(lra)) as Htick.
    rewrite Hxx, <- HS in Htick.
    set (dt := Binary64.div (Binary64.sub time tl) 1000) in *.
    assert (Hleft :
      Qle_bool (Binary64.sub (GameScene.timer (Main.gameScene w)) dt) 0
      = false).
    { apply Qle_bool_gt. apply Qabs_Qle_condition in Htick. lra. }
    destruct (update64_running dt (Main.gameScene w) Hp Hleft) as [Hp1 Ht1].
    set (w1 := Main64.loop time w).
    assert (Hw1 : w1 = Main64.loop time w) by reflexivity.
    rewrite (loop64_game time w Hc) in Hw1. fold tl dt in Hw1.
    assert (Hc1 : Main.current w1 = Some Main.GameSceneRef)
      by (rewrite Hw1; reflexivity).
    assert (Hl1 : Main.lastTime w1 = time) by (rewrite Hw1; reflexivity).
    assert (Hph1 : GameScene.phase (Main.gameScene w1) = Redacting).
    { rewrite Hw1. cbn [Main.gameScene].
      rewrite (proj1 (render64_frame _ _ _)). exact Hp1. }
    assert (Htm1 : GameScene.timer (Main.gameScene w1)
                   = Binary64.sub (GameScene.timer (Main.gameScene w)) dt).
    { rewrite Hw1. cbn [Main.gameScene].
      rewrite (proj2 (render64_frame _ _ _)). exact Ht1. }
    change (Main64.frames (time :: times) w) with (Main64.frames times w1).
    assert (Hlen : (k + List.length (time :: times)
                    = S k + List.length times)%nat)
      by (cbn [List.length]; lia).
    unfold far in *. rewrite Hlen in *.
    pose proof (IH w1 (S k) Hc1 Hph1 HT) as IH1.
    rewrite Hl1, Htm1 in IH1.
    apply IH1; [lra | exact Htick | exact Hasc | exact Hfar].
Qed.

(** X28. The countdown measures the host's clock, not the frames, up to
    rounding.  While the game scene is shown in the Redacting phase,
    after any frames whose timestamps do not go back and of which the
    last leaves more time than [clockDrift] ([6 * 2^-53] times the
    timer, per frame), the scene is still Redacting and the timer is
    within that drift of the timer at the start less the time between
    [lastTime] and the last timestamp, divided by 1000, however the
    frames were spaced.  A frame after that ends the round if its time
    since the last frame, less the relative [3 * 2^-53], reaches the
    time that was left plus the drift. *)
Theorem countdown_follows_the_clock
    {ctx2d : Context2D} {R : Binary64.Rounding} times w :
  Main.current w = Some Main.GameSceneRef ->
  GameScene.phase (Main.gameScene w) = Redacting ->
  (0 < GameScene.timer (Main.gameScene w))%Q ->
  ascending (Main.lastTime w) times ->
  (clockDrift (GameScene.timer (Main.gameScene w)) (List.length times)
   < GameScene.timer (Main.gameScene w)
     - (last times (Main.lastTime w) - Main.lastTime w) / 1000)%Q ->
  let T := GameScene.timer (Main.gameScene w) in
  let remaining := (T - (last times (Main.lastTime w) - Main.lastTime w) / 1000)%Q in
  let w' := Main64.frames times w in
  GameScene.phase (Main.gameScene w') = Redacting
  /\ Main.lastTime w' = last times (Main.lastTime w)
  /\ (Qabs (GameScene.timer (Main.gameScene w') - remaining)
      <= clockDrift T (List.length times))%Q
  /\ (forall late,
        (Main.lastTime w' <= late)%Q ->
        (remaining + clockDrift T (List.length times)
         <= (late - Main.lastTime w') / 1000
            * (1 - 3 * Binary64.unitRoundoff))%Q ->
        GameScene.phase (Main.gameScene (Main64.loop late w')) = Scoring).
Proof.
  intros Hc Hp HT Hasc Hfar T remaining w'.
  assert (Herr : (Qabs (T - (T - (Main.lastTime w - Main.lastTime w) / 1000))
                  <= clockDrift T 0)%Q).
  { setoid_replace (T - (T - (Main.lastTime w - Main.lastTime w) / 1000))%Q
      with 0%Q by field.
    change (Qabs 0) with 0%Q. apply clockDrift_nonneg.
    apply Qlt_le_weak. exact HT. }
  destruct (frames64_running T (Main.lastTime w) times w 0%nat Hc Hp HT
              (Qle_refl _) Herr Hasc Hfar) as (Hc' & Hp' & Hl' & Ht').
  fold w' in Hc', Hp', Hl', Ht'. cbn [Nat.add] in Ht'. fold remaining in Ht'.
  split; [exact Hp' |]. split; [exact Hl' |]. split; [exact Ht' |].
  intros late Hlate Hout.
  rewrite (loop64_game late w' Hc'). cbn [Main.gameScene].
  rewrite (proj1 (render64_frame _ _ _)).
  apply update64_crossing; [exact Hp' |].
  apply (tick_out remaining _ _ _ (clockDrift T (List.length times)) Ht' Hlate Hout).
Qed.

(** ** Without rounding the second embedding is the first

    Arithmetic that delivers the exact result meets the two laws of
    [Binary64.Rounding]; with it the functions of [GameScene64] and
    [TargetRectEditor64] are those of [GameScene] and
    [TargetRectEditor]. *)

Lemma exact_error (x : Q) :
  (Qabs (x - x) <= Binary64.unitRoundoff * Qabs x)%Q.
Proof.
  setoid_replace (x - x)%Q with 0%Q by ring. change (Qabs 0) with 0%Q.
  pose proof (Qabs_nonneg x). unfold Binary64.unitRoundoff. lra.
Qed.

Lemma exact_monotone (x y : Q) : (x <= y)%Q -> (x <= y)%Q.
Proof. intros H. exact H. Qed.

Definition exactArithmetic : Binary64.Rounding :=
  {| Binary64.fl := fun x => x;
     Binary64.fl_error := exact_error;
     Binary64.fl_monotone := exact_monotone |}.

Lemma computeLayout64_exact rectW rectH s :
  GameScene64.computeLayout (R := exactArithmetic) rectW rectH s
  = GameScene.computeLayout rectW rectH s.
Proof. reflexivity. Qed.

Lemma screenToDocument64_exact l p :
  GameScene64.screenToDocument (R := exactArithmetic) l p
  = GameScene.screenToDocument l p.
Proof. reflexivity. Qed.

Lemma documentToScreen64_exact l d :
  GameScene64.documentToScreen (R := exactArithmetic) l d
  = GameScene.documentToScreen l d.
Proof. reflexivity. Qed.

Lemma update64_exact dt s :
  GameScene64.update (R := exactArithmetic) dt s = GameScene.update dt s.
Proof. reflexivity. Qed.

Lemma render64_exact w h s :
  GameScene64.render (R := exactArithmetic) w h s = GameScene.render w h s.
Proof. reflexivity. Qed.

Lemma onPointerDown64_exact {ctx2d : Context2D} p s :
  GameScene64.onPointerDown (R := exactArithmetic) p s
  = GameScene.onPointerDown p s.
Proof. reflexivity. Qed.

Lemma editor_onPointerDown64_exact p s :
  TargetRectEditor64.onPointerDown (R := exactArithmetic) p s
  = TargetRectEditor.onPointerDown p s.
Proof. reflexivity. Qed.

Lemma editor_onPointerMove64_exact p s :
  TargetRectEditor64.onPointerMove (R := exactArithmetic) p s
  = TargetRectEditor.onPointerMove p s.
Proof. reflexivity. Qed.

Lemma normalizedToScreen64_exact l r :
  TargetRectEditor64.normalizedToScreen (R := exactArithmetic) l r
  = TargetRectEditor.normalizedToScreen l r.
Proof. reflexivity. Qed.

(** ** Rounding to nearest

    [Binary64.round] meets the two laws of [Binary64.Rounding]. *)

Section RoundToNearest.
Import Binary64.

Lemma roundEven_error (m : Q) :
  (Qabs (inject_Z (roundEven m) - m) <= 1 # 2)%Q.
Proof.
  pose proof (Qfloor_le m) as Hlo. pose proof (Qlt_floor m) as Hhi.
  rewrite inject_Z_plus in Hhi. change (inject_Z 1) with 1%Q in Hhi.
  apply Qabs_Qle_condition. unfold roundEven.
  destruct (Qcompare_spec (m - inject_Z (Qfloor m)) (1 # 2)) as [He | Hl | Hg].
  - destruct (Z.even (Qfloor m));
      [| rewrite inject_Z_plus; change (inject_Z 1) with 1%Q]; split; lra.
  - split; lra.
  - rewrite inject_Z_plus. change (inject_Z 1) with 1%Q. split; lra.
Qed.

Lemma roundEven_bounds (m : Q) :
  Qfloor m <= roundEven m <= Qfloor m + 1.
Proof.
  unfold roundEven.
  destruct ((m - inject_Z (Qfloor m)) ?= 1 # 2)%Q;
    [destruct (Z.even (Qfloor m)) | |]; lia.
Qed.

Lemma roundEven_mono (m m' : Q) :
  (m <= m')%Q -> roundEven m <= roundEven m'.
Proof.
  intros Hm. pose proof (Qfloor_resp_le _ _ Hm) as Hf.
  destruct (Z.eq_dec (Qfloor m) (Qfloor m')) as [He | Hne].
  - unfold roundEven. rewrite <- He.
    destruct (Qcompare_spec (m - inject_Z (Qfloor m)) (1 # 2)) as [E | L | G];
    destruct (Qcompare_spec (m' - inject_Z (Qfloor m)) (1 # 2))
      as [E' | L' | G'];
    try destruct (Z.even (Qfloor m)); try lia; exfalso; lra.
  - pose proof (roundEven_bounds m). pose proof (roundEven_bounds m'). lia.
Qed.

Lemma roundEven_inject_Z (z : Z) : roundEven (inject_Z z) = z.
Proof.
  unfold roundEven. rewrite Qfloor_Z.
  destruct (Qcompare_spec (inject_Z z - inject_Z z) (1 # 2)) as [E | L | G];
    [exfalso; lra | reflexivity | exfalso; lra].
Qed.

Lemma exponent_le (a : Q) : (0 < a)%Q -> (2 ^ exponent a <= a)%Q.
Proof.
  intros Ha. unfold exponent.
  set (k := Z.log2 (Qnum a) - Z.log2 (Zpos (Qden a))).
  destruct (Qle_bool (2 ^ k) a) eqn:Hk; [apply Qle_bool_iff; exact Hk |].
  destruct a as [n d]. cbn [Qnum Qden] in k.
  assert (Hn : 0 < n) by (unfold Qlt in Ha; cbn in Ha; lia).
  pose proof (Z.log2_spec n Hn) as [Hn1 _].
  pose proof (Z.log2_spec (Zpos d) eq_refl) as [_ Hd2].
  pose proof (Z.log2_nonneg n) as Hln.
  pose proof (Z.log2_nonneg (Zpos d)) as Hld.
  replace (k - 1) with (Z.log2 n - (Z.log2 (Zpos d) + 1)) by (unfold k; lia).
  rewrite Qpower_minus by discriminate.
  change 2%Q with (inject_Z 2).
  rewrite <- !Zpower_Qpower by lia.
  rewrite (Qmake_Qdiv n d).
  assert (Hp : (0 < inject_Z (2 ^ (Z.log2 (Zpos d) + 1)))%Q).
  { change 0%Q with (inject_Z 0). rewrite <- Zlt_Qlt. lia. }
  assert (Hq : (0 < inject_Z (Zpos d))%Q).
  { change 0%Q with (inject_Z 0). rewrite <- Zlt_Qlt. lia. }
  apply Qle_shift_div_r; [exact Hp |].
  unfold Qdiv. rewrite <- Qmult_assoc, (Qmult_comm (/ _)), Qmult_assoc.
  apply Qle_shift_div_l; [exact Hq |].
  rewrite <- !inject_Z_mult, <- Zle_Qle.
  apply Z.mul_le_mono_nonneg; lia.
Qed.

Lemma exponent_lt (a : Q) : (0 < a)%Q -> (a < 2 ^ (exponent a + 1))%Q.
Proof.
  intros Ha. unfold exponent.
  set (k := Z.log2 (Qnum a) - Z.log2 (Zpos (Qden a))).
  destruct (Qle_bool (2 ^ k) a) eqn:Hk.
  - destruct a as [n d]. cbn [Qnum Qden] in k.
    assert (Hn : 0 < n) by (unfold Qlt in Ha; cbn in Ha; lia).
    pose proof (Z.log2_spec n Hn) as [_ Hn2].
    pose proof (Z.log2_spec (Zpos d) eq_refl) as [Hd1 _].
    pose proof (Z.log2_nonneg n) as Hln.
    pose proof (Z.log2_nonneg (Zpos d)) as Hld.
    replace (k + 1) with (Z.log2 n + 1 - Z.log2 (Zpos d)) by (unfold k; lia).
    rewrite Qpower_minus by discriminate.
    change 2%Q with (inject_Z 2).
    rewrite <- !Zpower_Qpower by lia.
    rewrite (Qmake_Qdiv n d).
    assert (Hp : (0 < inject_Z (2 ^ Z.log2 (Zpos d)))%Q).
    { change 0%Q with (inject_Z 0). rewrite <- Zlt_Qlt.
      apply Z.pow_pos_nonneg; lia. }
    assert (Hq : (0 < inject_Z (Zpos d))%Q).
    { change 0%Q with (inject_Z 0). rewrite <- Zlt_Qlt. lia. }
    apply Qlt_shift_div_l; [exact Hp |].
    unfold Qdiv. rewrite <- Qmult_assoc, (Qmult_comm (/ _)), Qmult_assoc.
    apply Qlt_shift_div_r; [exact Hq |].
    rewrite <- !inject_Z_mult, <- Zlt_Qlt.
    assert (0 < 2 ^ Z.log2 (Zpos d)) by (apply Z.pow_pos_nonneg; lia).
    nia.
  - replace (k - 1 + 1) with k by lia.
    apply Qnot_le_lt. intros H. apply Qle_bool_iff in H. congruence.
Qed.

Lemma pow2_split (e : Z) :
  (2 ^ e == 2 ^ (e - 52) * 4503599627370496)%Q
  /\ (2 ^ (e + 1) == 2 ^ (e - 52) * 9007199254740992)%Q
  /\ (0 < 2 ^ (e - 52))%Q.
Proof.
  assert (Hpos : (0 < 2 ^ (e - 52))%Q) by (apply Qpower_0_lt; reflexivity).
  assert (H1 : (2 ^ e == 2 ^ (e - 52) * 2 ^ 52)%Q).
  { rewrite <- Qpower_plus by discriminate. f_equiv. lia. }
  assert (H2 : (2 ^ (e + 1) == 2 ^ (e - 52) * 2 ^ 53)%Q).
  { rewrite <- Qpower_plus by discriminate. f_equiv. lia. }
  split; [rewrite H1; apply Qmult_comp; reflexivity |].
  split; [rewrite H2; apply Qmult_comp; reflexivity | exact Hpos].
Qed.

Lemma roundPositive_error (a : Q) :
  (0 < a)%Q -> (Qabs (roundPositive a - a) <= unitRoundoff * a)%Q.
Proof.
  intros Ha. pose proof (exponent_le a Ha) as He.
  unfold roundPositive. set (e := exponent a) in *.
  assert (Hulp : (2 ^ (e - 52) == 2 ^ e * (1 # 4503599627370496))%Q).
  { rewrite Qpower_minus by discriminate. unfold Qdiv.
    apply Qmult_comp; [reflexivity | reflexivity]. }
  assert (Hpos : (0 < 2 ^ (e - 52))%Q) by (apply Qpower_0_lt; reflexivity).
  set (ulp := (2 ^ (e - 52))%Q) in *.
  pose proof (roundEven_error (a / ulp)) as Hr.
  set (n := inject_Z (roundEven (a / ulp))) in *.
  assert (Hd : (n * ulp - a == (n - a / ulp) * ulp)%Q) by (field; lra).
  rewrite Hd, Qabs_Qmult, (Qabs_pos ulp) by lra.
  apply Qle_trans with ((1 # 2) * ulp)%Q.
  - apply Qmult_le_compat_r; [exact Hr | lra].
  - rewrite Hulp. unfold unitRoundoff.
    setoid_replace ((1 # 2) * (2 ^ e * (1 # 4503599627370496)))%Q
      with ((1 # 9007199254740992) * 2 ^ e)%Q by ring.
    apply Qmult_le_l; [reflexivity | exact He].
Qed.

Lemma roundPositive_range (a : Q) :
  (0 < a)%Q ->
  (2 ^ exponent a <= roundPositive a)%Q
  /\ (roundPositive a <= 2 ^ (exponent a + 1))%Q.
Proof.
  intros Ha. pose proof (exponent_le a Ha) as Hlo.
  pose proof (exponent_lt a Ha) as Hhi.
  unfold roundPositive. set (e := exponent a) in *.
  destruct (pow2_split e) as (E1 & E2 & Hpos).
  set (ulp := (2 ^ (e - 52))%Q) in *.
  assert (Hm1 : (inject_Z 4503599627370496 <= a / ulp)%Q).
  { apply Qle_shift_div_l; [exact Hpos |].
    change (inject_Z 4503599627370496) with 4503599627370496%Q.
    rewrite (Qmult_comm _ ulp). rewrite <- E1. exact Hlo. }
  assert (Hm2 : (a / ulp <= inject_Z 9007199254740992)%Q).
  { apply Qle_shift_div_r; [exact Hpos |].
    change (inject_Z 9007199254740992) with 9007199254740992%Q.
    rewrite (Qmult_comm _ ulp). rewrite <- E2. apply Qlt_le_weak. exact Hhi. }
  apply roundEven_mono in Hm1, Hm2. rewrite roundEven_inject_Z in Hm1, Hm2.
  rewrite E1, E2, !(Qmult_comm ulp).
  split; apply Qmult_le_compat_r; try lra.
  - change 4503599627370496%Q with (inject_Z 4503599627370496).
    rewrite <- Zle_Qle. exact Hm1.
  - change 9007199254740992%Q with (inject_Z 9007199254740992).
    rewrite <- Zle_Qle. exact Hm2.
Qed.

Lemma roundPositive_pos (a : Q) : (0 < a)%Q -> (0 < roundPositive a)%Q.
Proof.
  intros Ha. destruct (roundPositive_range a Ha) as [H _].
  eapply Qlt_le_trans; [| exact H]. apply Qpower_0_lt. reflexivity.
Qed.

Lemma roundPositive_mono (x y : Q) :
  (0 < x)%Q -> (x <= y)%Q -> (roundPositive x <= roundPositive y)%Q.
Proof.
  intros Hx Hxy. assert (Hy : (0 < y)%Q) by lra.
  pose proof (exponent_le x Hx) as Hlo.
  pose proof (exponent_lt y Hy) as Hhi.
  assert (He : exponent x < exponent y + 1).
  { apply Qpower_lt_compat_l_inv with (q := 2%Q); [lra | reflexivity]. }
  destruct (Z.eq_dec (exponent x) (exponent y)) as [Heq | Hne].
  - unfold roundPositive. rewrite Heq.
    assert (Hpos : (0 < 2 ^ (exponent y - 52))%Q)
      by (apply Qpower_0_lt; reflexivity).
    set (ulp := (2 ^ (exponent y - 52))%Q) in *.
    apply Qmult_le_compat_r; [| lra].
    rewrite <- Zle_Qle. apply roundEven_mono.
    unfold Qdiv. apply Qmult_le_compat_r; [exact Hxy |].
    apply Qlt_le_weak, Qinv_lt_0_compat. exact Hpos.
  - destruct (roundPositive_range x Hx) as [_ Hx2].
    destruct (roundPositive_range y Hy) as [Hy1 _].
    apply Qle_trans with (2 ^ (exponent x + 1))%Q; [exact Hx2 |].
    apply Qle_trans with (2 ^ exponent y)%Q; [| exact Hy1].
    apply Qpower_le_compat_l; [lia | lra].
Qed.

Lemma round_error (x : Q) :
  (Qabs (round x - x) <= unitRoundoff * Qabs x)%Q.
Proof.
  unfold round. destruct (Qcompare_spec x 0) as [He | Hl | Hg].
  - rewrite He. cbn. discriminate.
  - pose proof (roundPositive_error (- x) ltac:(lra)) as H.
    rewrite (Qabs_neg x) by lra.
    setoid_replace (- roundPositive (- x) - x)%Q
      with (- (roundPositive (- x) - - x))%Q by ring.
    rewrite Qabs_opp. exact H.
  - rewrite (Qabs_pos x) by lra. apply roundPositive_error. exact Hg.
Qed.

Lemma round_mono (x y : Q) : (x <= y)%Q -> (round x <= round y)%Q.
Proof.
  intros Hxy. unfold round.
  destruct (Qcompare_spec x 0) as [Ex | Lx | Gx];
  destruct (Qcompare_spec y 0) as [Ey | Ly | Gy]; try (exfalso; lra).
  - lra.
  - apply Qlt_le_weak, roundPositive_pos. exact Gy.
  - pose proof (roundPositive_pos (- x) ltac:(lra)). lra.
  - pose proof (roundPositive_mono (- y) (- x) ltac:(lra) ltac:(lra)). lra.
  - pose proof (roundPositive_pos (- x) ltac:(lra)).
    pose proof (roundPositive_pos y Gy). lra.
  - apply roundPositive_mono; assumption.
Qed.

End RoundToNearest.

(* ================================================================== *)
(** * Part III: the properties at concrete inputs *)

Lemma inDisc_comp cx cx' cy cy' r r' px py :
  (cx == cx')%Q -> (cy == cy')%Q -> (r == r')%Q ->
  inDisc cx cy r px py = inDisc cx' cy' r' px py.
Proof. intros Hx Hy Hr. unfold inDisc. now rewrite Hx, Hy, Hr. Qed.

Lemma paintDisc_comp c cx cx' cy cy' r r' :
  (cx == cx')%Q -> (cy == cy')%Q -> (r == r')%Q ->
  paintDisc c cx cy r = paintDisc c cx' cy' r'.
Proof.
  intros Hx Hy Hr. unfold paintDisc. f_equal.
  generalize 0%nat. induction (c_data c) as [| v rest IH]; intros k;
    [reflexivity |].
  cbn [paintFrom]. rewrite IH.
  rewrite (inDisc_comp cx cx' cy cy' r r' _ _ Hx Hy Hr). reflexivity.
Qed.

(** The plain disc painter as the 2D context. *)
#[local] Instance discContext : Context2D :=
  {| fillArc := paintDisc; fillArc_comp := paintDisc_comp |}.

(** ** Binary64 rounding *)

#[local] Instance binary64 : Binary64.Rounding :=
  {| Binary64.fl := Binary64.round;
     Binary64.fl_error := round_error;
     Binary64.fl_monotone := round_mono |}.

(** ** Concrete layouts in binary64 arithmetic *)

(** A scene whose image is [iw] x [ih]. *)
Definition sceneWithImage (iw ih : Z) : GameScene.State :=
  GameScene.set_docHeight ih
    (GameScene.set_docWidth iw (sceneAt Prompt 0 (blank 8 8) layoutTen)).

(** The layout [computeLayout] gives an image of [iw] x [ih] in a rect
    of [rectW] x [rectH]. *)
Definition layoutIn (rectW rectH : Q) (iw ih : Z) : DocumentLayout :=
  match GameScene.layout
          (GameScene64.computeLayout rectW rectH (sceneWithImage iw ih)) with
  | Some l => l
  | None => layoutTen
  end.

(** An image of 800 x 600 in a rect of 1280 x 720: drawn 960 x 720 at
    offset (160, 0). *)
Definition layoutScreen : DocumentLayout := layoutIn 1280 720 800 600.

(** An image of 1 x 100 in a rect of 320 x 240. *)
Definition layoutSliver : DocumentLayout := layoutIn 320 240 1 100.

(** C1 on an 8 x 8 raster with one painted grid sample inside the target
    and one unpainted sample in its pixel range, 15 of 30 seconds left:
    19.5 plus a bonus of 4.875, rounded to 24. *)
Lemma C1_witness :
  GameScene.phase (sceneAt Scoring 15 dabbed layoutTen) = Scoring
  /\ (0 <= GameScene.timer (sceneAt Scoring 15 dabbed layoutTen))%Q
  /\ GameScene.countSamples [mkMaskRect (1 # 4) (1 # 4) (1 # 2) (1 # 2)] dabbed
     = mkCounts 1 1 0
  /\ GameScene.calculateScore (sceneAt Scoring 15 dabbed layoutTen)
     = timeBonusScore (mkCounts 1 1 0) 15 30
  /\ GameScene.calculateScore (sceneAt Scoring 15 dabbed layoutTen) = 24.
Proof.
  assert (H1 : GameScene.phase (sceneAt Scoring 15 dabbed layoutTen) = Scoring)
    by reflexivity.
  assert (H2 : (0 <= GameScene.timer (sceneAt Scoring 15 dabbed layoutTen))%Q)
    by (vm_compute; discriminate).
  split; [exact H1 |]. split; [exact H2 |].
  split; [vm_compute; reflexivity |].
  split; [| vm_compute; reflexivity].
  exact (proj1 (proj2 (proj2 (proj2 (proj2
           (C1_time_bonus_score (sceneAt Scoring 15 dabbed layoutTen) H1 H2)))))).
Defined.

(** C2 on a round with 2 seconds left, ticked three times by a second:
    the round ends once, on the second tick, and books a score of 20. *)
Lemma C2_witness :
  let s := sceneAt Redacting 2 dabbed layoutTen in
  GameScene.phase s = Redacting
  /\ runsOut (GameScene.timer s) [1; 1; 1]%Q = true
  /\ GameScene.timer (GameScene.updates [1; 1; 1]%Q s) = 0%Q
  /\ GameScene.phase (GameScene.updates [1; 1; 1]%Q s) = Scoring
  /\ roundEnds Redacting (GameScene.updateTrace [1; 1; 1]%Q s) = 1%nat
  /\ GameScene.totalScore (GameScene.updates [1; 1; 1]%Q s) = 7 + 20.
Proof.
  intros s.
  assert (H1 : GameScene.phase s = Redacting) by reflexivity.
  assert (H2 : runsOut (GameScene.timer s) [1; 1; 1]%Q = true) by reflexivity.
  split; [exact H1 |]. split; [exact H2 |].
  destruct (C2_round_ends_once s [1; 1; 1]%Q H1 H2)
    as [(Ht & Hp & He & _) _].
  split; [exact Ht |]. split; [exact Hp |]. split; [exact He |].
  vm_compute. reflexivity.
Defined.

(** C3 (as amended) on a zero-width rect at x = 0.25 of an 8-pixel-wide
    raster: its left edge is pixel 2 and no sample is taken. *)
Lemma C3_witness :
  ((r_width thinRect == 0)%Q /\ isWhole (r_x thinRect * inject_Z 8))
  /\ rectSamples 8 8 thinRect = []
  /\ missedInRect 8 8 (c_data (blank 8 8)) thinRect (mkCounts 0 0 0)
     = mkCounts 0 0 0.
Proof.
  assert (H : (r_width thinRect == 0)%Q /\ isWhole (r_x thinRect * inject_Z 8))
    by (split; reflexivity).
  split; [exact H |].
  destruct (C3_zero_area_aligned 8 8 (c_data (blank 8 8)) thinRect
              (mkCounts 0 0 0) (or_introl H)) as (Hs & _ & Hm).
  split; [exact Hs | exact Hm].
Defined.

(** C4 under a layout of 80 x 80 at the origin: (40, 20) maps to
    (0.5, 0.25), and (90, 20) maps to no point. *)
Lemma C4_witness :
  (0 < drawWidth layoutTen)%Q /\ (0 < drawHeight layoutTen)%Q
  /\ GameScene.screenToDocument layoutTen (mkPoint 40 20)
     = Some (mkStrokePoint ((40 - 0) / 80) ((20 - 0) / 80))
  /\ GameScene.screenToDocument layoutTen (mkPoint 90 20) = None.
Proof.
  assert (Hw : (0 < drawWidth layoutTen)%Q) by reflexivity.
  assert (Hh : (0 < drawHeight layoutTen)%Q) by reflexivity.
  split; [exact Hw |]. split; [exact Hh |].
  split.
  - apply (proj1 (C4_strokes_stay_in_document layoutTen (mkPoint 40 20) Hw Hh)).
    vm_compute. repeat split; discriminate.
  - apply (proj1 (proj2
             (C4_strokes_stay_in_document layoutTen (mkPoint 90 20) Hw Hh))).
    vm_compute. intros [[_ H] _]. apply H. reflexivity.
Defined.

(** C5 under [layoutScreen]: the screen point (160, 55) is accepted
    and comes back as (160, 55 + 2^-47), which prints as
    55.00000000000001. *)
Lemma C5_witness :
  (0 < drawWidth layoutScreen)%Q /\ (0 < drawHeight layoutScreen)%Q
  /\ (offsetX layoutScreen == 160)%Q /\ (offsetY layoutScreen == 0)%Q
  /\ (drawWidth layoutScreen == 960)%Q /\ (drawHeight layoutScreen == 720)%Q
  /\ exists d,
       GameScene64.screenToDocument layoutScreen (mkPoint 160 55) = Some d
       /\ (pt_y (GameScene64.documentToScreen layoutScreen d)
           == 55 + (1 # 140737488355328))%Q
       /\ (Qabs (pt_x (GameScene64.documentToScreen layoutScreen d) - 160)
           <= roundTripTolerance (offsetX layoutScreen)
                (drawWidth layoutScreen))%Q
       /\ (Qabs (pt_y (GameScene64.documentToScreen layoutScreen d) - 55)
           <= roundTripTolerance (offsetY layoutScreen)
                (drawHeight layoutScreen))%Q.
Proof.
  assert (Hw : (0 < drawWidth layoutScreen)%Q) by (vm_compute; reflexivity).
  assert (Hh : (0 < drawHeight layoutScreen)%Q) by (vm_compute; reflexivity).
  split; [exact Hw |]. split; [exact Hh |].
  split; [vm_compute; reflexivity |]. split; [vm_compute; reflexivity |].
  split; [vm_compute; reflexivity |]. split; [vm_compute; reflexivity |].
  destruct (GameScene64.screenToDocument layoutScreen (mkPoint 160 55))
    as [d |] eqn:Hd; [| vm_compute in Hd; discriminate].
  exists d. split; [reflexivity |].
  destruct (C5_round_trip layoutScreen (mkPoint 160 55) d Hw Hh Hd)
    as [Hx Hy].
  split; [| split; [exact Hx | exact Hy]].
  vm_compute in Hd. injection Hd as <-. vm_compute. reflexivity.
Defined.

(** C6 on a cleared 8 x 8 raster with three rects: 1 + 0 + 4 samples
    are missed, none is correct or a false positive. *)
Lemma C6_witness :
  let rects := [mkMaskRect (1 # 4) (1 # 4) (1 # 2) (1 # 2); thinRect;
                mkMaskRect 0 0 1 1] in
  forallb (unpainted 8 (c_data (blank 8 8))) (gridSamples 8 8) = true
  /\ forallb (fun r => forallb (unpainted 8 (c_data (blank 8 8)))
                         (rectSamples 8 8 r)) rects = true
  /\ GameScene.countSamples rects (blank 8 8) = mkCounts 0 5 0.
Proof.
  intros rects.
  assert (H1 : forallb (unpainted 8 (c_data (blank 8 8))) (gridSamples 8 8)
               = true) by reflexivity.
  assert (H2 : forallb (fun r => forallb (unpainted 8 (c_data (blank 8 8)))
                                   (rectSamples 8 8 r)) rects = true)
    by reflexivity.
  split; [exact H1 |]. split; [exact H2 |].
  exact (proj1 (C6_nothing_painted (mkMask EmptyString EmptyString rects)
                  (blank 8 8) H1 H2)).
Defined.

(** C8 on a 400 x 400 UI layer: a press at (200, 240) lies on the exit
    button only. *)
Lemma C8_witness :
  let s := sceneAt Scoring 0 dabbed layoutTen in
  let p := mkPoint 200 240 in
  GameScene.phase s = Scoring
  /\ GameScene.hits p (GameScene.continueButton s) = false
  /\ GameScene.hits p (GameScene.exitButton s) = true
  /\ GameScene.onPointerDown p s = Some (GameScene.exitGame s)
  /\ GameScene.totalScore (GameScene.exitGame s) = 0
  /\ GameScene.phase (GameScene.exitGame s) = Prompt
  /\ GameScene.coverage (GameScene.exitGame s) = blank 8 8.
Proof.
  intros s p.
  assert (H1 : GameScene.phase s = Scoring) by reflexivity.
  assert (H2 : GameScene.hits p (GameScene.continueButton s) = false)
    by reflexivity.
  assert (H3 : GameScene.hits p (GameScene.exitButton s) = true)
    by reflexivity.
  split; [exact H1 |]. split; [exact H2 |]. split; [exact H3 |].
  destruct (C8_exit_resets_session s p H1 H2 H3)
    as (Hdown & Ht & _ & _ & Hc & _ & Hp & _).
  split; [exact Hdown |]. split; [exact Ht |]. split; [exact Hp |].
  exact Hc.
Defined.

(** C9 with the same stroke seen through two layouts of different scale
    and offsets; the second pointer position falls outside the document
    in both. *)
Lemma C9_witness :
  let s1 := sceneAt Redacting 12 (blank 8 8) layoutTen in
  let s2 := sceneAt Redacting 12 (blank 8 8) layoutTwenty in
  sameRound s1 s2
  /\ Forall2 (fun p1 p2 =>
                sameDocPoint (GameScene.screenToDocument layoutTen p1)
                             (GameScene.screenToDocument layoutTwenty p2))
       [mkPoint 40 20; mkPoint 90 20] [mkPoint 90 45; mkPoint 5 45]
  /\ exists s1' s2',
       paintStroke [mkPoint 40 20; mkPoint 90 20] s1 = Some s1'
       /\ paintStroke [mkPoint 90 45; mkPoint 5 45] s2 = Some s2'
       /\ GameScene.coverage s1' = GameScene.coverage s2'
       /\ GameScene.calculateScore s1' = GameScene.calculateScore s2'
       /\ GameScene.roundScore (GameScene.finishRound s1')
          = GameScene.roundScore (GameScene.finishRound s2').
Proof.
  intros s1 s2.
  assert (H1 : sameRound s1 s2) by (repeat split; reflexivity).
  assert (H2 : Forall2 (fun p1 p2 =>
                sameDocPoint (GameScene.screenToDocument layoutTen p1)
                             (GameScene.screenToDocument layoutTwenty p2))
       [mkPoint 40 20; mkPoint 90 20] [mkPoint 90 45; mkPoint 5 45]).
  { constructor; [split; reflexivity |].
    constructor; [exact I | constructor]. }
  split; [exact H1 |]. split; [exact H2 |].
  exact (proj1 (C9_score_independent_of_layout s1 s2 layoutTen layoutTwenty
                  _ _ H1 eq_refl eq_refl H2)).
Defined.

(** C7 (as amended) over two masks, in [GameScene] and in
    [GameScene4]. *)
Lemma C7_witness :
  let s := GameScene.set_currentMaskIndex 0%nat afterPass in
  GameScene.currentMaskIndex s = 0%nat
  /\ GameScene.masks s <> []
  /\ (exists s1 s2,
        presented 2 s = Some ([maskA; maskB], s1)
        /\ GameScene.loadNextMask s1 = Some s2
        /\ GameScene.currentMaskIndex s2 = 1%nat
        /\ GameScene.masks s2 = [maskA; maskB])
  /\ GameScene4.currentMaskIndex draftStart = 0%nat
  /\ GameScene4.allMasks draftStart <> []
  /\ (exists s',
        presented4 [fun _ => 0%Q; fun _ => 0%Q] draftStart
        = Some ([maskA; maskB], s')
        /\ GameScene4.currentMaskIndex s' = 0%nat
        /\ Permutation (GameScene4.allMasks s') [maskA; maskB]).
Proof.
  intros s.
  assert (H1 : GameScene.currentMaskIndex s = 0%nat) by reflexivity.
  assert (H2 : GameScene.masks s <> []) by discriminate.
  assert (H3 : GameScene4.currentMaskIndex draftStart = 0%nat) by reflexivity.
  assert (H4 : GameScene4.allMasks draftStart <> []) by discriminate.
  split; [exact H1 |]. split; [exact H2 |].
  destruct C7_mask_sequencing as (Hscene & Hdraft & _).
  split.
  - destruct (Hscene s H1 H2) as (s1 & s2 & Ha & _ & _ & Hb & Hc & _ & Hd).
    exists s1, s2. repeat split; assumption.
  - split; [exact H3 |]. split; [exact H4 |].
    destruct (Hdraft draftStart [fun _ => 0%Q; fun _ => 0%Q] H3 H4 eq_refl)
      as (s' & Ha & Hb & _ & Hc).
    exists s'. repeat split; assumption.
Defined.

(** C10 on a session with 7 points booked: a tick and a press on the
    done button book a round of 24. *)
Lemma C10_witness :
  let s := sceneAt Redacting 15 dabbed layoutTen in
  let es := [GameScene.Update 1; GameScene.PointerDown (mkPoint 320 30)] in
  exists s',
    GameScene.run es s = Some s'
    /\ GameScene.totalScore s = sumZ [7]
    /\ GameScene.totalScore s' = sumZ (ledger es s [7])
    /\ ledger es s [7] = [7; 24]
    /\ GameScene.totalScore s <= GameScene.totalScore s'.
Proof.
  intros s es.
  destruct (GameScene.run es s) as [s' |] eqn:Hrun; [| discriminate Hrun].
  exists s'.
  assert (H1 : GameScene.totalScore s = sumZ [7]) by reflexivity.
  assert (H2 : Forall (fun v => 0 <= v) [7]) by (repeat constructor; lia).
  destruct C10_total_is_sum_of_rounds as (_ & _ & _ & Hsum).
  destruct (Hsum es s s' [7] Hrun H1 H2) as (Htot & _).
  split; [reflexivity |]. split; [exact H1 |]. split; [exact Htot |].
  split; [vm_compute; reflexivity |].
  rewrite Htot. vm_compute. discriminate.
Defined.

(** X1 for an image of 11 x 11 in a rect of 800 x 800: the image is
    drawn wider than the rect, with a negative margin. *)
Lemma computeLayout_fits_and_centres_witness :
  0 < GameScene.docWidth (sceneWithImage 11 11)
  /\ 0 < GameScene.docHeight (sceneWithImage 11 11)
  /\ exists l,
       GameScene.layout
         (GameScene64.computeLayout 800 800 (sceneWithImage 11 11)) = Some l
       /\ (800 < drawWidth l)%Q
       /\ (drawWidth l <= 800 * (1 + 3 * Binary64.unitRoundoff))%Q
       /\ (offsetX l < 0)%Q
       /\ (- (2 * Binary64.unitRoundoff) * 800 <= offsetX l)%Q.
Proof.
  assert (HW : 0 < GameScene.docWidth (sceneWithImage 11 11)) by reflexivity.
  assert (HH : 0 < GameScene.docHeight (sceneWithImage 11 11)) by reflexivity.
  split; [exact HW |]. split; [exact HH |].
  destruct (computeLayout_fits_and_centres 800 800 (sceneWithImage 11 11)
              HW HH eq_refl eq_refl)
    as (l & Hl & _ & _ & _ & _ & Hw & _ & _ & _ & Hm & _).
  exists l. split; [exact Hl |].
  assert (Hl' : layoutIn 800 800 11 11 = l)
    by (unfold layoutIn; rewrite Hl; reflexivity).
  split; [rewrite <- Hl'; vm_compute; reflexivity |].
  split; [exact Hw |].
  split; [rewrite <- Hl'; vm_compute; reflexivity | exact Hm].
Defined.

(** X2 under [layoutScreen]: the point (160, 55) is on the image. *)
Lemma screenToDocument_accepts_drawn_image_witness :
  (0 < drawWidth layoutScreen)%Q /\ (0 < drawHeight layoutScreen)%Q
  /\ GameScene64.screenToDocument layoutScreen (mkPoint 160 55) <> None.
Proof.
  assert (Hw : (0 < drawWidth layoutScreen)%Q) by (vm_compute; reflexivity).
  assert (Hh : (0 < drawHeight layoutScreen)%Q) by (vm_compute; reflexivity).
  split; [exact Hw |]. split; [exact Hh |].
  apply (proj2 (screenToDocument_accepts_drawn_image layoutScreen
                  (mkPoint 160 55) Hw Hh)).
  vm_compute. repeat split; discriminate.
Defined.

(** X3 under [layoutScreen]: the middle of the document comes back
    within the bound. *)
Lemma documentToScreen_round_trip_witness :
  (0 < drawWidth layoutScreen)%Q /\ (0 < drawHeight layoutScreen)%Q
  /\ exists d',
       GameScene64.screenToDocument layoutScreen
         (GameScene64.documentToScreen layoutScreen
            (mkStrokePoint (1 # 2) (1 # 4))) = Some d'
       /\ (Qabs (sp_x d' - (1 # 2))
           <= Binary64.unitRoundoff
              * (5 * Qabs (1 # 2)
                 + 2 * (Qabs (offsetX layoutScreen)
                        / drawWidth layoutScreen)))%Q.
Proof.
  assert (Hw : (0 < drawWidth layoutScreen)%Q) by (vm_compute; reflexivity).
  assert (Hh : (0 < drawHeight layoutScreen)%Q) by (vm_compute; reflexivity).
  split; [exact Hw |]. split; [exact Hh |].
  destruct (GameScene64.screenToDocument layoutScreen
              (GameScene64.documentToScreen layoutScreen
                 (mkStrokePoint (1 # 2) (1 # 4)))) as [d' |] eqn:Hd;
    [| vm_compute in Hd; discriminate].
  exists d'. split; [reflexivity |].
  exact (proj1 (documentToScreen_round_trip layoutScreen
                  (mkStrokePoint (1 # 2) (1 # 4)) d' Hw Hh Hd)).
Defined.

(** The far corner of the document under [layoutSliver], drawn 2.4 wide
    at offset 158.8: it maps to the screen point (161.20000000000002,
    240), which [screenToDocument] rejects. *)
Lemma far_corner_comes_back_null :
  (0 < drawWidth layoutSliver)%Q /\ (0 < drawHeight layoutSliver)%Q
  /\ GameScene64.screenToDocument layoutSliver
       (GameScene64.documentToScreen layoutSliver (mkStrokePoint 1 1))
     = None.
Proof.
  split; [vm_compute; reflexivity |]. split; vm_compute; reflexivity.
Qed.

(** X6 on the dabbed raster with 15 of 30 seconds left: one correct
    sample, a score of 24, at most 30. *)
Lemma score_at_most_thirty_per_correct_sample_witness :
  (GameScene.timer (sceneAt Scoring 15 dabbed layoutTen)
   <= GameScene.timeLimit)%Q
  /\ 0 <= GameScene.calculateScore (sceneAt Scoring 15 dabbed layoutTen)
          <= 30 * 1.
Proof.
  assert (Ht : (GameScene.timer (sceneAt Scoring 15 dabbed layoutTen)
                <= GameScene.timeLimit)%Q) by (vm_compute; discriminate).
  split; [exact Ht |].
  exact (proj1 (score_at_most_thirty_per_correct_sample
                  (sceneAt Scoring 15 dabbed layoutTen) Ht)).
Defined.

(** X7 for a scene over two masks whose image loads and is drawn, READY
    is pressed, and two seconds pass. *)
Lemma timer_stays_within_limit_witness :
  let es := [GameScene.ImageLoaded 8 8 80 80; GameScene.Render 400 400;
             GameScene.PointerDown (mkPoint 200 140);
             GameScene.Update 2] in
  Forall forwardTick es
  /\ match GameScene.construct twoMasks with
     | Some s0 =>
         match GameScene.run es s0 with
         | Some s => (0 <= GameScene.timer s <= GameScene.timeLimit)%Q
         | None => False
         end
     | None => False
     end.
Proof.
  intros es.
  assert (Hfw : Forall forwardTick es).
  { repeat constructor. cbn. discriminate. }
  split; [exact Hfw |].
  destruct (GameScene.construct twoMasks) as [s0 |] eqn:Hc.
  - destruct (GameScene.run es s0) as [s |] eqn:Hrun.
    + exact (proj1 (timer_stays_within_limit twoMasks es s0 s Hc Hfw Hrun)).
    + destruct (run_succeeds es s0 (reach_construct twoMasks s0 Hc))
        as (s & Hs & _).
      rewrite Hs in Hrun. discriminate Hrun.
  - destruct (construct_succeeds twoMasks) as [s0 Hs]; [discriminate |].
    rewrite Hs in Hc. discriminate Hc.
Defined.

(** X8 for the same scene played to the end of the round (31 seconds
    pass) and continued. *)
Lemma mask_order_is_fixed_witness :
  let es := [GameScene.ImageLoaded 8 8 80 80; GameScene.Render 400 400;
             GameScene.PointerDown (mkPoint 200 140);
             GameScene.Update 31; GameScene.Render 400 400;
             GameScene.PointerDown (mkPoint 200 190)] in
  match GameScene.construct twoMasks with
  | Some s0 =>
      match GameScene.run es s0 with
      | Some s =>
          GameScene.masks s = twoMasks /\ In (GameScene.mask s) twoMasks
      | None => False
      end
  | None => False
  end.
Proof.
  intros es.
  destruct (GameScene.construct twoMasks) as [s0 |] eqn:Hc.
  - destruct (GameScene.run es s0) as [s |] eqn:Hrun.
    + destruct (mask_order_is_fixed twoMasks es s0 s Hc Hrun)
        as (Hm & _ & Hin & _).
      split; [exact Hm | exact Hin].
    + destruct (run_succeeds es s0 (reach_construct twoMasks s0 Hc))
        as (s & Hs & _).
      rewrite Hs in Hrun. discriminate Hrun.
  - destruct (construct_succeeds twoMasks) as [s0 Hs]; [discriminate |].
    rewrite Hs in Hc. discriminate Hc.
Defined.

(** X10 after a pass over the two masks: the session restarts at
    [maskA]. *)
Lemma resetGame_restarts_at_first_mask_witness :
  nth_error (GameScene.masks afterPass) 0 = Some maskA
  /\ exists s',
       GameScene.resetGame afterPass = Some s'
       /\ GameScene.mask s' = maskA
       /\ GameScene.currentMaskIndex s' = 1%nat
       /\ GameScene.totalScore s' = 0.
Proof.
  assert (Hm : nth_error (GameScene.masks afterPass) 0 = Some maskA)
    by reflexivity.
  split; [exact Hm |].
  destruct (resetGame_restarts_at_first_mask afterPass maskA Hm)
    as (s' & Hr & Hmask & _ & Hidx & _ & Ht & _).
  exists s'. auto.
Defined.

(** X11 on a UI layer of 400 x 400, where EXIT's top edge is at 208 and
    CONTINUE's bottom edge at 220: the press at (200, 214) loads the next
    mask; on a layer of 600 x 600 the press at (300, 300) is on CONTINUE
    and not on EXIT. *)
Lemma continue_wins_where_buttons_overlap_witness :
  GameScene.phase scoringDirty = Scoring
  /\ GameScene.imageLoaded scoringDirty = true
  /\ GameScene.needsRedraw scoringDirty = true
  /\ GameScene64.onPointerDown (mkPoint 200 214)
       (GameScene64.render 400 400 scoringDirty)
     = GameScene.loadNextMask (GameScene64.render 400 400 scoringDirty)
  /\ GameScene64.hits (mkPoint 300 300)
       (GameScene.exitButton (GameScene64.render 600 600 scoringDirty))
     = false.
Proof.
  assert (H1 : GameScene.phase scoringDirty = Scoring) by reflexivity.
  assert (H2 : GameScene.imageLoaded scoringDirty = true) by reflexivity.
  assert (H3 : GameScene.needsRedraw scoringDirty = true) by reflexivity.
  split; [exact H1 |]. split; [exact H2 |]. split; [exact H3 |].
  split.
  - apply (proj1 (continue_wins_where_buttons_overlap 400 400 scoringDirty
                    H1 H2 H3 ltac:(discriminate) ltac:(discriminate)
                    ltac:(discriminate) ltac:(discriminate))).
    vm_compute. repeat split; discriminate.
  - apply (proj2 (proj2 (continue_wins_where_buttons_overlap 600 600
                           scoringDirty H1 H2 H3 ltac:(discriminate)
                           ltac:(discriminate) ltac:(discriminate)
                           ltac:(discriminate)))).
    + vm_compute. discriminate.
    + vm_compute. reflexivity.
Defined.

(** X12 in the Prompt phase: the press on READY clears the raster. *)
Lemma paint_only_while_redacting_witness :
  let s := sceneAt Prompt 0 dabbed layoutTen in
  GameScene.handle (GameScene.PointerDown (mkPoint 200 140)) s
  = Some (GameScene.startRedaction s)
  /\ GameScene.phase s <> Redacting
  /\ (GameScene.coverage (GameScene.startRedaction s) = GameScene.coverage s
      \/ Forall (fun v => v = 0)
           (c_data (GameScene.coverage (GameScene.startRedaction s)))).
Proof.
  intros s.
  assert (H1 : GameScene.handle (GameScene.PointerDown (mkPoint 200 140)) s
               = Some (GameScene.startRedaction s)) by reflexivity.
  assert (H2 : GameScene.phase s <> Redacting) by discriminate.
  split; [exact H1 |]. split; [exact H2 |].
  exact (paint_only_while_redacting _ s _ H1 H2).
Defined.

(** X13 for the scene built over two masks: a pointer move and a press
    before the image has loaded are handled. *)
Lemma no_event_sequence_raises_witness :
  match GameScene.construct twoMasks with
  | Some s0 =>
      exists s,
        GameScene.run [GameScene.PointerMove (mkPoint 10 10);
                       GameScene.PointerDown (mkPoint 10 10)] s0 = Some s
  | None => False
  end.
Proof.
  destruct (GameScene.construct twoMasks) as [s0 |] eqn:Hc.
  - exact (no_event_sequence_raises twoMasks s0 _ Hc).
  - destruct (construct_succeeds twoMasks) as [s0 Hs]; [discriminate |].
    rewrite Hs in Hc. discriminate Hc.
Defined.

(** X15 on the dabbed raster over [maskA]: both drafts count one correct
    and one missed sample and score 0. *)
Lemma drafts_score_alike_witness :
  rasterOk (GameScene4.coverage draftDabbed)
  /\ GameScene2.score
       (GameScene2.scoreRedaction (GameScene4.coverage draftDabbed)
          (GameScene4.mask draftDabbed))
     = GameScene4.calculateScore draftDabbed
  /\ GameScene4.calculateScore draftDabbed = 0.
Proof.
  assert (Hok : rasterOk (GameScene4.coverage draftDabbed))
    by (apply rasterOkb_ok; vm_compute; reflexivity).
  split; [exact Hok |].
  split; [exact (proj1 (drafts_score_alike draftDabbed Hok)) |].
  vm_compute. reflexivity.
Defined.

(** X16 at the start of a pass over two masks: CONTINUE would show
    [maskA]; after an exit the round replays the mask on screen and the
    next prompt shows [maskB]. *)
Lemma draft_replays_mask_after_exit_witness :
  nth_error (GameScene4.allMasks draftStart)
    (GameScene4.currentMaskIndex draftStart) = Some maskA
  /\ nth_error (GameScene4.allMasks draftStart)
       (S (GameScene4.currentMaskIndex draftStart)) = Some maskB
  /\ exists s',
       GameScene4.startPrompt
         (GameScene4.finishRound (fun _ => 0%Q)
            (GameScene4.startRedaction (GameScene4.exitToMenu draftStart)))
       = Some s'
       /\ GameScene4.mask s' = maskB.
Proof.
  assert (H0 : nth_error (GameScene4.allMasks draftStart)
                 (GameScene4.currentMaskIndex draftStart) = Some maskA)
    by reflexivity.
  assert (H1 : nth_error (GameScene4.allMasks draftStart)
                 (S (GameScene4.currentMaskIndex draftStart)) = Some maskB)
    by reflexivity.
  split; [exact H0 |]. split; [exact H1 |].
  destruct (draft_replays_mask_after_exit (fun _ => 0%Q) draftStart
              maskA maskB H0 H1) as (_ & _ & _ & s' & Hs & Hm & _).
  exists s'. split; [exact Hs | exact Hm].
Defined.

(** X17 with two seconds left and a tick of three: the countdown stops
    and later ticks change nothing. *)
Lemma draft_countdown_scores_once_witness :
  GameScene2Lifecycle.isCountingDown draft2Running = true
  /\ (GameScene2Lifecycle.timer draft2Running <= 3)%Q
  /\ GameScene2Lifecycle.timer (GameScene2Lifecycle.update 3 draft2Running)
     = 0%Q
  /\ fold_left (fun s dt => GameScene2Lifecycle.update dt s) [1; 1]%Q
       (GameScene2Lifecycle.update 3 draft2Running)
     = GameScene2Lifecycle.update 3 draft2Running.
Proof.
  assert (H1 : GameScene2Lifecycle.isCountingDown draft2Running = true)
    by reflexivity.
  assert (H2 : (GameScene2Lifecycle.timer draft2Running <= 3)%Q)
    by (vm_compute; discriminate).
  split; [exact H1 |]. split; [exact H2 |].
  destruct (draft_countdown_scores_once 3 [1; 1]%Q draft2Running H1 H2)
    as (Ht & _ & _ & _ & Hfix).
  split; [exact Ht | exact Hfix].
Defined.

(** X18 on the same scene: after the time is up a press at (40, 40)
    paints the middle of the document and a press on Done scores it. *)
Lemma draft_paints_and_rescores_after_time_up_witness :
  GameScene2Lifecycle.isCountingDown draft2Running = true
  /\ (GameScene2Lifecycle.timer draft2Running <= 3)%Q
  /\ GameScene2Lifecycle.layout draft2Running = Some layoutTen
  /\ GameScene2Lifecycle.screenToDocument layoutTen (mkPoint 40 40)
     = Some (mkStrokePoint ((40 - 0) / 80) ((40 - 0) / 80))
  /\ GameScene2Lifecycle.pointInRect (mkPoint 150 60)
       GameScene2Lifecycle.doneButton = true
  /\ exists s1 s2,
       GameScene2Lifecycle.onPointerDown (mkPoint 40 40)
         (GameScene2Lifecycle.update 3 draft2Running) = Some s1
       /\ GameScene2Lifecycle.onPointerDown (mkPoint 150 60) s1 = Some s2
       /\ GameScene2Lifecycle.strokes s1
          = [mkStrokePoint ((40 - 0) / 80) ((40 - 0) / 80)].
Proof.
  assert (H1 : GameScene2Lifecycle.isCountingDown draft2Running = true)
    by reflexivity.
  assert (H2 : (GameScene2Lifecycle.timer draft2Running <= 3)%Q)
    by (vm_compute; discriminate).
  assert (H3 : GameScene2Lifecycle.layout draft2Running = Some layoutTen)
    by reflexivity.
  assert (H4 : GameScene2Lifecycle.screenToDocument layoutTen (mkPoint 40 40)
               = Some (mkStrokePoint ((40 - 0) / 80) ((40 - 0) / 80)))
    by reflexivity.
  assert (H5 : GameScene2Lifecycle.pointInRect (mkPoint 150 60)
                 GameScene2Lifecycle.doneButton = true) by reflexivity.
  split; [exact H1 |]. split; [exact H2 |]. split; [exact H3 |].
  split; [exact H4 |]. split; [exact H5 |].
  destruct (draft_paints_and_rescores_after_time_up 3 (mkPoint 40 40)
              (mkPoint 150 60) layoutTen _ draft2Running H1 H2 H3
              eq_refl eq_refl H4 eq_refl H5)
    as (_ & s1 & s2 & Hs1 & Hs2 & _ & Hstrokes & _).
  exists s1, s2. split; [exact Hs1 |]. split; [exact Hs2 |].
  rewrite Hstrokes. reflexivity.
Defined.

(** X19 for the scene just built over [maskA], rendered and resized
    before its image arrives: a press at (300, 300) raises. *)
Lemma draft_press_before_load_raises_witness :
  let es := [GameScene2Lifecycle.Render; GameScene2Lifecycle.Resize 80 80;
             GameScene2Lifecycle.PointerUp] in
  forallb (fun e => negb (GameScene2Lifecycle.isImageLoaded e)) es = true
  /\ match GameScene2Lifecycle.run es (GameScene2Lifecycle.construct maskA)
     with
     | Some s =>
         GameScene2Lifecycle.onPointerDown (mkPoint 300 300) s = None
     | None => False
     end.
Proof.
  intros es.
  assert (Hes : forallb
                  (fun e => negb (GameScene2Lifecycle.isImageLoaded e)) es
                = true) by reflexivity.
  split; [exact Hes |].
  destruct (GameScene2Lifecycle.run es (GameScene2Lifecycle.construct maskA))
    as [s |] eqn:Hrun.
  - exact (proj2 (draft_press_before_load_raises maskA es s (mkPoint 300 300)
                    Hes Hrun eq_refl eq_refl)).
  - cbn [GameScene2Lifecycle.run GameScene2Lifecycle.handle] in Hrun.
    discriminate Hrun.
Defined.

(** X20 for the rect of [maskA] and one stroke in its middle, with
    [Math.random] stuck at 0.5: every sample hits and the score is
    100. *)
Lemma sampled_score_in_range_witness :
  targetRects maskA <> []
  /\ Scoring.calculateScore (fun _ => 1 # 2) (targetRects maskA)
       [middleStroke] = Scoring.Finite 100
  /\ exists n,
       Scoring.calculateScore (fun _ => 1 # 2) (targetRects maskA)
         [middleStroke] = Scoring.Finite n
       /\ 0 <= n <= 100.
Proof.
  assert (Hne : targetRects maskA <> []) by discriminate.
  split; [exact Hne |].
  split; [vm_compute; reflexivity |].
  exact (sampled_score_in_range (fun _ => 1 # 2) (targetRects maskA)
           [middleStroke] Hne).
Defined.

(** X22 on the editor with an 8 x 8 image drawn 80 x 80: a drag from
    (60, 70) up and left to (20, 10) records one rect, and it is
    proper. *)
Lemma editor_records_proper_rects_witness :
  let es := [TargetRectEditor.PointerDown (mkPoint 60 70);
             TargetRectEditor.PointerMove (mkPoint 20 10);
             TargetRectEditor.PointerUp] in
  (0 < drawWidth (TargetRectEditor.layout editorLoaded))%Q
  /\ (0 < drawHeight (TargetRectEditor.layout editorLoaded))%Q
  /\ TargetRectEditor.currentRect editorLoaded = None
  /\ List.length
       (TargetRectEditor.rects (TargetRectEditor.run es editorLoaded))
     = 1%nat
  /\ Forall properRect
       (TargetRectEditor.rects (TargetRectEditor.run es editorLoaded)).
Proof.
  intros es.
  assert (Hw : (0 < drawWidth (TargetRectEditor.layout editorLoaded))%Q)
    by (vm_compute; reflexivity).
  assert (Hh : (0 < drawHeight (TargetRectEditor.layout editorLoaded))%Q)
    by (vm_compute; reflexivity).
  assert (Hc : TargetRectEditor.currentRect editorLoaded = None)
    by reflexivity.
  split; [exact Hw |]. split; [exact Hh |]. split; [exact Hc |].
  split; [vm_compute; reflexivity |].
  exact (editor_records_proper_rects es editorLoaded Hw Hh
           (Forall_nil _) Hc).
Defined.

(** X23 for an image of 8 x 8 drawn 80 x 80: a drag from (60, 70) to
    (20, 10). *)
Lemma editor_drag_spans_press_and_pointer_witness :
  (0 < drawWidth (TargetRectEditor.layout editorLoaded))%Q
  /\ (0 < drawHeight (TargetRectEditor.layout editorLoaded))%Q
  /\ TargetRectEditor.imageLoaded editorLoaded = true
  /\ TargetRectEditor64.pointInRect (mkPoint 60 70)
       TargetRectEditor.saveButton = false
  /\ exists r,
       TargetRectEditor.currentRect
         (TargetRectEditor64.onPointerMove (mkPoint 20 10)
            (TargetRectEditor64.onPointerDown (mkPoint 60 70) editorLoaded))
       = Some r
       /\ (Qabs (r_x (TargetRectEditor64.normalizedToScreen
                        (TargetRectEditor.layout editorLoaded) r)
                 - Qmin 60 20)
           <= Binary64.unitRoundoff
              * (Qabs (Qmin 60 20)
                 + 4 * Qabs (Qmin 60 20
                             - offsetX (TargetRectEditor.layout
                                          editorLoaded))))%Q
       /\ (Qabs (r_width (TargetRectEditor64.normalizedToScreen
                            (TargetRectEditor.layout editorLoaded) r)
                 - Qabs (20 - 60))
           <= 7 * Binary64.unitRoundoff
              * (Qabs (60 - offsetX (TargetRectEditor.layout editorLoaded))
                 + Qabs (20 - offsetX (TargetRectEditor.layout
                                         editorLoaded))))%Q.
Proof.
  assert (Hw : (0 < drawWidth (TargetRectEditor.layout editorLoaded))%Q)
    by (vm_compute; reflexivity).
  assert (Hh : (0 < drawHeight (TargetRectEditor.layout editorLoaded))%Q)
    by (vm_compute; reflexivity).
  assert (Hl : TargetRectEditor.imageLoaded editorLoaded = true)
    by reflexivity.
  assert (Hb : TargetRectEditor64.pointInRect (mkPoint 60 70)
                 TargetRectEditor.saveButton = false)
    by (vm_compute; reflexivity).
  split; [exact Hw |]. split; [exact Hh |]. split; [exact Hl |].
  split; [exact Hb |].
  destruct (editor_drag_spans_press_and_pointer (mkPoint 60 70)
              (mkPoint 20 10) editorLoaded Hw Hh Hl Hb)
    as (r & Hr & _ & Hx & _ & Hwd & _).
  exists r. split; [exact Hr |]. split; [exact Hx | exact Hwd].
Defined.

(** X24 for the same events on the editor as first built: no rect. *)
Lemma editor_records_nothing_without_drag_witness :
  let es := [TargetRectEditor.PointerDown (mkPoint 60 70);
             TargetRectEditor.PointerMove (mkPoint 20 10);
             TargetRectEditor.PointerUp] in
  TargetRectEditor.imageLoaded TargetRectEditor.initial = false
  /\ TargetRectEditor.isDrawing TargetRectEditor.initial = false
  /\ TargetRectEditor.currentRect TargetRectEditor.initial = None
  /\ TargetRectEditor.rects
       (TargetRectEditor.run es TargetRectEditor.initial) = [].
Proof.
  intros es.
  split; [reflexivity |]. split; [reflexivity |]. split; [reflexivity |].
  exact (editor_records_nothing_without_drag es TargetRectEditor.initial
           eq_refl eq_refl eq_refl).
Defined.

(** X25 at (60, 70): press and release record nothing; press, a move
    to the same point and release record a rect of no width and no
    height. *)
Lemma editor_click_and_return_record_witness :
  (0 < drawWidth (TargetRectEditor.layout editorLoaded))%Q
  /\ (0 < drawHeight (TargetRectEditor.layout editorLoaded))%Q
  /\ TargetRectEditor.imageLoaded editorLoaded = true
  /\ TargetRectEditor.pointInRect (mkPoint 60 70) TargetRectEditor.saveButton
     = false
  /\ TargetRectEditor.currentRect editorLoaded = None
  /\ TargetRectEditor.rects
       (TargetRectEditor.onPointerUp
          (TargetRectEditor.onPointerDown (mkPoint 60 70) editorLoaded))
     = []
  /\ exists r,
       TargetRectEditor.rects
         (TargetRectEditor.onPointerUp
            (TargetRectEditor.onPointerMove (mkPoint 60 70)
               (TargetRectEditor.onPointerDown (mkPoint 60 70)
                  editorLoaded)))
       = [r]
       /\ (r_width r == 0)%Q /\ (r_height r == 0)%Q.
Proof.
  assert (Hw : (0 < drawWidth (TargetRectEditor.layout editorLoaded))%Q)
    by (vm_compute; reflexivity).
  assert (Hh : (0 < drawHeight (TargetRectEditor.layout editorLoaded))%Q)
    by (vm_compute; reflexivity).
  assert (Hl : TargetRectEditor.imageLoaded editorLoaded = true)
    by reflexivity.
  assert (Hb : TargetRectEditor.pointInRect (mkPoint 60 70)
                 TargetRectEditor.saveButton = false) by reflexivity.
  assert (Hc : TargetRectEditor.currentRect editorLoaded = None)
    by reflexivity.
  split; [exact Hw |]. split; [exact Hh |]. split; [exact Hl |].
  split; [exact Hb |]. split; [exact Hc |].
  destruct (editor_click_and_return_record (mkPoint 60 70) editorLoaded
              Hw Hh Hl Hb Hc) as (Hnone & r & Hr & Hrw & Hrh).
  split; [exact Hnone |].
  exists r. split; [exact Hr |]. split; [exact Hrw | exact Hrh].
Defined.

(** X27 from the menu, after a pass over the two masks. *)
Lemma menu_start_opens_game_scene_witness :
  Main.current worldMenu <> Some Main.GameSceneRef
  /\ GameScene.masks (Main.gameScene worldMenu) <> []
  /\ exists g,
       Main.onStart 1 worldMenu
       = Some (Some (Main.mkWorld (Some Main.GameSceneRef) 0 400 400 g))
       /\ GameScene.totalScore g = 0
       /\ GameScene.phase g = Prompt.
Proof.
  assert (Hc : Main.current worldMenu <> Some Main.GameSceneRef)
    by discriminate.
  assert (Hm : GameScene.masks (Main.gameScene worldMenu) <> [])
    by discriminate.
  split; [exact Hc |]. split; [exact Hm |].
  destruct (menu_start_opens_game_scene 0 worldMenu Hc Hm)
    as (g & _ & Hstart & Ht & _ & Hp).
  exists g. split; [exact Hstart |]. split; [exact Ht | exact Hp].
Defined.

(** X28 for a round with 30 seconds on the clock: after frames at 1 s
    and 2.5 s the timer is within the drift of 27.5, and a frame at
    30.001 s ends the round. *)
Lemma countdown_follows_the_clock_witness :
  Main.current worldPlaying = Some Main.GameSceneRef
  /\ GameScene.phase (Main.gameScene worldPlaying) = Redacting
  /\ (0 < GameScene.timer (Main.gameScene worldPlaying))%Q
  /\ ascending (Main.lastTime worldPlaying) [1000; 2500]%Q
  /\ (Qabs (GameScene.timer
              (Main.gameScene (Main64.frames [1000; 2500]%Q worldPlaying))
            - (30 - (2500 - 0) / 1000))
      <= clockDrift 30 2)%Q
  /\ GameScene.phase
       (Main.gameScene
          (Main64.loop 30001 (Main64.frames [1000; 2500]%Q worldPlaying)))
     = Scoring.
Proof.
  assert (Hc : Main.current worldPlaying = Some Main.GameSceneRef)
    by reflexivity.
  assert (Hp : GameScene.phase (Main.gameScene worldPlaying) = Redacting)
    by reflexivity.
  assert (HT : (0 < GameScene.timer (Main.gameScene worldPlaying))%Q)
    by reflexivity.
  assert (Hasc : ascending (Main.lastTime worldPlaying) [1000; 2500]%Q)
    by (cbn; repeat split; discriminate).
  split; [exact Hc |]. split; [exact Hp |]. split; [exact HT |].
  split; [exact Hasc |].
  destruct (countdown_follows_the_clock [1000; 2500]%Q worldPlaying
              Hc Hp HT Hasc ltac:(vm_compute; reflexivity))
    as (_ & Hl & Ht & Hlate).
  split; [exact Ht |].
  apply Hlate.
  - rewrite Hl. vm_compute. discriminate.
  - rewrite Hl. vm_compute. discriminate.
Defined.

(** A frame at the very end of the time need not end the round: after
    frames at 0.577 s and 30 s the timer is at [2^-48] and the scene
    still Redacting. *)
Lemma frame_at_the_limit_keeps_redacting :
  GameScene.phase
    (Main.gameScene (Main64.frames [577; 30000]%Q worldPlaying)) = Redacting
  /\ (GameScene.timer
        (Main.gameScene (Main64.frames [577; 30000]%Q worldPlaying))
      == 1 # 281474976710656)%Q.
Proof. split; vm_compute; reflexivity. Qed.
